(** * Structured IoU of two time-annotated constituency trees

    A shallow embedding of [structiou/utils.py], [structiou/data.py] and
    [structiou/metrics.py], and the properties of the tree aligner.

    Conventions of the embedding.
    - Python [float]s (and the entries of the numpy arrays) are read as
      exact rationals [Q]; [==] is equality of rationals.
    - A Python exception is a value [Raise e] of the [result] type; code
      that can raise lives in the [result] monad.
    - A child of an NLTK tree is either a [str] (a terminal) or a tree:
      children are [string + tree].
    - A [dict] is a [gmap], a [set] a [gset], a numpy 2-d array a list of
      rows with the bounds checks of numpy written out. *)

From Stdlib Require Import QArith Qabs Lqa.
From Stdlib Require DecimalString DecimalNat.
From stdpp Require Import gmap strings list sorting.

Set Warnings "-register-all".

Open Scope Q_scope.
Open Scope Z_scope.
Open Scope nat_scope.

(** ** Exceptions *)

Inductive exn : Set :=
| IndexError
| KeyError
| AssertionError
| AttributeError
| ZeroDivisionError
| RecursionError.

Inductive result (A : Type) : Type :=
| Ok (a : A)
| Raise (e : exn).
Arguments Ok {A} a.
Arguments Raise {A} e.

#[global] Instance result_ret : MRet result := fun A a => Ok a.
#[global] Instance result_bind : MBind result := fun A B f r =>
  match r with
  | Ok a => f a
  | Raise e => Raise e
  end.

Definition is_Ok {A} (r : result A) : Prop := ∃ a, r = Ok a.

(** [for x in l: s = body(s, x)], stopping at the first exception. *)
Fixpoint for_each {S A} (l : list A) (body : S → A → result S) (s : S) : result S :=
  match l with
  | [] => Ok s
  | x :: l' => s' ← body s x; for_each l' body s'
  end.

(** ** Python sequences *)

(** [l[i]] for a Python list or tuple: a negative index counts from the end. *)
Definition py_getitem {A} (l : list A) (i : Z) : result A :=
  let j := if (0 <=? i)%Z then i else (Z.of_nat (length l) + i)%Z in
  if (0 <=? j)%Z then
    match l !! Z.to_nat j with
    | Some x => Ok x
    | None => Raise IndexError
    end
  else Raise IndexError.

(** [range(n)] *)
Definition range (n : Z) : list Z := seqZ 0 n.

(** ** utils.py *)

Module utils.

Definition default_eps : Q := 1 # 1000000.

Definition Qlt_bool (x y : Q) : bool := negb (Qle_bool y x).

(** [eps_eq]: [abs(x - y) < eps]. *)
Definition eps_eq (x y : Q) (eps : Q) : bool :=
  Qlt_bool (Qabs (x - y)) eps.

Definition py_max (x y : Q) : Q := if Qlt_bool x y then y else x.
Definition py_min (x y : Q) : Q := if Qlt_bool y x then y else x.

Definition span_intersection (span1 span2 : Q * Q) : Q * Q :=
  (py_max span1.1 span2.1, py_min span1.2 span2.2).

Definition span_union (span1 span2 : Q * Q) : Q * Q :=
  (py_min span1.1 span2.1, py_max span1.2 span2.2).

(** [x / y] on Python floats. *)
Definition py_div (x y : Q) : result Q :=
  if Qeq_bool y 0 then Raise ZeroDivisionError else Ok (x / y)%Q.

Definition span_iou (span1 span2 : Q * Q) (eps : Q) : result Q :=
  let intersection_span := span_intersection span1 span2 in
  let intersection := (intersection_span.2 - intersection_span.1)%Q in
  let union_span := span_union span1 span2 in
  let union := (union_span.2 - union_span.1)%Q in
  if Qlt_bool intersection eps || Qlt_bool union eps then Ok 0%Q
  else py_div intersection union.

End utils.

(** ** data.py *)

(** [nltk.Tree] / [NLTKTree]: a label and a list of children, each a
    terminal string or a tree. *)
Inductive NLTKTree : Type :=
| NTree (label : string) (children : list (string + NLTKTree)).

(** [ExtendedTree]: the fields [_index], [_time_range], [_leaf_range] and
    the label and children of the underlying tree.  The field
    [_index2node] is determined by these and is computed by
    [index2node_map] below. *)
Inductive ExtendedTree : Type :=
| ETree (index : nat) (time_range : Q * Q) (leaf_range : Z * Z)
        (label : string) (children : list (string + ExtendedTree)).

Module NLTK.

Definition label (t : NLTKTree) : string := let 'NTree l _ := t in l.
Definition children (t : NLTKTree) : list (string + NLTKTree) :=
  let 'NTree _ cs := t in cs.

(** [nltk.Tree.leaves()]: the terminals, left to right. *)
Fixpoint leaves (t : NLTKTree) : list string :=
  let 'NTree _ cs := t in
  flat_map (fun c => match c with inl s => [s] | inr t' => leaves t' end) cs.

End NLTK.

Definition index (t : ExtendedTree) : nat := let 'ETree i _ _ _ _ := t in i.
Definition time_range (t : ExtendedTree) : Q * Q := let 'ETree _ r _ _ _ := t in r.
Definition leaf_range (t : ExtendedTree) : Z * Z := let 'ETree _ _ r _ _ := t in r.
Definition label (t : ExtendedTree) : string := let 'ETree _ _ _ l _ := t in l.
Definition children (t : ExtendedTree) : list (string + ExtendedTree) :=
  let 'ETree _ _ _ _ cs := t in cs.

(** [leaves()], inherited from [nltk.Tree]. *)
Fixpoint leaves (t : ExtendedTree) : list string :=
  let 'ETree _ _ _ _ cs := t in
  flat_map (fun c => match c with inl s => [s] | inr t' => leaves t' end) cs.

(** The dictionary [_index2node] built by [ExtendedTree.__init__]:
    [{index: self}], updated with the dictionary of every child that has
    one, in order ([dict.update] overwrites). *)
Fixpoint index2node_map (t : ExtendedTree) : gmap nat ExtendedTree :=
  let 'ETree i _ _ _ cs := t in
  fold_left (fun m c => match c with
                        | inl _ => m
                        | inr t' => index2node_map t' ∪ m
                        end) cs {[ i := t ]}.

Definition index2node (t : ExtendedTree) (i : nat) : result ExtendedTree :=
  match index2node_map t !! i with
  | Some n => Ok n
  | None => Raise KeyError
  end.

(** [sorted(self._index2node.keys())] *)
Definition subtree_indices (t : ExtendedTree) : list nat :=
  merge_sort le (elements (dom (index2node_map t))).

(** [n_nodes]: [self[0]] raises [IndexError] on a node without children, the
    assertion fails on a terminal followed by more children, and a terminal
    among subtrees has no [n_nodes] attribute. *)
Fixpoint n_nodes (t : ExtendedTree) : result nat :=
  let 'ETree _ _ _ _ cs := t in
  match cs with
  | [] => Raise IndexError
  | inl _ :: rest =>
      match rest with
      | [] => Ok 1
      | _ :: _ => Raise AssertionError
      end
  | inr _ :: _ =>
      s ← (fix sum (cs : list (string + ExtendedTree)) (acc : nat) : result nat :=
             match cs with
             | [] => Ok acc
             | inl _ :: _ => Raise AttributeError
             | inr child :: cs' => n ← n_nodes child; sum cs' (acc + n)
             end) cs 0;
      Ok (s + 1)
  end.

Definition is_preterminal (t : ExtendedTree) : bool :=
  match children t with
  | [inl _] => true
  | _ => false
  end.

(** [from_tree_and_leaf_timestamps]: [construct_tree] threads the counter
    [global_index]; it returns the node and the counter after it. *)
Definition timestamp : Type := string * Q * Q.
Definition ts_start (x : timestamp) : Q := x.1.2.
Definition ts_end (x : timestamp) : Q := x.2.

Fixpoint construct_tree (leaf_timestamps : list timestamp) (node : NLTKTree)
    (left right : Z) (global_index : nat) : result (ExtendedTree * nat) :=
  let 'NTree lab cs := node in
  let this_index := global_index in
  let global_index := S global_index in
  '(children, global_index) ←
    (fix loop (cs : list (string + NLTKTree)) (current_left : Z) (global_index : nat)
       : result (list (string + ExtendedTree) * nat) :=
       match cs with
       | [] => Ok ([], global_index)
       | inl s :: cs' =>
           '(rest, gi) ← loop cs' (current_left + 1)%Z global_index;
           Ok (inl s :: rest, gi)
       | inr child :: cs' =>
           let n := Z.of_nat (length (NLTK.leaves child)) in
           '(c, gi) ← construct_tree leaf_timestamps child
                        current_left (current_left + n)%Z global_index;
           '(rest, gi) ← loop cs' (current_left + n)%Z gi;
           Ok (inr c :: rest, gi)
       end) cs left global_index;
  first ← py_getitem leaf_timestamps left;
  last ← py_getitem leaf_timestamps (right - 1)%Z;
  Ok (ETree this_index (ts_start first, ts_end last) (left + 1, right)%Z lab children,
      global_index).

Definition from_tree_and_leaf_timestamps (tree : NLTKTree)
    (leaf_timestamps : list timestamp) : result ExtendedTree :=
  '(t, _) ← construct_tree leaf_timestamps tree 0 (Z.of_nat (length leaf_timestamps)) 0;
  Ok t.

(** ** numpy arrays of shape [(n, m)] *)

Abbreviation ndarray := (list (list Q)).

(** [v * np.ones((n, m))] *)
Definition np_full (n m : nat) (v : Q) : ndarray := replicate n (replicate m v).

(** An index [i] along an axis of length [n]: negative indices wrap once. *)
Definition np_index (n : nat) (i : Z) : result nat :=
  if (0 <=? i)%Z then
    if (i <? Z.of_nat n)%Z then Ok (Z.to_nat i) else Raise IndexError
  else
    if (- Z.of_nat n <=? i)%Z then Ok (Z.to_nat (Z.of_nat n + i)) else Raise IndexError.

(** [a[i, j]] *)
Definition np_get (a : ndarray) (i j : Z) : result Q :=
  i' ← np_index (length a) i;
  match a !! i' with
  | None => Raise IndexError
  | Some row =>
      j' ← np_index (length row) j;
      match row !! j' with
      | None => Raise IndexError
      | Some x => Ok x
      end
  end.

(** [a[i, j] = v] *)
Definition np_set (a : ndarray) (i j : Z) (v : Q) : result ndarray :=
  i' ← np_index (length a) i;
  match a !! i' with
  | None => Raise IndexError
  | Some row =>
      j' ← np_index (length row) j;
      Ok (<[i' := <[j' := v]> row]> a)
  end.

(** [a.shape] *)
Definition np_shape (a : ndarray) : nat * nat :=
  (length a, match a with [] => 0 | row :: _ => length row end).

(** ** metrics.py *)

Module metrics.

(** An alignment trace: a set of pairs of node indices. *)
Abbreviation Trace := (gset (nat * nat)).

(** The sentinel [-1e10] of the interval tables. *)
Definition minus_inf : Q := - (10000000000 # 1).

Record TreeAligner : Type := mkTreeAligner {
  _ptree : ExtendedTree;
  _gtree : ExtendedTree;
  _threshold_iou : Q;
  _flexible_terminal_alignment : bool;
  _n_ptree : nat;
  _n_gtree : nat;
  _span_ious : ndarray;
  max_matching_weights : ndarray;
  trace : gmap (nat * nat) Trace
}.

Definition set_memo (self : TreeAligner) (w : ndarray) (t : gmap (nat * nat) Trace)
    : TreeAligner :=
  mkTreeAligner (_ptree self) (_gtree self) (_threshold_iou self)
    (_flexible_terminal_alignment self) (_n_ptree self) (_n_gtree self)
    (_span_ious self) w t.

(** The loops of [__init__] filling [span_ious]. *)
Definition fill_span_ious (ptree gtree : ExtendedTree) (n_ptree n_gtree : nat)
    : result ndarray :=
  for_each (seq 0 n_ptree) (fun span_ious i =>
    for_each (seq 0 n_gtree) (fun span_ious j =>
      p ← index2node ptree i;
      g ← index2node gtree j;
      iou ← utils.span_iou (time_range p) (time_range g) utils.default_eps;
      np_set span_ious (Z.of_nat i) (Z.of_nat j) iou)
      span_ious)
    (np_full n_ptree n_gtree 0%Q).

(** [span_ious * (span_ious > threshold)], entry by entry. *)
Definition apply_threshold (threshold : Q) (x : Q) : Q :=
  (x * (if utils.Qlt_bool threshold x then 1 else 0))%Q.

Definition init (ptree gtree : ExtendedTree) (threshold_iou : Q)
    (flexible_terminal_alignment : bool) : result TreeAligner :=
  n_ptree ← n_nodes ptree;
  n_gtree ← n_nodes gtree;
  span_ious ← fill_span_ious ptree gtree n_ptree n_gtree;
  Ok (mkTreeAligner ptree gtree threshold_iou flexible_terminal_alignment
        n_ptree n_gtree
        (map (map (apply_threshold threshold_iou)) span_ious)
        (np_full n_ptree n_gtree (-1)%Q)
        ∅).

(** The state of one interval table: the weights and the
    [defaultdict(set)] of traces, keyed by the pair of right endpoints. *)
Abbreviation dp_state := (ndarray * gmap (Z * Z) Trace)%type.

(** The two innermost loops (lines 83-89 and 122-128): relax the cell
    [(pnode_rleaf, gnode_rleaf)] from every cell strictly before
    [(pnode_lleaf, gnode_lleaf)]. *)
Definition dp_update (st : dp_state) (pnode_lleaf pnode_rleaf gnode_lleaf gnode_rleaf : Z)
    (subtree_matching_weight : Q) (subtree_trace : Trace) : result dp_state :=
  for_each (range pnode_lleaf) (fun st pnode_source_endpoint =>
    for_each (range gnode_lleaf) (fun '(max_span_matching_weight, trace) gnode_source_endpoint =>
      src ← np_get max_span_matching_weight pnode_source_endpoint gnode_source_endpoint;
      let update_value := (src + subtree_matching_weight)%Q in
      cur ← np_get max_span_matching_weight pnode_rleaf gnode_rleaf;
      if utils.Qlt_bool cur update_value then
        m ← np_set max_span_matching_weight pnode_rleaf gnode_rleaf update_value;
        Ok (m, <[(pnode_rleaf, gnode_rleaf) :=
                   (trace !!! (pnode_source_endpoint, gnode_source_endpoint)) ∪ subtree_trace]> trace)
      else Ok (max_span_matching_weight, trace))
      st)
    st.

(** [-1e10 * np.ones((n + 1, m + 1))] with the corner set to [0]. *)
Definition dp_init (n_pnode_leaves n_gnode_leaves : nat) : result dp_state :=
  m ← np_set (np_full (n_pnode_leaves + 1) (n_gnode_leaves + 1) minus_inf) 0 0 0%Q;
  Ok (m, ∅).

(** The scan of the finished table (lines 129-133): the first cell, in
    row-major order, that beats everything before it. *)
Definition best_cell (st : dp_state) (start : Q * Trace) : result (Q * Trace) :=
  let '(max_span_matching_weight, trace_) := st in
  let shape := np_shape max_span_matching_weight in
  for_each (range (Z.of_nat shape.1)) (fun acc pnode_rleaf =>
    for_each (range (Z.of_nat shape.2)) (fun '(max_weight, max_weight_trace) gnode_rleaf =>
      cell ← np_get max_span_matching_weight pnode_rleaf gnode_rleaf;
      if utils.Qlt_bool max_weight cell then
        Ok (cell, trace_ !!! (pnode_rleaf, gnode_rleaf))
      else Ok (max_weight, max_weight_trace))
      acc)
    start.

(** The rejection test of [align] (lines 55-57). *)
Definition rejected (flexible_terminal_alignment : bool) (pnode gnode : ExtendedTree)
    (iou eps : Q) : bool :=
  utils.eps_eq iou 0 eps
  || (negb (is_preterminal pnode) && negb (is_preterminal gnode)
      && negb (String.eqb (label pnode) (label gnode)))
  || (negb flexible_terminal_alignment
      && negb (String.eqb (label pnode) (label gnode))).

(** [TreeAligner.align].  [self] is threaded through the calls: its two
    memo tables are updated in place by the source.  [fuel] bounds the depth
    of the recursion. *)
Fixpoint align (fuel : nat) (self : TreeAligner) (pnode gnode : ExtendedTree) (eps : Q)
    : result (TreeAligner * (Q * Trace)) :=
  match fuel with
  | O => Raise RecursionError
  | S fuel =>
    let pnode_index := index pnode in
    let gnode_index := index gnode in
    let pi := Z.of_nat pnode_index in
    let gi := Z.of_nat gnode_index in
    memo ← np_get (max_matching_weights self) pi gi;
    if Qle_bool 0 memo then
      Ok (self, (memo, trace self !!! (pnode_index, gnode_index)))
    else
    iou ← np_get (_span_ious self) pi gi;
    if rejected (_flexible_terminal_alignment self) pnode gnode iou eps then
      w ← np_set (max_matching_weights self) pi gi 0%Q;
      let self := set_memo self w (<[(pnode_index, gnode_index) := ∅]> (trace self)) in
      r ← np_get (max_matching_weights self) pi gi;
      Ok (self, (r, trace self !!! (pnode_index, gnode_index)))
    else if is_preterminal pnode || is_preterminal gnode then
      w ← np_set (max_matching_weights self) pi gi iou;
      let self := set_memo self w
        (<[(pnode_index, gnode_index) := {[ (pnode_index, gnode_index) ]}]> (trace self)) in
      r ← np_get (max_matching_weights self) pi gi;
      Ok (self, (r, trace self !!! (pnode_index, gnode_index)))
    else
    let n_pnode_leaves := length (leaves pnode) in
    let n_gnode_leaves := length (leaves gnode) in
    let min_pnode_leaf_id := (leaf_range pnode).1 in
    let min_gnode_leaf_id := (leaf_range gnode).1 in
    st ← dp_init n_pnode_leaves n_gnode_leaves;
    '(self, st) ←
      for_each (subtree_indices pnode) (fun acc pnode_subtree_index =>
        if decide (pnode_subtree_index = pnode_index) then Ok acc else
        for_each (subtree_indices gnode) (fun '(self, st) gnode_subtree_index =>
          if decide (gnode_subtree_index = gnode_index) then Ok (self, st) else
          psub ← index2node pnode pnode_subtree_index;
          gsub ← index2node gnode gnode_subtree_index;
          let pnode_lleaf := ((leaf_range psub).1 - min_pnode_leaf_id + 1)%Z in
          let pnode_rleaf := ((leaf_range psub).2 - min_pnode_leaf_id + 1)%Z in
          let gnode_lleaf := ((leaf_range gsub).1 - min_gnode_leaf_id + 1)%Z in
          let gnode_rleaf := ((leaf_range gsub).2 - min_gnode_leaf_id + 1)%Z in
          '(self, (subtree_matching_weight, subtree_trace)) ←
            align fuel self psub gsub utils.default_eps;
          st ← dp_update st pnode_lleaf pnode_rleaf gnode_lleaf gnode_rleaf
                 subtree_matching_weight subtree_trace;
          Ok (self, st))
          acc)
        (self, st);
    let '(max_span_matching_weight, trace_) := st in
    let shape := np_shape max_span_matching_weight in
    self ←
      for_each (range (Z.of_nat shape.1)) (fun self pnode_rleaf =>
        for_each (range (Z.of_nat shape.2)) (fun self gnode_rleaf =>
          cell ← np_get max_span_matching_weight pnode_rleaf gnode_rleaf;
          best ← np_get (max_matching_weights self) pi gi;
          if utils.Qlt_bool best cell then
            w ← np_set (max_matching_weights self) pi gi cell;
            Ok (set_memo self w
                  (<[(pnode_index, gnode_index) := trace_ !!! (pnode_rleaf, gnode_rleaf)]>
                     (trace self)))
          else Ok self)
          self)
        self;
    best ← np_get (max_matching_weights self) pi gi;
    w ← np_set (max_matching_weights self) pi gi (best + iou)%Q;
    let self := set_memo self w
      (<[(pnode_index, gnode_index) :=
           (trace self !!! (pnode_index, gnode_index)) ∪ {[ (pnode_index, gnode_index) ]}]>
         (trace self)) in
    r ← np_get (max_matching_weights self) pi gi;
    Ok (self, (r, trace self !!! (pnode_index, gnode_index)))
  end.

(** Lines 110-128 of [__call__]: the interval table over all the pairs of
    nodes of the two trees but the pair of roots. *)
Definition top_level_table (fuel : nat) (self : TreeAligner)
    : result (TreeAligner * dp_state) :=
  let n_pnode_leaves := length (leaves (_ptree self)) in
  let n_gnode_leaves := length (leaves (_gtree self)) in
  st ← dp_init n_pnode_leaves n_gnode_leaves;
  for_each (subtree_indices (_ptree self)) (fun acc pnode_subtree_index =>
    for_each (subtree_indices (_gtree self)) (fun '(self, st) gnode_subtree_index =>
      if decide (pnode_subtree_index = 0 ∧ gnode_subtree_index = 0) then Ok (self, st) else
      psub ← index2node (_ptree self) pnode_subtree_index;
      gsub ← index2node (_gtree self) gnode_subtree_index;
      let '(pnode_lleaf, pnode_rleaf) := leaf_range psub in
      let '(gnode_lleaf, gnode_rleaf) := leaf_range gsub in
      '(self, (subtree_matching_weight, subtree_trace)) ←
        align fuel self psub gsub utils.default_eps;
      st ← dp_update st pnode_lleaf pnode_rleaf gnode_lleaf gnode_rleaf
             subtree_matching_weight subtree_trace;
      Ok (self, st))
      acc)
    (self, st).

(** [TreeAligner.__call__].  The recursion of [align] descends into proper
    subtrees of [pnode], so [_n_ptree] bounds its depth. *)
Definition call (self : TreeAligner) : result (Q * Trace) :=
  let fuel := _n_ptree self in
  '(self, (max_weight, max_weight_trace)) ←
    align fuel self (_ptree self) (_gtree self) utils.default_eps;
  '(self, st) ← top_level_table fuel self;
  '(max_weight, max_weight_trace) ← best_cell st (max_weight, max_weight_trace);
  n_p ← n_nodes (_ptree self);
  n_g ← n_nodes (_gtree self);
  let struct_iou := (max_weight * 2 / inject_Z (Z.of_nat (n_p + n_g)))%Q in
  Ok (struct_iou, max_weight_trace).

(** [struct_iou(ptree, gtree, threshold_iou, flexible_terminal_alignment)] *)
Definition struct_iou (ptree gtree : ExtendedTree) (threshold_iou : Q)
    (flexible_terminal_alignment : bool) : result Q :=
  self ← init ptree gtree threshold_iou flexible_terminal_alignment;
  r ← call self;
  Ok r.1.

End metrics.

(** * Specification-level definitions *)

(** ** Trees *)

(** The subtrees among the children of a node. *)
Definition subtrees (t : ExtendedTree) : list ExtendedTree :=
  omap (fun c => match c with inl _ => None | inr t' => Some t' end) (children t).

(** The nodes of a tree in pre-order. *)
Fixpoint nodes (t : ExtendedTree) : list ExtendedTree :=
  let 'ETree _ _ _ _ cs := t in
  t :: flat_map (fun c => match c with inl _ => [] | inr t' => nodes t' end) cs.

Definition size (t : ExtendedTree) : nat := length (nodes t).

Definition lleaf (t : ExtendedTree) : Z := (leaf_range t).1.
Definition rleaf (t : ExtendedTree) : Z := (leaf_range t).2.

(** A label tree as section 6 of the specification describes it: a node
    has either exactly one child, a terminal, or one or more children, all
    of them trees. *)
Fixpoint well_formed_label (t : NLTKTree) : bool :=
  let 'NTree _ cs := t in
  match cs with
  | [] => false
  | [inl _] => true
  | _ => forallb (fun c => match c with
                           | inl _ => false
                           | inr t' => well_formed_label t'
                           end) cs
  end.

(** A well-formed Annotated Tree: built by [from_tree_and_leaf_timestamps]
    from a well-formed label tree and one timestamp per leaf. *)
Definition WellFormed (T : ExtendedTree) : Prop :=
  ∃ tree leaf_timestamps,
    well_formed_label tree = true ∧
    length leaf_timestamps = length (NLTK.leaves tree) ∧
    from_tree_and_leaf_timestamps tree leaf_timestamps = Ok T.

(** The shape of a constructed subtree, stated on the tree itself: indices
    in pre-order, leaf ranges of siblings adjacent and covering the
    parent's. *)
Inductive wf_ext : ExtendedTree → Prop :=
| wf_pre i tr l lab s :
    wf_ext (ETree i tr (l, l) lab [inl s])
| wf_node i tr l r lab cs :
    cs ≠ [] →
    wf_forest (S i) l r cs →
    wf_ext (ETree i tr (l, r) lab (inr <$> cs))
with wf_forest : nat → Z → Z → list ExtendedTree → Prop :=
| wf_nil i l :
    wf_forest i l (l - 1)%Z []
| wf_cons i l r c cs :
    wf_ext c →
    index c = i →
    lleaf c = l →
    wf_forest (i + size c) (rleaf c + 1)%Z r cs →
    wf_forest i l r (c :: cs).

Scheme wf_ext_mut := Minimality for wf_ext Sort Prop
  with wf_forest_mut := Minimality for wf_forest Sort Prop.
Combined Scheme wf_mutind from wf_ext_mut, wf_forest_mut.

(** The proper descendants of a node, in pre-order. *)
Definition descendants (t : ExtendedTree) : list ExtendedTree :=
  flat_map nodes (subtrees t).

(** ** Arrays *)

Definition has_shape (n m : nat) (a : ndarray) : Prop :=
  length a = n ∧ Forall (fun row => length row = m) a.

(** The entry [(i, j)] of an array, for proofs about entries in range. *)
Definition cell (a : ndarray) (i j : Z) : Q :=
  match np_get a i j with
  | Ok x => x
  | Raise _ => 0%Q
  end.

(** ** The aligner without its memo tables *)

(** [align] read without lines 52-53 and without the stores into
    [max_matching_weights] and [trace]: the value the memo tables cache. *)
Fixpoint align_pure (fuel : nat) (span_ious : ndarray) (flexible : bool)
    (pnode gnode : ExtendedTree) (eps : Q) : result (Q * metrics.Trace) :=
  match fuel with
  | O => Raise RecursionError
  | S fuel =>
    let pnode_index := index pnode in
    let gnode_index := index gnode in
    iou ← np_get span_ious (Z.of_nat pnode_index) (Z.of_nat gnode_index);
    if metrics.rejected flexible pnode gnode iou eps then Ok (0%Q, ∅)
    else if is_preterminal pnode || is_preterminal gnode then
      Ok (iou, {[ (pnode_index, gnode_index) ]})
    else
    st ← metrics.dp_init (length (leaves pnode)) (length (leaves gnode));
    st ←
      for_each (subtree_indices pnode) (fun st pnode_subtree_index =>
        if decide (pnode_subtree_index = pnode_index) then Ok st else
        for_each (subtree_indices gnode) (fun st gnode_subtree_index =>
          if decide (gnode_subtree_index = gnode_index) then Ok st else
          psub ← index2node pnode pnode_subtree_index;
          gsub ← index2node gnode gnode_subtree_index;
          '(w, sub) ← align_pure fuel span_ious flexible psub gsub utils.default_eps;
          metrics.dp_update st
            (lleaf psub - lleaf pnode + 1)%Z (rleaf psub - lleaf pnode + 1)%Z
            (lleaf gsub - lleaf gnode + 1)%Z (rleaf gsub - lleaf gnode + 1)%Z
            w sub)
          st)
        st;
    '(best, tr) ← metrics.best_cell st ((-1)%Q, ∅);
    Ok ((best + iou)%Q, tr ∪ {[ (pnode_index, gnode_index) ]})
  end.

(** ** Named forms of the local loops *)

(** The loop over the children in [construct_tree]. *)
Fixpoint construct_children (leaf_timestamps : list timestamp)
    (cs : list (string + NLTKTree)) (current_left : Z) (global_index : nat)
    : result (list (string + ExtendedTree) * nat) :=
  match cs with
  | [] => Ok ([], global_index)
  | inl s :: cs' =>
      '(rest, gi) ← construct_children leaf_timestamps cs' (current_left + 1)%Z global_index;
      Ok (inl s :: rest, gi)
  | inr child :: cs' =>
      let n := Z.of_nat (length (NLTK.leaves child)) in
      '(c, gi) ← construct_tree leaf_timestamps child
                   current_left (current_left + n)%Z global_index;
      '(rest, gi) ← construct_children leaf_timestamps cs' (current_left + n)%Z gi;
      Ok (inr c :: rest, gi)
  end.

(** The sum over the children in [n_nodes]. *)
Fixpoint sum_n_nodes (cs : list (string + ExtendedTree)) (acc : nat) : result nat :=
  match cs with
  | [] => Ok acc
  | inl _ :: _ => Raise AttributeError
  | inr child :: cs' => n ← n_nodes child; sum_n_nodes cs' (acc + n)
  end.

(** The start and end times of a timestamp sequence, without the tokens. *)
Definition times (leaf_timestamps : list timestamp) : list (Q * Q) :=
  (fun x => (ts_start x, ts_end x)) <$> leaf_timestamps.

(** The score of two label trees with their timestamps: both trees are
    built, then compared. *)
Definition score_of_inputs (ptree gtree : NLTKTree)
    (word_bounds oracle_bounds : list timestamp)
    (threshold_iou : Q) (flexible_terminal_alignment : bool) : result Q :=
  P ← from_tree_and_leaf_timestamps ptree word_bounds;
  G ← from_tree_and_leaf_timestamps gtree oracle_bounds;
  metrics.struct_iou P G threshold_iou flexible_terminal_alignment.

(** ** Interval tables *)

(** The cells of a table of shape [(n, m)]. *)
Definition in_table (n m : nat) (a b : Z) : Prop :=
  (0 ≤ a < Z.of_nat n)%Z ∧ (0 ≤ b < Z.of_nat m)%Z.

(** The table made by [dp_init]: [0] in the corner, [-1e10] elsewhere. *)
Definition init_cell (a b : Z) : Q :=
  if decide (a = 0%Z ∧ b = 0%Z) then 0%Q else metrics.minus_inf.

(** The weight of a result of [align]; [0] where it raised. *)
Definition weight_of (r : result (Q * metrics.Trace)) : Q :=
  match r with
  | Ok (w, _) => w
  | Raise _ => 0%Q
  end.

(** The state of one run of [dp_update] after the source cells [X] have
    been tried: only the target cell has changed, and it holds the largest
    of its old value and the candidates from [X]. *)
Definition relaxed (n m : nat) (M0 : ndarray) (pr gr : Z) (w : Q)
    (X : Z → Z → Prop) (st : metrics.dp_state) : Prop :=
  has_shape n m st.1 ∧
  (∀ a b, in_table n m a b → (a, b) ≠ (pr, gr) → cell st.1 a b = cell M0 a b) ∧
  (cell M0 pr gr <= cell st.1 pr gr)%Q ∧
  (∀ a b, X a b → (cell M0 a b + w <= cell st.1 pr gr)%Q) ∧
  (cell st.1 pr gr = cell M0 pr gr ∨
   ∃ a b, X a b ∧ cell st.1 pr gr = (cell M0 a b + w)%Q).

(** The invariant of the loop over the pairs of subtrees: after the pairs
    [E] have been relaxed, the table [st.1] dominates the initial table
    [M0], it is closed under the relaxations by pairs in [E], and every
    cell is either initial or produced by one such relaxation.  The
    functions [plf], [prf], [glf], [grf] give the table coordinates of the
    leaf range of a node, [W] the weight of a pair, [F0] the cells of the
    initial table. *)
Definition bellman_inv (n m : nat) (plf prf glf grf : ExtendedTree → Z)
    (W : ExtendedTree → ExtendedTree → Q) (F0 : Z → Z → Q)
    (E : ExtendedTree → ExtendedTree → Prop) (st : metrics.dp_state) : Prop :=
  has_shape n m st.1 ∧
  (∀ a b, in_table n m a b → (F0 a b <= cell st.1 a b)%Q) ∧
  (∀ u v a b, E u v → (0 ≤ a < plf u)%Z → (0 ≤ b < glf v)%Z →
     (cell st.1 a b + W u v <= cell st.1 (prf u) (grf v))%Q) ∧
  (∀ a b, in_table n m a b →
     cell st.1 a b = F0 a b ∨
     ∃ u v a' b', E u v ∧ prf u = a ∧ grf v = b ∧
       (0 ≤ a' < plf u)%Z ∧ (0 ≤ b' < glf v)%Z ∧
       cell st.1 a b = (cell st.1 a' b' + W u v)%Q).

(** The table coordinates of the leaf range of [u] inside the table of
    the node [t] (lines 80-81): offsets from the first leaf of [t]. *)
Definition lloc (t u : ExtendedTree) : Z := (lleaf u - lleaf t + 1)%Z.
Definition rloc (t u : ExtendedTree) : Z := (rleaf u - lleaf t + 1)%Z.

(** The weight [align] gives to a pair of nodes, as cached by the memo
    table. *)
Definition pure_weight (fuel : nat) (span_ious : ndarray) (flexible : bool)
    (u v : ExtendedTree) : Q :=
  weight_of (align_pure fuel span_ious flexible u v utils.default_eps).

(** The number of nodes of [D] whose leaf range ends at or before [a]. *)
Definition count_upto (rf : ExtendedTree → Z) (D : list ExtendedTree) (a : Z) : nat :=
  length (filter (fun u => (rf u ≤ a)%Z) D).

(** A natural number as a rational. *)
Definition Qnat (n : nat) : Q := inject_Z (Z.of_nat n).

(** ** The aligner and its memo tables *)

(** [top_level_table] without the memo tables. *)
Definition top_level_table_pure (fuel : nat) (span_ious : ndarray) (flexible : bool)
    (ptree gtree : ExtendedTree) : result metrics.dp_state :=
  st ← metrics.dp_init (length (leaves ptree)) (length (leaves gtree));
  for_each (subtree_indices ptree) (fun st pnode_subtree_index =>
    for_each (subtree_indices gtree) (fun st gnode_subtree_index =>
      if decide (pnode_subtree_index = 0 ∧ gnode_subtree_index = 0) then Ok st else
      psub ← index2node ptree pnode_subtree_index;
      gsub ← index2node gtree gnode_subtree_index;
      '(w, sub) ← align_pure fuel span_ious flexible psub gsub utils.default_eps;
      metrics.dp_update st (lleaf psub) (rleaf psub) (lleaf gsub) (rleaf gsub) w sub)
      st)
    st.

(** The span IoU of two nodes, as [__init__] computes it. *)
Definition node_iou (u v : ExtendedTree) : Q :=
  match utils.span_iou (time_range u) (time_range v) utils.default_eps with
  | Ok x => x
  | Raise _ => 0%Q
  end.

(** [self'] is [self] with other memo tables. *)
Definition same_cfg (self self' : metrics.TreeAligner) : Prop :=
  self' = metrics.set_memo self (metrics.max_matching_weights self') (metrics.trace self').

(** The part of an aligner for the trees [P] and [G] that [align] only
    reads. *)
Definition aligner_ok (P G : ExtendedTree) (self : metrics.TreeAligner) : Prop :=
  wf_ext P ∧ wf_ext G ∧ index P = 0 ∧ index G = 0 ∧
  lleaf P = 1%Z ∧ lleaf G = 1%Z ∧
  metrics._ptree self = P ∧ metrics._gtree self = G ∧
  metrics._n_ptree self = size P ∧
  has_shape (size P) (size G) (metrics._span_ious self) ∧
  (∀ i j, in_table (size P) (size G) i j →
     (0 <= cell (metrics._span_ious self) i j ∧ cell (metrics._span_ious self) i j <= 1)%Q).

(** The memo tables hold, for every pair of nodes, either the sentinel
    [-1] and no trace, or the result of [align] on the pair. *)
Definition memo_inv (P G : ExtendedTree) (self : metrics.TreeAligner) : Prop :=
  has_shape (size P) (size G) (metrics.max_matching_weights self) ∧
  ∀ u v, u ∈ nodes P → v ∈ nodes G →
    (cell (metrics.max_matching_weights self) (Z.of_nat (index u)) (Z.of_nat (index v))
       = (-1)%Q ∧
     metrics.trace self !! (index u, index v) = None) ∨
    align_pure (size u) (metrics._span_ious self)
      (metrics._flexible_terminal_alignment self) u v utils.default_eps
    = Ok (cell (metrics.max_matching_weights self)
            (Z.of_nat (index u)) (Z.of_nat (index v)),
          metrics.trace self !!! (index u, index v)).

(** The states of the aligner of two trees: the one [__init__] makes, and
    those left by calls of [align], with the default [eps], on pairs of
    their nodes. *)
Inductive reachable (P G : ExtendedTree) (threshold_iou : Q) (flexible : bool)
    : metrics.TreeAligner → Prop :=
| reach_init self :
    metrics.init P G threshold_iou flexible = Ok self →
    reachable P G threshold_iou flexible self
| reach_align self fuel p g self' r :
    reachable P G threshold_iou flexible self →
    p ∈ nodes P → g ∈ nodes G → size p ≤ fuel →
    metrics.align fuel self p g utils.default_eps = Ok (self', r) →
    reachable P G threshold_iou flexible self'.

(** The pair of roots, which the top-level table leaves out. *)
Definition both_roots (u v : ExtendedTree) : bool :=
  bool_decide (index u = 0 ∧ index v = 0).

(** ** Top-level combinations *)

(** A combination of pairs of nodes of the trees [P] and [G], read from
    left to right starting after the table cell [(a, b)]: no pair is the
    pair of the two roots, and in both trees the leaf range of a node
    starts after the cell before it, which for the next pair is the cell
    in which the leaf ranges of this pair end. *)
Fixpoint combination (P G : ExtendedTree) (a b : Z)
    (c : list (ExtendedTree * ExtendedTree)) : Prop :=
  match c with
  | [] => True
  | (u, v) :: c' =>
      u ∈ nodes P ∧ v ∈ nodes G ∧ both_roots u v = false ∧
      (a < lleaf u)%Z ∧ (b < lleaf v)%Z ∧
      combination P G (rleaf u) (rleaf v) c'
  end.

(** The cell in which a combination read from the cell [(a, b)] ends. *)
Fixpoint combination_end (a b : Z) (c : list (ExtendedTree * ExtendedTree)) : Z * Z :=
  match c with
  | [] => (a, b)
  | (u, v) :: c' => combination_end (rleaf u) (rleaf v) c'
  end.

(** The weight of a combination: the sum of the weights of its pairs. *)
Definition combination_weight (W : ExtendedTree → ExtendedTree → Q)
    (c : list (ExtendedTree * ExtendedTree)) : Q :=
  foldr (fun p acc => (W p.1 p.2 + acc)%Q) 0%Q c.

(** ** Fixtures *)

(** The trees and timestamps of the first example of [tests/test.py]. *)
Definition example_gold_tree : NLTKTree :=
  NTree "NT" [inr (NTree "NT" [inl "I"]);
              inr (NTree "NT" [inr (NTree "NT" [inl "am"]);
                               inr (NTree "NT" [inr (NTree "NT" [inl "a"]);
                                                inr (NTree "NT" [inl "cat"])])])].

Definition example_predicted_tree : NLTKTree :=
  NTree "NT" [inr (NTree "NT" [inr (NTree "NT" [inl "1"]); inr (NTree "NT" [inl "2"])]);
              inr (NTree "NT" [inr (NTree "NT" [inl "3"]);
                               inr (NTree "NT" [inr (NTree "NT" [inl "4"]);
                                                inr (NTree "NT" [inl "5"])])])].

Definition example_oracle_bounds : list timestamp :=
  [("I", 1, 3 # 2); ("am", 9 # 5, 2); ("a", 2, 11 # 5); ("cat", 11 # 5, 3)]%Q.

Definition example_word_bounds : list timestamp :=
  [("1", 1, 6 # 5); ("2", 6 # 5, 7 # 5); ("3", 9 # 5, 21 # 10);
   ("4", 21 # 10, 23 # 10); ("5", 23 # 10, 14 # 5)]%Q.

(** The Annotated Trees built from them. *)
Definition example_gold : ExtendedTree :=
  ETree 0 (1, 3)%Q (1, 4)%Z "NT"
    [inr (ETree 1 (1, 3 # 2)%Q (1, 1)%Z "NT" [inl "I"]);
     inr (ETree 2 (9 # 5, 3)%Q (2, 4)%Z "NT"
            [inr (ETree 3 (9 # 5, 2)%Q (2, 2)%Z "NT" [inl "am"]);
             inr (ETree 4 (2, 3)%Q (3, 4)%Z "NT"
                    [inr (ETree 5 (2, 11 # 5)%Q (3, 3)%Z "NT" [inl "a"]);
                     inr (ETree 6 (11 # 5, 3)%Q (4, 4)%Z "NT" [inl "cat"])])])].

Definition example_predicted : ExtendedTree :=
  ETree 0 (1, 14 # 5)%Q (1, 5)%Z "NT"
    [inr (ETree 1 (1, 7 # 5)%Q (1, 2)%Z "NT"
            [inr (ETree 2 (1, 6 # 5)%Q (1, 1)%Z "NT" [inl "1"]);
             inr (ETree 3 (6 # 5, 7 # 5)%Q (2, 2)%Z "NT" [inl "2"])]);
     inr (ETree 4 (9 # 5, 14 # 5)%Q (3, 5)%Z "NT"
            [inr (ETree 5 (9 # 5, 21 # 10)%Q (3, 3)%Z "NT" [inl "3"]);
             inr (ETree 6 (21 # 10, 14 # 5)%Q (4, 5)%Z "NT"
                    [inr (ETree 7 (21 # 10, 23 # 10)%Q (4, 4)%Z "NT" [inl "4"]);
                     inr (ETree 8 (23 # 10, 14 # 5)%Q (5, 5)%Z "NT" [inl "5"])])])].

(** Two trees of one node whose spans overlap by exactly [1e-6]. *)
Definition narrow_tree : ExtendedTree := ETree 0 (0, 1)%Q (1, 1)%Z "X" [inl "a"].
Definition wide_tree : ExtendedTree := ETree 0 (0, 1000000)%Q (1, 1)%Z "X" [inl "b"].

(** The trees and timestamps of the fourth example of [tests/test.py],
    with detailed labels, and the Annotated Trees built from them. *)
Definition example_4_gold_tree : NLTKTree :=
  NTree "S" [inr (NTree "PRP" [inl "I"]);
             inr (NTree "VP" [inr (NTree "VBP" [inl "am"]);
                              inr (NTree "NP" [inr (NTree "DT" [inl "a"]);
                                               inr (NTree "NN" [inl "cat"])])])].

Definition example_4_predicted_tree : NLTKTree :=
  NTree "S" [inr (NTree "X" [inr (NTree "X" [inl "1"]); inr (NTree "PRP" [inl "2"])]);
             inr (NTree "VP" [inr (NTree "VBP" [inl "3"]);
                              inr (NTree "NP" [inr (NTree "DT" [inl "4"]);
                                               inr (NTree "NN" [inl "5"])])])].

Definition example_4_gold_PRP : ExtendedTree :=
  ETree 1 (1, 3 # 2)%Q (1, 1)%Z "PRP" [inl "I"].
Definition example_4_gold_NN : ExtendedTree :=
  ETree 6 (11 # 5, 3)%Q (4, 4)%Z "NN" [inl "cat"].

Definition example_4_gold : ExtendedTree :=
  ETree 0 (1, 3)%Q (1, 4)%Z "S"
    [inr example_4_gold_PRP;
     inr (ETree 2 (9 # 5, 3)%Q (2, 4)%Z "VP"
            [inr (ETree 3 (9 # 5, 2)%Q (2, 2)%Z "VBP" [inl "am"]);
             inr (ETree 4 (2, 3)%Q (3, 4)%Z "NP"
                    [inr (ETree 5 (2, 11 # 5)%Q (3, 3)%Z "DT" [inl "a"]);
                     inr example_4_gold_NN])])].

Definition example_4_predicted_X1 : ExtendedTree :=
  ETree 2 (1, 6 # 5)%Q (1, 1)%Z "X" [inl "1"].
Definition example_4_predicted_PRP : ExtendedTree :=
  ETree 3 (6 # 5, 7 # 5)%Q (2, 2)%Z "PRP" [inl "2"].
Definition example_4_predicted_X : ExtendedTree :=
  ETree 1 (1, 7 # 5)%Q (1, 2)%Z "X"
    [inr example_4_predicted_X1; inr example_4_predicted_PRP].

Definition example_4_predicted : ExtendedTree :=
  ETree 0 (1, 14 # 5)%Q (1, 5)%Z "S"
    [inr example_4_predicted_X;
     inr (ETree 4 (9 # 5, 14 # 5)%Q (3, 5)%Z "VP"
            [inr (ETree 5 (9 # 5, 21 # 10)%Q (3, 3)%Z "VBP" [inl "3"]);
             inr (ETree 6 (21 # 10, 14 # 5)%Q (4, 5)%Z "NP"
                    [inr (ETree 7 (21 # 10, 23 # 10)%Q (4, 4)%Z "DT" [inl "4"]);
                     inr (ETree 8 (23 # 10, 14 # 5)%Q (5, 5)%Z "NN" [inl "5"])])])].

(** Two trees with the same leaves and times whose roots carry different
    labels. *)
Definition root_S_tree : ExtendedTree :=
  ETree 0 (0, 2)%Q (1, 2)%Z "S"
    [inr (ETree 1 (0, 1)%Q (1, 1)%Z "A" [inl "a"]);
     inr (ETree 2 (1, 2)%Q (2, 2)%Z "B" [inl "b"])].
Definition root_T_tree : ExtendedTree :=
  ETree 0 (0, 2)%Q (1, 2)%Z "T"
    [inr (ETree 1 (0, 1)%Q (1, 1)%Z "A" [inl "a"]);
     inr (ETree 2 (1, 2)%Q (2, 2)%Z "B" [inl "b"])].

(** * Further code of [data.py] *)

(** ** [NLTKTree.spans] *)

(** A span yielded by [spans]: [(left, right)] or [(left, right, label)]. *)
Definition span : Type := Z * Z * option string.

(** A generator run to its end: the values yielded, then [None] if it
    returned, [Some e] if it raised [e]. *)
Definition gen (A : Type) : Type := list A * option exn.

(** [NLTKTree.spans(left, label, include_terminal)].  [self[0]] raises
    [IndexError] on a node without children; the first assertion fails on a
    terminal followed by more children; a terminal among subtrees has no
    [spans] attribute. *)
Fixpoint spans (self : NLTKTree) (left : Z) (label include_terminal : bool)
    : gen span :=
  let 'NTree lab cs := self in
  match cs with
  | [] => ([], Some IndexError)
  | inl _ :: rest =>
      match rest with
      | _ :: _ => ([], Some AssertionError)
      | [] =>
          (if include_terminal then
             [(left, (left + 1)%Z, Some (if label then lab else "NT"%string))]
           else [],
           None)
      end
  | inr _ :: _ =>
      let n := Z.of_nat (length (NLTK.leaves (NTree lab cs))) in
      let first : span := (left, (left + n)%Z, if label then Some lab else None) in
      let '(yielded, child_left, e) :=
        (fix loop (cs : list (string + NLTKTree)) (child_left : Z)
           : list span * Z * option exn :=
           match cs with
           | [] => ([], child_left, None)
           | inl _ :: _ => ([], child_left, Some AttributeError)
           | inr child :: cs' =>
               let '(xs, e) := spans child child_left label include_terminal in
               match e with
               | Some e => (xs, child_left, Some e)
               | None =>
                   let n_child_leaves := Z.of_nat (length (NLTK.leaves child)) in
                   let '(ys, cl, e') := loop cs' (child_left + n_child_leaves)%Z in
                   (xs ++ ys, cl, e')
               end
           end) cs left in
      match e with
      | Some e => (first :: yielded, Some e)
      | None =>
          if decide (child_left = (left + n)%Z) then (first :: yielded, None)
          else (first :: yielded, Some AssertionError)
      end
  end.

(** The loop over the children in [spans], named. *)
Fixpoint spans_children (cs : list (string + NLTKTree)) (child_left : Z)
    (label include_terminal : bool) : list span * Z * option exn :=
  match cs with
  | [] => ([], child_left, None)
  | inl _ :: _ => ([], child_left, Some AttributeError)
  | inr child :: cs' =>
      let '(xs, e) := spans child child_left label include_terminal in
      match e with
      | Some e => (xs, child_left, Some e)
      | None =>
          let n_child_leaves := Z.of_nat (length (NLTK.leaves child)) in
          let '(ys, cl, e') :=
            spans_children cs' (child_left + n_child_leaves)%Z label include_terminal in
          (xs ++ ys, cl, e')
      end
  end.

(** The span [spans] yields for a node of an Annotated Tree, if any: the
    leaf range, shifted to start at 0 and made half-open. *)
Definition span_of_node (with_label include_terminal : bool) (u : ExtendedTree)
    : option span :=
  if is_preterminal u then
    if include_terminal then
      Some ((lleaf u - 1)%Z, rleaf u, Some (if with_label then label u else "NT"%string))
    else None
  else Some ((lleaf u - 1)%Z, rleaf u, if with_label then Some (label u) else None).

(** A span moved [k] leaves to the right. *)
Definition shift_span (k : Z) (x : span) : span :=
  ((x.1.1 + k)%Z, (x.1.2 + k)%Z, x.2).

(** ** Trees without their annotations *)

(** The label tree under an Annotated Tree. *)
Fixpoint erase (t : ExtendedTree) : NLTKTree :=
  let 'ETree _ _ _ lab cs := t in
  NTree lab (sum_map id erase <$> cs).

(** The time range of a node is read off the timestamps of its first and
    its last leaf. *)
Definition timed_by (ts : list timestamp) (u : ExtendedTree) : Prop :=
  ∃ first last,
    ts !! Z.to_nat (lleaf u - 1) = Some first ∧
    ts !! Z.to_nat (rleaf u - 1) = Some last ∧
    time_range u = (ts_start first, ts_end last).

(** A tree on which [n_nodes] returns: every node has either exactly one
    child, a terminal, or one or more children, all of them trees. *)
Fixpoint proper (t : ExtendedTree) : bool :=
  let 'ETree _ _ _ _ cs := t in
  match cs with
  | [] => false
  | [inl _] => true
  | _ => forallb (fun c => match c with
                           | inl _ => false
                           | inr t' => proper t'
                           end) cs
  end.

(** No node of the label tree is a terminal followed by more children. *)
Fixpoint single_terminals (t : NLTKTree) : bool :=
  let 'NTree _ cs := t in
  match cs with
  | inl _ :: _ :: _ => false
  | _ => forallb (fun c => match c with
                           | inl _ => true
                           | inr t' => single_terminals t'
                           end) cs
  end.

(** * Alignment traces *)

(** The trace of a result of [align]; empty where it raised. *)
Definition trace_of (r : result (Q * metrics.Trace)) : metrics.Trace :=
  match r with
  | Ok (_, t) => t
  | Raise _ => ∅
  end.

(** The sum of the entries of [span_ious] over a list of pairs, and over
    the pairs of a trace. *)
Definition pairs_sum (span_ious : ndarray) (l : list (nat * nat)) : Q :=
  foldr (fun k acc => (cell span_ious (Z.of_nat k.1) (Z.of_nat k.2) + acc)%Q) 0%Q l.

Definition trace_sum (span_ious : ndarray) (T : metrics.Trace) : Q :=
  pairs_sum span_ious (elements T).

(** What a cell of an interval table can hold: the initial value and no
    trace, or the value and the trace of a cell strictly before a pair
    [(u, v)], extended by the weight and the trace of the pair. *)
Inductive derivable (plf prf glf grf : ExtendedTree → Z)
    (W : ExtendedTree → ExtendedTree → Q)
    (Tr : ExtendedTree → ExtendedTree → metrics.Trace)
    (F0 : Z → Z → Q) (E : ExtendedTree → ExtendedTree → Prop)
    : Z → Z → Q → metrics.Trace → Prop :=
| derivable_init a b :
    derivable plf prf glf grf W Tr F0 E a b (F0 a b) ∅
| derivable_step a b x T u v :
    derivable plf prf glf grf W Tr F0 E a b x T →
    E u v → (0 ≤ a < plf u)%Z → (0 ≤ b < glf v)%Z →
    derivable plf prf glf grf W Tr F0 E (prf u) (grf v) (x + W u v)%Q (T ∪ Tr u v).

(** Every cell of the table holds a derivable value and trace. *)
Definition cells_derivable (n m : nat) (plf prf glf grf : ExtendedTree → Z)
    (W : ExtendedTree → ExtendedTree → Q)
    (Tr : ExtendedTree → ExtendedTree → metrics.Trace)
    (F0 : Z → Z → Q) (E : ExtendedTree → ExtendedTree → Prop)
    (st : metrics.dp_state) : Prop :=
  has_shape n m st.1 ∧
  ∀ a b, in_table n m a b →
    derivable plf prf glf grf W Tr F0 E a b (cell st.1 a b) (st.2 !!! (a, b)).

(** Two aligned pairs [(x, y)] and [(x', y')] agree on the structure of the
    two trees: they are the same pair, or one lies to the left of the other
    in both trees, or one lies under the other in both trees. *)
Definition consistent (x y x' y' : ExtendedTree) : Prop :=
  (x = x' ∧ y = y') ∨
  ((rleaf x < lleaf x')%Z ∧ (rleaf y < lleaf y')%Z) ∨
  ((rleaf x' < lleaf x)%Z ∧ (rleaf y' < lleaf y)%Z) ∨
  (x' ∈ descendants x ∧ y' ∈ descendants y) ∨
  (x ∈ descendants x' ∧ y ∈ descendants y').

(** A trace over the nodes [Dp] and [Dg]: every pair is a pair of indices
    of nodes that [align] does not reject, and any two pairs are
    consistent. *)
Definition trace_ok (span_ious : ndarray) (flexible : bool)
    (Dp Dg : list ExtendedTree) (T : metrics.Trace) : Prop :=
  (∀ i j, (i, j) ∈ T →
     ∃ x y, x ∈ Dp ∧ y ∈ Dg ∧ index x = i ∧ index y = j ∧
            metrics.rejected flexible x y
              (cell span_ious (Z.of_nat i) (Z.of_nat j)) utils.default_eps = false) ∧
  (∀ x y x' y', x ∈ Dp → x' ∈ Dp → y ∈ Dg → y' ∈ Dg →
     (index x, index y) ∈ T → (index x', index y') ∈ T →
     consistent x y x' y').

(** A one-to-one matching of indices. *)
Definition matching (T : metrics.Trace) : Prop :=
  ∀ i j i' j', (i, j) ∈ T → (i', j') ∈ T → (i = i' ↔ j = j').

(** * The string functions of [utils.py] *)

(** A Python [str] is read as the list of the code points of its
    characters. *)
Abbreviation str := (list N) (only parsing).

(** The characters ["("], [")"], [" "] and ["_"]. *)
Definition chr_lparen : N := 40%N.
Definition chr_rparen : N := 41%N.
Definition chr_space : N := 32%N.
Definition chr_underscore : N := 95%N.

(** [c.isspace()]: the characters [str.split()] splits at. *)
Definition isspace (c : N) : bool :=
  ((9 <=? c) && (c <=? 13) || (28 <=? c) && (c <=? 32) || (c =? 133) || (c =? 160)
   || (c =? 5760) || (8192 <=? c) && (c <=? 8202) || (c =? 8232) || (c =? 8233)
   || (c =? 8239) || (c =? 8287) || (c =? 12288))%N.

(** [s.split()]: the maximal runs of characters that are not whitespace.
    [cur] is the run being read. *)
Fixpoint py_split_go (s : str) (cur : str) : list str :=
  match s with
  | [] => match cur with [] => [] | _ => [cur] end
  | c :: s' =>
      if isspace c then
        match cur with
        | [] => py_split_go s' []
        | _ => cur :: py_split_go s' []
        end
      else py_split_go s' (cur ++ [c])
  end.

Definition py_split (s : str) : list str := py_split_go s [].

(** [sep.join(l)] *)
Fixpoint py_join (sep : str) (l : list str) : str :=
  match l with
  | [] => []
  | [x] => x
  | x :: l' => x ++ sep ++ py_join sep l'
  end.

(** [s.replace(old, new)]: the occurrences of [old] are found from left to
    right and do not overlap; [skip] counts the characters of the
    occurrence being replaced that are still to pass.  An empty [old]
    matches before every character and at the end. *)
Fixpoint str_replace_go (old new : str) (s : str) (skip : nat) : str :=
  match s with
  | [] => []
  | c :: s' =>
      match skip with
      | S k => str_replace_go old new s' k
      | O =>
          if decide (take (length old) (c :: s') = old) then
            new ++ str_replace_go old new s' (length old - 1)
          else c :: str_replace_go old new s' 0
      end
  end.

Definition str_replace (old new : str) (s : str) : str :=
  match old with
  | [] => new ++ flat_map (fun c => c :: new) s
  | _ => str_replace_go old new s 0
  end.

(** [normalize_parentheses_string] *)
Definition normalize_parentheses_string (string : str) : str :=
  let string := str_replace [chr_lparen] [chr_space; chr_lparen; chr_space] string in
  let string := str_replace [chr_rparen] [chr_space; chr_rparen; chr_space] string in
  py_join [chr_space] (py_split string).

(** [str(n)] for a natural number: its decimal digits. *)
Definition decimal (n : nat) : str :=
  map Ascii.N_of_ascii
    (String.list_ascii_of_string (DecimalString.NilEmpty.string_of_uint (Nat.to_uint n))).

(** The text put in the place of occurrence number [new_word_index]:
    [f'{new}_{new_word_index}'], or [f'{new_word_index}'] without [new]. *)
Definition inserted (new : option str) (new_word_index : nat) : str :=
  match new with
  | Some new => new ++ [chr_underscore] ++ decimal new_word_index
  | None => decimal new_word_index
  end.

(** [substitute_substr]: the loop of lines 43-47.  The string grows while
    the loop runs, and the loop need not end: [fuel] bounds the number of
    iterations, [None] is a run that has not ended within it. *)
Fixpoint substitute_substr_loop (fuel : nat) (string old : str) (new : option str)
    (index new_word_index : nat) : option str :=
  match fuel with
  | O => None
  | S fuel =>
      if index <? length string then
        if decide (take (length old) (drop index string) = old) then
          let string :=
            take index string ++ inserted new new_word_index
            ++ drop (index + length old) string in
          substitute_substr_loop fuel string old new (index + 1) (new_word_index + 1)
        else substitute_substr_loop fuel string old new (index + 1) new_word_index
      else Some string
  end.

Definition substitute_substr (fuel : nat) (string old : str) (new : option str)
    : option str :=
  substitute_substr_loop fuel string old new 0 0.

(** ** What the string functions compute *)

Definition is_paren (c : N) : bool :=
  bool_decide (c = chr_lparen) || bool_decide (c = chr_rparen).

(** The tokens of a string: each parenthesis by itself and the maximal runs
    of the other characters that are not whitespace.  [cur] is the run
    being read. *)
Fixpoint paren_tokens_go (s : str) (cur : str) : list str :=
  match s with
  | [] => match cur with [] => [] | _ => [cur] end
  | c :: s' =>
      if isspace c then
        match cur with
        | [] => paren_tokens_go s' []
        | _ => cur :: paren_tokens_go s' []
        end
      else if is_paren c then
        match cur with
        | [] => [c] :: paren_tokens_go s' []
        | _ => cur :: [c] :: paren_tokens_go s' []
        end
      else paren_tokens_go s' (cur ++ [c])
  end.

Definition paren_tokens (s : str) : list str := paren_tokens_go s [].

(** The string with every occurrence of the character [c] replaced by
    [new_k] or, without [new], by [k], [k] counting the occurrences from
    [new_word_index]. *)
Fixpoint numbered (new : option str) (c : N) (s : str) (new_word_index : nat)
    : str :=
  match s with
  | [] => []
  | x :: s' =>
      if decide (x = c) then
        inserted new new_word_index ++ numbered new c s' (new_word_index + 1)
      else x :: numbered new c s' new_word_index
  end.

Definition is_digit (c : N) : bool := ((48 <=? c) && (c <=? 57))%N.

(** * Proofs *)

(** ** The error monad and loops *)

Lemma bind_Ok {A B} (m : result A) (f : A → result B) b :
  m ≫= f = Ok b ↔ ∃ a, m = Ok a ∧ f a = Ok b.
Proof.
  destruct m as [a|e]; simpl; split.
  - intros H. by exists a.
  - by intros (a' & [= ->] & H).
  - done.
  - by intros (a' & ? & _).
Qed.

Lemma bind_Ok_l {A B} (m : result A) (f : A → result B) a :
  m = Ok a → m ≫= f = f a.
Proof. by intros ->. Qed.

Lemma is_Ok_Ok {A} (a : A) : is_Ok (Ok a).
Proof. by exists a. Qed.

Lemma not_is_Ok_Raise {A} e : ¬ is_Ok (@Raise A e).
Proof. by intros [a ?]. Qed.

(** A loop invariant indexed by the elements already visited. *)
Lemma for_each_invariant {S A} (I : list A → S → Prop) (l : list A)
    (body : S → A → result S) (s0 : S) :
  I [] s0 →
  (∀ visited x rest s, l = visited ++ x :: rest → I visited s →
     ∃ s', body s x = Ok s' ∧ I (visited ++ [x]) s') →
  ∃ s', for_each l body s0 = Ok s' ∧ I l s'.
Proof.
  intros H0 Hstep.
  cut (∀ rest visited s, l = visited ++ rest → I visited s →
         ∃ s', for_each rest body s = Ok s' ∧ I l s').
  { intros Hcut. by apply (Hcut l [] s0). }
  induction rest as [|x rest IH]; intros visited s Hl HI.
  - rewrite app_nil_r in Hl. subst. by exists s.
  - destruct (Hstep visited x rest s Hl HI) as (s' & Hb & HI').
    simpl. rewrite Hb. simpl.
    apply (IH (visited ++ [x])); [|done]. by rewrite <- app_assoc.
Qed.

(** The same for an invariant that does not look at the visited elements. *)
Lemma for_each_preserves {S A} (I : S → Prop) (l : list A)
    (body : S → A → result S) (s0 : S) :
  I s0 →
  (∀ x s, x ∈ l → I s → ∃ s', body s x = Ok s' ∧ I s') →
  ∃ s', for_each l body s0 = Ok s' ∧ I s'.
Proof.
  intros H0 Hstep.
  apply (for_each_invariant (fun _ => I)); [done|].
  intros visited x rest s -> HI. apply Hstep; [|done].
  apply elem_of_app. right. apply list_elem_of_here.
Qed.

Lemma for_each_app {S A} (l1 l2 : list A) (body : S → A → result S) s :
  for_each (l1 ++ l2) body s = for_each l1 body s ≫= for_each l2 body.
Proof.
  revert s. induction l1 as [|x l1 IH]; intros s; simpl; [done|].
  destruct (body s x); simpl; [apply IH|done].
Qed.

Lemma for_each_ext {S A} (l : list A) (f g : S → A → result S) s :
  (∀ s x, x ∈ l → f s x = g s x) → for_each l f s = for_each l g s.
Proof.
  revert s. induction l as [|x l IH]; intros s H; simpl; [done|].
  rewrite H by apply list_elem_of_here.
  destruct (g s x); simpl; [|done].
  apply IH. intros. apply H. by apply list_elem_of_further.
Qed.

(** ** Rationals *)

Lemma Qlt_bool_iff x y : utils.Qlt_bool x y = true ↔ (x < y)%Q.
Proof.
  unfold utils.Qlt_bool. rewrite negb_true_iff.
  split.
  - intros H. apply Qnot_le_lt. intros Hle.
    apply Qle_bool_iff in Hle. congruence.
  - intros H. destruct (Qle_bool y x) eqn:E; [|done].
    apply Qle_bool_iff in E. exfalso. by apply (Qlt_not_le x y).
Qed.

Lemma Qlt_bool_false x y : utils.Qlt_bool x y = false ↔ (y <= x)%Q.
Proof.
  unfold utils.Qlt_bool. rewrite negb_false_iff. apply Qle_bool_iff.
Qed.

Lemma py_max_spec x y :
  (x <= utils.py_max x y ∧ y <= utils.py_max x y ∧
   (utils.py_max x y = x ∨ utils.py_max x y = y))%Q.
Proof.
  unfold utils.py_max. destruct (utils.Qlt_bool x y) eqn:E.
  - apply Qlt_bool_iff in E. repeat split; [lra|lra|by right].
  - apply Qlt_bool_false in E. repeat split; [lra|lra|by left].
Qed.

Lemma py_min_spec x y :
  (utils.py_min x y <= x ∧ utils.py_min x y <= y ∧
   (utils.py_min x y = x ∨ utils.py_min x y = y))%Q.
Proof.
  unfold utils.py_min. destruct (utils.Qlt_bool y x) eqn:E.
  - apply Qlt_bool_iff in E. repeat split; [lra|lra|by right].
  - apply Qlt_bool_false in E. repeat split; [lra|lra|by left].
Qed.

(** ** utils.span_iou *)

Lemma span_widths_le (a b : Q * Q) :
  (utils.py_min a.2 b.2 - utils.py_max a.1 b.1 <=
   utils.py_max a.2 b.2 - utils.py_min a.1 b.1)%Q.
Proof.
  destruct (py_max_spec a.1 b.1) as (H1 & H2 & _).
  destruct (py_min_spec a.1 b.1) as (H3 & H4 & _).
  destruct (py_max_spec a.2 b.2) as (H5 & H6 & _).
  destruct (py_min_spec a.2 b.2) as (H7 & H8 & _).
  lra.
Qed.

Lemma span_iou_cases (a b : Q * Q) (eps : Q) :
  (0 < eps)%Q →
  let intersection := (utils.py_min a.2 b.2 - utils.py_max a.1 b.1)%Q in
  let union := (utils.py_max a.2 b.2 - utils.py_min a.1 b.1)%Q in
  ∃ r, utils.span_iou a b eps = Ok r ∧
       ((intersection < eps ∨ union < eps)%Q → r = 0%Q) ∧
       (¬ (intersection < eps ∨ union < eps)%Q → r = (intersection / union)%Q) ∧
       (0 <= r ∧ r <= 1)%Q.
Proof.
  intros Heps intersection union.
  pose proof (span_widths_le a b) as Hle. fold intersection union in Hle.
  unfold utils.span_iou, utils.span_intersection, utils.span_union. simpl.
  fold intersection union.
  destruct (utils.Qlt_bool intersection eps) eqn:Ei; simpl.
  { apply Qlt_bool_iff in Ei. exists 0%Q.
    split; [done|]. split; [done|]. split; [|lra].
    intros Hn. exfalso. apply Hn. by left. }
  apply Qlt_bool_false in Ei.
  destruct (utils.Qlt_bool union eps) eqn:Eu; simpl.
  { apply Qlt_bool_iff in Eu. exists 0%Q.
    split; [done|]. split; [done|]. split; [|lra].
    intros Hn. exfalso. apply Hn. by right. }
  apply Qlt_bool_false in Eu.
  unfold utils.py_div.
  destruct (Qeq_bool union 0) eqn:E0.
  { apply Qeq_bool_iff in E0. lra. }
  exists (intersection / union)%Q.
  split; [done|]. split; [|split; [done|]].
  - intros [H|H]; lra.
  - split.
    + apply Qle_shift_div_l; lra.
    + apply Qle_shift_div_r; lra.
Qed.

(** C7. For intervals [a] and [b] and a positive [eps], [span_iou] returns
    [0] when the intersection width [min(a.end, b.end) - max(a.start,
    b.start)] or the union width [max(a.end, b.end) - min(a.start, b.start)]
    is below [eps], and the quotient of the two widths otherwise; the
    result lies in [[0, 1]]. *)
Theorem span_iou_spec (a b : Q * Q) (eps : Q) :
  (0 < eps)%Q →
  let intersection := (utils.py_min a.2 b.2 - utils.py_max a.1 b.1)%Q in
  let union := (utils.py_max a.2 b.2 - utils.py_min a.1 b.1)%Q in
  ∃ r, utils.span_iou a b eps = Ok r ∧
       ((intersection < eps ∨ union < eps)%Q → r = 0%Q) ∧
       (¬ (intersection < eps ∨ union < eps)%Q → r = (intersection / union)%Q) ∧
       (0 <= r ∧ r <= 1)%Q.
Proof. apply span_iou_cases. Qed.

Lemma span_iou_spec_witness :
  ∃ r, utils.span_iou (1, 3 # 2)%Q (1, 6 # 5)%Q utils.default_eps = Ok r ∧
       (0 <= r ∧ r <= 1)%Q.
Proof.
  destruct (span_iou_spec (1, 3 # 2)%Q (1, 6 # 5)%Q utils.default_eps)
    as (r & Hr & _ & _ & Hb).
  - reflexivity.
  - exists r. split; [exact Hr | exact Hb].
Defined.

(** ** ExtendedTree.n_nodes on a preterminal *)

(** C10. On a preterminal, a node whose only child is a terminal string,
    [n_nodes] returns 1: the terminal is not counted. *)
Theorem n_nodes_preterminal (t : ExtendedTree) :
  is_preterminal t = true → n_nodes t = Ok 1.
Proof.
  destruct t as [i tr lr lab cs]. unfold is_preterminal. simpl.
  destruct cs as [|[s|c] [|c' cs]]; done.
Qed.

Lemma n_nodes_preterminal_witness :
  n_nodes (ETree 3 (2, 3)%Q (4, 4)%Z "NN" [inl "cat"%string]) = Ok 1.
Proof.
  apply (n_nodes_preterminal (ETree 3 (2, 3)%Q (4, 4)%Z "NN" [inl "cat"%string])).
  reflexivity.
Defined.

(** ** Trees: induction and unfolding *)

Lemma NLTKTree_ind' (P : NLTKTree → Prop) :
  (∀ lab cs,
     Forall (fun c => match c with inl _ => True | inr t => P t end) cs →
     P (NTree lab cs)) →
  ∀ t, P t.
Proof.
  intros H. fix IH 1. intros [lab cs]. apply H.
  induction cs as [|[s|c] cs IHcs]; constructor; auto.
Qed.

Lemma ExtendedTree_ind' (P : ExtendedTree → Prop) :
  (∀ i tr lr lab cs,
     Forall (fun c => match c with inl _ => True | inr t => P t end) cs →
     P (ETree i tr lr lab cs)) →
  ∀ t, P t.
Proof.
  intros H. fix IH 1. intros [i tr lr lab cs]. apply H.
  induction cs as [|[s|c] cs IHcs]; constructor; auto.
Qed.

Lemma construct_tree_unfold ts lab cs left right gi :
  construct_tree ts (NTree lab cs) left right gi =
  '(children, gi') ← construct_children ts cs left (S gi);
  first ← py_getitem ts left;
  last ← py_getitem ts (right - 1)%Z;
  Ok (ETree gi (ts_start first, ts_end last) (left + 1, right)%Z lab children, gi').
Proof.
  simpl.
  match goal with
  | |- ?loop cs left (S gi) ≫= _ = _ =>
      assert (∀ cs l g, loop cs l g = construct_children ts cs l g) as ->; [|done]
  end.
  clear. induction cs as [|[s|c] cs IH]; intros l g; simpl; [done| |].
  - by rewrite IH.
  - destruct (construct_tree ts c l _ g) as [[c' g']|e]; simpl; [|done].
    by rewrite IH.
Qed.

Lemma n_nodes_unfold i tr lr lab c cs :
  n_nodes (ETree i tr lr lab (inr c :: cs)) =
  s ← sum_n_nodes (inr c :: cs) 0; Ok (s + 1).
Proof.
  simpl.
  destruct (n_nodes c) as [n|e]; simpl; [|done].
  match goal with
  | |- ?sum cs n ≫= _ = _ =>
      assert (∀ cs a, sum cs a = sum_n_nodes cs a) as ->; [|done]
  end.
  clear. induction cs as [|[s|c] cs IH]; intros a; simpl; [done|done|].
  destruct (n_nodes c); simpl; [apply IH|done].
Qed.

Lemma nodes_unfold t :
  nodes t = t :: flat_map nodes (subtrees t).
Proof.
  destruct t as [i tr lr lab cs]. simpl. f_equal.
  unfold subtrees. simpl.
  induction cs as [|[s|c] cs IH]; simpl; [done|done|by rewrite IH].
Qed.

Lemma subtrees_inr i tr lr lab (cs : list ExtendedTree) :
  subtrees (ETree i tr lr lab (inr <$> cs)) = cs.
Proof.
  unfold subtrees. simpl. induction cs as [|c cs IH]; [done|].
  rewrite fmap_cons. simpl. by f_equal.
Qed.

Lemma size_pos t : 0 < size t.
Proof. unfold size. rewrite nodes_unfold. simpl. lia. Qed.

Lemma nodes_self t : t ∈ nodes t.
Proof. rewrite nodes_unfold. apply list_elem_of_here. Qed.

(** ** Constructed trees are well shaped *)

Lemma well_formed_label_cases lab cs :
  well_formed_label (NTree lab cs) = true →
  (∃ s, cs = [inl s]) ∨
  (cs ≠ [] ∧ ∃ ts, cs = inr <$> ts ∧ Forall (fun t => well_formed_label t = true) ts).
Proof.
  simpl. destruct cs as [|c cs]; [done|].
  assert (forallb (fun c => match c with
                            | inl _ => false
                            | inr t' => well_formed_label t'
                            end) (c :: cs) = true →
          ∃ ts, c :: cs = inr <$> ts ∧ Forall (fun t => well_formed_label t = true) ts)
    as Hall.
  { generalize (c :: cs). clear. intros l.
    induction l as [|[s|t] l IH]; simpl; intros H.
    - by exists [].
    - done.
    - apply andb_true_iff in H as [Ht Hl].
      destruct (IH Hl) as (ts & -> & Hts).
      exists (t :: ts). split; [done|]. by constructor. }
  destruct c as [s|t].
  - destruct cs as [|c' cs]; [left; by exists s|].
    intros H. simpl in H. done.
  - intros H. right. split; [done|]. apply Hall.
    destruct cs; exact H.
Qed.

Lemma construct_children_spec ts (cs : list NLTKTree) :
  Forall (fun node =>
    ∀ left right gi T gi',
      right = (left + Z.of_nat (length (NLTK.leaves node)))%Z →
      construct_tree ts node left right gi = Ok (T, gi') →
      wf_ext T ∧ index T = gi ∧ gi' = gi + size T ∧
      leaf_range T = ((left + 1)%Z, right)) cs →
  ∀ cl gi children gi',
    construct_children ts (inr <$> cs) cl gi = Ok (children, gi') →
    ∃ cs', children = inr <$> cs' ∧
      wf_forest gi (cl + 1)%Z
        (cl + Z.of_nat (length (flat_map NLTK.leaves cs)))%Z cs' ∧
      gi' = gi + length (flat_map nodes cs') ∧
      length cs' = length cs.
Proof.
  induction 1 as [|c cs Hc _ IH]; intros cl gi children gi' Hrun.
  - simpl in Hrun. injection Hrun as <- <-. exists []. simpl.
    split; [done|]. split; [|split; [lia|done]].
    match goal with
    | |- wf_forest _ _ ?r _ => replace r with (cl + 1 - 1)%Z by (simpl; lia)
    end.
    constructor.
  - rewrite fmap_cons in Hrun. simpl in Hrun.
    apply bind_Ok in Hrun as ([c' g1] & Hc' & Hrun).
    apply bind_Ok in Hrun as ([rest g2] & Hrest & Hrun).
    injection Hrun as <- <-.
    destruct (Hc _ _ _ _ _ eq_refl Hc') as (Hwf & Hidx & Hg1 & Hlr).
    destruct (IH _ _ _ _ Hrest) as (cs' & -> & Hfor & Hg2 & Hlen).
    exists (c' :: cs'). split; [done|]. split; [|split].
    + constructor; [done|done|by unfold lleaf; rewrite Hlr|].
      unfold rleaf. rewrite Hlr. simpl. rewrite <- Hg1.
      rewrite length_app, Nat2Z.inj_add.
      match goal with
      | |- wf_forest _ _ ?r _ =>
          replace r with (cl + Z.of_nat (length (NLTK.leaves c)) +
                          Z.of_nat (length (flat_map NLTK.leaves cs)))%Z by lia
      end.
      exact Hfor.
    + simpl. rewrite length_app. unfold size in Hg1. lia.
    + simpl. by rewrite Hlen.
Qed.

Lemma NLTK_leaves_inr lab (cs : list NLTKTree) :
  NLTK.leaves (NTree lab (inr <$> cs)) = flat_map NLTK.leaves cs.
Proof.
  simpl. induction cs as [|c cs IH]; [done|].
  rewrite fmap_cons. simpl. by rewrite IH.
Qed.

Lemma nodes_inr i tr lr lab (cs : list ExtendedTree) :
  nodes (ETree i tr lr lab (inr <$> cs)) =
  ETree i tr lr lab (inr <$> cs) :: flat_map nodes cs.
Proof. by rewrite nodes_unfold, subtrees_inr. Qed.

Lemma construct_tree_spec ts node :
  well_formed_label node = true →
  ∀ left right gi T gi',
    right = (left + Z.of_nat (length (NLTK.leaves node)))%Z →
    construct_tree ts node left right gi = Ok (T, gi') →
    wf_ext T ∧ index T = gi ∧ gi' = gi + size T ∧
    leaf_range T = ((left + 1)%Z, right).
Proof.
  induction node as [lab cs IH] using NLTKTree_ind'.
  intros Hwf left right gi T gi' Hright Hrun.
  rewrite construct_tree_unfold in Hrun.
  apply bind_Ok in Hrun as ([children g1] & Hch & Hrun).
  apply bind_Ok in Hrun as (first & _ & Hrun).
  apply bind_Ok in Hrun as (last & _ & Hrun).
  injection Hrun as <- <-.
  destruct (well_formed_label_cases _ _ Hwf) as [[s ->]|(Hne & cs' & -> & Hall)].
  - simpl in Hch. injection Hch as <- <-. simpl in Hright.
    replace right with (left + 1)%Z by lia.
    split; [constructor|]. split; [done|]. split; [|done].
    unfold size. simpl. lia.
  - assert (Forall (fun node =>
      ∀ left right gi T gi',
        right = (left + Z.of_nat (length (NLTK.leaves node)))%Z →
        construct_tree ts node left right gi = Ok (T, gi') →
        wf_ext T ∧ index T = gi ∧ gi' = gi + size T ∧
        leaf_range T = ((left + 1)%Z, right)) cs') as Hcs.
    { apply Forall_forall. intros c Hc.
      rewrite Forall_forall in IH. rewrite Forall_forall in Hall.
      apply (IH (inr c)); [|by apply Hall].
      apply list_elem_of_fmap. by exists c. }
    destruct (construct_children_spec ts cs' Hcs _ _ _ _ Hch)
      as (cs'' & -> & Hfor & Hg1 & Hlen).
    rewrite NLTK_leaves_inr in Hright. subst right.
    split.
    + constructor; [|done]. intros ->. destruct cs'; [by apply Hne|done].
    + split; [done|]. split; [|done].
      unfold size. rewrite nodes_inr. simpl. lia.
Qed.

Lemma WellFormed_wf_ext T :
  WellFormed T → wf_ext T ∧ index T = 0 ∧ lleaf T = 1%Z.
Proof.
  intros (tree & ts & Hwf & Hlen & Hrun).
  unfold from_tree_and_leaf_timestamps in Hrun.
  apply bind_Ok in Hrun as ([T' g] & Hrun & [= ->]).
  apply construct_tree_spec in Hrun as (H1 & H2 & _ & H4); [|done|lia].
  unfold lleaf. rewrite H4. done.
Qed.

(** ** Facts about well-shaped trees *)

Lemma elem_of_flat_map {A B} (f : A → list B) (l : list A) (y : B) :
  y ∈ flat_map f l ↔ ∃ x, x ∈ l ∧ y ∈ f x.
Proof.
  rewrite list_elem_of_In, in_flat_map. split.
  - intros (x & H1 & H2). exists x. by rewrite !list_elem_of_In.
  - intros (x & H1 & H2). exists x. by rewrite <- !list_elem_of_In.
Qed.

Lemma nodes_descendants t : nodes t = t :: descendants t.
Proof. apply nodes_unfold. Qed.

Lemma wf_indices_both :
  (∀ t, wf_ext t → index <$> nodes t = seq (index t) (size t)) ∧
  (∀ i l r cs, wf_forest i l r cs →
     index <$> flat_map nodes cs = seq i (length (flat_map nodes cs))).
Proof.
  apply wf_mutind.
  - intros. done.
  - intros i tr l r lab cs Hne _ IH.
    unfold size. rewrite nodes_inr, fmap_cons, IH. reflexivity.
  - done.
  - intros i l r c cs _ IHc Hi Hl _ IHcs. cbn [flat_map].
    rewrite fmap_app, length_app, seq_app, IHc, IHcs, Hi. done.
Qed.

Lemma wf_indices t : wf_ext t → index <$> nodes t = seq (index t) (size t).
Proof. apply wf_indices_both. Qed.

Lemma wf_index_inj t u v :
  wf_ext t → u ∈ nodes t → v ∈ nodes t → index u = index v → u = v.
Proof.
  intros Hwf Hu Hv Heq.
  assert (NoDup (index <$> nodes t)) as Hnd.
  { rewrite wf_indices by done. apply NoDup_seq. }
  apply list_elem_of_lookup in Hu as [i Hi].
  apply list_elem_of_lookup in Hv as [j Hj].
  assert (i = j) as ->.
  { eapply NoDup_lookup; [exact Hnd| |].
    - rewrite list_lookup_fmap, Hi. done.
    - rewrite list_lookup_fmap, Hj. simpl. by rewrite Heq. }
  congruence.
Qed.

Lemma wf_index_range t u :
  wf_ext t → u ∈ nodes t → index t ≤ index u < index t + size t.
Proof.
  intros Hwf Hu.
  assert (index u ∈ index <$> nodes t) as H.
  { apply list_elem_of_fmap. by exists u. }
  rewrite wf_indices in H by done. apply elem_of_seq in H. lia.
Qed.

Lemma wf_ranges_both :
  (∀ t, wf_ext t →
     ∀ u, u ∈ nodes t → (lleaf t ≤ lleaf u ∧ lleaf u ≤ rleaf u ∧ rleaf u ≤ rleaf t)%Z) ∧
  (∀ i l r cs, wf_forest i l r cs →
     (l ≤ r + 1)%Z ∧ (cs ≠ [] → (l ≤ r)%Z) ∧
     ∀ u, u ∈ flat_map nodes cs → (l ≤ lleaf u ∧ lleaf u ≤ rleaf u ∧ rleaf u ≤ r)%Z).
Proof.
  apply wf_mutind.
  - intros i tr l lab s u Hu. simpl in Hu.
    apply list_elem_of_singleton in Hu as ->. unfold lleaf, rleaf. simpl. lia.
  - intros i tr l r lab cs Hne _ (H1 & H2 & H3) u Hu.
    rewrite nodes_inr in Hu. apply elem_of_cons in Hu as [->|Hu].
    + unfold lleaf, rleaf. simpl. specialize (H2 Hne). lia.
    + unfold lleaf at 1, rleaf at 2. simpl. by apply H3.
  - intros i l. split; [lia|]. split; [done|]. intros u Hu. simpl in Hu.
    by apply elem_of_nil in Hu.
  - intros i l r c cs _ IHc Hi Hl _ (H1 & H2 & H3).
    pose proof (IHc c (nodes_self c)) as Hc.
    split; [lia|]. split; [lia|]. intros u Hu. simpl in Hu.
    apply elem_of_app in Hu as [Hu|Hu].
    + specialize (IHc u Hu). lia.
    + specialize (H3 u Hu). lia.
Qed.

Lemma wf_ranges t u :
  wf_ext t → u ∈ nodes t →
  (lleaf t ≤ lleaf u ∧ lleaf u ≤ rleaf u ∧ rleaf u ≤ rleaf t)%Z.
Proof. intros H. by apply wf_ranges_both. Qed.

Lemma wf_hereditary_both :
  (∀ t, wf_ext t → ∀ u, u ∈ nodes t → wf_ext u) ∧
  (∀ i l r cs, wf_forest i l r cs → ∀ u, u ∈ flat_map nodes cs → wf_ext u).
Proof.
  apply wf_mutind.
  - intros i tr l lab s u Hu. simpl in Hu.
    apply list_elem_of_singleton in Hu as ->. constructor.
  - intros i tr l r lab cs Hne Hfor IH u Hu.
    rewrite nodes_inr in Hu. apply elem_of_cons in Hu as [->|Hu].
    + by constructor.
    + by apply IH.
  - intros i l u Hu. simpl in Hu. by apply elem_of_nil in Hu.
  - intros i l r c cs _ IHc Hi Hl _ IHcs u Hu. simpl in Hu.
    apply elem_of_app in Hu as [Hu|Hu]; auto.
Qed.

Lemma wf_hereditary t u : wf_ext t → u ∈ nodes t → wf_ext u.
Proof. intros H. by apply wf_hereditary_both. Qed.

Lemma leaves_inr i tr lr lab (cs : list ExtendedTree) :
  leaves (ETree i tr lr lab (inr <$> cs)) = flat_map leaves cs.
Proof.
  simpl. induction cs as [|c cs IH]; [done|].
  rewrite fmap_cons. simpl. by rewrite IH.
Qed.

Lemma wf_leaves_both :
  (∀ t, wf_ext t → Z.of_nat (length (leaves t)) = (rleaf t - lleaf t + 1)%Z) ∧
  (∀ i l r cs, wf_forest i l r cs →
     Z.of_nat (length (flat_map leaves cs)) = (r - l + 1)%Z).
Proof.
  apply wf_mutind.
  - intros. unfold lleaf, rleaf. simpl. lia.
  - intros i tr l r lab cs Hne _ IH. rewrite leaves_inr.
    unfold lleaf, rleaf. simpl. done.
  - intros. simpl. lia.
  - intros i l r c cs _ IHc Hi Hl _ IHcs. simpl.
    rewrite length_app, Nat2Z.inj_add, IHc, IHcs. lia.
Qed.

Lemma wf_leaves t :
  wf_ext t → Z.of_nat (length (leaves t)) = (rleaf t - lleaf t + 1)%Z.
Proof. apply wf_leaves_both. Qed.

Lemma wf_n_nodes_both :
  (∀ t, wf_ext t → n_nodes t = Ok (size t)) ∧
  (∀ i l r cs, wf_forest i l r cs →
     ∀ acc, sum_n_nodes (inr <$> cs) acc = Ok (acc + length (flat_map nodes cs))).
Proof.
  apply wf_mutind.
  - done.
  - intros i tr l r lab cs Hne _ IH.
    destruct cs as [|c cs]; [done|].
    rewrite fmap_cons, n_nodes_unfold, <- fmap_cons, IH. simpl.
    unfold size. rewrite <- fmap_cons, nodes_inr. simpl. f_equal. lia.
  - intros. simpl. f_equal. lia.
  - intros i l r c cs _ IHc Hi Hl _ IHcs acc.
    rewrite fmap_cons. simpl. rewrite IHc. simpl. rewrite IHcs.
    f_equal. rewrite length_app. unfold size. lia.
Qed.

Lemma wf_n_nodes t : wf_ext t → n_nodes t = Ok (size t).
Proof. apply wf_n_nodes_both. Qed.

(** Nodes in pre-order are ordered by the left end of their leaf range. *)
Lemma wf_sorted_both :
  (∀ t, wf_ext t → StronglySorted (fun u v => (lleaf u ≤ lleaf v)%Z) (nodes t)) ∧
  (∀ i l r cs, wf_forest i l r cs →
     StronglySorted (fun u v => (lleaf u ≤ lleaf v)%Z) (flat_map nodes cs)).
Proof.
  apply wf_mutind.
  - intros. simpl. repeat constructor.
  - intros i tr l r lab cs Hne Hfor IH. rewrite nodes_inr.
    constructor; [done|]. apply Forall_forall. intros u Hu.
    apply wf_ranges_both in Hfor as (_ & _ & H). specialize (H u Hu).
    unfold lleaf at 1. simpl. lia.
  - constructor.
  - intros i l r c cs Hc IHc Hi Hl Hfor IHcs. simpl.
    apply StronglySorted_app_2; [|done|done].
    intros u v Hu Hv.
    pose proof (wf_ranges c u Hc Hu) as Hcu.
    apply wf_ranges_both in Hfor as (_ & _ & H). specialize (H v Hv). lia.
Qed.

Lemma wf_sorted t :
  wf_ext t → StronglySorted (fun u v => (lleaf u ≤ lleaf v)%Z) (nodes t).
Proof. apply wf_sorted_both. Qed.

(** The subtree of a node is a contiguous block of the pre-order. *)
Lemma nodes_contiguous t u :
  u ∈ nodes t → ∃ D1 D2, nodes t = D1 ++ nodes u ++ D2.
Proof.
  induction t as [i tr lr lab cs IH] using ExtendedTree_ind'.
  intros Hu. rewrite nodes_unfold in Hu. apply elem_of_cons in Hu as [->|Hu].
  { exists [], []. by rewrite app_nil_r. }
  apply elem_of_flat_map in Hu as (c & Hc & Hu).
  assert (inr c ∈ cs) as Hc'.
  { unfold subtrees in Hc. apply list_elem_of_omap in Hc as ([s|c'] & Hin & Heq);
      [done|]. by injection Heq as ->. }
  rewrite Forall_forall in IH. destruct (IH _ Hc' Hu) as (D1 & D2 & HD).
  apply list_elem_of_split in Hc as (l1 & l2 & Hl).
  rewrite nodes_unfold, Hl, flat_map_app. simpl. rewrite HD.
  exists (ETree i tr lr lab cs :: flat_map nodes l1 ++ D1), (D2 ++ flat_map nodes l2).
  simpl. by rewrite <- !app_assoc.
Qed.

Lemma descendants_contiguous t u :
  u ∈ descendants t → ∃ D1 D2, descendants t = D1 ++ nodes u ++ D2.
Proof.
  unfold descendants. intros Hu.
  apply elem_of_flat_map in Hu as (c & Hc & Hu).
  destruct (nodes_contiguous c u Hu) as (D1 & D2 & HD).
  apply list_elem_of_split in Hc as (l1 & l2 & ->).
  rewrite flat_map_app. simpl. rewrite HD.
  exists (flat_map nodes l1 ++ D1), (D2 ++ flat_map nodes l2).
  by rewrite <- !app_assoc.
Qed.

Lemma descendants_size t u : u ∈ descendants t → size u < size t.
Proof.
  intros Hu. destruct (descendants_contiguous t u Hu) as (D1 & D2 & HD).
  unfold size at 2. rewrite nodes_descendants, HD. simpl.
  rewrite !length_app. unfold size. lia.
Qed.

Lemma descendants_nodes t u : u ∈ descendants t → u ∈ nodes t.
Proof. intros H. rewrite nodes_descendants. by apply list_elem_of_further. Qed.

Lemma wf_descendant_index t u :
  wf_ext t → u ∈ descendants t → index u ≠ index t.
Proof.
  intros Hwf Hu Heq.
  assert (NoDup (index <$> nodes t)) as Hnd.
  { rewrite wf_indices by done. apply NoDup_seq. }
  rewrite nodes_descendants, fmap_cons in Hnd. apply NoDup_cons in Hnd as [Hn _].
  apply Hn. rewrite <- Heq. apply list_elem_of_fmap. by exists u.
Qed.

(** ** The dictionary [_index2node] *)

Lemma index2node_map_unfold i tr lr lab cs :
  index2node_map (ETree i tr lr lab cs) =
  fold_left (fun m c => match c with
                        | inl _ => m
                        | inr t' => index2node_map t' ∪ m
                        end) cs {[ i := ETree i tr lr lab cs ]}.
Proof. reflexivity. Qed.

Lemma fold_update_lookup (cs : list (string + ExtendedTree)) (m0 : gmap nat ExtendedTree) k u :
  fold_left (fun m c => match c with
                        | inl _ => m
                        | inr t' => index2node_map t' ∪ m
                        end) cs m0 !! k = Some u →
  m0 !! k = Some u ∨ ∃ c, inr c ∈ cs ∧ index2node_map c !! k = Some u.
Proof.
  revert m0. induction cs as [|[s|c] cs IH]; intros m0 H; simpl in H.
  - by left.
  - destruct (IH _ H) as [?|(c & Hc & ?)]; [by left|].
    right. exists c. split; [by apply list_elem_of_further|done].
  - destruct (IH _ H) as [Hu|(c' & Hc & ?)].
    + apply lookup_union_Some_raw in Hu as [Hu|[_ Hu]].
      * right. exists c. split; [apply list_elem_of_here|done].
      * by left.
    + right. exists c'. split; [by apply list_elem_of_further|done].
Qed.

Lemma fold_update_is_Some (cs : list (string + ExtendedTree)) (m0 : gmap nat ExtendedTree) k :
  is_Some (fold_left (fun m c => match c with
                                 | inl _ => m
                                 | inr t' => index2node_map t' ∪ m
                                 end) cs m0 !! k) ↔
  is_Some (m0 !! k) ∨ ∃ c, inr c ∈ cs ∧ is_Some (index2node_map c !! k).
Proof.
  revert m0. induction cs as [|[s|c] cs IH]; intros m0; simpl.
  - split; [by left|]. intros [?|(c & Hc & _)]; [done|]. by apply elem_of_nil in Hc.
  - rewrite IH. split; intros [?|(c & Hc & ?)]; try by left.
    + right. exists c. split; [by apply list_elem_of_further|done].
    + right. exists c. split; [|done].
      apply elem_of_cons in Hc as [?|?]; [done|done].
  - rewrite IH, lookup_union_is_Some. split.
    + intros [[?|?]|(c' & Hc & ?)].
      * right. exists c. split; [apply list_elem_of_here|done].
      * by left.
      * right. exists c'. split; [by apply list_elem_of_further|done].
    + intros [?|(c' & Hc & ?)]; [left; by right|].
      apply elem_of_cons in Hc as [[= ->]|Hc]; [left; by left|].
      right. by exists c'.
Qed.

Lemma inr_children_subtrees t c : inr c ∈ children t ↔ c ∈ subtrees t.
Proof.
  unfold subtrees. rewrite list_elem_of_omap. split.
  - intros H. by exists (inr c).
  - intros ([s|c'] & H & Heq); [done|]. by injection Heq as ->.
Qed.

Lemma index2node_map_sound t k u :
  index2node_map t !! k = Some u → u ∈ nodes t ∧ index u = k.
Proof.
  revert k u. induction t as [i tr lr lab cs IH] using ExtendedTree_ind'.
  intros k u H. rewrite index2node_map_unfold in H.
  apply fold_update_lookup in H as [H|(c & Hc & H)].
  - apply lookup_singleton_Some in H as [<- <-]. split; [apply nodes_self|done].
  - rewrite Forall_forall in IH. destruct (IH _ Hc _ _ H) as [Hu Hk].
    split; [|done]. rewrite nodes_unfold. apply list_elem_of_further.
    apply elem_of_flat_map. exists c. split; [|done].
    by apply inr_children_subtrees.
Qed.

Lemma index2node_map_dom t k :
  is_Some (index2node_map t !! k) ↔ ∃ u, u ∈ nodes t ∧ index u = k.
Proof.
  revert k. induction t as [i tr lr lab cs IH] using ExtendedTree_ind'.
  intros k. rewrite index2node_map_unfold, fold_update_is_Some.
  rewrite Forall_forall in IH. split.
  - intros [H|(c & Hc & H)].
    + destruct H as [u H]. apply lookup_singleton_Some in H as [<- <-].
      eexists. split; [apply nodes_self|done].
    + apply (IH _ Hc) in H as (u & Hu & Hk). exists u. split; [|done].
      rewrite nodes_unfold. apply list_elem_of_further.
      apply elem_of_flat_map. exists c. split; [|done].
      by apply inr_children_subtrees.
  - intros (u & Hu & Hk). rewrite nodes_unfold in Hu.
    apply elem_of_cons in Hu as [->|Hu].
    + left. subst k. simpl. rewrite lookup_singleton_eq. by eexists.
    + right. apply elem_of_flat_map in Hu as (c & Hc & Hu).
      apply inr_children_subtrees in Hc. exists c. split; [done|].
      apply (IH _ Hc). by exists u.
Qed.

Lemma wf_index2node t u :
  wf_ext t → u ∈ nodes t → index2node t (index u) = Ok u.
Proof.
  intros Hwf Hu. unfold index2node.
  destruct (index2node_map t !! index u) as [u'|] eqn:E.
  - apply index2node_map_sound in E as [Hu' Heq].
    by rewrite (wf_index_inj t u' u Hwf Hu' Hu Heq).
  - assert (is_Some (index2node_map t !! index u)) as [? ?]; [|congruence].
    apply index2node_map_dom. by exists u.
Qed.

Lemma StronglySorted_seq i n : StronglySorted le (seq i n).
Proof.
  revert i. induction n as [|n IH]; intros i; simpl; constructor; [apply IH|].
  apply Forall_forall. intros k Hk. apply elem_of_seq in Hk. lia.
Qed.

Lemma wf_subtree_indices t :
  wf_ext t → subtree_indices t = seq (index t) (size t).
Proof.
  intros Hwf. unfold subtree_indices.
  apply (StronglySorted_unique le).
  - apply StronglySorted_merge_sort; apply _.
  - apply StronglySorted_seq.
  - rewrite merge_sort_Permutation.
    assert (dom (index2node_map t) = list_to_set (seq (index t) (size t))) as ->.
    { apply set_eq. intros k.
      rewrite elem_of_dom, index2node_map_dom, elem_of_list_to_set.
      rewrite <- wf_indices by done. rewrite list_elem_of_fmap.
      split; intros (u & H1 & H2); exists u; done. }
    apply elements_list_to_set, NoDup_seq.
Qed.

(** The nodes of a well-shaped tree, by position in the pre-order. *)
Lemma wf_nodes_lookup t k u :
  wf_ext t → nodes t !! k = Some u → index u = index t + k.
Proof.
  intros Hwf Hk.
  assert ((index <$> nodes t) !! k = Some (index u)) as H.
  { by rewrite list_lookup_fmap, Hk. }
  rewrite wf_indices in H by done.
  apply lookup_seq in H as [-> _]. done.
Qed.

(** ** When construction succeeds *)

Lemma py_getitem_Ok {A} (l : list A) (i : Z) :
  (0 ≤ i < Z.of_nat (length l))%Z → ∃ x, py_getitem l i = Ok x.
Proof.
  intros Hi. unfold py_getitem.
  destruct (Z.leb_spec 0 i) as [_|?]; [|lia].
  destruct (Z.leb_spec 0 i) as [_|?]; [|lia].
  destruct (l !! Z.to_nat i) as [x|] eqn:E; [by exists x|].
  apply lookup_ge_None in E. lia.
Qed.

Lemma py_getitem_Raise {A} (l : list A) (i : Z) :
  (Z.of_nat (length l) ≤ i)%Z → py_getitem l i = Raise IndexError.
Proof.
  intros Hi. unfold py_getitem.
  destruct (Z.leb_spec 0 i) as [_|?]; [|lia].
  destruct (Z.leb_spec 0 i) as [_|?]; [|lia].
  destruct (l !! Z.to_nat i) as [x|] eqn:E; [|done].
  apply lookup_lt_Some in E. lia.
Qed.

Lemma py_getitem_error {A} (l : list A) (i : Z) e :
  py_getitem l i = Raise e → e = IndexError.
Proof.
  unfold py_getitem.
  destruct (0 <=? i)%Z.
  - destruct (0 <=? i)%Z; [|congruence].
    destruct (l !! Z.to_nat i); congruence.
  - destruct (0 <=? _)%Z; [|congruence].
    destruct (l !! Z.to_nat _); congruence.
Qed.

(** [IndexError] is the only exception construction can raise. *)
Lemma construct_tree_error ts node :
  ∀ left right gi e, construct_tree ts node left right gi = Raise e → e = IndexError.
Proof.
  induction node as [lab cs IH] using NLTKTree_ind'.
  intros left right gi e. rewrite construct_tree_unfold.
  assert (∀ cl g e, construct_children ts cs cl g = Raise e → e = IndexError) as Hcs.
  { clear left right gi e. induction cs as [|[s|c] cs IHcs]; intros cl g e; simpl.
    - done.
    - apply Forall_cons in IH as [_ IH].
      destruct (construct_children ts cs _ g) as [[rest g']|e'] eqn:E; simpl; [done|].
      intros [= <-]. by eapply IHcs.
    - apply Forall_cons in IH as [Hc IH].
      destruct (construct_tree ts c cl _ g) as [[c' g1]|e'] eqn:Ec; simpl.
      + destruct (construct_children ts cs _ g1) as [[rest g']|e'] eqn:E; simpl; [done|].
        intros [= <-]. by eapply IHcs.
      + intros [= <-]. by eapply Hc. }
  destruct (construct_children ts cs left (S gi)) as [[children g1]|e'] eqn:E; simpl.
  - destruct (py_getitem ts left) as [first|e1] eqn:E1; simpl.
    + destruct (py_getitem ts (right - 1)) as [last|e2] eqn:E2; simpl; [done|].
      intros [= <-]. by eapply py_getitem_error.
    + intros [= <-]. by eapply py_getitem_error.
  - intros [= <-]. by eapply Hcs.
Qed.

Lemma well_formed_label_leaves node :
  well_formed_label node = true → 0 < length (NLTK.leaves node).
Proof.
  induction node as [lab cs IH] using NLTKTree_ind'. intros Hwf.
  destruct (well_formed_label_cases _ _ Hwf) as [[s ->]|(Hne & cs' & -> & Hall)].
  - simpl. lia.
  - rewrite NLTK_leaves_inr. destruct cs' as [|c cs']; [done|].
    simpl. rewrite length_app.
    apply Forall_cons in Hall as [Hc _]. rewrite fmap_cons in IH.
    apply Forall_cons in IH as [IHc _]. specialize (IHc Hc). lia.
Qed.

Lemma construct_tree_succeeds ts node :
  well_formed_label node = true →
  ∀ left right gi,
    (0 ≤ left)%Z →
    (left + Z.of_nat (length (NLTK.leaves node)) ≤ Z.of_nat (length ts))%Z →
    (left < right ≤ Z.of_nat (length ts))%Z →
    ∃ T gi', construct_tree ts node left right gi = Ok (T, gi').
Proof.
  induction node as [lab cs IH] using NLTKTree_ind'.
  intros Hwf left right gi Hl Hfit Hr. rewrite construct_tree_unfold.
  assert (∃ children g1, construct_children ts cs left (S gi) = Ok (children, g1))
    as (children & g1 & ->).
  { destruct (well_formed_label_cases _ _ Hwf) as [[s ->]|(Hne & cs' & -> & Hall)].
    - simpl. by eexists _, _.
    - rewrite NLTK_leaves_inr in Hfit. clear Hwf Hne Hr right.
      generalize (S gi). revert left Hl Hfit.
      induction cs' as [|c cs' IHcs]; intros left Hl Hfit g.
      + simpl. by eexists _, _.
      + rewrite fmap_cons in IH. apply Forall_cons in IH as [IHc IH].
        apply Forall_cons in Hall as [Hc Hall].
        simpl in Hfit. rewrite length_app in Hfit.
        pose proof (well_formed_label_leaves c Hc) as Hpos.
        rewrite fmap_cons. simpl.
        destruct (IHc Hc left (left + Z.of_nat (length (NLTK.leaves c)))%Z g)
          as (c' & g' & ->); [lia|lia|lia|]. simpl.
        destruct (IHcs IH Hall (left + Z.of_nat (length (NLTK.leaves c)))%Z
                    ltac:(lia) ltac:(lia) g') as (rest & g2 & ->).
        simpl. by eexists _, _. }
  simpl.
  destruct (py_getitem_Ok ts left) as [first ->]; [lia|].
  destruct (py_getitem_Ok ts (right - 1)%Z) as [last ->]; [lia|].
  simpl. by eexists _, _.
Qed.

Lemma construct_tree_overflow ts node :
  well_formed_label node = true →
  ∀ left right gi,
    (0 ≤ left)%Z →
    (Z.of_nat (length ts) < left + Z.of_nat (length (NLTK.leaves node)))%Z →
    construct_tree ts node left right gi = Raise IndexError.
Proof.
  induction node as [lab cs IH] using NLTKTree_ind'.
  intros Hwf left right gi Hl Hover. rewrite construct_tree_unfold.
  destruct (well_formed_label_cases _ _ Hwf) as [[s ->]|(Hne & cs' & -> & Hall)].
  - simpl in Hover. rewrite (py_getitem_Raise ts left) by lia. done.
  - rewrite NLTK_leaves_inr in Hover.
    assert (construct_children ts (inr <$> cs') left (S gi) = Raise IndexError) as ->;
      [|done].
    assert ((left ≤ Z.of_nat (length ts))%Z ∨ cs' ≠ []) as Hor.
    { right. intros ->. by apply Hne. }
    clear Hwf Hne right. generalize (S gi). revert left Hl Hover Hor.
    induction cs' as [|c cs' IHcs]; intros left Hl Hover Hor g.
    + simpl in Hover. destruct Hor; [lia|done].
    + rewrite fmap_cons in IH. apply Forall_cons in IH as [IHc IH].
      apply Forall_cons in Hall as [Hc Hall].
      simpl in Hover. rewrite length_app in Hover.
      rewrite fmap_cons. simpl.
      destruct (construct_tree ts c left _ g) as [[c' g']|e] eqn:Ec; simpl.
      * destruct (Z.le_gt_cases
                    (left + Z.of_nat (length (NLTK.leaves c))) (Z.of_nat (length ts)))
          as [Hfit|Hbig].
        -- rewrite IHcs; [done|done|done|lia|lia|left; lia].
        -- rewrite IHc in Ec; [done|done|lia|lia].
      * f_equal. by eapply construct_tree_error.
Qed.

(** The root of a constructed tree, whatever the number of timestamps:
    with the right end of its leaf range put at its number of leaves, the
    tree is well shaped. *)
Lemma construct_tree_root ts node :
  well_formed_label node = true →
  ∀ left right gi T gi',
    construct_tree ts node left right gi = Ok (T, gi') →
    index T = gi ∧ leaf_range T = ((left + 1)%Z, right) ∧ gi' = gi + size T ∧
    wf_ext (ETree gi (time_range T)
              ((left + 1)%Z, (left + Z.of_nat (length (NLTK.leaves node)))%Z)
              (label T) (children T)).
Proof.
  destruct node as [lab cs]. intros Hwf left right gi T gi' Hrun.
  rewrite construct_tree_unfold in Hrun.
  apply bind_Ok in Hrun as ([chs g1] & Hch & Hrun).
  apply bind_Ok in Hrun as (first & _ & Hrun).
  apply bind_Ok in Hrun as (last & _ & Hrun).
  injection Hrun as <- <-. cbn [index leaf_range time_range label children].
  destruct (well_formed_label_cases _ _ Hwf) as [[s ->]|(Hne & cs' & -> & Hall)].
  - simpl in Hch. injection Hch as <- <-.
    split; [done|]. split; [done|]. split; [unfold size; simpl; lia|].
    match goal with
    | |- wf_ext (ETree _ _ (_, ?r) _ _) => replace r with (left + 1)%Z by (simpl; lia)
    end.
    constructor.
  - assert (Forall (fun node =>
      ∀ left right gi T gi',
        right = (left + Z.of_nat (length (NLTK.leaves node)))%Z →
        construct_tree ts node left right gi = Ok (T, gi') →
        wf_ext T ∧ index T = gi ∧ gi' = gi + size T ∧
        leaf_range T = ((left + 1)%Z, right)) cs') as Hcs.
    { eapply Forall_impl; [exact Hall|]. intros c Hc. by apply construct_tree_spec. }
    destruct (construct_children_spec ts cs' Hcs _ _ _ _ Hch)
      as (cs'' & -> & Hfor & Hg1 & Hlen).
    split; [done|]. split; [done|]. split.
    + unfold size. rewrite nodes_inr. simpl. lia.
    + rewrite NLTK_leaves_inr. constructor; [|done].
      intros ->. destruct cs'; [by apply Hne|done].
Qed.

(** ** Construction: what it checks and what it guarantees *)

Lemma n_nodes_children t t' : children t = children t' → n_nodes t = n_nodes t'.
Proof. destruct t, t'. simpl. by intros ->. Qed.

Lemma leaves_children t t' : children t = children t' → leaves t = leaves t'.
Proof. destruct t, t'. simpl. by intros ->. Qed.

Lemma size_subtrees t : size t = 1 + sum_list (size <$> subtrees t).
Proof.
  unfold size. rewrite nodes_unfold. simpl. f_equal.
  induction (subtrees t) as [|c cs IH]; [done|].
  simpl. rewrite length_app, IH. done.
Qed.

Lemma subtrees_descendants t c : c ∈ subtrees t → c ∈ descendants t.
Proof.
  intros Hc. apply elem_of_flat_map. exists c. split; [done|apply nodes_self].
Qed.

Lemma wf_n_nodes_children u :
  wf_ext u →
  ∃ ns, Forall2 (fun c n => n_nodes c = Ok n) (subtrees u) ns ∧
        n_nodes u = Ok (1 + sum_list ns).
Proof.
  intros Hwf. exists (size <$> subtrees u). split.
  - apply Forall2_fmap_r, Forall_Forall2_diag, Forall_forall. intros c Hc.
    apply wf_n_nodes. apply (wf_hereditary u); [done|].
    by apply descendants_nodes, subtrees_descendants.
  - rewrite wf_n_nodes by done. by rewrite size_subtrees.
Qed.

(** C6, as the code has it.  Construction validates nothing.  For a
    well-formed label tree it raises [IndexError] when the tree has more
    leaves than there are timestamps, and returns a tree, whose root has
    leaf range [(1, len(leaf_timestamps))], when it has as many leaves or
    fewer.  A node whose children are two or more terminals is accepted too;
    it is [n_nodes] that raises [AssertionError] on the tree returned. *)
Theorem construction_checks :
  (∀ tree ts,
     well_formed_label tree = true →
     (length ts < length (NLTK.leaves tree) →
      from_tree_and_leaf_timestamps tree ts = Raise IndexError) ∧
     (length (NLTK.leaves tree) ≤ length ts →
      ∃ T, from_tree_and_leaf_timestamps tree ts = Ok T ∧
           leaf_range T = (1%Z, Z.of_nat (length ts)))) ∧
  (∀ lab s1 s2 (ss : list string) ts,
     ts ≠ [] →
     ∃ T, from_tree_and_leaf_timestamps
            (NTree lab (inl s1 :: inl s2 :: (inl <$> ss))) ts = Ok T ∧
          n_nodes T = Raise AssertionError).
Proof.
  split.
  - intros tree ts Hwf. unfold from_tree_and_leaf_timestamps. split.
    + intros Hlt. rewrite construct_tree_overflow; [done|done|lia|lia].
    + intros Hle. pose proof (well_formed_label_leaves tree Hwf) as Hpos.
      destruct (construct_tree_succeeds ts tree Hwf 0%Z (Z.of_nat (length ts)) 0)
        as (T & g & Hrun); [lia|lia|lia|].
      rewrite Hrun. simpl. exists T. split; [done|].
      by apply construct_tree_root in Hrun as (_ & -> & _).
  - intros lab s1 s2 ss ts Hts. unfold from_tree_and_leaf_timestamps.
    rewrite construct_tree_unfold.
    assert (∀ (l : list string) cl g,
              construct_children ts (inl <$> l) cl g = Ok (inl <$> l, g)) as Hch.
    { induction l as [|s l IH]; intros cl g; [done|].
      rewrite !fmap_cons. simpl. by rewrite IH. }
    change (inl s1 :: inl s2 :: (inl <$> ss))
      with (@inl string NLTKTree <$> (s1 :: s2 :: ss)).
    rewrite Hch. simpl.
    destruct ts as [|t0 ts]; [done|].
    destruct (py_getitem_Ok (t0 :: ts) 0%Z) as [first ->]; [simpl; lia|].
    destruct (py_getitem_Ok (t0 :: ts) (Z.of_nat (length (t0 :: ts)) - 1)%Z)
      as [last ->]; [simpl; lia|].
    simpl. eexists. split; [done|]. done.
Qed.

Lemma construction_checks_witness :
  from_tree_and_leaf_timestamps
    (NTree "S" [inr (NTree "A" [inl "a"]); inr (NTree "B" [inl "b"])])
    [("a", 0, 1)%Q] = Raise IndexError.
Proof.
  apply (proj1 construction_checks
           (NTree "S" [inr (NTree "A" [inl "a"]); inr (NTree "B" [inl "b"])])
           [("a", 0, 1)%Q]).
  - reflexivity.
  - simpl. lia.
Defined.

(** C6 fails as stated: with two leaves and three timestamps, and with a
    node of two terminals, construction returns a tree. *)
Lemma construction_accepts_bad_input :
  (length (NLTK.leaves (NTree "S" [inr (NTree "A" [inl "a"]); inr (NTree "B" [inl "b"])]))
     ≠ length [("a", 0, 1)%Q; ("b", 1, 2)%Q; ("c", 2, 3)%Q] ∧
   from_tree_and_leaf_timestamps
     (NTree "S" [inr (NTree "A" [inl "a"]); inr (NTree "B" [inl "b"])])
     [("a", 0, 1)%Q; ("b", 1, 2)%Q; ("c", 2, 3)%Q]
   = Ok (ETree 0 (0, 3)%Q (1, 3)%Z "S"
           [inr (ETree 1 (0, 1)%Q (1, 1)%Z "A" [inl "a"]);
            inr (ETree 2 (1, 2)%Q (2, 2)%Z "B" [inl "b"])])) ∧
  from_tree_and_leaf_timestamps
    (NTree "N" [inl "a"; inl "b"]) [("a", 0, 1)%Q; ("b", 1, 2)%Q]
  = Ok (ETree 0 (0, 2)%Q (1, 2)%Z "N" [inl "a"; inl "b"]).
Proof. split; [split; [simpl; lia|reflexivity]|reflexivity]. Qed.

(** A tree built from a well-formed label tree, whatever the number of
    timestamps, has its indices in pre-order from 0 at the root, dense in
    [[0, n_nodes)]; [n_nodes] of every node is one more than the sum over
    its subtrees; the leaf range of the root is
    [(1, len(leaf_timestamps))], which is [(1, n_leaves)] when there is
    one timestamp per leaf. *)
Lemma construction_invariants tree ts T :
  well_formed_label tree = true →
  from_tree_and_leaf_timestamps tree ts = Ok T →
  index T = 0 ∧
  index <$> nodes T = seq 0 (size T) ∧
  n_nodes T = Ok (size T) ∧
  (∀ u, u ∈ nodes T →
     ∃ ns, Forall2 (fun c n => n_nodes c = Ok n) (subtrees u) ns ∧
           n_nodes u = Ok (1 + sum_list ns)) ∧
  leaf_range T = (1%Z, Z.of_nat (length ts)) ∧
  (length ts = length (NLTK.leaves tree) →
   leaf_range T = (1%Z, Z.of_nat (length (leaves T)))).
Proof.
  intros Hwf Hrun. unfold from_tree_and_leaf_timestamps in Hrun.
  apply bind_Ok in Hrun as ([T' g] & Hrun & [= ->]).
  apply construct_tree_root in Hrun as (Hidx & Hlr & _ & Hwf0); [|done].
  set (T0 := ETree 0 (time_range T) _ (label T) (children T)) in Hwf0.
  assert (subtrees T = subtrees T0) as Hsub by reflexivity.
  assert (children T = children T0) as Hch by reflexivity.
  assert (nodes T = T :: descendants T0) as Hnodes.
  { rewrite nodes_descendants. unfold descendants. by rewrite Hsub. }
  assert (size T = size T0) as Hsize.
  { unfold size. rewrite Hnodes, (nodes_descendants T0). done. }
  pose proof (wf_indices T0 Hwf0) as Hind.
  split; [done|]. split.
  { rewrite Hnodes, fmap_cons, Hidx, Hsize.
    change 0 with (index T0) at 1 2.
    by rewrite <- fmap_cons, <- nodes_descendants. }
  split.
  { rewrite (n_nodes_children T T0) by done. rewrite wf_n_nodes by done.
    by rewrite Hsize. }
  split.
  { intros u Hu. rewrite Hnodes in Hu. apply elem_of_cons in Hu as [->|Hu].
    - rewrite Hsub, (n_nodes_children T T0) by done. by apply wf_n_nodes_children.
    - apply wf_n_nodes_children. apply (wf_hereditary T0); [done|].
      by apply descendants_nodes. }
  split; [by rewrite Hlr|].
  intros Hlen. rewrite Hlr. f_equal.
  rewrite (leaves_children T T0) by done. rewrite wf_leaves by done.
  unfold lleaf, rleaf, T0. simpl. lia.
Qed.

(** C8. Every well-formed Annotated Tree, that is every tree built by
    [from_tree_and_leaf_timestamps] from a well-formed label tree and one
    timestamp per leaf, has its indices assigned in pre-order, the root
    receiving 0, and they form the dense range [[0, n_nodes)]; [n_nodes]
    of every node is 1 plus the sum of [n_nodes] over its children; and
    the leaf range of the root is [(1, n_leaves)]. *)
Theorem well_formed_invariants (T : ExtendedTree) :
  WellFormed T →
  index T = 0 ∧
  index <$> nodes T = seq 0 (size T) ∧
  n_nodes T = Ok (size T) ∧
  (∀ u, u ∈ nodes T →
     ∃ ns, Forall2 (fun c n => n_nodes c = Ok n) (subtrees u) ns ∧
           n_nodes u = Ok (1 + sum_list ns)) ∧
  leaf_range T = (1%Z, Z.of_nat (length (leaves T))).
Proof.
  intros (tree & ts & Hwf & Hlen & Hbuild).
  destruct (construction_invariants tree ts T Hwf Hbuild)
    as (H1 & H2 & H3 & H4 & _ & H6).
  split; [done|]. split; [done|]. split; [done|]. split; [done|]. by apply H6.
Qed.

Lemma well_formed_invariants_witness :
  index example_gold = 0 ∧
  index <$> nodes example_gold = seq 0 (size example_gold) ∧
  n_nodes example_gold = Ok (size example_gold) ∧
  (∀ u, u ∈ nodes example_gold →
     ∃ ns, Forall2 (fun c n => n_nodes c = Ok n) (subtrees u) ns ∧
           n_nodes u = Ok (1 + sum_list ns)) ∧
  leaf_range example_gold = (1%Z, Z.of_nat (length (leaves example_gold))).
Proof.
  apply (well_formed_invariants example_gold).
  exists example_gold_tree, example_oracle_bounds.
  split; [reflexivity|]. split; reflexivity.
Defined.

(** Outside the well-formed trees: built from two leaves and three
    timestamps, the root has the leaf range [(1, 3)]. *)
Lemma construction_leaf_range_mismatch :
  ∃ T, from_tree_and_leaf_timestamps
         (NTree "S" [inr (NTree "A" [inl "a"]); inr (NTree "B" [inl "b"])])
         [("a", 0, 1)%Q; ("b", 1, 2)%Q; ("c", 2, 3)%Q] = Ok T ∧
       length (leaves T) = 2 ∧
       leaf_range T = (1, 3)%Z ∧
       leaf_range T ≠ (1%Z, Z.of_nat (length (leaves T))).
Proof. eexists. split; [reflexivity|]. split; [done|]. split; [done|]. done. Qed.

(** ** The tokens of the timestamps are never read *)

Lemma py_getitem_times ts1 ts2 (i : Z) :
  times ts1 = times ts2 →
  match py_getitem ts1 i, py_getitem ts2 i with
  | Ok x, Ok y => ts_start x = ts_start y ∧ ts_end x = ts_end y
  | Raise e1, Raise e2 => e1 = e2
  | _, _ => False
  end.
Proof.
  intros Heq.
  assert (length ts1 = length ts2) as Hlen.
  { unfold times in Heq. apply (f_equal length) in Heq.
    by rewrite !length_fmap in Heq. }
  unfold py_getitem. rewrite Hlen.
  set (j := if (0 <=? i)%Z then i else (Z.of_nat (length ts2) + i)%Z).
  destruct (0 <=? j)%Z; [|done].
  pose proof (f_equal (fun l => l !! Z.to_nat j) Heq) as Hj. simpl in Hj.
  unfold times in Hj. rewrite !list_lookup_fmap in Hj.
  destruct (ts1 !! Z.to_nat j) as [x|], (ts2 !! Z.to_nat j) as [y|]; simpl in Hj;
    try done.
  by injection Hj as -> ->.
Qed.

Lemma construct_tree_times ts1 ts2 node :
  times ts1 = times ts2 →
  ∀ left right gi,
    construct_tree ts1 node left right gi = construct_tree ts2 node left right gi.
Proof.
  intros Heq. induction node as [lab cs IH] using NLTKTree_ind'.
  intros left right gi. rewrite !construct_tree_unfold.
  assert (∀ cl g, construct_children ts1 cs cl g = construct_children ts2 cs cl g)
    as ->.
  { induction cs as [|[s|c] cs IHcs]; intros cl g; simpl; [done| |].
    - apply Forall_cons in IH as [_ IH]. by rewrite IHcs.
    - apply Forall_cons in IH as [Hc IH]. rewrite Hc.
      destruct (construct_tree ts2 c cl _ g) as [[c' g']|e]; simpl; [|done].
      by rewrite IHcs. }
  destruct (construct_children ts2 cs left (S gi)) as [[chs g1]|e]; simpl; [|done].
  pose proof (py_getitem_times ts1 ts2 left Heq) as H1.
  pose proof (py_getitem_times ts1 ts2 (right - 1)%Z Heq) as H2.
  destruct (py_getitem ts1 left) as [x1|e1], (py_getitem ts2 left) as [y1|e1'];
    simpl; try done; [|by subst].
  destruct (py_getitem ts1 (right - 1)%Z) as [x2|e2],
           (py_getitem ts2 (right - 1)%Z) as [y2|e2']; simpl; try done; [|by subst].
  destruct H1 as [-> _], H2 as [_ ->]. done.
Qed.

Lemma from_tree_times tree ts1 ts2 :
  times ts1 = times ts2 →
  from_tree_and_leaf_timestamps tree ts1 = from_tree_and_leaf_timestamps tree ts2.
Proof.
  intros Heq. unfold from_tree_and_leaf_timestamps.
  assert (length ts1 = length ts2) as ->.
  { unfold times in Heq. apply (f_equal length) in Heq.
    by rewrite !length_fmap in Heq. }
  by rewrite (construct_tree_times ts1 ts2 tree Heq).
Qed.

(** C9. Timestamp sequences that agree on all start and end times give the
    same tree (indices, labels, time ranges and leaf ranges included)
    whatever their token strings, and so the same score. *)
Theorem tokens_do_not_matter (ptree gtree : NLTKTree)
    (word_bounds word_bounds' oracle_bounds oracle_bounds' : list timestamp)
    (threshold_iou : Q) (flexible : bool) :
  times word_bounds = times word_bounds' →
  times oracle_bounds = times oracle_bounds' →
  from_tree_and_leaf_timestamps ptree word_bounds
    = from_tree_and_leaf_timestamps ptree word_bounds' ∧
  from_tree_and_leaf_timestamps gtree oracle_bounds
    = from_tree_and_leaf_timestamps gtree oracle_bounds' ∧
  score_of_inputs ptree gtree word_bounds oracle_bounds threshold_iou flexible
    = score_of_inputs ptree gtree word_bounds' oracle_bounds' threshold_iou flexible.
Proof.
  intros Hp Hg. unfold score_of_inputs.
  rewrite (from_tree_times ptree _ _ Hp), (from_tree_times gtree _ _ Hg). done.
Qed.

Lemma tokens_do_not_matter_witness :
  score_of_inputs (NTree "S" [inr (NTree "A" [inl "a"]); inr (NTree "B" [inl "b"])])
    (NTree "S" [inr (NTree "A" [inl "a"]); inr (NTree "B" [inl "b"])])
    [("a", 0, 1)%Q; ("b", 1, 2)%Q] [("x", 0, 1)%Q; ("y", 1, 3)%Q] 0%Q true
  = score_of_inputs (NTree "S" [inr (NTree "A" [inl "a"]); inr (NTree "B" [inl "b"])])
    (NTree "S" [inr (NTree "A" [inl "a"]); inr (NTree "B" [inl "b"])])
    [("one", 0, 1)%Q; ("two", 1, 2)%Q] [("", 0, 1)%Q; ("z", 1, 3)%Q] 0%Q true.
Proof.
  apply (tokens_do_not_matter
           (NTree "S" [inr (NTree "A" [inl "a"]); inr (NTree "B" [inl "b"])])
           (NTree "S" [inr (NTree "A" [inl "a"]); inr (NTree "B" [inl "b"])])
           [("a", 0, 1)%Q; ("b", 1, 2)%Q] [("one", 0, 1)%Q; ("two", 1, 2)%Q]
           [("x", 0, 1)%Q; ("y", 1, 3)%Q] [("", 0, 1)%Q; ("z", 1, 3)%Q] 0%Q true);
    reflexivity.
Defined.

(** ** Arrays *)

Lemma np_index_Ok n (i : Z) :
  (0 ≤ i < Z.of_nat n)%Z → np_index n i = Ok (Z.to_nat i).
Proof.
  intros Hi. unfold np_index.
  destruct (Z.leb_spec 0 i); [|lia].
  destruct (Z.ltb_spec i (Z.of_nat n)); [done|lia].
Qed.

Lemma has_shape_full n m v : has_shape n m (np_full n m v).
Proof.
  unfold has_shape, np_full. split; [apply length_replicate|].
  apply Forall_replicate, length_replicate.
Qed.

Lemma has_shape_row n m a i row :
  has_shape n m a → a !! i = Some row → length row = m.
Proof.
  intros [_ H] Hi. rewrite Forall_forall in H. apply H.
  by eapply list_elem_of_lookup_2.
Qed.

Lemma np_get_Ok n m a (i j : Z) :
  has_shape n m a → in_table n m i j → np_get a i j = Ok (cell a i j).
Proof.
  intros Hs [Hi Hj]. unfold cell, np_get.
  destruct Hs as [Hn Hrows]. rewrite Hn, np_index_Ok by done. simpl.
  destruct (a !! Z.to_nat i) as [row|] eqn:E.
  - rewrite (has_shape_row n m a _ row) by done.
    rewrite np_index_Ok by done. simpl.
    destruct (row !! Z.to_nat j) as [x|] eqn:Ej; [done|].
    apply lookup_ge_None in Ej.
    rewrite (has_shape_row n m a _ row) in Ej by done. lia.
  - apply lookup_ge_None in E. lia.
Qed.

Lemma np_get_full n m v (i j : Z) :
  in_table n m i j → np_get (np_full n m v) i j = Ok v.
Proof.
  intros [Hi Hj]. unfold np_get, np_full.
  rewrite length_replicate, np_index_Ok by done. simpl.
  rewrite lookup_replicate_2 by lia.
  rewrite length_replicate, np_index_Ok by done. simpl.
  by rewrite lookup_replicate_2 by lia.
Qed.

Lemma np_set_Ok n m a (i j : Z) v :
  has_shape n m a → in_table n m i j →
  ∃ a', np_set a i j v = Ok a' ∧ has_shape n m a' ∧
        cell a' i j = v ∧
        ∀ i' j', in_table n m i' j' → (i', j') ≠ (i, j) → cell a' i' j' = cell a i' j'.
Proof.
  intros Hs [Hi Hj]. unfold np_set.
  destruct Hs as [Hn Hrows]. rewrite Hn, np_index_Ok by done. simpl.
  destruct (a !! Z.to_nat i) as [row|] eqn:E;
    [|apply lookup_ge_None in E; lia].
  assert (length row = m) as Hrow by (by eapply has_shape_row).
  rewrite Hrow, np_index_Ok by done. simpl.
  eexists. split; [done|].
  assert (has_shape n m (<[Z.to_nat i := <[Z.to_nat j := v]> row]> a)) as Hs'.
  { split; [by rewrite length_insert|].
    apply Forall_insert; [done|]. by rewrite length_insert. }
  split; [done|]. split.
  - unfold cell, np_get. destruct Hs' as [Hn' _].
    rewrite Hn', np_index_Ok by done. simpl.
    rewrite list_lookup_insert_eq by lia.
    rewrite length_insert, Hrow, np_index_Ok by done. simpl.
    by rewrite list_lookup_insert_eq by lia.
  - intros i' j' [Hi' Hj'] Hne. unfold cell, np_get. destruct Hs' as [Hn' _].
    rewrite Hn', Hn, !np_index_Ok by done. simpl.
    destruct (decide (Z.to_nat i = Z.to_nat i')) as [Heq|Hneq].
    + rewrite <- Heq, list_lookup_insert_eq, E by lia.
      rewrite length_insert, Hrow, np_index_Ok by done. simpl.
      rewrite list_lookup_insert_ne; [done|].
      intros Hjj. apply Hne. f_equal; lia.
    + by rewrite list_lookup_insert_ne.
Qed.

Lemma np_shape_has_shape n m a :
  has_shape n m a → 0 < n → np_shape a = (n, m).
Proof.
  intros [Hn Hrows] Hpos. unfold np_shape. rewrite Hn. f_equal.
  destruct a as [|row a]; [simpl in Hn; lia|].
  by apply Forall_cons in Hrows as [-> _].
Qed.

Lemma cell_fmap n m (f : Q → Q) a (i j : Z) :
  has_shape n m a → in_table n m i j →
  cell (map (map f) a) i j = f (cell a i j).
Proof.
  intros Hs [Hi Hj]. destruct Hs as [Hn Hrows]. unfold cell, np_get.
  rewrite length_map, Hn, np_index_Ok by done. simpl.
  change (map (map f) a) with (map f <$> a). rewrite list_lookup_fmap.
  destruct (a !! Z.to_nat i) as [row|] eqn:E;
    [|apply lookup_ge_None in E; lia]. simpl.
  assert (length row = m) as Hrow by (by eapply (has_shape_row n m a)).
  rewrite length_map, Hrow, np_index_Ok by done. simpl.
  change (map f row) with (f <$> row). rewrite list_lookup_fmap.
  destruct (row !! Z.to_nat j) as [x|] eqn:Ej; [done|].
  apply lookup_ge_None in Ej. lia.
Qed.

Lemma has_shape_fmap n m (f : Q → Q) a :
  has_shape n m a → has_shape n m (map (map f) a).
Proof.
  intros [Hn Hrows]. split; [by rewrite length_map|].
  change (map (map f) a) with (map f <$> a).
  apply Forall_fmap. eapply Forall_impl; [exact Hrows|].
  intros row Hrow. simpl. by rewrite length_map.
Qed.

(** ** One relaxation step of an interval table *)

Lemma elem_of_range (n k : Z) : k ∈ range n ↔ (0 ≤ k < n)%Z.
Proof. unfold range. rewrite elem_of_seqZ. lia. Qed.

Lemma relaxed_ext (n m : nat) (M0 : ndarray) (pr gr : Z) (w : Q)
    (X Y : Z → Z → Prop) (st : metrics.dp_state) :
  (∀ a b, X a b ↔ Y a b) → relaxed n m M0 pr gr w X st → relaxed n m M0 pr gr w Y st.
Proof.
  intros HXY (H1 & H2 & H3 & H4 & H5). unfold relaxed. split_and!; try done.
  - intros a b Hab. apply H4. by apply HXY.
  - destruct H5 as [H5|(a & b & Hab & H5)]; [by left|].
    right. exists a, b. split; [by apply HXY|done].
Qed.

Lemma relax_one (n m : nat) (M0 : ndarray) (pr gr : Z) (w : Q) (sub : metrics.Trace)
    (X : Z → Z → Prop) (a b : Z) (M : ndarray) (tr : gmap (Z * Z) metrics.Trace) :
  in_table n m pr gr → in_table n m a b → (a, b) ≠ (pr, gr) →
  relaxed n m M0 pr gr w X (M, tr) →
  ∃ st',
    (src ← np_get M a b;
     let update_value := (src + w)%Q in
     cur ← np_get M pr gr;
     if utils.Qlt_bool cur update_value then
       m' ← np_set M pr gr update_value;
       Ok (m', <[(pr, gr) := (tr !!! (a, b)) ∪ sub]> tr)
     else Ok (M, tr)) = Ok st' ∧
    relaxed n m M0 pr gr w (fun a' b' => X a' b' ∨ (a' = a ∧ b' = b)) st'.
Proof.
  intros Ht Hab Hne (H1 & H2 & H3 & H4 & H5). simpl in *.
  rewrite (np_get_Ok n m) by done. simpl.
  rewrite (np_get_Ok n m) by done. simpl.
  rewrite (H2 a b Hab Hne).
  destruct (utils.Qlt_bool (cell M pr gr) (cell M0 a b + w)) eqn:E.
  - apply Qlt_bool_iff in E.
    destruct (np_set_Ok n m M pr gr (cell M0 a b + w)%Q H1 Ht)
      as (M' & -> & Hs' & Hcell & Hframe).
    simpl. eexists. split; [done|]. unfold relaxed. split_and!; simpl.
    + done.
    + intros a' b' Hab' Hne'. rewrite Hframe by done. by apply H2.
    + rewrite Hcell. lra.
    + intros a' b' [HX|[-> ->]].
      * rewrite Hcell. specialize (H4 a' b' HX). lra.
      * rewrite Hcell. lra.
    + right. exists a, b. split; [by right|done].
  - apply Qlt_bool_false in E. eexists. split; [done|].
    unfold relaxed. split_and!; simpl.
    + done.
    + done.
    + done.
    + intros a' b' [HX|[-> ->]]; [by apply H4|done].
    + destruct H5 as [H5|(a' & b' & HX & H5)]; [by left|].
      right. exists a', b'. split; [by left|done].
Qed.

(** [dp_update] on a table of shape [(n, m)], for a target cell in the
    table whose row lies at or beyond the rows of the sources. *)
Lemma dp_update_spec (n m : nat) (M0 : ndarray) (tr0 : gmap (Z * Z) metrics.Trace)
    (pl pr gl gr : Z) (w : Q) (sub : metrics.Trace) :
  has_shape n m M0 →
  in_table n m pr gr → (pl ≤ pr)%Z → (gl ≤ gr)%Z →
  ∃ st',
    metrics.dp_update (M0, tr0) pl pr gl gr w sub = Ok st' ∧
    relaxed n m M0 pr gr w (fun a b => (0 ≤ a < pl)%Z ∧ (0 ≤ b < gl)%Z) st'.
Proof.
  intros Hs Ht Hp Hg. unfold metrics.dp_update.
  destruct (for_each_invariant
    (fun visited st =>
       relaxed n m M0 pr gr w (fun a b => a ∈ visited ∧ (0 ≤ b < gl)%Z) st)
    (range pl)
    (fun st a =>
       for_each (range gl) (fun '(M, tr) b =>
         src ← np_get M a b;
         let update_value := (src + w)%Q in
         cur ← np_get M pr gr;
         if utils.Qlt_bool cur update_value then
           m' ← np_set M pr gr update_value;
           Ok (m', <[(pr, gr) := (tr !!! (a, b)) ∪ sub]> tr)
         else Ok (M, tr)) st)
    (M0, tr0)) as (st' & Hrun & Hinv).
  - unfold relaxed. split_and!; simpl; try done.
    + lra.
    + intros a b [Ha _]. by apply elem_of_nil in Ha.
    + by left.
  - intros visited a rest st Hl Hinv.
    assert (a ∈ range pl) as Ha.
    { rewrite Hl. apply elem_of_app. right. apply list_elem_of_here. }
    apply elem_of_range in Ha.
    destruct (for_each_invariant
      (fun vis st =>
         relaxed n m M0 pr gr w
           (fun a' b => (a' ∈ visited ∧ (0 ≤ b < gl)%Z) ∨ (a' = a ∧ b ∈ vis)) st)
      (range gl)
      (fun '(M, tr) b =>
         src ← np_get M a b;
         let update_value := (src + w)%Q in
         cur ← np_get M pr gr;
         if utils.Qlt_bool cur update_value then
           m' ← np_set M pr gr update_value;
           Ok (m', <[(pr, gr) := (tr !!! (a, b)) ∪ sub]> tr)
         else Ok (M, tr))
      st) as (st' & Hrun & Hinv').
    + eapply relaxed_ext; [|exact Hinv]. intros a' b. split; [by left|].
      intros [?|[_ Hb]]; [done|]. by apply elem_of_nil in Hb.
    + intros vis b rest' [M tr] Hl' Hinv'.
      assert (b ∈ range gl) as Hb.
      { rewrite Hl'. apply elem_of_app. right. apply list_elem_of_here. }
      apply elem_of_range in Hb.
      destruct (relax_one n m M0 pr gr w sub
                  (fun a' b => (a' ∈ visited ∧ (0 ≤ b < gl)%Z) ∨ (a' = a ∧ b ∈ vis))
                  a b M tr) as (st' & Hst' & Hrel);
        [done| |intros [= -> ->]; lia|exact Hinv'|].
      { destruct Ht. split; lia. }
      exists st'. split; [done|].
      eapply relaxed_ext; [|exact Hrel]. intros a' b'. simpl.
      rewrite elem_of_app, list_elem_of_singleton. intuition (subst; auto).
    + exists st'. split; [done|].
      eapply relaxed_ext; [|exact Hinv']. intros a' b. simpl.
      rewrite elem_of_app, list_elem_of_singleton, elem_of_range. tauto.
  - exists st'. split; [done|].
    eapply relaxed_ext; [|exact Hinv]. intros a b. simpl.
    by rewrite elem_of_range.
Qed.

(** ** The loop over the pairs of subtrees *)

Section pair_loop.
Variables (n m : nat) (plf prf glf grf : ExtendedTree → Z).
Variable (W : ExtendedTree → ExtendedTree → Q).
Variable (F0 : Z → Z → Q).

Lemma bellman_inv_ext (E E' : ExtendedTree → ExtendedTree → Prop)
    (st : metrics.dp_state) :
  (∀ u v, E u v ↔ E' u v) →
  bellman_inv n m plf prf glf grf W F0 E st →
  bellman_inv n m plf prf glf grf W F0 E' st.
Proof.
  intros HE (H1 & H2 & H3 & H4). unfold bellman_inv. split_and!; try done.
  - intros u v a b Huv. apply H3. by apply HE.
  - intros a b Hab. destruct (H4 a b Hab) as [?|(u & v & a' & b' & Huv & ?)];
      [by left|].
    right. exists u, v, a', b'. split; [by apply HE|done].
Qed.

Lemma bellman_inv_start (M0 : ndarray) (tr0 : gmap (Z * Z) (gset (nat * nat))) :
  has_shape n m M0 →
  (∀ a b, in_table n m a b → cell M0 a b = F0 a b) →
  bellman_inv n m plf prf glf grf W F0 (fun _ _ => False) (M0, tr0).
Proof.
  intros Hs H0. unfold bellman_inv. simpl. split_and!; try done.
  - intros a b Hab. rewrite (H0 a b Hab). lra.
  - intros a b Hab. left. by apply H0.
Qed.

(** Relaxing one more pair [(u, v)], placed at or after the pairs done. *)
Lemma bellman_step (E : ExtendedTree → ExtendedTree → Prop)
    (M : ndarray) (tr : gmap (Z * Z) (gset (nat * nat)))
    (u v : ExtendedTree) (sub : gset (nat * nat)) :
  (plf u ≤ prf u)%Z → (glf v ≤ grf v)%Z → in_table n m (prf u) (grf v) →
  (∀ u' v', E u' v' →
     (plf u' ≤ plf u)%Z ∧ (plf u' ≤ prf u')%Z ∧ (glf v' ≤ grf v')%Z ∧
     in_table n m (prf u') (grf v')) →
  bellman_inv n m plf prf glf grf W F0 E (M, tr) →
  ∃ st',
    metrics.dp_update (M, tr) (plf u) (prf u) (glf v) (grf v) (W u v) sub = Ok st' ∧
    bellman_inv n m plf prf glf grf W F0
      (fun u' v' => E u' v' ∨ (u' = u ∧ v' = v)) st'.
Proof.
  intros Hpu Hgv Ht HE (H1 & H2 & H3 & H4). simpl in *.
  destruct (dp_update_spec n m M tr (plf u) (prf u) (glf v) (grf v) (W u v) sub)
    as ([M' tr'] & Hrun & (R1 & R2 & R3 & R4 & R5)); [done..|].
  simpl in *. exists (M', tr'). split; [done|].
  (* a source cell of a pair done, or of the new pair, is not the target *)
  assert (∀ u' v' a b,
            E u' v' ∨ (u' = u ∧ v' = v) →
            (0 ≤ a < plf u')%Z → (0 ≤ b < glf v')%Z →
            in_table n m a b ∧ (a, b) ≠ (prf u, grf v)) as Hsrc.
  { intros u' v' a b Huv Ha Hb.
    assert ((plf u' ≤ plf u)%Z ∧ (plf u' ≤ prf u')%Z ∧ (glf v' ≤ grf v')%Z ∧
            in_table n m (prf u') (grf v')) as (Q1 & Q2 & Q3 & [Q4 Q5]).
    { destruct Huv as [Huv|[-> ->]]; [by apply HE|done]. }
    split; [split; lia|]. intros [= -> _]. lia. }
  (* the table only grows *)
  assert (∀ a b, in_table n m a b → (cell M a b <= cell M' a b)%Q) as Hgrow.
  { intros a b Hab. destruct (decide ((a, b) = (prf u, grf v))) as [[= -> ->]|Hne].
    - done.
    - rewrite R2 by done. lra. }
  unfold bellman_inv. simpl. split_and!.
  - done.
  - intros a b Hab. specialize (H2 a b Hab). specialize (Hgrow a b Hab). lra.
  - intros u' v' a b Huv Ha Hb.
    destruct (Hsrc u' v' a b Huv Ha Hb) as [Hab Hne].
    rewrite (R2 a b Hab Hne).
    destruct Huv as [Huv|[-> ->]].
    + specialize (H3 u' v' a b Huv Ha Hb).
      destruct (HE u' v' Huv) as (_ & _ & _ & Ht').
      specialize (Hgrow _ _ Ht'). lra.
    + by apply R4.
  - intros a b Hab.
    assert (cell M a b = F0 a b ∨
            ∃ u' v' a' b', (E u' v' ∨ (u' = u ∧ v' = v)) ∧ prf u' = a ∧ grf v' = b ∧
              (0 ≤ a' < plf u')%Z ∧ (0 ≤ b' < glf v')%Z ∧
              cell M a b = (cell M' a' b' + W u' v')%Q) as Hold.
    { destruct (H4 a b Hab) as [?|(u' & v' & a' & b' & Huv & Q1 & Q2 & Q3 & Q4 & Q5)];
        [by left|].
      right. exists u', v', a', b'. split; [by left|].
      destruct (Hsrc u' v' a' b' (or_introl Huv) Q3 Q4) as [Hab' Hne'].
      by rewrite (R2 a' b' Hab' Hne'). }
    destruct (decide ((a, b) = (prf u, grf v))) as [[= -> ->]|Hne].
    + destruct R5 as [R5|(a' & b' & [Qa Qb] & R5)].
      * by rewrite R5.
      * right. exists u, v, a', b'. split; [by right|].
        destruct (Hsrc u v a' b' (or_intror (conj eq_refl eq_refl)) Qa Qb)
          as [Hab' Hne'].
        by rewrite (R2 a' b' Hab' Hne').
    + by rewrite (R2 a b Hab Hne).
Qed.
End pair_loop.

Section pair_loop_run.
Variables (n m : nat) (plf prf glf grf : ExtendedTree → Z).
Variables (Dp Dg : list ExtendedTree).
Variable (skip : ExtendedTree → ExtendedTree → bool).
Variable (sub : ExtendedTree → ExtendedTree → result (Q * gset (nat * nat))).
Variable (F0 : Z → Z → Q).
Hypothesis Hp : ∀ u, u ∈ Dp → (plf u ≤ prf u)%Z ∧ (0 ≤ prf u < Z.of_nat n)%Z.
Hypothesis Hg : ∀ v, v ∈ Dg → (glf v ≤ grf v)%Z ∧ (0 ≤ grf v < Z.of_nat m)%Z.
Hypothesis Hsorted : StronglySorted (fun u u' => (plf u ≤ plf u')%Z) Dp.
Hypothesis Hsub : ∀ u v, u ∈ Dp → v ∈ Dg → skip u v = false → is_Ok (sub u v).

(** The double loop over the pairs of nodes ends with a table that
    satisfies the invariant for all the pairs not skipped. *)
Lemma pair_loop_spec (M0 : ndarray) (tr0 : gmap (Z * Z) (gset (nat * nat))) :
  has_shape n m M0 →
  (∀ a b, in_table n m a b → cell M0 a b = F0 a b) →
  ∃ st',
    for_each Dp (fun st u =>
      for_each Dg (fun st v =>
        if skip u v then Ok st else
        '(w, t) ← sub u v;
        metrics.dp_update st (plf u) (prf u) (glf v) (grf v) w t) st) (M0, tr0)
    = Ok st' ∧
    bellman_inv n m plf prf glf grf (fun u v => weight_of (sub u v)) F0
      (fun u v => u ∈ Dp ∧ v ∈ Dg ∧ skip u v = false) st'.
Proof.
  intros Hs H0.
  set (W := fun u v => weight_of (sub u v)).
  destruct (for_each_invariant
    (fun vis st =>
       bellman_inv n m plf prf glf grf W F0
         (fun u v => u ∈ vis ∧ v ∈ Dg ∧ skip u v = false) st)
    Dp
    (fun st u =>
       for_each Dg (fun st v =>
         if skip u v then Ok st else
         '(w, t) ← sub u v;
         metrics.dp_update st (plf u) (prf u) (glf v) (grf v) w t) st)
    (M0, tr0)) as (st' & Hrun & Hinv).
  - eapply bellman_inv_ext; [|by apply bellman_inv_start].
    intros u v. split; [done|]. intros [Hu _]. by apply elem_of_nil in Hu.
  - intros vis u rest st HD Hinv.
    assert (u ∈ Dp) as Hu.
    { rewrite HD. apply elem_of_app. right. apply list_elem_of_here. }
    assert (∀ u', u' ∈ vis → (plf u' ≤ plf u)%Z ∧ u' ∈ Dp) as Hbefore.
    { intros u' Hu'. split.
      - pose proof Hsorted as Hsorted'. rewrite HD in Hsorted'.
        apply (StronglySorted_app_1_elem_of
                 (fun u u' => (plf u ≤ plf u')%Z) vis (u :: rest) u' u);
          [done|done|apply list_elem_of_here].
      - rewrite HD. apply elem_of_app. by left. }
    destruct (for_each_invariant
      (fun visg st =>
         bellman_inv n m plf prf glf grf W F0
           (fun u' v => (u' ∈ vis ∧ v ∈ Dg ∧ skip u' v = false) ∨
                        (u' = u ∧ v ∈ visg ∧ skip u' v = false)) st)
      Dg
      (fun st v =>
         if skip u v then Ok st else
         '(w, t) ← sub u v;
         metrics.dp_update st (plf u) (prf u) (glf v) (grf v) w t)
      st) as (st' & Hrun & Hinv').
    + eapply bellman_inv_ext; [|exact Hinv]. intros u' v. split; [by left|].
      intros [?|(_ & Hv & _)]; [done|]. by apply elem_of_nil in Hv.
    + intros visg v restg [M tr] HDg Hinv'.
      assert (v ∈ Dg) as Hv.
      { rewrite HDg. apply elem_of_app. right. apply list_elem_of_here. }
      destruct (skip u v) eqn:Eskip.
      * exists (M, tr). split; [done|].
        eapply bellman_inv_ext; [|exact Hinv']. intros u' v'.
        rewrite elem_of_app, list_elem_of_singleton. split.
        -- intros [?|(-> & ? & ?)]; [by left|]. right. by split_and!; [|left|].
        -- intros [?|(-> & [?| ->] & ?)]; [by left|by right|congruence].
      * destruct (Hsub u v Hu Hv Eskip) as [[w t] Hw].
        rewrite Hw. simpl.
        destruct (Hp u Hu) as [Hp1 Hp2]. destruct (Hg v Hv) as [Hg1 Hg2].
        destruct (bellman_step n m plf prf glf grf W F0
                    (fun u' v => (u' ∈ vis ∧ v ∈ Dg ∧ skip u' v = false) ∨
                                 (u' = u ∧ v ∈ visg ∧ skip u' v = false))
                    M tr u v t)
          as (st' & Hst' & Hinv''); [done|done|done| |exact Hinv'|].
        { intros u' v' [(Hu' & Hv' & _)|(-> & Hv' & _)].
          - destruct (Hbefore u' Hu') as [Q1 Q2].
            destruct (Hp u' Q2), (Hg v' Hv'). done.
          - assert (v' ∈ Dg) as Hv''.
            { rewrite HDg. apply elem_of_app. by left. }
            destruct (Hg v' Hv''). split_and!; [lia|done|done|done]. }
        assert (W u v = w) as HW by (unfold W; by rewrite Hw).
        rewrite HW in Hst'. exists st'. split; [done|].
        eapply bellman_inv_ext; [|exact Hinv'']. intros u' v'.
        rewrite elem_of_app, list_elem_of_singleton. split.
        -- intros [[?|(-> & ? & ?)]|[-> ->]].
           ++ by left.
           ++ right. by split_and!; [|left|].
           ++ right. by split_and!; [|right|].
        -- intros [?|(-> & [?| ->] & ?)].
           ++ left. by left.
           ++ left. by right.
           ++ by right.
    + exists st'. split; [done|].
      eapply bellman_inv_ext; [|exact Hinv']. intros u' v.
      rewrite elem_of_app, list_elem_of_singleton. split.
      * intros [(? & ? & ?)|(-> & ? & ?)]; split_and!; auto.
      * intros ([?| ->] & ? & ?); [left|right]; done.
  - exists st'. split; [done|]. exact Hinv.
Qed.
End pair_loop_run.

(** A table that satisfies the invariant stays below every function that
    dominates the initial cells and is closed under the relaxations. *)
Lemma bellman_dominated (n m : nat) (plf prf glf grf : ExtendedTree → Z)
    (W : ExtendedTree → ExtendedTree → Q) (F0 : Z → Z → Q)
    (E : ExtendedTree → ExtendedTree → Prop) (st : metrics.dp_state)
    (B : Z → Z → Q) :
  bellman_inv n m plf prf glf grf W F0 E st →
  (∀ u v, E u v → (plf u ≤ prf u)%Z ∧ (glf v ≤ grf v)%Z) →
  (∀ a b, in_table n m a b → (F0 a b <= B a b)%Q) →
  (∀ u v a b, E u v → in_table n m (prf u) (grf v) →
     (0 ≤ a < plf u)%Z → (0 ≤ b < glf v)%Z →
     (B a b + W u v <= B (prf u) (grf v))%Q) →
  ∀ a b, in_table n m a b → (cell st.1 a b <= B a b)%Q.
Proof.
  intros (H1 & H2 & H3 & H4) Hgeo HB0 HBstep.
  cut (∀ k a b, Z.to_nat a < k → in_table n m a b → (cell st.1 a b <= B a b)%Q).
  { intros Hcut a b Hab. by apply (Hcut (S (Z.to_nat a))); [lia|]. }
  induction k as [|k IH]; intros a b Hk Hab; [lia|].
  destruct (H4 a b Hab) as [->|(u & v & a' & b' & Huv & <- & <- & Ha' & Hb' & ->)].
  - by apply HB0.
  - destruct (Hgeo u v Huv) as [Hp Hg]. destruct Hab as [Ha Hb].
    assert (in_table n m a' b') as Hab' by (split; lia).
    assert ((cell st.1 a' b' <= B a' b')%Q) as Hle by (apply IH; [lia|done]).
    specialize (HBstep u v a' b' Huv (conj Ha Hb) Ha' Hb'). lra.
Qed.

(** ** The initial table and the final scan *)

Lemma dp_init_spec (np ng : nat) :
  ∃ M0, metrics.dp_init np ng = Ok (M0, ∅) ∧
        has_shape (np + 1) (ng + 1) M0 ∧
        ∀ a b, in_table (np + 1) (ng + 1) a b → cell M0 a b = init_cell a b.
Proof.
  unfold metrics.dp_init.
  assert (in_table (np + 1) (ng + 1) 0 0) as H00 by (split; lia).
  destruct (np_set_Ok (np + 1) (ng + 1)
              (np_full (np + 1) (ng + 1) metrics.minus_inf) 0 0 0%Q
              (has_shape_full _ _ _) H00) as (M0 & -> & Hs & Hc & Hframe).
  simpl. exists M0. split; [done|]. split; [done|].
  intros a b Hab. unfold init_cell.
  destruct (decide (a = 0%Z ∧ b = 0%Z)) as [[-> ->]|Hne]; [done|].
  rewrite Hframe; [|done|intros [= -> ->]; by apply Hne].
  unfold cell. by rewrite np_get_full.
Qed.

Lemma best_cell_spec (n m : nat) (M : ndarray) (tr : gmap (Z * Z) (gset (nat * nat)))
    (w0 : Q) (t0 : gset (nat * nat)) :
  has_shape n m M → 0 < n →
  ∃ w t, metrics.best_cell (M, tr) (w0, t0) = Ok (w, t) ∧
         (w0 <= w)%Q ∧
         (∀ a b, in_table n m a b → (cell M a b <= w)%Q) ∧
         (w = w0 ∨ ∃ a b, in_table n m a b ∧ w = cell M a b).
Proof.
  intros Hs Hn. unfold metrics.best_cell.
  rewrite (np_shape_has_shape n m M Hs Hn). simpl.
  pose (inner := fun (a : Z) (acc : Q * gset (nat * nat)) (b : Z) =>
    let '(max_weight, max_weight_trace) := acc in
    @mbind result _ _ _
      (fun c : Q =>
         if utils.Qlt_bool max_weight c then Ok (c, tr !!! (a, b))
         else @Ok (Q * gset (nat * nat)) (max_weight, max_weight_trace))
      (np_get M a b)).
  set (good := fun (X : Z → Z → Prop) (acc : Q * gset (nat * nat)) =>
    (w0 <= acc.1)%Q ∧
    (∀ a b, X a b → (cell M a b <= acc.1)%Q) ∧
    (acc.1 = w0 ∨ ∃ a b, in_table n m a b ∧ acc.1 = cell M a b)).
  assert (∀ X a b acc,
            in_table n m a b → good X acc →
            ∃ acc', inner a acc b = Ok acc' ∧
                    good (fun a' b' => X a' b' ∨ (a' = a ∧ b' = b)) acc') as Hstep.
  { intros X a b [w t] Hab (G1 & G2 & G3). unfold inner. simpl in *.
    rewrite (np_get_Ok n m) by done. simpl.
    destruct (utils.Qlt_bool w (cell M a b)) eqn:E.
    - apply Qlt_bool_iff in E. eexists. split; [done|].
      unfold good. simpl. split_and!.
      + lra.
      + intros a' b' [HX|[-> ->]]; [specialize (G2 a' b' HX); lra|lra].
      + right. by exists a, b.
    - apply Qlt_bool_false in E. eexists. split; [done|].
      unfold good. simpl. split_and!; [done| |done].
      intros a' b' [HX|[-> ->]]; [by apply G2|done]. }
  assert (∀ X Y acc, (∀ a b, X a b ↔ Y a b) → good X acc → good Y acc) as Hext.
  { intros X Y acc HXY (G1 & G2 & G3). unfold good. split_and!; [done| |done].
    intros a b Hab. apply G2. by apply HXY. }
  destruct (for_each_invariant
    (fun vis acc => good (fun a b => a ∈ vis ∧ (0 ≤ b < Z.of_nat m)%Z) acc)
    (range (Z.of_nat n))
    (fun acc a => for_each (range (Z.of_nat m)) (inner a) acc)
    (w0, t0)) as ([w t] & Hrun & Hgood).
  - unfold good. simpl. split_and!; [lra| |by left].
    intros a b [Ha _]. by apply elem_of_nil in Ha.
  - intros vis a rest acc Hl Hacc.
    assert (a ∈ range (Z.of_nat n)) as Ha.
    { rewrite Hl. apply elem_of_app. right. apply list_elem_of_here. }
    apply elem_of_range in Ha.
    destruct (for_each_invariant
      (fun visb acc =>
         good (fun a' b => (a' ∈ vis ∧ (0 ≤ b < Z.of_nat m)%Z) ∨ (a' = a ∧ b ∈ visb)) acc)
      (range (Z.of_nat m)) (inner a) acc) as (acc' & Hrun & Hacc').
    + eapply Hext; [|exact Hacc]. intros a' b. split; [by left|].
      intros [?|[_ Hb]]; [done|]. by apply elem_of_nil in Hb.
    + intros visb b restb acc0 Hlb Hacc0.
      assert (b ∈ range (Z.of_nat m)) as Hb.
      { rewrite Hlb. apply elem_of_app. right. apply list_elem_of_here. }
      apply elem_of_range in Hb.
      destruct (Hstep _ a b acc0 (conj Ha Hb) Hacc0) as (acc' & Hacc' & Hg').
      exists acc'. split; [done|]. eapply Hext; [|exact Hg'].
      intros a' b'. simpl. rewrite elem_of_app, list_elem_of_singleton.
      intuition (subst; auto).
    + exists acc'. split; [done|]. eapply Hext; [|exact Hacc'].
      intros a' b. simpl.
      rewrite elem_of_app, list_elem_of_singleton, elem_of_range. tauto.
  - exists w, t. split.
    + rewrite <- Hrun. apply for_each_ext. intros acc a _.
      apply for_each_ext. intros [w' t'] b _. done.
    + destruct Hgood as (G1 & G2 & G3). simpl in *. split_and!; [done| |done].
      intros a b [Ha Hb]. apply G2. by rewrite elem_of_range.
Qed.

(** ** The loops of [align] over the nodes of well-shaped trees *)

Lemma for_each_fmap {S A B} (f : A → B) (l : list A) (body : S → B → result S) s :
  for_each (f <$> l) body s = for_each l (fun s x => body s (f x)) s.
Proof.
  revert s. induction l as [|x l IH]; intros s; [done|].
  rewrite fmap_cons. simpl. destruct (body s (f x)); simpl; [apply IH|done].
Qed.

Lemma for_each_subtree_indices {S} (t : ExtendedTree)
    (body : S → nat → result S) (body' : S → ExtendedTree → result S) (s : S) :
  wf_ext t →
  (∀ s u, u ∈ nodes t → body s (index u) = body' s u) →
  for_each (subtree_indices t) body s = for_each (nodes t) body' s.
Proof.
  intros Hwf Hbody.
  rewrite wf_subtree_indices, <- wf_indices, for_each_fmap by done.
  apply for_each_ext. intros s' u Hu. by apply Hbody.
Qed.

Lemma for_each_subtree_indices_skip {S} (t : ExtendedTree)
    (body : S → nat → result S) (body' : S → ExtendedTree → result S) (s : S) :
  wf_ext t →
  (∀ s, body s (index t) = Ok s) →
  (∀ s u, u ∈ descendants t → body s (index u) = body' s u) →
  for_each (subtree_indices t) body s = for_each (descendants t) body' s.
Proof.
  intros Hwf Hskip Hbody.
  rewrite wf_subtree_indices, <- wf_indices, for_each_fmap by done.
  rewrite nodes_descendants. simpl. rewrite Hskip. simpl.
  apply for_each_ext. intros s' u Hu. by apply Hbody.
Qed.

Lemma align_pure_wf (f : nat) (S : ndarray) (flex : bool) (p g : ExtendedTree) (eps : Q) :
  wf_ext p → wf_ext g →
  align_pure (Datatypes.S f) S flex p g eps =
  iou ← np_get S (Z.of_nat (index p)) (Z.of_nat (index g));
  if metrics.rejected flex p g iou eps then Ok (0%Q, ∅)
  else if is_preterminal p || is_preterminal g then
    Ok (iou, {[ (index p, index g) ]})
  else
  st ← metrics.dp_init (length (leaves p)) (length (leaves g));
  st ← for_each (descendants p) (fun st u =>
         for_each (descendants g) (fun st v =>
           if false then Ok st else
           '(w, t) ← align_pure f S flex u v utils.default_eps;
           metrics.dp_update st (lloc p u) (rloc p u) (lloc g v) (rloc g v) w t) st) st;
  '(best, tr) ← metrics.best_cell st ((-1)%Q, ∅);
  Ok ((best + iou)%Q, tr ∪ {[ (index p, index g) ]}).
Proof.
  intros Hp Hg. simpl.
  destruct (np_get S _ _) as [iou|e]; simpl; [|done].
  destruct (metrics.rejected flex p g iou eps); [done|].
  destruct (is_preterminal p || is_preterminal g); [done|].
  destruct (metrics.dp_init _ _) as [st|e]; simpl; [|done].
  f_equal. apply for_each_subtree_indices_skip; [done| |].
  - intros s. by rewrite decide_True.
  - intros s u Hu. rewrite decide_False by (by apply wf_descendant_index).
    apply for_each_subtree_indices_skip; [done| |].
    + intros s'. by rewrite decide_True.
    + intros s' v Hv. rewrite decide_False by (by apply wf_descendant_index).
      rewrite (wf_index2node p u) by (by try apply descendants_nodes).
      rewrite (wf_index2node g v) by (by try apply descendants_nodes).
      done.
Qed.

(** The result does not depend on the fuel, once there is enough. *)
Lemma align_pure_fuel (S : ndarray) (flex : bool) (f f' : nat) (p g : ExtendedTree) (eps : Q) :
  wf_ext p → wf_ext g → size p ≤ f → size p ≤ f' →
  align_pure f S flex p g eps = align_pure f' S flex p g eps.
Proof.
  revert f' p g eps. induction f as [|f IH]; intros f' p g eps Hp Hg Hf Hf'.
  { pose proof (size_pos p). lia. }
  destruct f' as [|f']; [pose proof (size_pos p); lia|].
  rewrite !align_pure_wf by done.
  destruct (np_get S _ _) as [iou|e]; simpl; [|done].
  destruct (metrics.rejected flex p g iou eps); [done|].
  destruct (is_preterminal p || is_preterminal g); [done|].
  destruct (metrics.dp_init _ _) as [st|e]; simpl; [|done].
  f_equal. apply for_each_ext. intros s u Hu.
  apply for_each_ext. intros s' v Hv.
  pose proof (descendants_size p u Hu).
  rewrite (IH f' u v); [done| | |lia|lia].
  - apply (wf_hereditary p); [done|by apply descendants_nodes].
  - apply (wf_hereditary g); [done|by apply descendants_nodes].
Qed.

(** The placement of the descendants of a node in its table. *)
Lemma wf_loc (t u : ExtendedTree) :
  wf_ext t → u ∈ descendants t →
  (1 ≤ lloc t u ∧ lloc t u ≤ rloc t u ∧ rloc t u ≤ Z.of_nat (length (leaves t)))%Z.
Proof.
  intros Hwf Hu. pose proof (wf_ranges t u Hwf (descendants_nodes t u Hu)).
  rewrite wf_leaves by done. unfold lloc, rloc. lia.
Qed.

Lemma wf_descendants_sorted (t : ExtendedTree) :
  wf_ext t → StronglySorted (fun u u' => (lloc t u ≤ lloc t u')%Z) (descendants t).
Proof.
  intros Hwf. pose proof (wf_sorted t Hwf) as Hs.
  rewrite nodes_descendants in Hs. apply StronglySorted_inv in Hs as [Hs _].
  induction Hs as [|u l Hl IH Hall]; constructor; [done|].
  eapply Forall_impl; [exact Hall|]. intros u' Hle. simpl in Hle.
  unfold lloc. lia.
Qed.

(** ** Counting the nodes that end before a leaf position *)

Lemma Qnat_le (a b : nat) : a ≤ b → (Qnat a <= Qnat b)%Q.
Proof. intros H. unfold Qnat. rewrite <- Zle_Qle. lia. Qed.

Lemma Qnat_add (a b : nat) : (Qnat (a + b) == Qnat a + Qnat b)%Q.
Proof. unfold Qnat. by rewrite Nat2Z.inj_add, inject_Z_plus. Qed.

Lemma Qnat_0 : (Qnat 0 == 0)%Q.
Proof. done. Qed.

Lemma Qnat_1 : (Qnat 1 == 1)%Q.
Proof. done. Qed.

Lemma count_upto_app rf (D1 D2 : list ExtendedTree) (a : Z) :
  count_upto rf (D1 ++ D2) a = count_upto rf D1 a + count_upto rf D2 a.
Proof. unfold count_upto. by rewrite filter_app, length_app. Qed.

Lemma count_upto_mono rf (D : list ExtendedTree) (a b : Z) :
  (a ≤ b)%Z → count_upto rf D a ≤ count_upto rf D b.
Proof.
  intros Hab. unfold count_upto. induction D as [|x D IH]; [done|].
  rewrite !filter_cons.
  destruct (decide (rf x ≤ a)%Z), (decide (rf x ≤ b)%Z); simpl; lia.
Qed.

Lemma count_upto_all rf (D : list ExtendedTree) (a : Z) :
  (∀ x, x ∈ D → (rf x ≤ a)%Z) → count_upto rf D a = length D.
Proof.
  intros H. unfold count_upto. induction D as [|x D IH]; [done|].
  rewrite filter_cons, decide_True by (apply H, list_elem_of_here).
  simpl. rewrite IH; [done|]. intros y Hy. by apply H, list_elem_of_further.
Qed.

Lemma count_upto_none rf (D : list ExtendedTree) (a : Z) :
  (∀ x, x ∈ D → (a < rf x)%Z) → count_upto rf D a = 0.
Proof.
  intros H. unfold count_upto. induction D as [|x D IH]; [done|].
  rewrite filter_cons, decide_False.
  - apply IH. intros y Hy. by apply H, list_elem_of_further.
  - specialize (H x (list_elem_of_here _ _)). lia.
Qed.

Lemma count_upto_le rf (D : list ExtendedTree) (a : Z) :
  count_upto rf D a ≤ length D.
Proof. unfold count_upto. apply length_filter. Qed.

(** A subtree that starts after [a] adds all its nodes to the count at its
    right end. *)
Lemma count_upto_subtree rf (D D1 D2 : list ExtendedTree) (u : ExtendedTree) (a : Z) :
  D = D1 ++ nodes u ++ D2 →
  (∀ x, x ∈ nodes u → (a < rf x ∧ rf x ≤ rf u)%Z) →
  count_upto rf D a + size u ≤ count_upto rf D (rf u).
Proof.
  intros -> Hu. rewrite !count_upto_app.
  assert (a ≤ rf u)%Z as Hle.
  { specialize (Hu u (nodes_self u)). lia. }
  pose proof (count_upto_mono rf D1 a (rf u) Hle).
  pose proof (count_upto_mono rf D2 a (rf u) Hle).
  rewrite (count_upto_none rf (nodes u) a) by (intros x Hx; by apply Hu).
  rewrite (count_upto_all rf (nodes u) (rf u)) by (intros x Hx; by apply Hu).
  unfold size. lia.
Qed.

Lemma count_upto_descendant (t u : ExtendedTree) (a : Z) :
  wf_ext t → u ∈ descendants t → (a < lloc t u)%Z →
  count_upto (rloc t) (descendants t) a + size u
    ≤ count_upto (rloc t) (descendants t) (rloc t u).
Proof.
  intros Hwf Hu Ha.
  destruct (descendants_contiguous t u Hu) as (D1 & D2 & HD).
  apply (count_upto_subtree _ _ D1 D2); [done|].
  intros x Hx.
  assert (wf_ext u) as Hwu.
  { apply (wf_hereditary t); [done|by apply descendants_nodes]. }
  pose proof (wf_ranges u x Hwu Hx). unfold lloc, rloc in *. lia.
Qed.

(** ** The value of [align] on a pair of nodes *)

#[global] Arguments metrics.best_cell : simpl never.
#[global] Arguments metrics.dp_update : simpl never.
#[global] Arguments metrics.dp_init : simpl never.

Lemma descendants_trans (T t u : ExtendedTree) :
  t ∈ nodes T → u ∈ descendants t → u ∈ nodes T.
Proof.
  intros Ht Hu. destruct (nodes_contiguous T t Ht) as (D1 & D2 & HD).
  rewrite HD. apply elem_of_app. right. apply elem_of_app. left.
  by apply descendants_nodes.
Qed.

Section pure.
Variables (S : ndarray) (flex : bool) (P G : ExtendedTree).
Hypothesis HP : wf_ext P.
Hypothesis HG : wf_ext G.
Hypothesis HP0 : index P = 0.
Hypothesis HG0 : index G = 0.
Hypothesis HS : has_shape (size P) (size G) S.

Lemma node_in_table (p g : ExtendedTree) :
  p ∈ nodes P → g ∈ nodes G →
  in_table (size P) (size G) (Z.of_nat (index p)) (Z.of_nat (index g)).
Proof.
  intros Hp Hg.
  pose proof (wf_index_range P p HP Hp). pose proof (wf_index_range G g HG Hg).
  split; lia.
Qed.

Lemma span_get (p g : ExtendedTree) :
  p ∈ nodes P → g ∈ nodes G →
  np_get S (Z.of_nat (index p)) (Z.of_nat (index g))
  = Ok (cell S (Z.of_nat (index p)) (Z.of_nat (index g))).
Proof. intros Hp Hg. apply (np_get_Ok (size P) (size G)); [done|by apply node_in_table]. Qed.


(** The general case of [align]: the interval table over the proper
    descendants, then the scan, then the overlap of the pair itself. *)
Lemma align_pure_general (f : nat) (p g : ExtendedTree) (eps : Q) :
  wf_ext p → wf_ext g →
  p ∈ nodes P → g ∈ nodes G →
  metrics.rejected flex p g (cell S (Z.of_nat (index p)) (Z.of_nat (index g))) eps = false →
  is_preterminal p || is_preterminal g = false →
  (∀ u v, u ∈ descendants p → v ∈ descendants g →
     is_Ok (align_pure f S flex u v utils.default_eps)) →
  ∃ st best t,
    bellman_inv (length (leaves p) + 1) (length (leaves g) + 1)
      (lloc p) (rloc p) (lloc g) (rloc g) (pure_weight f S flex) init_cell
      (fun u v => u ∈ descendants p ∧ v ∈ descendants g) st ∧
    (-1 <= best)%Q ∧
    (∀ a b, in_table (length (leaves p) + 1) (length (leaves g) + 1) a b →
       (cell st.1 a b <= best)%Q) ∧
    (best = (-1)%Q ∨
     ∃ a b, in_table (length (leaves p) + 1) (length (leaves g) + 1) a b ∧
            best = cell st.1 a b) ∧
    align_pure (Datatypes.S f) S flex p g eps
    = Ok ((best + cell S (Z.of_nat (index p)) (Z.of_nat (index g)))%Q,
          t ∪ {[ (index p, index g) ]}).
Proof.
  intros Hwp Hwg Hp Hg Hrej Hpre Hsub.
  rewrite align_pure_wf, span_get by done. simpl. rewrite Hrej, Hpre.
  destruct (dp_init_spec (length (leaves p)) (length (leaves g)))
    as (M0 & -> & Hs0 & Hinit). simpl.
  destruct (pair_loop_spec (length (leaves p) + 1) (length (leaves g) + 1)
              (lloc p) (rloc p) (lloc g) (rloc g)
              (descendants p) (descendants g) (fun _ _ => false)
              (fun u v => align_pure f S flex u v utils.default_eps)
              init_cell) with (M0 := M0) (tr0 := (∅ : gmap (Z * Z) (gset (nat * nat))))
    as ([M tr] & Hrun & Hinv).
  - intros u Hu. pose proof (wf_loc p u Hwp Hu). lia.
  - intros v Hv. pose proof (wf_loc g v Hwg Hv). lia.
  - by apply wf_descendants_sorted.
  - intros u v Hu Hv _. by apply Hsub.
  - done.
  - done.
  - rewrite Hrun. simpl.
    destruct (best_cell_spec (length (leaves p) + 1) (length (leaves g) + 1)
                M tr (-1)%Q ∅) as (best & t & -> & B1 & B2 & B3).
    { apply Hinv. }
    { lia. }
    simpl. exists (M, tr), best, t. split_and!; try done.
    eapply bellman_inv_ext; [|exact Hinv]. intros u v. simpl. tauto.
Qed.

(** *** Bounds *)

Hypothesis HS01 :
  ∀ i j, in_table (size P) (size G) i j → (0 <= cell S i j ∧ cell S i j <= 1)%Q.

Lemma init_cell_nonpos (a b : Z) : (init_cell a b <= 0)%Q.
Proof. unfold init_cell. destruct (decide _); [lra|done]. Qed.

Lemma align_pure_bounds (f : nat) (p g : ExtendedTree) (eps : Q) :
  p ∈ nodes P → g ∈ nodes G → size p ≤ f →
  ∃ w t, align_pure f S flex p g eps = Ok (w, t) ∧
         (0 <= w ∧ w <= Qnat (size p) ∧ w <= Qnat (size g))%Q.
Proof.
  revert p g eps. induction f as [|f IH]; intros p g eps Hp Hg Hf.
  { pose proof (size_pos p). lia. }
  assert (wf_ext p) as Hwp by (by apply (wf_hereditary P)).
  assert (wf_ext g) as Hwg by (by apply (wf_hereditary G)).
  pose proof (HS01 _ _ (node_in_table p g Hp Hg)) as [Hiou0 Hiou1].
  pose proof (Qnat_le 1 (size p) (size_pos p)) as Hsp.
  pose proof (Qnat_le 1 (size g) (size_pos g)) as Hsg.
  rewrite Qnat_1 in Hsp, Hsg.
  destruct (metrics.rejected flex p g
              (cell S (Z.of_nat (index p)) (Z.of_nat (index g))) eps) eqn:Hrej.
  { rewrite align_pure_wf, span_get by done. simpl. rewrite Hrej.
    eexists _, _. split; [done|]. lra. }
  destruct (is_preterminal p || is_preterminal g) eqn:Hpre.
  { rewrite align_pure_wf, span_get by done. simpl. rewrite Hrej, Hpre.
    eexists _, _. split; [done|]. lra. }
  assert (∀ u v, u ∈ descendants p → v ∈ descendants g →
            ∃ w t, align_pure f S flex u v utils.default_eps = Ok (w, t) ∧
                   (0 <= w ∧ w <= Qnat (size u) ∧ w <= Qnat (size v))%Q) as Hsub.
  { intros u v Hu Hv. apply IH.
    - by apply (descendants_trans P p).
    - by apply (descendants_trans G g).
    - pose proof (descendants_size p u Hu). lia. }
  assert (∀ u v, u ∈ descendants p → v ∈ descendants g →
            (0 <= pure_weight f S flex u v ∧
             pure_weight f S flex u v <= Qnat (size u) ∧
             pure_weight f S flex u v <= Qnat (size v))%Q) as HW.
  { intros u v Hu Hv. destruct (Hsub u v Hu Hv) as (w & t & Hw & Hb).
    unfold pure_weight. by rewrite Hw. }
  destruct (align_pure_general f p g eps Hwp Hwg Hp Hg Hrej Hpre)
    as (st & best & t & Hinv & B1 & B2 & B3 & ->).
  { intros u v Hu Hv. destruct (Hsub u v Hu Hv) as (w & t & -> & _).
    by eexists. }
  eexists _, _. split; [done|].
  set (n := length (leaves p) + 1) in *. set (m := length (leaves g) + 1) in *.
  assert (∀ u v, u ∈ descendants p ∧ v ∈ descendants g →
            (lloc p u ≤ rloc p u)%Z ∧ (lloc g v ≤ rloc g v)%Z) as Hgeo.
  { intros u v [Hu Hv]. pose proof (wf_loc p u Hwp Hu).
    pose proof (wf_loc g v Hwg Hv). lia. }
  (* the table is bounded by the number of nodes of [p] that end so far *)
  assert (∀ a b, in_table n m a b →
            (cell st.1 a b <= Qnat (count_upto (rloc p) (descendants p) a))%Q) as Hbp.
  { apply (bellman_dominated n m (lloc p) (rloc p) (lloc g) (rloc g)
             (pure_weight f S flex) init_cell
             (fun u v => u ∈ descendants p ∧ v ∈ descendants g) st
             (fun a _ => Qnat (count_upto (rloc p) (descendants p) a)));
      [done|done| |].
    - intros a b _. pose proof (init_cell_nonpos a b).
      pose proof (Qnat_le 0 (count_upto (rloc p) (descendants p) a) ltac:(lia)).
      rewrite Qnat_0 in *. lra.
    - intros u v a b [Hu Hv] _ Ha Hb.
      destruct (HW u v Hu Hv) as (_ & Hw & _).
      pose proof (count_upto_descendant p u a Hwp Hu ltac:(lia)) as Hc.
      apply Qnat_le in Hc. rewrite Qnat_add in Hc. lra. }
  assert (∀ a b, in_table n m a b →
            (cell st.1 a b <= Qnat (count_upto (rloc g) (descendants g) b))%Q) as Hbg.
  { apply (bellman_dominated n m (lloc p) (rloc p) (lloc g) (rloc g)
             (pure_weight f S flex) init_cell
             (fun u v => u ∈ descendants p ∧ v ∈ descendants g) st
             (fun _ b => Qnat (count_upto (rloc g) (descendants g) b)));
      [done|done| |].
    - intros a b _. pose proof (init_cell_nonpos a b).
      pose proof (Qnat_le 0 (count_upto (rloc g) (descendants g) b) ltac:(lia)).
      rewrite Qnat_0 in *. lra.
    - intros u v a b [Hu Hv] _ Ha Hb.
      destruct (HW u v Hu Hv) as (_ & _ & Hw).
      pose proof (count_upto_descendant g v b Hwg Hv ltac:(lia)) as Hc.
      apply Qnat_le in Hc. rewrite Qnat_add in Hc. lra. }
  assert (size p = 1 + length (descendants p)) as Hszp.
  { unfold size. by rewrite nodes_descendants. }
  assert (size g = 1 + length (descendants g)) as Hszg.
  { unfold size. by rewrite nodes_descendants. }
  assert ((0 <= best)%Q) as Hbest0.
  { assert (in_table n m 0 0) as H00 by (unfold n, m; split; lia).
    destruct Hinv as (_ & H2 & _). specialize (H2 0%Z 0%Z H00).
    specialize (B2 0%Z 0%Z H00). unfold init_cell in H2.
    rewrite decide_True in H2 by done. lra. }
  assert ((best <= Qnat (length (descendants p)) ∧
           best <= Qnat (length (descendants g)))%Q) as [Hbestp Hbestg].
  { destruct B3 as [->|(a & b & Hab & ->)]; [lra|].
    specialize (Hbp a b Hab). specialize (Hbg a b Hab).
    pose proof (Qnat_le _ _ (count_upto_le (rloc p) (descendants p) a)).
    pose proof (Qnat_le _ _ (count_upto_le (rloc g) (descendants g) b)).
    lra. }
  rewrite Hszp, Hszg, !Qnat_add, Qnat_1. lra.
Qed.
End pure.

(** ** [TreeAligner.__init__] *)

Lemma default_eps_pos : (0 < utils.default_eps)%Q.
Proof. reflexivity. Qed.

Lemma node_iou_Ok (u v : ExtendedTree) :
  utils.span_iou (time_range u) (time_range v) utils.default_eps = Ok (node_iou u v).
Proof.
  unfold node_iou.
  destruct (span_iou_cases (time_range u) (time_range v) utils.default_eps
              default_eps_pos) as (r & -> & _). done.
Qed.

Lemma node_iou_unit (u v : ExtendedTree) : (0 <= node_iou u v ∧ node_iou u v <= 1)%Q.
Proof.
  unfold node_iou.
  destruct (span_iou_cases (time_range u) (time_range v) utils.default_eps
              default_eps_pos) as (r & -> & _ & _ & Hr). done.
Qed.

Lemma apply_threshold_cases (t x : Q) :
  ((t < x)%Q ∧ metrics.apply_threshold t x = (x * 1)%Q) ∨
  ((x <= t)%Q ∧ metrics.apply_threshold t x = (x * 0)%Q).
Proof.
  unfold metrics.apply_threshold. destruct (utils.Qlt_bool t x) eqn:E.
  - left. by apply Qlt_bool_iff in E.
  - right. by apply Qlt_bool_false in E.
Qed.

Lemma apply_threshold_unit (t x : Q) :
  (0 <= x ∧ x <= 1)%Q →
  (0 <= metrics.apply_threshold t x ∧ metrics.apply_threshold t x <= 1)%Q.
Proof.
  intros Hx. destruct (apply_threshold_cases t x) as [[_ ->]|[_ ->]]; lra.
Qed.

Lemma wf_root_indices (T : ExtendedTree) :
  wf_ext T → index T = 0 → seq 0 (size T) = index <$> nodes T.
Proof. intros Hwf H0. by rewrite wf_indices, H0. Qed.

Lemma fill_span_ious_spec (P G : ExtendedTree) :
  wf_ext P → wf_ext G → index P = 0 → index G = 0 →
  ∃ S0, metrics.fill_span_ious P G (size P) (size G) = Ok S0 ∧
        has_shape (size P) (size G) S0 ∧
        ∀ u v, u ∈ nodes P → v ∈ nodes G →
          cell S0 (Z.of_nat (index u)) (Z.of_nat (index v)) = node_iou u v.
Proof.
  intros HP HG HP0 HG0. unfold metrics.fill_span_ious.
  rewrite (wf_root_indices P), (wf_root_indices G), for_each_fmap by done.
  set (good := fun (X : ExtendedTree → ExtendedTree → Prop) (S0 : ndarray) =>
    has_shape (size P) (size G) S0 ∧
    ∀ u v, X u v → cell S0 (Z.of_nat (index u)) (Z.of_nat (index v)) = node_iou u v).
  assert (∀ X Y S0, (∀ u v, X u v ↔ Y u v) → good X S0 → good Y S0) as Hext.
  { intros X Y S0 HXY [G1 G2]. split; [done|]. intros u v Huv. apply G2. by apply HXY. }
  destruct (for_each_invariant
    (fun vis S0 => good (fun u v => u ∈ vis ∧ u ∈ nodes P ∧ v ∈ nodes G) S0)
    (nodes P)
    (fun s u =>
       for_each (index <$> nodes G) (fun span_ious j =>
         p ← index2node P (index u);
         g ← index2node G j;
         iou ← utils.span_iou (time_range p) (time_range g) utils.default_eps;
         np_set span_ious (Z.of_nat (index u)) (Z.of_nat j) iou) s)
    (np_full (size P) (size G) 0%Q)) as (S0 & Hrun & [G1 G2]).
  - split; [apply has_shape_full|]. intros u v [Hu _]. by apply elem_of_nil in Hu.
  - intros vis u rest S0 Hl Hgood.
    assert (u ∈ nodes P) as Hu.
    { rewrite Hl. apply elem_of_app. right. apply list_elem_of_here. }
    rewrite for_each_fmap.
    destruct (for_each_invariant
      (fun visg S0 =>
         good (fun u' v => (u' ∈ vis ∧ u' ∈ nodes P ∧ v ∈ nodes G) ∨
                           (u' = u ∧ v ∈ visg ∧ v ∈ nodes G)) S0)
      (nodes G)
      (fun span_ious v =>
         p ← index2node P (index u);
         g ← index2node G (index v);
         iou ← utils.span_iou (time_range p) (time_range g) utils.default_eps;
         np_set span_ious (Z.of_nat (index u)) (Z.of_nat (index v)) iou)
      S0) as (S1 & Hrun & Hgood').
    + eapply Hext; [|exact Hgood]. intros u' v. split; [by left|].
      intros [?|(_ & Hv & _)]; [done|]. by apply elem_of_nil in Hv.
    + intros visg v restg S1 Hlg [G1 G2].
      assert (v ∈ nodes G) as Hv.
      { rewrite Hlg. apply elem_of_app. right. apply list_elem_of_here. }
      rewrite (wf_index2node P u), (wf_index2node G v) by done. simpl.
      rewrite node_iou_Ok. simpl.
      destruct (np_set_Ok (size P) (size G) S1 (Z.of_nat (index u)) (Z.of_nat (index v))
                  (node_iou u v) G1 (node_in_table P G HP HG HP0 HG0 u v Hu Hv))
        as (S2 & -> & Hs2 & Hc & Hframe).
      exists S2. split; [done|]. split; [done|].
      intros u' v' Huv'.
      assert (u' ∈ nodes P ∧ v' ∈ nodes G) as [Hu' Hv'].
      { rewrite elem_of_app, list_elem_of_singleton in Huv'.
        destruct Huv' as [(_ & ? & ?)|(-> & [?| ->] & ?)]; done. }
      destruct (decide (index u' = index u ∧ index v' = index v)) as [[H1 H2]|Hne].
      { apply (wf_index_inj P) in H1; [|done..].
        apply (wf_index_inj G) in H2; [|done..]. by subst. }
      rewrite Hframe.
      * apply G2. rewrite elem_of_app, list_elem_of_singleton in Huv'.
        destruct Huv' as [?|(-> & [?| ->] & ?)]; [by left|by right|].
        exfalso. by apply Hne.
      * by apply node_in_table.
      * intros [= H1 H2]. apply Hne. split; lia.
    + exists S1. split; [done|]. eapply Hext; [|exact Hgood'].
      intros u' v. simpl. rewrite elem_of_app, list_elem_of_singleton. split.
      * intros [(? & ? & ?)|(-> & ? & ?)]; split_and!; auto.
      * intros ([?| ->] & ? & ?); [left|right]; done.
  - exists S0. split; [done|]. split; [done|].
    intros u v Hu Hv. by apply G2.
Qed.

Lemma init_spec (P G : ExtendedTree) (threshold_iou : Q) (flex : bool) :
  wf_ext P → wf_ext G → index P = 0 → index G = 0 →
  lleaf P = 1%Z → lleaf G = 1%Z →
  ∃ self, metrics.init P G threshold_iou flex = Ok self ∧
          aligner_ok P G self ∧ memo_inv P G self ∧
          metrics._flexible_terminal_alignment self = flex ∧
          ∀ u v, u ∈ nodes P → v ∈ nodes G →
            cell (metrics._span_ious self) (Z.of_nat (index u)) (Z.of_nat (index v))
            = metrics.apply_threshold threshold_iou (node_iou u v).
Proof.
  intros HP HG HP0 HG0 HP1 HG1. unfold metrics.init.
  rewrite (wf_n_nodes P), (wf_n_nodes G) by done. simpl.
  destruct (fill_span_ious_spec P G HP HG HP0 HG0) as (S0 & -> & Hs & Hcells).
  simpl. eexists. split; [done|].
  assert (∀ i j, in_table (size P) (size G) i j →
            ∃ u v, u ∈ nodes P ∧ v ∈ nodes G ∧
                   i = Z.of_nat (index u) ∧ j = Z.of_nat (index v)) as Hnode.
  { intros i j [Hi Hj].
    assert (Z.to_nat i ∈ index <$> nodes P) as Hu.
    { rewrite <- wf_root_indices by done. apply elem_of_seq. lia. }
    assert (Z.to_nat j ∈ index <$> nodes G) as Hv.
    { rewrite <- wf_root_indices by done. apply elem_of_seq. lia. }
    apply list_elem_of_fmap in Hu as (u & Hiu & Hu).
    apply list_elem_of_fmap in Hv as (v & Hjv & Hv).
    exists u, v. split_and!; [done|done|lia|lia]. }
  split_and!.
  - unfold aligner_ok. simpl. split_and!; try done.
    + by apply has_shape_fmap.
    + intros i j Hij. rewrite (cell_fmap (size P) (size G)) by done.
      destruct (Hnode i j Hij) as (u & v & Hu & Hv & -> & ->).
      rewrite Hcells by done. apply apply_threshold_unit, node_iou_unit.
  - split; simpl; [apply has_shape_full|].
    intros u v Hu Hv. left. split; [|done].
    unfold cell. rewrite np_get_full; [done|]. by apply node_in_table.
  - done.
  - intros u v Hu Hv. simpl.
    rewrite (cell_fmap (size P) (size G)); [|done|by apply node_in_table].
    by rewrite Hcells.
Qed.

(** ** Writing into the memo tables *)

Lemma same_cfg_refl (self : metrics.TreeAligner) : same_cfg self self.
Proof. by destruct self. Qed.

Lemma same_cfg_set (self : metrics.TreeAligner) w t :
  same_cfg self (metrics.set_memo self w t).
Proof. by destruct self. Qed.

Lemma same_cfg_trans (s1 s2 s3 : metrics.TreeAligner) :
  same_cfg s1 s2 → same_cfg s2 s3 → same_cfg s1 s3.
Proof. unfold same_cfg. intros H12 H23. rewrite H23, H12. by destruct s1. Qed.

Lemma same_cfg_fields (s1 s2 : metrics.TreeAligner) :
  same_cfg s1 s2 →
  metrics._span_ious s2 = metrics._span_ious s1 ∧
  metrics._flexible_terminal_alignment s2 = metrics._flexible_terminal_alignment s1 ∧
  metrics._ptree s2 = metrics._ptree s1 ∧ metrics._gtree s2 = metrics._gtree s1 ∧
  metrics._n_ptree s2 = metrics._n_ptree s1.
Proof. unfold same_cfg. intros ->. by destruct s1. Qed.

Lemma aligner_ok_same_cfg (P G : ExtendedTree) (s1 s2 : metrics.TreeAligner) :
  same_cfg s1 s2 → aligner_ok P G s1 → aligner_ok P G s2.
Proof.
  intros Hc (H1 & H2 & H3 & H4 & L1 & L2 & H5 & H6 & H7 & H8 & H9).
  destruct (same_cfg_fields s1 s2 Hc) as (E1 & E2 & E3 & E4 & E5).
  unfold aligner_ok. rewrite E1, E3, E4, E5. done.
Qed.

(** An update of the entry of one pair with the result of [align] on it
    keeps the memo tables right. *)
Lemma memo_inv_write (P G : ExtendedTree) (self self' : metrics.TreeAligner)
    (p g : ExtendedTree) (w : Q) (t : gset (nat * nat)) :
  aligner_ok P G self → memo_inv P G self → same_cfg self self' →
  p ∈ nodes P → g ∈ nodes G →
  align_pure (size p) (metrics._span_ious self)
    (metrics._flexible_terminal_alignment self) p g utils.default_eps = Ok (w, t) →
  has_shape (size P) (size G) (metrics.max_matching_weights self') →
  cell (metrics.max_matching_weights self') (Z.of_nat (index p)) (Z.of_nat (index g)) = w →
  metrics.trace self' !!! (index p, index g) = t →
  (∀ i j, in_table (size P) (size G) i j →
     (i, j) ≠ (Z.of_nat (index p), Z.of_nat (index g)) →
     cell (metrics.max_matching_weights self') i j
     = cell (metrics.max_matching_weights self) i j) →
  (∀ k, k ≠ (index p, index g) → metrics.trace self' !! k = metrics.trace self !! k) →
  memo_inv P G self'.
Proof.
  intros Hok [Hs Hinv] Hc Hp Hg Hpure Hs' Hcell Htr Hframe Htrframe.
  destruct (same_cfg_fields self self' Hc) as (E1 & E2 & _).
  destruct Hok as (HP & HG & HP0 & HG0 & _).
  split; [done|]. intros u v Hu Hv. rewrite E1, E2.
  destruct (decide (index u = index p ∧ index v = index g)) as [[H1 H2]|Hne].
  - apply (wf_index_inj P) in H1; [|done..].
    apply (wf_index_inj G) in H2; [|done..]. subst u v.
    right. by rewrite Hcell, Htr.
  - rewrite Hframe; [| by apply node_in_table | intros [= ? ?]; apply Hne; lia].
    assert ((index u, index v) ≠ (index p, index g)) as Hk.
    { intros [= ? ?]. by apply Hne. }
    rewrite (Htrframe _ Hk).
    rewrite (lookup_total_alt (metrics.trace self')), (Htrframe _ Hk),
      <- (lookup_total_alt (metrics.trace self)).
    by apply Hinv.
Qed.

(** The three stores of a result, and the read back (lines 58-60, 63-65
    and 96-98). *)
Lemma store_spec (n m : nat) (self : metrics.TreeAligner) (i j : Z)
    (k : nat * nat) (w : Q) (t : gset (nat * nat)) :
  has_shape n m (metrics.max_matching_weights self) → in_table n m i j →
  ∃ self1,
    (w' ← np_set (metrics.max_matching_weights self) i j w;
     let self1 := metrics.set_memo self w' (<[k := t]> (metrics.trace self)) in
     r ← np_get (metrics.max_matching_weights self1) i j;
     Ok (self1, (r, metrics.trace self1 !!! k))) = Ok (self1, (w, t)) ∧
    same_cfg self self1 ∧
    has_shape n m (metrics.max_matching_weights self1) ∧
    cell (metrics.max_matching_weights self1) i j = w ∧
    (∀ i' j', in_table n m i' j' → (i', j') ≠ (i, j) →
       cell (metrics.max_matching_weights self1) i' j'
       = cell (metrics.max_matching_weights self) i' j') ∧
    metrics.trace self1 = <[k := t]> (metrics.trace self).
Proof.
  intros Hs Hij.
  destruct (np_set_Ok n m _ i j w Hs Hij) as (w' & -> & Hs' & Hcell & Hframe).
  simpl. exists (metrics.set_memo self w' (<[k := t]> (metrics.trace self))).
  assert (metrics.max_matching_weights
            (metrics.set_memo self w' (<[k := t]> (metrics.trace self))) = w') as Ew
    by (by destruct self).
  assert (metrics.trace
            (metrics.set_memo self w' (<[k := t]> (metrics.trace self)))
          = <[k := t]> (metrics.trace self)) as Et by (by destruct self).
  rewrite Ew, Et. rewrite (np_get_Ok n m) by done. simpl.
  rewrite Hcell, lookup_total_insert_eq.
  split_and!; try done.
Qed.

(** Two loops that keep a relation between their states. *)
Lemma for_each_sim {S1 S2 A} (R : S1 → S2 → Prop) (l : list A)
    (body1 : S1 → A → result S1) (body2 : S2 → A → result S2) (s1 : S1) (s2 s2' : S2) :
  R s1 s2 →
  (∀ x s1 s2 s2', x ∈ l → R s1 s2 → body2 s2 x = Ok s2' →
     ∃ s1', body1 s1 x = Ok s1' ∧ R s1' s2') →
  for_each l body2 s2 = Ok s2' →
  ∃ s1', for_each l body1 s1 = Ok s1' ∧ R s1' s2'.
Proof.
  revert s1 s2. induction l as [|x l IH]; intros s1 s2 HR Hstep Hrun; simpl in *.
  - injection Hrun as <-. by exists s1.
  - apply bind_Ok in Hrun as (s2m & Hx & Hrun).
    destruct (Hstep x s1 s2 s2m (list_elem_of_here _ _) HR Hx) as (s1m & -> & HRm).
    simpl. apply (IH s1m s2m); [done| |done].
    intros y t1 t2 t2' Hy. apply Hstep. by apply list_elem_of_further.
Qed.

(** ** The memo tables cache [align_pure] *)

(** The scan of lines 90-94 leaves in the memo entry what [best_cell]
    returns from the value the entry had. *)
Lemma scan_spec (np ng : nat) (M : ndarray) (tr : gmap (Z * Z) (gset (nat * nat)))
    (self : metrics.TreeAligner) (i j : Z) (k : nat * nat)
    (w : Q) (t : gset (nat * nat)) :
  has_shape np ng (metrics.max_matching_weights self) → in_table np ng i j →
  metrics.best_cell (M, tr)
    (cell (metrics.max_matching_weights self) i j, metrics.trace self !!! k) = Ok (w, t) →
  ∃ self',
    for_each (range (Z.of_nat (np_shape M).1)) (fun self a =>
      for_each (range (Z.of_nat (np_shape M).2)) (fun self b =>
        c ← np_get M a b;
        best ← np_get (metrics.max_matching_weights self) i j;
        if utils.Qlt_bool best c then
          w ← np_set (metrics.max_matching_weights self) i j c;
          Ok (metrics.set_memo self w (<[k := tr !!! (a, b)]> (metrics.trace self)))
        else Ok self) self) self = Ok self' ∧
    same_cfg self self' ∧
    has_shape np ng (metrics.max_matching_weights self') ∧
    cell (metrics.max_matching_weights self') i j = w ∧
    metrics.trace self' !!! k = t ∧
    (∀ i' j', in_table np ng i' j' → (i', j') ≠ (i, j) →
       cell (metrics.max_matching_weights self') i' j'
       = cell (metrics.max_matching_weights self) i' j') ∧
    (∀ k', k' ≠ k → metrics.trace self' !! k' = metrics.trace self !! k').
Proof.
  intros Hs Hij Hbest. unfold metrics.best_cell in Hbest.
  set (R := fun (self' : metrics.TreeAligner) (acc : Q * gset (nat * nat)) =>
    same_cfg self self' ∧
    has_shape np ng (metrics.max_matching_weights self') ∧
    cell (metrics.max_matching_weights self') i j = acc.1 ∧
    metrics.trace self' !!! k = acc.2 ∧
    (∀ i' j', in_table np ng i' j' → (i', j') ≠ (i, j) →
       cell (metrics.max_matching_weights self') i' j'
       = cell (metrics.max_matching_weights self) i' j') ∧
    (∀ k', k' ≠ k → metrics.trace self' !! k' = metrics.trace self !! k')).
  eapply (for_each_sim R _ _ _ self) in Hbest as (self' & Hrun & HR).
  - exists self'. split; [exact Hrun|]. exact HR.
  - unfold R. simpl. split; [apply same_cfg_refl|]. split; [done|].
    split; [done|]. split; [done|]. split; [done|]. split; intros; reflexivity.
  - intros a s1 acc acc' _ HR1 Hinner.
    eapply (for_each_sim R _ _ _ s1) in Hinner as (s1' & Hrun & HR'); [|exact HR1|].
    { exists s1'. split; [exact Hrun|exact HR']. }
    intros b t1 [mw mt] acc0 _ (R1 & R2 & R3 & R4 & R5 & R6) Hstep.
    simpl in *. apply bind_Ok in Hstep as (c & -> & Hstep). simpl.
    rewrite (np_get_Ok np ng) by done. simpl. rewrite R3.
    destruct (utils.Qlt_bool mw c).
    + injection Hstep as <-.
      destruct (np_set_Ok np ng _ i j c R2 Hij) as (w' & -> & Hs' & Hc & Hf).
      simpl. eexists. split; [done|]. unfold R.
      assert (∀ x y, metrics.max_matching_weights (metrics.set_memo t1 x y) = x) as Ew
        by (by destruct t1).
      assert (∀ x y, metrics.trace (metrics.set_memo t1 x y) = y) as Et
        by (by destruct t1).
      rewrite Ew, Et. simpl. split_and!.
      * eapply same_cfg_trans; [exact R1|apply same_cfg_set].
      * done.
      * done.
      * by rewrite lookup_total_insert_eq.
      * intros i' j' Hij' Hne. rewrite Hf by done. by apply R5.
      * intros k' Hk'. rewrite lookup_insert_ne by done. by apply R6.
    + injection Hstep as <-. exists t1. split; [done|]. unfold R. done.
Qed.

Ltac ok_bind := cbn [mbind result_bind].

Lemma descendant_of_index (p psub : ExtendedTree) (i : nat) :
  wf_ext p → index2node p i = Ok psub → i ≠ index p →
  psub ∈ descendants p ∧ index psub = i.
Proof.
  intros Hwf Hlook Hne. unfold index2node in Hlook.
  destruct (index2node_map p !! i) as [u|] eqn:E; [|done].
  injection Hlook as ->. apply index2node_map_sound in E as [Hin Hidx].
  split; [|done]. rewrite nodes_descendants in Hin.
  apply elem_of_cons in Hin as [->|?]; [congruence|done].
Qed.

Lemma lookup_total_None (tr : gmap (nat * nat) (gset (nat * nat))) (k : nat * nat) :
  tr !! k = None → tr !!! k = ∅.
Proof. intros H. by rewrite lookup_total_alt, H. Qed.

(** The state of the loop over the pairs of descendants of [p]: the memo
    tables stay right, and the rows up to the row of [p] stay as they
    were. *)
Lemma align_refines (P G : ExtendedTree) (f : nat) :
  ∀ (self : metrics.TreeAligner) (p g : ExtendedTree),
    aligner_ok P G self → memo_inv P G self →
    p ∈ nodes P → g ∈ nodes G → size p ≤ f →
    ∃ self' r,
      metrics.align f self p g utils.default_eps = Ok (self', r) ∧
      align_pure (size p) (metrics._span_ious self)
        (metrics._flexible_terminal_alignment self) p g utils.default_eps = Ok r ∧
      same_cfg self self' ∧ memo_inv P G self' ∧
      (∀ i j, in_table (size P) (size G) i j → (i < Z.of_nat (index p))%Z →
         cell (metrics.max_matching_weights self') i j
         = cell (metrics.max_matching_weights self) i j).
Proof.
  induction f as [|f IH]; intros self p g Hok Hmemo Hp Hg Hf.
  { pose proof (size_pos p). lia. }
  pose proof Hok as (HP & HG & HP0 & HG0 & HP1 & HG1 & EP & EG & EN & HS & HS01).
  assert (wf_ext p) as Hwp by (by apply (wf_hereditary P)).
  assert (wf_ext g) as Hwg by (by apply (wf_hereditary G)).
  set (S := metrics._span_ious self) in *.
  set (flex := metrics._flexible_terminal_alignment self) in *.
  pose proof (node_in_table P G HP HG HP0 HG0 p g Hp Hg) as Hin.
  destruct (align_pure_bounds S flex P G HP HG HP0 HG0 HS HS01
              (size p) p g utils.default_eps Hp Hg (le_n _))
    as (w & t & Hpure & Hw0 & _).
  pose proof Hmemo as [Hshape Hentries].
  cbn [metrics.align].
  rewrite (np_get_Ok (size P) (size G) (metrics.max_matching_weights self)) by done.
  ok_bind.
  destruct (Hentries p g Hp Hg) as [[Hminus Hnone]|Hhit].
  2:{ fold S flex in Hhit. rewrite Hhit in Hpure. injection Hpure as <- <-.
      apply Qle_bool_iff in Hw0. rewrite Hw0.
      eexists self, _. split; [done|]. split; [exact Hhit|].
      split; [apply same_cfg_refl|]. split; [done|]. intros; reflexivity. }
  rewrite Hminus. change (Qle_bool 0 (-1)) with false. cbv iota.
  fold S flex. rewrite (span_get S P G) by done. ok_bind.
  pose proof Hpure as Hpure0.
  rewrite (align_pure_fuel S flex (size p) (Datatypes.S f)) in Hpure by (done || lia).
  cbn [align_pure] in Hpure. rewrite (span_get S P G) in Hpure by done.
  cbn [mbind result_bind] in Hpure.
  set (iou := cell S (Z.of_nat (index p)) (Z.of_nat (index g))) in *.
  (* the entry of the pair after a store of [(w, t)] into [self1], whose
     tables are those of [selfb] but for the entry of the pair *)
  assert (∀ selfb self1,
    aligner_ok P G selfb → memo_inv P G selfb →
    same_cfg self selfb → same_cfg selfb self1 →
    has_shape (size P) (size G) (metrics.max_matching_weights self1) →
    (∀ i j, in_table (size P) (size G) i j →
       (i, j) ≠ (Z.of_nat (index p), Z.of_nat (index g)) →
       cell (metrics.max_matching_weights self1) i j
       = cell (metrics.max_matching_weights selfb) i j) →
    (∀ k, k ≠ (index p, index g) →
       metrics.trace self1 !! k = metrics.trace selfb !! k) →
    (∀ i j, in_table (size P) (size G) i j → (i < Z.of_nat (index p))%Z →
       cell (metrics.max_matching_weights selfb) i j
       = cell (metrics.max_matching_weights self) i j) →
    ∃ self' r,
      (w' ← np_set (metrics.max_matching_weights self1)
              (Z.of_nat (index p)) (Z.of_nat (index g)) w;
       let self2 := metrics.set_memo self1 w'
                      (<[(index p, index g) := t]> (metrics.trace self1)) in
       r ← np_get (metrics.max_matching_weights self2)
             (Z.of_nat (index p)) (Z.of_nat (index g));
       Ok (self2, (r, metrics.trace self2 !!! (index p, index g)))) = Ok (self', r) ∧
      align_pure (size p) S flex p g utils.default_eps = Ok r ∧
      same_cfg self self' ∧ memo_inv P G self' ∧
      (∀ i j, in_table (size P) (size G) i j → (i < Z.of_nat (index p))%Z →
         cell (metrics.max_matching_weights self') i j
         = cell (metrics.max_matching_weights self) i j)) as Hstore.
  { intros selfb self1 Hokb Hmemob Hcb Hc1 Hs1 Hframe1 Htrframe1 Hrows.
    destruct (store_spec (size P) (size G) self1 _ _ (index p, index g) w t Hs1 Hin)
      as (self2 & Hrun & Hc2 & Hs2 & Hcell2 & Hframe2 & Htr2).
    exists self2, (w, t). split; [exact Hrun|].
    destruct (same_cfg_fields self selfb Hcb) as (E1 & E2 & _).
    split; [exact Hpure0|].
    split; [eapply same_cfg_trans; [exact Hcb|by eapply same_cfg_trans]|]. split.
    - apply (memo_inv_write P G selfb self2 p g w t); try done.
      + by eapply same_cfg_trans.
      + rewrite E1, E2. exact Hpure0.
      + rewrite Htr2. apply lookup_total_insert_eq.
      + intros i j Hij Hne. rewrite Hframe2 by done. by apply Hframe1.
      + intros k Hk. rewrite Htr2, lookup_insert_ne by done. by apply Htrframe1.
    - intros i j Hij Hlt.
      rewrite Hframe2, Hframe1; [by apply Hrows|done|..];
        try done; intros [= ? ?]; lia. }
  destruct (metrics.rejected flex p g iou utils.default_eps) eqn:Hrej.
  { injection Hpure as <- <-.
    apply (Hstore self self); try done; try apply same_cfg_refl. }
  destruct (is_preterminal p || is_preterminal g) eqn:Hpre.
  { injection Hpure as <- <-.
    apply (Hstore self self); try done; try apply same_cfg_refl. }
  apply bind_Ok in Hpure as (st0 & Hinit & Hpure).
  apply bind_Ok in Hpure as (st1 & Hloop & Hpure).
  apply bind_Ok in Hpure as ([best tb] & Hbest & Hpure).
  injection Hpure as <- <-.
  rewrite Hinit. ok_bind.
  (* the loop over the pairs of descendants *)
  set (R := fun (acc : metrics.TreeAligner * (ndarray * gmap (Z * Z) (gset (nat * nat))))
                (st : ndarray * gmap (Z * Z) (gset (nat * nat))) =>
    acc.2 = st ∧ aligner_ok P G acc.1 ∧ memo_inv P G acc.1 ∧ same_cfg self acc.1 ∧
    (∀ i j, in_table (size P) (size G) i j → (i ≤ Z.of_nat (index p))%Z →
       cell (metrics.max_matching_weights acc.1) i j
       = cell (metrics.max_matching_weights self) i j)).
  match goal with
  | |- context [for_each (subtree_indices p) ?body (self, st0)] =>
      assert (∃ acc, for_each (subtree_indices p) body (self, st0) = Ok acc ∧ R acc st1)
        as ([self1 st1'] & Hrun & HR)
  end.
  { eapply (for_each_sim R); [| |exact Hloop].
    { unfold R. simpl. split; [done|]. split; [done|]. split; [done|].
      split; [apply same_cfg_refl|]. intros; reflexivity. }
      intros i acc st st' _ HRacc Hstep. cbv beta in Hstep |- *.
      destruct (decide (i = index p)) as [_|Hi].
      { injection Hstep as <-. by exists acc. }
      eapply (for_each_sim R); [exact HRacc| |exact Hstep].
      intros j [selfk stk] st2 st2' _ (R1 & R2 & R3 & R4 & R5) Hstep2.
      cbv beta iota in Hstep2 |- *.
      simpl in R1, R2, R3, R4, R5. subst st2.
      destruct (decide (j = index g)) as [_|Hj].
      { injection Hstep2 as <-. exists (selfk, stk). split; [done|]. by unfold R. }
      apply bind_Ok in Hstep2 as (psub & Hps & Hstep2).
      apply bind_Ok in Hstep2 as (gsub & Hgs & Hstep2).
      apply bind_Ok in Hstep2 as ([w' t'] & Hsub & Hupd).
      rewrite Hps, Hgs. ok_bind.
      destruct (descendant_of_index p psub i Hwp Hps Hi) as [Hdp Hip].
      destruct (descendant_of_index g gsub j Hwg Hgs Hj) as [Hdg Hjg].
      pose proof (descendants_size p psub Hdp) as Hsz.
      assert (psub ∈ nodes P) as HpP by (by apply (descendants_trans P p)).
      assert (gsub ∈ nodes G) as HgG by (by apply (descendants_trans G g)).
      destruct (IH selfk psub gsub R2 R3 HpP HgG ltac:(lia))
        as (selfk' & r' & Hal & Hpu & Hc' & Hm' & Hfr').
      rewrite Hal. ok_bind.
      destruct (same_cfg_fields self selfk R4) as (E1 & E2 & _).
      rewrite E1, E2 in Hpu. fold S flex in Hpu.
      rewrite (align_pure_fuel S flex (size psub) f) in Hpu;
        [|by apply (wf_hereditary P)|by apply (wf_hereditary G)|done|lia].
      rewrite Hsub in Hpu. injection Hpu as <-.
      change (metrics.dp_update stk (lleaf psub - lleaf p + 1)%Z
                (rleaf psub - lleaf p + 1)%Z (lleaf gsub - lleaf g + 1)%Z
                (rleaf gsub - lleaf g + 1)%Z w' t' = Ok st2') in Hupd.
      unfold lleaf, rleaf in Hupd. rewrite Hupd. ok_bind.
      exists (selfk', st2'). split; [done|]. unfold R. simpl.
      split; [done|]. split; [by apply (aligner_ok_same_cfg P G selfk)|].
      split; [done|]. split; [by eapply same_cfg_trans|].
      intros i' j' Hij' Hle. rewrite Hfr'; [by apply R5|done|].
      pose proof (wf_index_range p psub Hwp (descendants_nodes p psub Hdp)).
      pose proof (wf_descendant_index p psub Hwp Hdp). lia. }
  rewrite Hrun. ok_bind.
  destruct HR as (E & Hok1 & Hmemo1 & Hc1 & Hrows1). simpl in E, Hok1, Hmemo1, Hc1, Hrows1.
  subst st1'. destruct st1 as [M tr].
  destruct (same_cfg_fields self self1 Hc1) as (E1 & E2 & _).
  assert (cell (metrics.max_matching_weights self1)
            (Z.of_nat (index p)) (Z.of_nat (index g)) = (-1)%Q) as Hminus1.
  { rewrite Hrows1; [done|done|lia]. }
  assert (metrics.trace self1 !!! (index p, index g) = (∅ : gset (nat * nat))) as Hempty1.
  { destruct Hmemo1 as [_ He1]. destruct (He1 p g Hp Hg) as [[_ Hn]|Hhit].
    - by apply lookup_total_None.
    - rewrite E1, E2, Hminus1 in Hhit. fold S flex in Hhit.
      rewrite Hpure0 in Hhit. apply (f_equal weight_of) in Hhit.
      cbn [weight_of] in Hhit. rewrite Hhit in Hw0. exfalso. revert Hw0. clear.
      intros H. apply Qle_bool_iff in H. done. }
  destruct (scan_spec (size P) (size G) M tr self1
              (Z.of_nat (index p)) (Z.of_nat (index g)) (index p, index g) best tb)
    as (self2 & Hscan & Hc2 & Hs2 & Hcell2 & Htr2 & Hframe2 & Htrframe2).
  { apply Hmemo1. }
  { done. }
  { by rewrite Hminus1, Hempty1. }
  rewrite Hscan. ok_bind.
  rewrite (np_get_Ok (size P) (size G) (metrics.max_matching_weights self2)) by done.
  ok_bind. rewrite Hcell2, Htr2.
  apply (Hstore self1 self2); try done.
  intros i j Hij Hlt. apply Hrows1; [done|lia].
Qed.


(** ** The top-level table of [__call__] *)

Lemma top_level_pure_nodes (f : nat) (S : ndarray) (flex : bool) (P G : ExtendedTree) :
  wf_ext P → wf_ext G →
  top_level_table_pure f S flex P G =
  st ← metrics.dp_init (length (leaves P)) (length (leaves G));
  for_each (nodes P) (fun st u =>
    for_each (nodes G) (fun st v =>
      if both_roots u v then Ok st else
      '(w, t) ← align_pure f S flex u v utils.default_eps;
      metrics.dp_update st (lleaf u) (rleaf u) (lleaf v) (rleaf v) w t) st) st.
Proof.
  intros HP HG. unfold top_level_table_pure.
  destruct (metrics.dp_init _ _) as [st|e]; [|done]. ok_bind.
  apply for_each_subtree_indices; [done|]. intros s u Hu.
  apply for_each_subtree_indices; [done|]. intros s' v Hv.
  unfold both_roots.
  destruct (decide (index u = 0 ∧ index v = 0)) as [H|H].
  - by rewrite bool_decide_true.
  - rewrite bool_decide_false by done.
    by rewrite (wf_index2node P u), (wf_index2node G v) by done.
Qed.

Lemma nodes_size (T u : ExtendedTree) : u ∈ nodes T → size u ≤ size T.
Proof.
  intros Hu. destruct (nodes_contiguous T u Hu) as (D1 & D2 & HD).
  unfold size. rewrite HD, !length_app. lia.
Qed.

Lemma wf_root_loc (T u : ExtendedTree) :
  wf_ext T → lleaf T = 1%Z → u ∈ nodes T →
  (1 ≤ lleaf u ∧ lleaf u ≤ rleaf u ∧ rleaf u ≤ Z.of_nat (length (leaves T)))%Z.
Proof.
  intros Hwf H1 Hu. pose proof (wf_ranges T u Hwf Hu).
  rewrite wf_leaves by done. lia.
Qed.

Lemma count_upto_node (T u : ExtendedTree) (a : Z) :
  wf_ext T → u ∈ nodes T → (a < lleaf u)%Z →
  count_upto rleaf (nodes T) a + size u ≤ count_upto rleaf (nodes T) (rleaf u).
Proof.
  intros Hwf Hu Ha.
  destruct (nodes_contiguous T u Hu) as (D1 & D2 & HD).
  apply (count_upto_subtree _ _ D1 D2); [done|].
  intros x Hx.
  pose proof (wf_ranges u x (wf_hereditary T u Hwf Hu) Hx). lia.
Qed.

Section top_level.
Variables (S : ndarray) (flex : bool) (P G : ExtendedTree).
Hypothesis HP : wf_ext P.
Hypothesis HG : wf_ext G.
Hypothesis HP0 : index P = 0.
Hypothesis HG0 : index G = 0.
Hypothesis HP1 : lleaf P = 1%Z.
Hypothesis HG1 : lleaf G = 1%Z.
Hypothesis HS : has_shape (size P) (size G) S.
Hypothesis HS01 :
  ∀ i j, in_table (size P) (size G) i j → (0 <= cell S i j ∧ cell S i j <= 1)%Q.

Lemma pure_weight_bounds (f : nat) (u v : ExtendedTree) :
  u ∈ nodes P → v ∈ nodes G → size u ≤ f →
  ∃ t, align_pure f S flex u v utils.default_eps = Ok (pure_weight f S flex u v, t) ∧
       (0 <= pure_weight f S flex u v ∧
        pure_weight f S flex u v <= Qnat (size u) ∧
        pure_weight f S flex u v <= Qnat (size v))%Q.
Proof.
  intros Hu Hv Hf.
  destruct (align_pure_bounds S flex P G HP HG HP0 HG0 HS HS01 f u v
              utils.default_eps Hu Hv Hf) as (w & t & Hw & Hb).
  unfold pure_weight. rewrite Hw. by exists t.
Qed.

(** The top-level table: the invariant over all the pairs of nodes but
    the pair of roots. *)
Lemma top_level_pure_spec :
  ∃ st,
    top_level_table_pure (size P) S flex P G = Ok st ∧
    bellman_inv (length (leaves P) + 1) (length (leaves G) + 1)
      lleaf rleaf lleaf rleaf (pure_weight (size P) S flex) init_cell
      (fun u v => u ∈ nodes P ∧ v ∈ nodes G ∧ both_roots u v = false) st.
Proof.
  rewrite top_level_pure_nodes by done.
  destruct (dp_init_spec (length (leaves P)) (length (leaves G)))
    as (M0 & -> & Hs0 & Hinit). ok_bind.
  destruct (pair_loop_spec (length (leaves P) + 1) (length (leaves G) + 1)
              lleaf rleaf lleaf rleaf (nodes P) (nodes G) both_roots
              (fun u v => align_pure (size P) S flex u v utils.default_eps)
              init_cell) with (M0 := M0) (tr0 := (∅ : gmap (Z * Z) (gset (nat * nat))))
    as (st & Hrun & Hinv).
  - intros u Hu. pose proof (wf_root_loc P u HP HP1 Hu). lia.
  - intros v Hv. pose proof (wf_root_loc G v HG HG1 Hv). lia.
  - by apply wf_sorted.
  - intros u v Hu Hv _.
    destruct (pure_weight_bounds (size P) u v Hu Hv (nodes_size P u Hu)) as (t & -> & _).
    by eexists.
  - done.
  - done.
  - exists st. split; [exact Hrun|exact Hinv].
Qed.

(** No cell of the top-level table exceeds the number of nodes of
    either tree. *)
Lemma top_level_bound (st : metrics.dp_state) :
  bellman_inv (length (leaves P) + 1) (length (leaves G) + 1)
    lleaf rleaf lleaf rleaf (pure_weight (size P) S flex) init_cell
    (fun u v => u ∈ nodes P ∧ v ∈ nodes G ∧ both_roots u v = false) st →
  ∀ a b, in_table (length (leaves P) + 1) (length (leaves G) + 1) a b →
    (cell st.1 a b <= Qnat (size P) ∧ cell st.1 a b <= Qnat (size G))%Q.
Proof.
  intros Hinv a b Hab.
  assert (∀ u v, u ∈ nodes P ∧ v ∈ nodes G ∧ both_roots u v = false →
            (lleaf u ≤ rleaf u)%Z ∧ (lleaf v ≤ rleaf v)%Z) as Hgeo.
  { intros u v (Hu & Hv & _). pose proof (wf_root_loc P u HP HP1 Hu).
    pose proof (wf_root_loc G v HG HG1 Hv). lia. }
  split.
  - pose proof (bellman_dominated _ _ _ _ _ _ _ _ _ st
                  (fun a _ => Qnat (count_upto rleaf (nodes P) a)) Hinv Hgeo) as Hdom.
    simpl in Hdom.
    eapply Qle_trans; [apply Hdom; [| |exact Hab]|].
    + intros a' b' _. pose proof (init_cell_nonpos a' b').
      pose proof (Qnat_le 0 (count_upto rleaf (nodes P) a') ltac:(lia)) as H0.
      rewrite Qnat_0 in H0. lra.
    + intros u v a' b' (Hu & Hv & _) _ Ha' Hb'.
      destruct (pure_weight_bounds (size P) u v Hu Hv (nodes_size P u Hu))
        as (_ & _ & _ & Hw & _).
      pose proof (count_upto_node P u a' HP Hu ltac:(lia)) as Hc.
      apply Qnat_le in Hc. rewrite Qnat_add in Hc. lra.
    + apply Qnat_le, count_upto_le.
  - pose proof (bellman_dominated _ _ _ _ _ _ _ _ _ st
                  (fun _ b => Qnat (count_upto rleaf (nodes G) b)) Hinv Hgeo) as Hdom.
    simpl in Hdom.
    eapply Qle_trans; [apply Hdom; [| |exact Hab]|].
    + intros a' b' _. pose proof (init_cell_nonpos a' b').
      pose proof (Qnat_le 0 (count_upto rleaf (nodes G) b') ltac:(lia)) as H0.
      rewrite Qnat_0 in H0. lra.
    + intros u v a' b' (Hu & Hv & _) _ Ha' Hb'.
      destruct (pure_weight_bounds (size P) u v Hu Hv (nodes_size P u Hu))
        as (_ & _ & _ & _ & Hw).
      pose proof (count_upto_node G v b' HG Hv ltac:(lia)) as Hc.
      apply Qnat_le in Hc. rewrite Qnat_add in Hc. lra.
    + apply Qnat_le, count_upto_le.
Qed.
End top_level.

(** ** [__call__] computes what the memo-free reading computes *)

Lemma index2node_nodes (T u : ExtendedTree) (i : nat) :
  index2node T i = Ok u → u ∈ nodes T ∧ index u = i.
Proof.
  unfold index2node. destruct (index2node_map T !! i) as [x|] eqn:E; [|done].
  intros [= ->]. by apply index2node_map_sound.
Qed.

Lemma top_level_refines (P G : ExtendedTree) (self : metrics.TreeAligner)
    (st : metrics.dp_state) :
  aligner_ok P G self → memo_inv P G self →
  top_level_table_pure (size P) (metrics._span_ious self)
    (metrics._flexible_terminal_alignment self) P G = Ok st →
  ∃ self', metrics.top_level_table (size P) self = Ok (self', st) ∧
           same_cfg self self' ∧ memo_inv P G self'.
Proof.
  intros Hok Hmemo Hpure.
  pose proof Hok as (HP & HG & HP0 & HG0 & HP1 & HG1 & EP & EG & EN & HS & HS01).
  set (S := metrics._span_ious self) in *.
  set (flex := metrics._flexible_terminal_alignment self) in *.
  unfold top_level_table_pure in Hpure. unfold metrics.top_level_table.
  rewrite EP, EG.
  apply bind_Ok in Hpure as (st0 & -> & Hloop). ok_bind.
  set (R := fun (acc : metrics.TreeAligner * (ndarray * gmap (Z * Z) (gset (nat * nat))))
                (st : ndarray * gmap (Z * Z) (gset (nat * nat))) =>
    acc.2 = st ∧ aligner_ok P G acc.1 ∧ memo_inv P G acc.1 ∧ same_cfg self acc.1).
  match goal with
  | |- context [for_each (subtree_indices P) ?body (self, st0)] =>
      assert (∃ acc, for_each (subtree_indices P) body (self, st0) = Ok acc ∧ R acc st)
        as ([self1 st1] & Hrun & (E & _ & Hm1 & Hc1))
  end.
  { eapply (for_each_sim R); [| |exact Hloop].
    { unfold R. simpl. split; [done|]. split; [done|]. split; [done|].
      apply same_cfg_refl. }
    intros i acc s s' _ HRacc Hstep. cbv beta in Hstep |- *.
    eapply (for_each_sim R); [exact HRacc| |exact Hstep].
    intros j [selfk stk] s2 s2' _ (R1 & R2 & R3 & R4) Hstep2.
    cbv beta iota in Hstep2 |- *. simpl in R1, R2, R3, R4. subst s2.
    destruct (decide (i = 0 ∧ j = 0)) as [_|Hij].
    { injection Hstep2 as <-. exists (selfk, stk). split; [done|]. by unfold R. }
    apply bind_Ok in Hstep2 as (psub & Hps & Hstep2).
    apply bind_Ok in Hstep2 as (gsub & Hgs & Hstep2).
    apply bind_Ok in Hstep2 as ([w' t'] & Hsub & Hupd).
    destruct (same_cfg_fields self selfk R4) as (E1 & E2 & E3 & E4 & _).
    rewrite E3, E4, EP, EG, Hps, Hgs. ok_bind.
    destruct (index2node_nodes P psub i Hps) as [HpP _].
    destruct (index2node_nodes G gsub j Hgs) as [HgG _].
    destruct (align_refines P G (size P) selfk psub gsub R2 R3 HpP HgG
                (nodes_size P psub HpP))
      as (selfk' & r' & Hal & Hpu & Hc' & Hm' & _).
    unfold lleaf, rleaf in Hupd.
    destruct (leaf_range psub) as [pl pr]. destruct (leaf_range gsub) as [gl gr].
    rewrite Hal. ok_bind.
    rewrite E1, E2 in Hpu. fold S flex in Hpu.
    rewrite (align_pure_fuel S flex (size psub) (size P)) in Hpu;
      [|by apply (wf_hereditary P)|by apply (wf_hereditary G)|done
       |by apply nodes_size].
    rewrite Hsub in Hpu. injection Hpu as <-.
    simpl in Hupd. rewrite Hupd. ok_bind.
    exists (selfk', s2'). split; [done|]. unfold R. simpl.
    split; [done|]. split; [by apply (aligner_ok_same_cfg P G selfk)|].
    split; [done|]. by eapply same_cfg_trans. }
  simpl in E, Hm1, Hc1. subst st1. by exists self1.
Qed.

(** [__call__] on an aligner whose memo tables are right. *)
Lemma call_spec (P G : ExtendedTree) (self : metrics.TreeAligner) :
  aligner_ok P G self → memo_inv P G self →
  ∃ w0 t0 st mw mt self1 self2,
    metrics.align (size P) self P G utils.default_eps = Ok (self1, (w0, t0)) ∧
    align_pure (size P) (metrics._span_ious self)
      (metrics._flexible_terminal_alignment self) P G utils.default_eps = Ok (w0, t0) ∧
    metrics.top_level_table (size P) self1 = Ok (self2, st) ∧
    top_level_table_pure (size P) (metrics._span_ious self)
      (metrics._flexible_terminal_alignment self) P G = Ok st ∧
    bellman_inv (length (leaves P) + 1) (length (leaves G) + 1)
      lleaf rleaf lleaf rleaf
      (pure_weight (size P) (metrics._span_ious self)
         (metrics._flexible_terminal_alignment self)) init_cell
      (fun u v => u ∈ nodes P ∧ v ∈ nodes G ∧ both_roots u v = false) st ∧
    metrics.best_cell st (w0, t0) = Ok (mw, mt) ∧
    ((w0 <= mw)%Q ∧
     (∀ a b, in_table (length (leaves P) + 1) (length (leaves G) + 1) a b →
        (cell st.1 a b <= mw)%Q) ∧
     (mw = w0 ∨
      ∃ a b, in_table (length (leaves P) + 1) (length (leaves G) + 1) a b ∧
             mw = cell st.1 a b)) ∧
    (0 <= mw ∧ mw <= Qnat (size P) ∧ mw <= Qnat (size G))%Q ∧
    metrics.call self
    = Ok ((mw * 2 / inject_Z (Z.of_nat (size P + size G)))%Q, mt).
Proof.
  intros Hok Hmemo.
  pose proof Hok as (HP & HG & HP0 & HG0 & HP1 & HG1 & EP & EG & EN & HS & HS01).
  set (S := metrics._span_ious self) in *.
  set (flex := metrics._flexible_terminal_alignment self) in *.
  destruct (align_refines P G (size P) self P G Hok Hmemo (nodes_self P) (nodes_self G)
              (le_n _)) as (self1 & [w0 t0] & Hal & Hpu & Hc1 & Hm1 & _).
  fold S flex in Hpu.
  destruct (top_level_pure_spec S flex P G HP HG HP0 HG0 HP1 HG1 HS HS01)
    as (st & Htop & Hinv).
  destruct (same_cfg_fields self self1 Hc1) as (E1 & E2 & E3 & E4 & E5).
  destruct (top_level_refines P G self1 st) as (self2 & Htl & Hc2 & Hm2).
  { by apply (aligner_ok_same_cfg P G self). }
  { done. }
  { by rewrite E1, E2. }
  destruct st as [M tr].
  destruct (best_cell_spec (length (leaves P) + 1) (length (leaves G) + 1) M tr w0 t0)
    as (mw & mt & Hbest & B1 & B2 & B3); [apply Hinv|lia|].
  destruct (pure_weight_bounds S flex P G HP HG HP0 HG0 HS HS01 (size P) P G
              (nodes_self P) (nodes_self G) (le_n _)) as (t' & Hw & Hw0 & Hw1 & Hw2).
  unfold pure_weight in Hw0, Hw1, Hw2. rewrite Hpu in Hw0, Hw1, Hw2.
  cbn [weight_of] in Hw0, Hw1, Hw2.
  exists w0, t0, (M, tr), mw, mt, self1, self2.
  split; [done|]. split; [done|]. split; [done|]. split; [done|]. split; [done|].
  split; [done|]. split; [done|]. split.
  { split; [lra|].
    destruct B3 as [->|(a & b & Hab & ->)]; [done|].
    apply (top_level_bound S flex P G HP HG HP0 HG0 HP1 HG1 HS HS01 (M, tr) Hinv a b Hab). }
  unfold metrics.call. rewrite EN, EP, EG, Hal. ok_bind.
  rewrite Htl. ok_bind. rewrite Hbest. ok_bind.
  destruct (same_cfg_fields self1 self2 Hc2) as (_ & _ & E3' & E4' & _).
  rewrite E3', E4', E3, E4, EP, EG.
  rewrite (wf_n_nodes P), (wf_n_nodes G) by done. done.
Qed.

(** ** The aligner of two well-formed Annotated Trees *)

Lemma WellFormed_init (P G : ExtendedTree) (threshold_iou : Q) (flex : bool) :
  WellFormed P → WellFormed G →
  ∃ self, metrics.init P G threshold_iou flex = Ok self ∧
          aligner_ok P G self ∧ memo_inv P G self ∧
          metrics._flexible_terminal_alignment self = flex ∧
          ∀ u v, u ∈ nodes P → v ∈ nodes G →
            cell (metrics._span_ious self) (Z.of_nat (index u)) (Z.of_nat (index v))
            = metrics.apply_threshold threshold_iou (node_iou u v).
Proof.
  intros HP HG.
  apply WellFormed_wf_ext in HP as (HP & HP0 & HP1).
  apply WellFormed_wf_ext in HG as (HG & HG0 & HG1).
  by apply init_spec.
Qed.

(** Every reachable state of the aligner has its memo tables right. *)
Lemma reachable_inv (P G : ExtendedTree) (threshold_iou : Q) (flex : bool)
    (self : metrics.TreeAligner) :
  WellFormed P → WellFormed G →
  reachable P G threshold_iou flex self →
  aligner_ok P G self ∧ memo_inv P G self ∧
  metrics._flexible_terminal_alignment self = flex ∧
  ∀ u v, u ∈ nodes P → v ∈ nodes G →
    cell (metrics._span_ious self) (Z.of_nat (index u)) (Z.of_nat (index v))
    = metrics.apply_threshold threshold_iou (node_iou u v).
Proof.
  intros HP HG Hreach.
  induction Hreach as [self Hinit|self fuel p g self' r _ IH Hp Hg Hf Hal].
  - destruct (WellFormed_init P G threshold_iou flex HP HG)
      as (self0 & Hinit0 & H1 & H2 & H3 & H4).
    rewrite Hinit0 in Hinit. injection Hinit as <-. done.
  - destruct IH as (H1 & H2 & H3 & H4).
    destruct (align_refines P G fuel self p g H1 H2 Hp Hg Hf)
      as (self1 & r1 & Hal1 & _ & Hc & Hm & _).
    rewrite Hal1 in Hal. injection Hal as <- <-.
    destruct (same_cfg_fields self self1 Hc) as (E1 & E2 & _).
    rewrite E1, E2. split; [by apply (aligner_ok_same_cfg P G self)|]. done.
Qed.

(** The score of two well-formed trees, with everything it is made of. *)
Lemma struct_iou_value (P G : ExtendedTree) (threshold_iou : Q) (flex : bool) :
  WellFormed P → WellFormed G →
  ∃ self w0 t0 st mw mt self1 self2,
    metrics.init P G threshold_iou flex = Ok self ∧
    aligner_ok P G self ∧
    metrics._flexible_terminal_alignment self = flex ∧
    (∀ u v, u ∈ nodes P → v ∈ nodes G →
       cell (metrics._span_ious self) (Z.of_nat (index u)) (Z.of_nat (index v))
       = metrics.apply_threshold threshold_iou (node_iou u v)) ∧
    metrics.align (size P) self P G utils.default_eps = Ok (self1, (w0, t0)) ∧
    align_pure (size P) (metrics._span_ious self) flex P G utils.default_eps
      = Ok (w0, t0) ∧
    metrics.top_level_table (size P) self1 = Ok (self2, st) ∧
    bellman_inv (length (leaves P) + 1) (length (leaves G) + 1)
      lleaf rleaf lleaf rleaf
      (pure_weight (size P) (metrics._span_ious self) flex) init_cell
      (fun u v => u ∈ nodes P ∧ v ∈ nodes G ∧ both_roots u v = false) st ∧
    ((w0 <= mw)%Q ∧
     (∀ a b, in_table (length (leaves P) + 1) (length (leaves G) + 1) a b →
        (cell st.1 a b <= mw)%Q) ∧
     (mw = w0 ∨
      ∃ a b, in_table (length (leaves P) + 1) (length (leaves G) + 1) a b ∧
             mw = cell st.1 a b)) ∧
    (0 <= mw ∧ mw <= Qnat (size P) ∧ mw <= Qnat (size G))%Q ∧
    metrics.call self = Ok ((mw * 2 / Qnat (size P + size G))%Q, mt) ∧
    metrics.struct_iou P G threshold_iou flex
    = Ok (mw * 2 / Qnat (size P + size G))%Q.
Proof.
  intros HP HG.
  destruct (WellFormed_init P G threshold_iou flex HP HG)
    as (self & Hinit & Hok & Hmemo & Hflex & Hcells).
  destruct (call_spec P G self Hok Hmemo)
    as (w0 & t0 & st & mw & mt & self1 & self2 & C1 & C2 & C3 & _ & C5 & _ & C7 & C8 & C9).
  rewrite Hflex in C2, C5.
  exists self, w0, t0, st, mw, mt, self1, self2.
  split; [done|]. split; [done|]. split; [done|]. split; [done|].
  split; [done|]. split; [done|]. split; [done|]. split; [done|].
  split; [exact C7|]. split; [exact C8|]. split; [exact C9|].
  unfold metrics.struct_iou. rewrite Hinit. ok_bind. rewrite C9. done.
Qed.

Lemma score_unit (mw : Q) (n_p n_g : nat) :
  (0 <= mw)%Q → (mw <= Qnat n_p)%Q → (mw <= Qnat n_g)%Q → 0 < n_p →
  (0 <= mw * 2 / Qnat (n_p + n_g) ∧ mw * 2 / Qnat (n_p + n_g) <= 1)%Q.
Proof.
  intros H0 Hp Hg Hpos.
  assert ((0 < Qnat (n_p + n_g))%Q) as Hden.
  { unfold Qnat. change 0%Q with (inject_Z 0). rewrite <- Zlt_Qlt. lia. }
  pose proof (Qnat_add n_p n_g) as Hadd.
  split.
  - apply Qle_shift_div_l; [done|]. lra.
  - apply Qle_shift_div_r; [done|]. lra.
Qed.

(** ** Top-level combinations and the top-level table *)

Lemma combination_weight_snoc (W : ExtendedTree → ExtendedTree → Q)
    (c : list (ExtendedTree * ExtendedTree)) (u v : ExtendedTree) :
  (combination_weight W (c ++ [(u, v)]) == combination_weight W c + W u v)%Q.
Proof.
  unfold combination_weight.
  induction c as [|[u' v'] c IH]; cbn [app foldr fst snd]; lra.
Qed.

Lemma combination_snoc (P G : ExtendedTree)
    (c : list (ExtendedTree * ExtendedTree)) (a b : Z) (u v : ExtendedTree) :
  combination P G a b c →
  u ∈ nodes P → v ∈ nodes G → both_roots u v = false →
  ((combination_end a b c).1 < lleaf u)%Z →
  ((combination_end a b c).2 < lleaf v)%Z →
  combination P G a b (c ++ [(u, v)]) ∧
  combination_end a b (c ++ [(u, v)]) = (rleaf u, rleaf v).
Proof.
  revert a b. induction c as [|[u' v'] c IH]; intros a b Hc Hu Hv Hr Ha Hb.
  - simpl in *. done.
  - simpl in Hc, Ha, Hb. destruct Hc as (H1 & H2 & H3 & H4 & H5 & Hc).
    destruct (IH _ _ Hc Hu Hv Hr Ha Hb) as [IH1 IH2]. simpl. done.
Qed.

Section top_level_combinations.
Variables (P G : ExtendedTree) (W : ExtendedTree → ExtendedTree → Q)
  (st : metrics.dp_state).
Hypothesis HwP : wf_ext P.
Hypothesis HwG : wf_ext G.
Hypothesis HP1 : lleaf P = 1%Z.
Hypothesis HG1 : lleaf G = 1%Z.
Hypothesis Hinv :
  bellman_inv (length (leaves P) + 1) (length (leaves G) + 1)
    lleaf rleaf lleaf rleaf W init_cell
    (fun u v => u ∈ nodes P ∧ v ∈ nodes G ∧ both_roots u v = false) st.

Lemma pair_end_in_table (u v : ExtendedTree) :
  u ∈ nodes P → v ∈ nodes G →
  in_table (length (leaves P) + 1) (length (leaves G) + 1) (rleaf u) (rleaf v) ∧
  (1 ≤ lleaf u ≤ rleaf u)%Z ∧ (1 ≤ lleaf v ≤ rleaf v)%Z.
Proof.
  intros Hu Hv.
  pose proof (wf_root_loc P u HwP HP1 Hu). pose proof (wf_root_loc G v HwG HG1 Hv).
  unfold in_table. lia.
Qed.

Lemma combination_end_in_table (c : list (ExtendedTree * ExtendedTree)) (a b : Z) :
  in_table (length (leaves P) + 1) (length (leaves G) + 1) a b →
  combination P G a b c →
  in_table (length (leaves P) + 1) (length (leaves G) + 1)
    (combination_end a b c).1 (combination_end a b c).2.
Proof.
  revert a b. induction c as [|[u v] c IH]; intros a b Hab Hc; [done|].
  simpl in Hc. destruct Hc as (Hu & Hv & _ & _ & _ & Hc). simpl.
  apply IH; [|done]. by apply pair_end_in_table.
Qed.

(** The cell in which a combination ends holds at least the cell from
    which it is read plus its weight. *)
Lemma combination_dominated (c : list (ExtendedTree * ExtendedTree)) (a b : Z) :
  (0 ≤ a)%Z → (0 ≤ b)%Z → combination P G a b c →
  (cell st.1 a b + combination_weight W c
   <= cell st.1 (combination_end a b c).1 (combination_end a b c).2)%Q.
Proof.
  destruct Hinv as (_ & _ & Hclosed & _).
  revert a b. induction c as [|[u v] c IH]; intros a b Ha Hb Hc.
  - unfold combination_weight. cbn [combination_end foldr fst snd]. lra.
  - simpl in Hc. destruct Hc as (Hu & Hv & Hr & Hau & Hbv & Hc).
    destruct (pair_end_in_table u v Hu Hv) as (_ & Hlu & Hlv).
    specialize (IH (rleaf u) (rleaf v) ltac:(lia) ltac:(lia) Hc).
    assert (cell st.1 a b + W u v <= cell st.1 (rleaf u) (rleaf v))%Q as Hstep.
    { apply Hclosed; [done|lia|lia]. }
    unfold combination_weight in *. cbn [combination_end foldr fst snd]. lra.
Qed.

(** Every cell of the table is the initial cell or the weight of a
    combination that ends in it. *)
Lemma cell_is_combination (a b : Z) :
  in_table (length (leaves P) + 1) (length (leaves G) + 1) a b →
  cell st.1 a b = init_cell a b ∨
  ∃ c, combination P G 0 0 c ∧ combination_end 0 0 c = (a, b) ∧
       (cell st.1 a b == combination_weight W c)%Q.
Proof.
  destruct Hinv as (_ & Hlow & Hclosed & Hfrom).
  assert (in_table (length (leaves P) + 1) (length (leaves G) + 1) 0 0) as H00.
  { unfold in_table. lia. }
  assert (0 <= cell st.1 0 0)%Q as Hzero.
  { specialize (Hlow 0%Z 0%Z H00). unfold init_cell in Hlow.
    by rewrite decide_True in Hlow. }
  remember (Z.to_nat a) as k eqn:Hk. revert a b Hk.
  induction k as [k IH] using lt_wf_ind. intros a b Hk Hab.
  destruct (Hfrom a b Hab) as [Hinit|(u & v & a' & b' & HE & Hpa & Hgb & Ha' & Hb' & Hcell)];
    [by left|].
  right. destruct HE as (Hu & Hv & Hr).
  destruct (pair_end_in_table u v Hu Hv) as (_ & Hlu & Hlv).
  assert (in_table (length (leaves P) + 1) (length (leaves G) + 1) a' b') as Hab'.
  { destruct Hab. unfold in_table. lia. }
  destruct (IH (Z.to_nat a') ltac:(lia) a' b' eq_refl Hab') as [Hinit|(c & Hc & Hend & Hval)].
  - unfold init_cell in Hinit. destruct (decide (a' = 0%Z ∧ b' = 0%Z)) as [[-> ->]|Hne].
    + exists [(u, v)]. split; [|split].
      * simpl. split_and!; try done; lia.
      * simpl. by rewrite Hpa, Hgb.
      * rewrite Hcell, Hinit. simpl. ring.
    + exfalso.
      assert (cell st.1 0 0 + W u v <= cell st.1 (rleaf u) (rleaf v))%Q as Hstep.
      { apply Hclosed; [done|lia|lia]. }
      rewrite Hpa, Hgb, Hcell, Hinit in Hstep. unfold metrics.minus_inf in Hstep. lra.
  - destruct (combination_snoc P G c 0 0 u v Hc Hu Hv Hr) as [Hc' Hend'].
    { rewrite Hend. simpl. lia. }
    { rewrite Hend. simpl. lia. }
    exists (c ++ [(u, v)]). split; [done|]. split.
    + by rewrite Hend', Hpa, Hgb.
    + rewrite combination_weight_snoc, Hcell, Hval. reflexivity.
Qed.

End top_level_combinations.

(** C1. For two well-formed Annotated Trees and any configuration,
    [struct_iou] (and [TreeAligner.__call__]) returns [2 * best / (n_nodes(P)
    + n_nodes(G))], and the score lies in [[0, 1]].  [best] is the largest
    of the weight of [align] on the two roots and the cells of the
    top-level interval table, and the table holds the best top-level
    combinations: with [W u v] the weight [align] returns for the pair
    [(u, v)], the cell in which a combination ends holds at least the
    weight of the combination, and every cell is either as [dp_init] made
    it or the weight of a combination that ends in it.  So [best] is the
    larger of the root weight and the largest weight of a combination. *)
Theorem struct_iou_score (P G : ExtendedTree) (threshold_iou : Q) (flex : bool) :
  WellFormed P → WellFormed G →
  ∃ self self1 self2 w_root t_root table best trace n_p n_g score
    (W : ExtendedTree → ExtendedTree → Q),
    metrics.init P G threshold_iou flex = Ok self ∧
    (∀ u v, u ∈ nodes P → v ∈ nodes G →
       ∃ self' t, metrics.align (metrics._n_ptree self) self u v utils.default_eps
                  = Ok (self', (W u v, t))) ∧
    metrics.align (metrics._n_ptree self) self P G utils.default_eps
      = Ok (self1, (w_root, t_root)) ∧
    w_root = W P G ∧
    metrics.top_level_table (metrics._n_ptree self) self1 = Ok (self2, table) ∧
    has_shape (length (leaves P) + 1) (length (leaves G) + 1) table.1 ∧
    (∀ c, combination P G 0 0 c →
       in_table (length (leaves P) + 1) (length (leaves G) + 1)
         (combination_end 0 0 c).1 (combination_end 0 0 c).2 ∧
       (combination_weight W c
        <= cell table.1 (combination_end 0 0 c).1 (combination_end 0 0 c).2)%Q) ∧
    (∀ a b, in_table (length (leaves P) + 1) (length (leaves G) + 1) a b →
       cell table.1 a b = init_cell a b ∨
       ∃ c, combination P G 0 0 c ∧ combination_end 0 0 c = (a, b) ∧
            (cell table.1 a b == combination_weight W c)%Q) ∧
    ((w_root <= best)%Q ∧
     (∀ a b, in_table (length (leaves P) + 1) (length (leaves G) + 1) a b →
        (cell table.1 a b <= best)%Q) ∧
     (best = w_root ∨
      ∃ a b, in_table (length (leaves P) + 1) (length (leaves G) + 1) a b ∧
             best = cell table.1 a b)) ∧
    (∀ c, combination P G 0 0 c → (combination_weight W c <= best)%Q) ∧
    (best = w_root ∨
     ∃ c, combination P G 0 0 c ∧ (best == combination_weight W c)%Q) ∧
    n_nodes P = Ok n_p ∧ n_nodes G = Ok n_g ∧
    metrics.call self = Ok (score, trace) ∧
    metrics.struct_iou P G threshold_iou flex = Ok score ∧
    (score == 2 * best / inject_Z (Z.of_nat (n_p + n_g)))%Q ∧
    (0 <= score ∧ score <= 1)%Q.
Proof.
  intros HP HG.
  destruct (WellFormed_init P G threshold_iou flex HP HG)
    as (self0 & Hinit0 & _ & Hmemo & _).
  destruct (struct_iou_value P G threshold_iou flex HP HG)
    as (self & w0 & t0 & st & mw & mt & self1 & self2 &
        V1 & V2 & V3 & _ & V5 & _ & V7 & V8 & (V10 & V11 & V12) & V13 & V14 & V15).
  rewrite Hinit0 in V1. injection V1 as <-.
  pose proof V2 as (HwP & HwG & _ & _ & HP1 & HG1 & _ & _ & EN & _).
  set (W := pure_weight (size P) (metrics._span_ious self0) flex) in *.
  assert (∀ u v, u ∈ nodes P → v ∈ nodes G →
            ∃ self' t, metrics.align (size P) self0 u v utils.default_eps
                       = Ok (self', (W u v, t))) as Hweights.
  { intros u v Hu Hv.
    destruct (align_refines P G (size P) self0 u v V2 Hmemo Hu Hv (nodes_size P u Hu))
      as (self' & [w t] & Hal & Hpure & _).
    exists self', t. rewrite Hal. do 3 f_equal.
    unfold W, pure_weight.
    rewrite (align_pure_fuel _ _ (size P) (size u) u v);
      [|by apply (wf_hereditary P)|by apply (wf_hereditary G)|by apply nodes_size|done].
    rewrite <- V3, Hpure. done. }
  assert (w0 = W P G) as Hroot.
  { destruct (Hweights P G (nodes_self P) (nodes_self G)) as (self' & t & Hal).
    rewrite V5 in Hal. by injection Hal as _ -> _. }
  assert (in_table (length (leaves P) + 1) (length (leaves G) + 1) 0 0) as H00.
  { unfold in_table. lia. }
  assert (0 <= cell st.1 0 0)%Q as Hzero.
  { destruct V8 as (_ & Hlow & _). specialize (Hlow 0%Z 0%Z H00).
    unfold init_cell in Hlow. by rewrite decide_True in Hlow. }
  assert (∀ c, combination P G 0 0 c →
            in_table (length (leaves P) + 1) (length (leaves G) + 1)
              (combination_end 0 0 c).1 (combination_end 0 0 c).2 ∧
            (combination_weight W c
             <= cell st.1 (combination_end 0 0 c).1 (combination_end 0 0 c).2)%Q)
    as Hcomb.
  { intros c Hc. split; [by apply combination_end_in_table|].
    pose proof (combination_dominated P G W st HwP HwG HP1 HG1 V8 c 0 0
                  ltac:(lia) ltac:(lia) Hc). lra. }
  exists self0, self1, self2, w0, t0, st, mw, mt, (size P), (size G),
    (mw * 2 / Qnat (size P + size G))%Q, W.
  rewrite EN.
  split; [exact Hinit0|]. split; [exact Hweights|]. split; [exact V5|].
  split; [exact Hroot|]. split; [exact V7|].
  split; [by destruct V8|]. split; [exact Hcomb|].
  split; [by apply (cell_is_combination P G W st)|].
  split; [done|]. split.
  { intros c Hc. destruct (Hcomb c Hc) as [Hin Hle].
    eapply Qle_trans; [exact Hle|]. by apply V11. }
  split.
  { destruct V12 as [->|(a & b & Hab & ->)]; [by left|].
    destruct (cell_is_combination P G W st HwP HwG HP1 HG1 V8 a b Hab)
      as [Hinit|(c & Hc & _ & Hval)].
    - unfold init_cell in Hinit. destruct (decide (a = 0%Z ∧ b = 0%Z)) as [_|_].
      + right. exists []. split; [done|]. rewrite Hinit. reflexivity.
      + exfalso. destruct V13 as [V13 _]. rewrite Hinit in V13.
        unfold metrics.minus_inf in V13. lra.
    - right. by exists c. }
  split; [by apply wf_n_nodes|]. split; [by apply wf_n_nodes|].
  split; [exact V14|]. split; [exact V15|]. split.
  - unfold Qnat. field. change 0%Q with (inject_Z 0). rewrite inject_Z_injective.
    pose proof (size_pos P). lia.
  - destruct V13 as (B1 & B2 & B3). apply score_unit; try done. apply size_pos.
Qed.

(** ** Fixtures *)

Lemma example_gold_WellFormed : WellFormed example_gold.
Proof.
  exists example_gold_tree, example_oracle_bounds.
  split; [reflexivity|]. split; reflexivity.
Qed.

Lemma example_predicted_WellFormed : WellFormed example_predicted.
Proof.
  exists example_predicted_tree, example_word_bounds.
  split; [reflexivity|]. split; reflexivity.
Qed.

Lemma narrow_tree_WellFormed : WellFormed narrow_tree.
Proof.
  exists (NTree "X" [inl "a"]), [("a", 0, 1)%Q].
  split; [reflexivity|]. split; reflexivity.
Qed.

Lemma wide_tree_WellFormed : WellFormed wide_tree.
Proof.
  exists (NTree "X" [inl "b"]), [("b", 0, 1000000)%Q].
  split; [reflexivity|]. split; reflexivity.
Qed.

Lemma example_4_gold_WellFormed : WellFormed example_4_gold.
Proof.
  exists example_4_gold_tree, example_oracle_bounds.
  split; [reflexivity|]. split; reflexivity.
Defined.

Lemma example_4_predicted_WellFormed : WellFormed example_4_predicted.
Proof.
  exists example_4_predicted_tree, example_word_bounds.
  split; [reflexivity|]. split; reflexivity.
Defined.

(** The first fixture of [tests/test.py]: the score is [583/960], and the
    assertion of [check_example] holds for the expected [0.607292]. *)
Example example_1_score :
  ∃ score, metrics.struct_iou example_predicted example_gold 0 true = Ok score ∧
           (score == 583 # 960)%Q ∧
           utils.eps_eq score (607292 # 1000000) (1 # 10000) = true.
Proof. eexists. split; [vm_compute; reflexivity|]. split; reflexivity. Qed.

Lemma struct_iou_score_witness :
  ∃ score, metrics.struct_iou example_predicted example_gold 0 true = Ok score ∧
           (0 <= score ∧ score <= 1)%Q.
Proof.
  destruct (struct_iou_score example_predicted example_gold 0 true
              example_predicted_WellFormed example_gold_WellFormed)
    as (self & self1 & self2 & w_root & t_root & table & best & trace & n_p & n_g &
        score & W & _ & _ & _ & _ & _ & _ & _ & _ & _ & _ & _ & _ & _ & _ & Hscore & _ &
        Hunit).
  exists score. split; [exact Hscore|exact Hunit].
Defined.

(** Roots with different labels: [align] rejects the pair of roots, and
    the score [2/3] comes from the top-level table alone, from the
    combination of the two pairs of preterminals. *)
Example top_level_beats_roots :
  WellFormed root_S_tree ∧ WellFormed root_T_tree ∧
  ∃ self self1 t_root score,
    metrics.init root_S_tree root_T_tree 0 true = Ok self ∧
    metrics.align (metrics._n_ptree self) self root_S_tree root_T_tree utils.default_eps
    = Ok (self1, (0%Q, t_root)) ∧
    metrics.struct_iou root_S_tree root_T_tree 0 true = Ok score ∧
    (score == 2 # 3)%Q.
Proof.
  split.
  { exists (NTree "S" [inr (NTree "A" [inl "a"]); inr (NTree "B" [inl "b"])]),
      [("a", 0, 1)%Q; ("b", 1, 2)%Q]. split; [reflexivity|]. split; reflexivity. }
  split.
  { exists (NTree "T" [inr (NTree "A" [inl "a"]); inr (NTree "B" [inl "b"])]),
      [("a", 0, 1)%Q; ("b", 1, 2)%Q]. split; [reflexivity|]. split; reflexivity. }
  do 4 eexists.
  split; [vm_compute; reflexivity|].
  split; [vm_compute; reflexivity|].
  split; [vm_compute; reflexivity|].
  reflexivity.
Qed.

(** ** The base cases of [align] *)

Lemma eps_eq_zero (iou eps : Q) :
  (0 <= iou)%Q → utils.eps_eq iou 0 eps = true ↔ (iou < eps)%Q.
Proof.
  intros H0. unfold utils.eps_eq. rewrite Qlt_bool_iff.
  assert (Qabs (iou - 0) == iou)%Q as ->; [|done].
  rewrite Qabs_pos by lra. ring.
Qed.

Lemma rejected_true_iff (flex : bool) (p g : ExtendedTree) (iou eps : Q) :
  (0 <= iou)%Q →
  metrics.rejected flex p g iou eps = true ↔
  ((iou < eps)%Q ∨
   (is_preterminal p = false ∧ is_preterminal g = false ∧ label p ≠ label g) ∨
   (flex = false ∧ label p ≠ label g)).
Proof.
  intros H0. unfold metrics.rejected.
  rewrite !orb_true_iff, !andb_true_iff, !negb_true_iff, String.eqb_neq.
  rewrite (eps_eq_zero iou eps H0). tauto.
Qed.

Lemma align_pure_base (S : ndarray) (flex : bool) (P G p g : ExtendedTree) :
  wf_ext P → wf_ext G → index P = 0 → index G = 0 →
  has_shape (size P) (size G) S →
  p ∈ nodes P → g ∈ nodes G →
  let iou := cell S (Z.of_nat (index p)) (Z.of_nat (index g)) in
  (metrics.rejected flex p g iou utils.default_eps = true →
   align_pure (size p) S flex p g utils.default_eps = Ok (0%Q, ∅)) ∧
  (metrics.rejected flex p g iou utils.default_eps = false →
   is_preterminal p || is_preterminal g = true →
   align_pure (size p) S flex p g utils.default_eps
   = Ok (iou, {[ (index p, index g) ]})).
Proof.
  intros HP HG HP0 HG0 HS Hp Hg iou.
  assert (wf_ext p) as Hwp by (by apply (wf_hereditary P)).
  assert (wf_ext g) as Hwg by (by apply (wf_hereditary G)).
  pose proof (size_pos p) as Hpos.
  destruct (size p) as [|k]; [lia|].
  rewrite align_pure_wf, (span_get S P G) by done. ok_bind. fold iou.
  split.
  - by intros ->.
  - by intros -> ->.
Qed.

(** C5, as the code has it.  In every state of the aligner of two
    well-formed trees that [__init__] and calls of [align] with the default
    [eps] leave, [align] on a pair of their nodes returns weight 0 and the
    empty trace when the thresholded span IoU of the pair is below [eps]
    (strictly), or both nodes are non-preterminal with different labels, or
    terminal alignment is inflexible and the labels differ; otherwise, when
    either node is a preterminal, it returns the thresholded span IoU of
    the pair and the singleton trace of the pair. *)
Theorem align_base_cases (P G : ExtendedTree) (threshold_iou : Q) (flex : bool)
    (self : metrics.TreeAligner) (fuel : nat) (p g : ExtendedTree) :
  WellFormed P → WellFormed G →
  reachable P G threshold_iou flex self →
  p ∈ nodes P → g ∈ nodes G → size p ≤ fuel →
  ∃ iou,
    np_get (metrics._span_ious self) (Z.of_nat (index p)) (Z.of_nat (index g)) = Ok iou ∧
    let rejected_pair :=
      (iou < utils.default_eps)%Q ∨
      (is_preterminal p = false ∧ is_preterminal g = false ∧ label p ≠ label g) ∨
      (flex = false ∧ label p ≠ label g) in
    (rejected_pair →
     ∃ self', metrics.align fuel self p g utils.default_eps = Ok (self', (0%Q, ∅))) ∧
    (¬ rejected_pair →
     is_preterminal p = true ∨ is_preterminal g = true →
     ∃ self', metrics.align fuel self p g utils.default_eps
              = Ok (self', (iou, {[ (index p, index g) ]}))).
Proof.
  intros HP HG Hreach Hp Hg Hf.
  destruct (reachable_inv P G threshold_iou flex self HP HG Hreach)
    as (Hok & Hmemo & Hflex & _).
  pose proof Hok as (HwP & HwG & HP0 & HG0 & _ & _ & _ & _ & _ & HS & HS01).
  exists (cell (metrics._span_ious self) (Z.of_nat (index p)) (Z.of_nat (index g))).
  split; [by apply (span_get _ P G)|].
  destruct (HS01 _ _ (node_in_table P G HwP HwG HP0 HG0 p g Hp Hg)) as [Hiou0 _].
  destruct (align_refines P G fuel self p g Hok Hmemo Hp Hg Hf)
    as (self' & r & Hal & Hpu & _).
  rewrite Hflex in Hpu.
  destruct (align_pure_base (metrics._span_ious self) flex P G p g
              HwP HwG HP0 HG0 HS Hp Hg) as [Hrej Hpre].
  cbv zeta. split.
  - intros Hcond. apply (rejected_true_iff flex p g _ _ Hiou0) in Hcond.
    rewrite (Hrej Hcond) in Hpu. injection Hpu as <-. by exists self'.
  - intros Hcond Hleaf.
    assert (metrics.rejected flex p g
              (cell (metrics._span_ious self) (Z.of_nat (index p)) (Z.of_nat (index g)))
              utils.default_eps = false) as Hnot.
    { apply not_true_is_false. intros H.
      by apply Hcond, (rejected_true_iff flex p g _ _ Hiou0). }
    rewrite (Hpre Hnot) in Hpu.
    + injection Hpu as <-. by exists self'.
    + apply orb_true_iff. done.
Qed.

Lemma align_base_cases_witness :
  ∃ self,
    metrics.init example_4_predicted example_4_gold 0 false = Ok self ∧
    (∃ iou self',
       np_get (metrics._span_ious self) 2 6 = Ok iou ∧ (iou < utils.default_eps)%Q ∧
       metrics.align 1 self example_4_predicted_X1 example_4_gold_NN utils.default_eps
       = Ok (self', (0%Q, ∅))) ∧
    (∃ iou self',
       np_get (metrics._span_ious self) 1 0 = Ok iou ∧ (iou == 1 # 5)%Q ∧
       is_preterminal example_4_predicted_X = false ∧
       is_preterminal example_4_gold = false ∧
       label example_4_predicted_X ≠ label example_4_gold ∧
       metrics.align 3 self example_4_predicted_X example_4_gold utils.default_eps
       = Ok (self', (0%Q, ∅))) ∧
    (∃ iou self',
       np_get (metrics._span_ious self) 2 1 = Ok iou ∧ (iou == 2 # 5)%Q ∧
       label example_4_predicted_X1 ≠ label example_4_gold_PRP ∧
       metrics.align 1 self example_4_predicted_X1 example_4_gold_PRP utils.default_eps
       = Ok (self', (0%Q, ∅))) ∧
    (∃ iou self',
       np_get (metrics._span_ious self) 3 1 = Ok iou ∧ (iou == 2 # 5)%Q ∧
       is_preterminal example_4_predicted_PRP = true ∧
       label example_4_predicted_PRP = label example_4_gold_PRP ∧
       metrics.align 1 self example_4_predicted_PRP example_4_gold_PRP utils.default_eps
       = Ok (self', (iou, {[ (3, 1) ]}))).
Proof.
  eexists. split; [vm_compute; reflexivity|].
  match goal with
  | |- context [metrics._span_ious ?s] => set (self := s)
  end.
  assert (reachable example_4_predicted example_4_gold 0 false self) as Hreach.
  { apply reach_init. vm_compute. reflexivity. }
  assert (∀ u, In u (nodes example_4_predicted) → u ∈ nodes example_4_predicted) as HinP.
  { intros u Hu. by apply list_elem_of_In. }
  assert (∀ v, In v (nodes example_4_gold) → v ∈ nodes example_4_gold) as HinG.
  { intros v Hv. by apply list_elem_of_In. }
  split; [|split; [|split]].
  - destruct (align_base_cases example_4_predicted example_4_gold 0 false self 1
                example_4_predicted_X1 example_4_gold_NN
                example_4_predicted_WellFormed example_4_gold_WellFormed Hreach)
      as (iou & Hget & Hrej & _).
    + apply HinP. simpl. tauto.
    + apply HinG. simpl. tauto.
    + vm_compute. lia.
    + assert (iou = 0%Q) as ->.
      { vm_compute in Hget. by injection Hget as <-. }
      destruct Hrej as [self' Hal]; [left; reflexivity|].
      exists 0%Q, self'. split; [vm_compute; reflexivity|]. split; [reflexivity|exact Hal].
  - destruct (align_base_cases example_4_predicted example_4_gold 0 false self 3
                example_4_predicted_X example_4_gold
                example_4_predicted_WellFormed example_4_gold_WellFormed Hreach)
      as (iou & Hget & Hrej & _).
    + apply HinP. simpl. tauto.
    + apply HinG. simpl. tauto.
    + vm_compute. lia.
    + destruct Hrej as [self' Hal].
      { right. left. split; [reflexivity|]. split; [reflexivity|]. discriminate. }
      exists iou, self'. split; [exact Hget|].
      split; [vm_compute in Hget; injection Hget as <-; reflexivity|].
      split; [reflexivity|]. split; [reflexivity|]. split; [discriminate|exact Hal].
  - destruct (align_base_cases example_4_predicted example_4_gold 0 false self 1
                example_4_predicted_X1 example_4_gold_PRP
                example_4_predicted_WellFormed example_4_gold_WellFormed Hreach)
      as (iou & Hget & Hrej & _).
    + apply HinP. simpl. tauto.
    + apply HinG. simpl. tauto.
    + vm_compute. lia.
    + destruct Hrej as [self' Hal].
      { right. right. split; [reflexivity|]. discriminate. }
      exists iou, self'. split; [exact Hget|].
      split; [vm_compute in Hget; injection Hget as <-; reflexivity|].
      split; [discriminate|exact Hal].
  - destruct (align_base_cases example_4_predicted example_4_gold 0 false self 1
                example_4_predicted_PRP example_4_gold_PRP
                example_4_predicted_WellFormed example_4_gold_WellFormed Hreach)
      as (iou & Hget & _ & Hleaf).
    + apply HinP. simpl. tauto.
    + apply HinG. simpl. tauto.
    + vm_compute. lia.
    + assert (iou == 2 # 5)%Q as Hiou.
      { vm_compute in Hget. injection Hget as <-. reflexivity. }
      destruct Hleaf as [self' Hal].
      { intros [Hlt|[(Hpre & _)|(_ & Hlab)]].
        - rewrite Hiou in Hlt. vm_compute in Hlt. discriminate Hlt.
        - discriminate Hpre.
        - by apply Hlab. }
      { by left. }
      exists iou, self'. split; [exact Hget|]. split; [exact Hiou|].
      split; [reflexivity|]. split; [reflexivity|exact Hal].
Defined.

(** A pair of preterminals whose span IoU is exactly [eps]: the IoU is at
    most [eps], yet [align] does not reject the pair: it returns the IoU as
    the weight and the pair as the trace. *)
Lemma align_keeps_iou_equal_eps :
  WellFormed narrow_tree ∧ WellFormed wide_tree ∧
  ∃ self self',
    metrics.init narrow_tree wide_tree 0 true = Ok self ∧
    np_get (metrics._span_ious self) 0 0 = Ok utils.default_eps ∧
    (utils.default_eps <= utils.default_eps)%Q ∧
    metrics.align 1 self narrow_tree wide_tree utils.default_eps
    = Ok (self', (utils.default_eps, {[ (0, 0) ]})) ∧
    ¬ (utils.default_eps == 0)%Q.
Proof.
  split; [exact narrow_tree_WellFormed|].
  split; [exact wide_tree_WellFormed|].
  eexists. eexists.
  split; [vm_compute; reflexivity|].
  split; [vm_compute; reflexivity|].
  split; [apply Qle_refl|].
  split; [vm_compute; reflexivity|].
  intros H. vm_compute in H. discriminate H.
Qed.

(** ** Raising the threshold *)

(** Two tables of span IoUs over the same pair of trees, the second one
    being the first one with some entries zeroed. *)
Section monotone.
Variables (S1 S2 : ndarray) (flex : bool) (P G : ExtendedTree).
Hypothesis HP : wf_ext P.
Hypothesis HG : wf_ext G.
Hypothesis HP0 : index P = 0.
Hypothesis HG0 : index G = 0.
Hypothesis HP1 : lleaf P = 1%Z.
Hypothesis HG1 : lleaf G = 1%Z.
Hypothesis HS1 : has_shape (size P) (size G) S1.
Hypothesis HS2 : has_shape (size P) (size G) S2.
Hypothesis HS1u :
  ∀ i j, in_table (size P) (size G) i j → (0 <= cell S1 i j ∧ cell S1 i j <= 1)%Q.
Hypothesis HS2u :
  ∀ i j, in_table (size P) (size G) i j → (0 <= cell S2 i j ∧ cell S2 i j <= 1)%Q.
Hypothesis Hrel :
  ∀ u v, u ∈ nodes P → v ∈ nodes G →
    cell S2 (Z.of_nat (index u)) (Z.of_nat (index v))
    = cell S1 (Z.of_nat (index u)) (Z.of_nat (index v)) ∨
    (cell S2 (Z.of_nat (index u)) (Z.of_nat (index v)) == 0)%Q.

Lemma pure_weight_mono (f : nat) (p g : ExtendedTree) :
  p ∈ nodes P → g ∈ nodes G → size p ≤ f →
  (pure_weight f S2 flex p g <= pure_weight f S1 flex p g)%Q.
Proof.
  revert p g. induction f as [|f IH]; intros p g Hp Hg Hf.
  { pose proof (size_pos p). lia. }
  assert (wf_ext p) as Hwp by (by apply (wf_hereditary P)).
  assert (wf_ext g) as Hwg by (by apply (wf_hereditary G)).
  pose proof (node_in_table P G HP HG HP0 HG0 p g Hp Hg) as Hin.
  destruct (align_pure_bounds S1 flex P G HP HG HP0 HG0 HS1 HS1u (S f) p g
              utils.default_eps Hp Hg Hf) as (w1 & t1 & E1 & Hw1 & _).
  destruct (HS2u _ _ Hin) as [H20 _].
  destruct (metrics.rejected flex p g
              (cell S2 (Z.of_nat (index p)) (Z.of_nat (index g)))
              utils.default_eps) eqn:Hrej2.
  { unfold pure_weight. rewrite E1.
    rewrite align_pure_wf, (span_get S2 P G) by done. ok_bind.
    rewrite Hrej2. simpl. lra. }
  destruct (Hrel p g Hp Hg) as [Heq|Hz].
  2: { exfalso.
       assert (metrics.rejected flex p g
                 (cell S2 (Z.of_nat (index p)) (Z.of_nat (index g)))
                 utils.default_eps = true) as Htrue.
       { apply rejected_true_iff; [done|]. left. rewrite Hz. apply default_eps_pos. }
       congruence. }
  destruct (is_preterminal p || is_preterminal g) eqn:Hpre.
  { unfold pure_weight.
    rewrite !align_pure_wf, (span_get S1 P G), (span_get S2 P G) by done. ok_bind.
    rewrite <- Heq, Hrej2, Hpre. simpl. lra. }
  assert (∀ S0, has_shape (size P) (size G) S0 →
            (∀ i j, in_table (size P) (size G) i j →
               (0 <= cell S0 i j ∧ cell S0 i j <= 1)%Q) →
            ∀ u v, u ∈ descendants p → v ∈ descendants g →
              is_Ok (align_pure f S0 flex u v utils.default_eps)) as Hsub.
  { intros S0 HS0 HS0u u v Hu Hv.
    destruct (align_pure_bounds S0 flex P G HP HG HP0 HG0 HS0 HS0u f u v
                utils.default_eps) as (w & t & -> & _).
    - by apply (descendants_trans P p).
    - by apply (descendants_trans G g).
    - pose proof (descendants_size p u Hu). lia.
    - by eexists. }
  destruct (align_pure_general S2 flex P G HP HG HP0 HG0 HS2 f p g utils.default_eps
              Hwp Hwg Hp Hg Hrej2 Hpre (Hsub S2 HS2 HS2u))
    as (st2 & best2 & tr2 & Hinv2 & B21 & B22 & B23 & E2).
  rewrite Heq in Hrej2.
  destruct (align_pure_general S1 flex P G HP HG HP0 HG0 HS1 f p g utils.default_eps
              Hwp Hwg Hp Hg Hrej2 Hpre (Hsub S1 HS1 HS1u))
    as (st1 & best1 & tr1 & Hinv1 & B11 & B12 & B13 & E1').
  unfold pure_weight. rewrite E2, E1'. simpl. rewrite Heq.
  set (n := length (leaves p) + 1) in *. set (m := length (leaves g) + 1) in *.
  assert (∀ a b, in_table n m a b → (cell st2.1 a b <= cell st1.1 a b)%Q) as Hdom.
  { apply (bellman_dominated n m (lloc p) (rloc p) (lloc g) (rloc g)
             (pure_weight f S2 flex) init_cell
             (fun u v => u ∈ descendants p ∧ v ∈ descendants g) st2
             (cell st1.1)); [done| | |].
    - intros u v [Hu Hv]. pose proof (wf_loc p u Hwp Hu).
      pose proof (wf_loc g v Hwg Hv). lia.
    - by destruct Hinv1 as (_ & H2 & _).
    - intros u v a b [Hu Hv] _ Ha Hb.
      destruct Hinv1 as (_ & _ & H3 & _).
      specialize (H3 u v a b (conj Hu Hv) Ha Hb).
      assert ((pure_weight f S2 flex u v <= pure_weight f S1 flex u v)%Q) as Hle.
      { apply IH.
        - by apply (descendants_trans P p).
        - by apply (descendants_trans G g).
        - pose proof (descendants_size p u Hu). lia. }
      lra. }
  assert ((best2 <= best1)%Q) as Hbest.
  { destruct B23 as [->|(a & b & Hab & ->)]; [done|].
    specialize (Hdom a b Hab). specialize (B12 a b Hab). lra. }
  lra.
Qed.

(** The top-level tables compare cell by cell. *)
Lemma top_level_mono (st1 st2 : metrics.dp_state) :
  bellman_inv (length (leaves P) + 1) (length (leaves G) + 1)
    lleaf rleaf lleaf rleaf (pure_weight (size P) S1 flex) init_cell
    (fun u v => u ∈ nodes P ∧ v ∈ nodes G ∧ both_roots u v = false) st1 →
  bellman_inv (length (leaves P) + 1) (length (leaves G) + 1)
    lleaf rleaf lleaf rleaf (pure_weight (size P) S2 flex) init_cell
    (fun u v => u ∈ nodes P ∧ v ∈ nodes G ∧ both_roots u v = false) st2 →
  ∀ a b, in_table (length (leaves P) + 1) (length (leaves G) + 1) a b →
    (cell st2.1 a b <= cell st1.1 a b)%Q.
Proof.
  intros Hinv1 Hinv2.
  apply (bellman_dominated _ _ lleaf rleaf lleaf rleaf
           (pure_weight (size P) S2 flex) init_cell
           (fun u v => u ∈ nodes P ∧ v ∈ nodes G ∧ both_roots u v = false) st2
           (cell st1.1)); [done| | |].
  - intros u v (Hu & Hv & _). pose proof (wf_root_loc P u HP HP1 Hu).
    pose proof (wf_root_loc G v HG HG1 Hv). lia.
  - by destruct Hinv1 as (_ & H2 & _).
  - intros u v a b (Hu & Hv & Hr) _ Ha Hb.
    destruct Hinv1 as (_ & _ & H3 & _).
    specialize (H3 u v a b (conj Hu (conj Hv Hr)) Ha Hb).
    pose proof (pure_weight_mono (size P) u v Hu Hv (nodes_size P u Hu)). lra.
Qed.
End monotone.

Lemma Qnat_pos (n : nat) : 0 < n → (0 < Qnat n)%Q.
Proof.
  intros Hn. unfold Qnat. change 0%Q with (inject_Z 0). rewrite <- Zlt_Qlt. lia.
Qed.

Lemma score_mono (mw1 mw2 : Q) (n : nat) :
  0 < n → (mw2 <= mw1)%Q → (mw2 * 2 / Qnat n <= mw1 * 2 / Qnat n)%Q.
Proof.
  intros Hn Hle. pose proof (Qnat_pos n Hn) as Hpos.
  apply Qle_shift_div_l; [done|].
  assert (mw2 * 2 / Qnat n * Qnat n == mw2 * 2)%Q as ->; [field; lra|lra].
Qed.

(** A pair of nodes whose span IoU is at or below the threshold has a zero
    entry in the table of span IoUs, and [align] rejects it. *)
Lemma threshold_zeroes (P G : ExtendedTree) (t : Q) (flex : bool)
    (self : metrics.TreeAligner) (u v : ExtendedTree) (x : Q) :
  WellFormed P → WellFormed G →
  metrics.init P G t flex = Ok self →
  u ∈ nodes P → v ∈ nodes G →
  utils.span_iou (time_range u) (time_range v) utils.default_eps = Ok x →
  (x <= t)%Q →
  ∃ c self',
    np_get (metrics._span_ious self) (Z.of_nat (index u)) (Z.of_nat (index v)) = Ok c ∧
    (c == 0)%Q ∧
    metrics.align (size u) self u v utils.default_eps = Ok (self', (0%Q, ∅)).
Proof.
  intros HP HG Hinit Hu Hv Hx Hle.
  destruct (WellFormed_init P G t flex HP HG)
    as (self0 & Hinit0 & Hok & Hmemo & Hflex & Hcells).
  rewrite Hinit in Hinit0. injection Hinit0 as <-.
  pose proof Hok as (HwP & HwG & HP0 & HG0 & _ & _ & _ & _ & _ & HS & HS01).
  rewrite node_iou_Ok in Hx. injection Hx as <-.
  assert ((cell (metrics._span_ious self) (Z.of_nat (index u)) (Z.of_nat (index v))
           == 0)%Q) as Hz.
  { rewrite (Hcells u v Hu Hv).
    destruct (apply_threshold_cases t (node_iou u v)) as [[Hlt _]|[_ ->]]; [lra|ring]. }
  destruct (align_refines P G (size u) self u v Hok Hmemo Hu Hv (le_n _))
    as (self' & r & Hal & Hpu & _).
  rewrite Hflex in Hpu.
  destruct (align_pure_base (metrics._span_ious self) flex P G u v
              HwP HwG HP0 HG0 HS Hu Hv) as [Hrej _].
  rewrite Hrej in Hpu.
  - injection Hpu as <-.
    exists (cell (metrics._span_ious self) (Z.of_nat (index u)) (Z.of_nat (index v))), self'.
    split; [by apply (span_get _ P G)|]. split; [exact Hz|exact Hal].
  - apply rejected_true_iff.
    + rewrite Hz. lra.
    + left. rewrite Hz. apply default_eps_pos.
Qed.

Lemma struct_iou_mono (P G : ExtendedTree) (t1 t2 : Q) (flex : bool) :
  WellFormed P → WellFormed G → (t1 <= t2)%Q →
  ∃ s1 s2,
    metrics.struct_iou P G t1 flex = Ok s1 ∧
    metrics.struct_iou P G t2 flex = Ok s2 ∧
    (s2 <= s1)%Q.
Proof.
  intros HP HG Ht.
  destruct (struct_iou_value P G t1 flex HP HG)
    as (self1 & w1 & tr1 & st1 & mw1 & mt1 & _ & _ &
        _ & Hok1 & _ & Hc1 & _ & Hp1 & _ & Hinv1 & (A1 & A2 & A3) & _ & _ & ->).
  destruct (struct_iou_value P G t2 flex HP HG)
    as (self2 & w2 & tr2 & st2 & mw2 & mt2 & _ & _ &
        _ & Hok2 & _ & Hc2 & _ & Hp2 & _ & Hinv2 & (C1 & C2 & C3) & _ & _ & ->).
  pose proof Hok1 as (HwP & HwG & HP0 & HG0 & HP1 & HG1 & _ & _ & _ & HS1 & HS1u).
  pose proof Hok2 as (_ & _ & _ & _ & _ & _ & _ & _ & _ & HS2 & HS2u).
  eexists _, _. split; [done|]. split; [done|].
  assert (∀ u v, u ∈ nodes P → v ∈ nodes G →
            cell (metrics._span_ious self2) (Z.of_nat (index u)) (Z.of_nat (index v))
            = cell (metrics._span_ious self1) (Z.of_nat (index u)) (Z.of_nat (index v)) ∨
            (cell (metrics._span_ious self2) (Z.of_nat (index u)) (Z.of_nat (index v))
             == 0)%Q) as Hrel.
  { intros u v Hu Hv. rewrite (Hc1 u v Hu Hv), (Hc2 u v Hu Hv).
    destruct (apply_threshold_cases t2 (node_iou u v)) as [[Hlt ->]|[_ ->]].
    - left. destruct (apply_threshold_cases t1 (node_iou u v)) as [[_ ->]|[Hle _]]; [done|lra].
    - right. ring. }
  apply score_mono; [pose proof (size_pos P); lia|].
  assert ((w2 <= w1)%Q) as Hw.
  { pose proof (pure_weight_mono (metrics._span_ious self1) (metrics._span_ious self2)
                  flex P G HwP HwG HP0 HG0 HS1 HS2 HS1u HS2u Hrel (size P) P G
                  (nodes_self P) (nodes_self G) (le_n _)) as Hm.
    unfold pure_weight in Hm. by rewrite Hp1, Hp2 in Hm. }
  destruct C3 as [->|(a & b & Hab & ->)]; [lra|].
  pose proof (top_level_mono (metrics._span_ious self1) (metrics._span_ious self2)
                flex P G HwP HwG HP0 HG0 HP1 HG1 HS1 HS2 HS1u HS2u Hrel st1 st2
                Hinv1 Hinv2 a b Hab).
  specialize (A2 a b Hab). lra.
Qed.

(** C4. For two well-formed Annotated Trees and thresholds [t1 <= t2], the
    score with [threshold_iou = t2] is at most the score with
    [threshold_iou = t1]; and under any threshold, a pair of nodes whose
    span IoU is at or below the threshold has a zero entry in the table of
    span IoUs and is rejected by [align]. *)
Theorem threshold_monotone (P G : ExtendedTree) (t1 t2 : Q) (flex : bool) :
  WellFormed P → WellFormed G → (t1 <= t2)%Q →
  (∃ s1 s2,
     metrics.struct_iou P G t1 flex = Ok s1 ∧
     metrics.struct_iou P G t2 flex = Ok s2 ∧
     (s2 <= s1)%Q) ∧
  (∀ t self u v x,
     metrics.init P G t flex = Ok self →
     u ∈ nodes P → v ∈ nodes G →
     utils.span_iou (time_range u) (time_range v) utils.default_eps = Ok x →
     (x <= t)%Q →
     ∃ c self',
       np_get (metrics._span_ious self) (Z.of_nat (index u)) (Z.of_nat (index v)) = Ok c ∧
       (c == 0)%Q ∧
       metrics.align (size u) self u v utils.default_eps = Ok (self', (0%Q, ∅))).
Proof.
  intros HP HG Ht. split.
  - by apply struct_iou_mono.
  - intros t self u v x Hinit Hu Hv Hx Hle.
    by apply (threshold_zeroes P G t flex self u v x).
Qed.

Lemma threshold_monotone_witness :
  (0 <= 1 # 2)%Q ∧
  ∃ s1 s2,
    metrics.struct_iou example_predicted example_gold 0 true = Ok s1 ∧
    metrics.struct_iou example_predicted example_gold (1 # 2) true = Ok s2 ∧
    (s2 <= s1)%Q.
Proof.
  assert ((0 <= 1 # 2)%Q) as Ht by (vm_compute; discriminate).
  split; [exact Ht|].
  exact (proj1 (threshold_monotone example_predicted example_gold 0 (1 # 2) true
                  example_predicted_WellFormed example_gold_WellFormed Ht)).
Defined.

(** ** Swapping the two trees *)

Lemma Qlt_bool_proper (x x' y y' : Q) :
  (x == x')%Q → (y == y')%Q → utils.Qlt_bool x y = utils.Qlt_bool x' y'.
Proof.
  intros Hx Hy. apply eq_true_iff_eq. rewrite !Qlt_bool_iff, Hx, Hy. done.
Qed.

Lemma py_max_comm (x y : Q) : (utils.py_max x y == utils.py_max y x)%Q.
Proof.
  unfold utils.py_max.
  destruct (utils.Qlt_bool x y) eqn:E1, (utils.Qlt_bool y x) eqn:E2;
    rewrite ?Qlt_bool_iff, ?Qlt_bool_false in E1, E2; lra.
Qed.

Lemma py_min_comm (x y : Q) : (utils.py_min x y == utils.py_min y x)%Q.
Proof.
  unfold utils.py_min.
  destruct (utils.Qlt_bool x y) eqn:E1, (utils.Qlt_bool y x) eqn:E2;
    rewrite ?Qlt_bool_iff, ?Qlt_bool_false in E1, E2; lra.
Qed.

Lemma node_iou_sym (u v : ExtendedTree) : (node_iou v u == node_iou u v)%Q.
Proof.
  unfold node_iou.
  destruct (span_iou_cases (time_range u) (time_range v) utils.default_eps
              default_eps_pos) as (r & -> & Hz & Hd & _).
  destruct (span_iou_cases (time_range v) (time_range u) utils.default_eps
              default_eps_pos) as (r' & -> & Hz' & Hd' & _).
  cbv zeta in *.
  pose proof (py_min_comm (time_range u).2 (time_range v).2) as E1.
  pose proof (py_max_comm (time_range u).1 (time_range v).1) as E2.
  pose proof (py_max_comm (time_range u).2 (time_range v).2) as E3.
  pose proof (py_min_comm (time_range u).1 (time_range v).1) as E4.
  set (i := (utils.py_min (time_range u).2 (time_range v).2
             - utils.py_max (time_range u).1 (time_range v).1)%Q) in *.
  set (n := (utils.py_max (time_range u).2 (time_range v).2
             - utils.py_min (time_range u).1 (time_range v).1)%Q) in *.
  set (i' := (utils.py_min (time_range v).2 (time_range u).2
              - utils.py_max (time_range v).1 (time_range u).1)%Q) in *.
  set (n' := (utils.py_max (time_range v).2 (time_range u).2
              - utils.py_min (time_range v).1 (time_range u).1)%Q) in *.
  assert ((i == i')%Q) as Ei by (unfold i, i'; lra).
  assert ((n == n')%Q) as En by (unfold n, n'; lra).
  destruct (Qlt_le_dec i utils.default_eps) as [Hi|Hi].
  { rewrite Hz by (by left). rewrite Hz' by (left; lra). done. }
  destruct (Qlt_le_dec n utils.default_eps) as [Hn|Hn].
  { rewrite Hz by (by right). rewrite Hz' by (right; lra). done. }
  rewrite Hd by (intros [?|?]; lra). rewrite Hd' by (intros [?|?]; lra).
  by rewrite Ei, En.
Qed.

Lemma apply_threshold_proper (t x y : Q) :
  (x == y)%Q → (metrics.apply_threshold t x == metrics.apply_threshold t y)%Q.
Proof.
  intros H. unfold metrics.apply_threshold.
  rewrite (Qlt_bool_proper t t x y) by done.
  destruct (utils.Qlt_bool t y); lra.
Qed.

Lemma rejected_swap (flex : bool) (p g : ExtendedTree) (iou iou' eps : Q) :
  (iou == iou')%Q →
  metrics.rejected flex g p iou' eps = metrics.rejected flex p g iou eps.
Proof.
  intros H. unfold metrics.rejected, utils.eps_eq.
  rewrite (Qlt_bool_proper (Qabs (iou' - 0)) (Qabs (iou - 0)) eps eps)
    by (by rewrite ?H).
  rewrite (String.eqb_sym (label g) (label p)).
  by rewrite (andb_comm (negb (is_preterminal g))).
Qed.

Lemma init_cell_sym (a b : Z) : init_cell a b = init_cell b a.
Proof.
  unfold init_cell.
  destruct (decide (a = 0%Z ∧ b = 0%Z)) as [[-> ->]|H1]; [done|].
  rewrite decide_False; [done|]. intros [-> ->]. by apply H1.
Qed.

Lemma both_roots_sym (u v : ExtendedTree) : both_roots u v = both_roots v u.
Proof. unfold both_roots. apply bool_decide_ext. tauto. Qed.

(** The aligner of [(P, G)] over the table [S], the aligner of [(G, P)] over
    the table [S'], the second table being the transpose of the first. *)
Section swap.
Variables (S S' : ndarray) (flex : bool) (P G : ExtendedTree).
Hypothesis HP : wf_ext P.
Hypothesis HG : wf_ext G.
Hypothesis HP0 : index P = 0.
Hypothesis HG0 : index G = 0.
Hypothesis HP1 : lleaf P = 1%Z.
Hypothesis HG1 : lleaf G = 1%Z.
Hypothesis HS : has_shape (size P) (size G) S.
Hypothesis HS' : has_shape (size G) (size P) S'.
Hypothesis HSu :
  ∀ i j, in_table (size P) (size G) i j → (0 <= cell S i j ∧ cell S i j <= 1)%Q.
Hypothesis HSu' :
  ∀ i j, in_table (size G) (size P) i j → (0 <= cell S' i j ∧ cell S' i j <= 1)%Q.
Hypothesis Hsym :
  ∀ u v, u ∈ nodes P → v ∈ nodes G →
    (cell S' (Z.of_nat (index v)) (Z.of_nat (index u))
     == cell S (Z.of_nat (index u)) (Z.of_nat (index v)))%Q.

Lemma pure_weight_swap_le (f : nat) :
  ∀ (f' : nat) (p g : ExtendedTree),
    p ∈ nodes P → g ∈ nodes G → size p ≤ f → size g ≤ f' →
    (pure_weight f' S' flex g p <= pure_weight f S flex p g)%Q.
Proof.
  induction f as [|f IH]; intros f' p g Hp Hg Hf Hf'.
  { pose proof (size_pos p). lia. }
  destruct f' as [|f']; [pose proof (size_pos g); lia|].
  assert (wf_ext p) as Hwp by (by apply (wf_hereditary P)).
  assert (wf_ext g) as Hwg by (by apply (wf_hereditary G)).
  pose proof (Hsym p g Hp Hg) as Hcell.
  pose proof (rejected_swap flex p g _ _ utils.default_eps (Qeq_sym _ _ Hcell)) as Hrs.
  destruct (metrics.rejected flex p g
              (cell S (Z.of_nat (index p)) (Z.of_nat (index g)))
              utils.default_eps) eqn:Hrej.
  { unfold pure_weight.
    rewrite !align_pure_wf, (span_get S P G), (span_get S' G P) by done. ok_bind.
    rewrite Hrs, Hrej. simpl. lra. }
  destruct (is_preterminal p || is_preterminal g) eqn:Hpre.
  { unfold pure_weight.
    rewrite !align_pure_wf, (span_get S P G), (span_get S' G P) by done. ok_bind.
    rewrite Hrs, Hrej, (orb_comm (is_preterminal g)), Hpre. simpl. lra. }
  destruct (align_pure_general S flex P G HP HG HP0 HG0 HS f p g utils.default_eps
              Hwp Hwg Hp Hg Hrej Hpre)
    as (st & best & tr & Hinv & B1 & B2 & B3 & E).
  { intros u v Hu Hv.
    destruct (align_pure_bounds S flex P G HP HG HP0 HG0 HS HSu f u v
                utils.default_eps) as (w & t & -> & _).
    - by apply (descendants_trans P p).
    - by apply (descendants_trans G g).
    - pose proof (descendants_size p u Hu). lia.
    - by eexists. }
  rewrite orb_comm in Hpre.
  destruct (align_pure_general S' flex G P HG HP HG0 HP0 HS' f' g p utils.default_eps
              Hwg Hwp Hg Hp Hrs Hpre)
    as (st' & best' & tr' & Hinv' & B1' & B2' & B3' & E').
  { intros v u Hv Hu.
    destruct (align_pure_bounds S' flex G P HG HP HG0 HP0 HS' HSu' f' v u
                utils.default_eps) as (w & t & -> & _).
    - by apply (descendants_trans G g).
    - by apply (descendants_trans P p).
    - pose proof (descendants_size g v Hv). lia.
    - by eexists. }
  unfold pure_weight. rewrite E, E'. simpl.
  set (n := length (leaves p) + 1) in *. set (m := length (leaves g) + 1) in *.
  assert (∀ a b, in_table m n a b → (cell st'.1 a b <= cell st.1 b a)%Q) as Hdom.
  { apply (bellman_dominated m n (lloc g) (rloc g) (lloc p) (rloc p)
             (pure_weight f' S' flex) init_cell
             (fun v u => v ∈ descendants g ∧ u ∈ descendants p) st'
             (fun a b => cell st.1 b a)); [done| | |].
    - intros v u [Hv Hu]. pose proof (wf_loc p u Hwp Hu).
      pose proof (wf_loc g v Hwg Hv). lia.
    - intros a b [Ha Hb]. rewrite init_cell_sym.
      destruct Hinv as (_ & H2 & _). apply H2. by split.
    - intros v u a b [Hv Hu] _ Ha Hb.
      destruct Hinv as (_ & _ & H3 & _).
      specialize (H3 u v b a (conj Hu Hv) Hb Ha).
      assert ((pure_weight f' S' flex v u <= pure_weight f S flex u v)%Q) as Hle.
      { apply IH.
        - by apply (descendants_trans P p).
        - by apply (descendants_trans G g).
        - pose proof (descendants_size p u Hu). lia.
        - pose proof (descendants_size g v Hv). lia. }
      lra. }
  assert ((best' <= best)%Q) as Hbest.
  { destruct B3' as [->|(a & b & Hab & ->)]; [done|].
    specialize (Hdom a b Hab).
    assert (in_table n m b a) as Hba by (destruct Hab; by split).
    specialize (B2 b a Hba). lra. }
  lra.
Qed.

(** The top-level tables are transposes of each other, one way. *)
Lemma top_level_swap_le (st st' : metrics.dp_state) :
  bellman_inv (length (leaves P) + 1) (length (leaves G) + 1)
    lleaf rleaf lleaf rleaf (pure_weight (size P) S flex) init_cell
    (fun u v => u ∈ nodes P ∧ v ∈ nodes G ∧ both_roots u v = false) st →
  bellman_inv (length (leaves G) + 1) (length (leaves P) + 1)
    lleaf rleaf lleaf rleaf (pure_weight (size G) S' flex) init_cell
    (fun v u => v ∈ nodes G ∧ u ∈ nodes P ∧ both_roots v u = false) st' →
  ∀ a b, in_table (length (leaves G) + 1) (length (leaves P) + 1) a b →
    (cell st'.1 a b <= cell st.1 b a)%Q.
Proof.
  intros Hinv Hinv'.
  apply (bellman_dominated _ _ lleaf rleaf lleaf rleaf
           (pure_weight (size G) S' flex) init_cell
           (fun v u => v ∈ nodes G ∧ u ∈ nodes P ∧ both_roots v u = false) st'
           (fun a b => cell st.1 b a)); [done| | |].
  - intros v u (Hv & Hu & _). pose proof (wf_root_loc P u HP HP1 Hu).
    pose proof (wf_root_loc G v HG HG1 Hv). lia.
  - intros a b [Ha Hb]. rewrite init_cell_sym.
    destruct Hinv as (_ & H2 & _). apply H2. by split.
  - intros v u a b (Hv & Hu & Hr) _ Ha Hb.
    destruct Hinv as (_ & _ & H3 & _).
    rewrite both_roots_sym in Hr.
    specialize (H3 u v b a (conj Hu (conj Hv Hr)) Hb Ha).
    pose proof (pure_weight_swap_le (size P) (size G) u v Hu Hv
                  (nodes_size P u Hu) (nodes_size G v Hv)). lra.
Qed.
End swap.

Lemma struct_iou_swap_le (P G : ExtendedTree) (threshold_iou : Q) (flex : bool) :
  WellFormed P → WellFormed G →
  ∃ s s',
    metrics.struct_iou P G threshold_iou flex = Ok s ∧
    metrics.struct_iou G P threshold_iou flex = Ok s' ∧
    (s' <= s)%Q.
Proof.
  intros HP HG.
  destruct (struct_iou_value P G threshold_iou flex HP HG)
    as (self & w & tr & st & mw & mt & _ & _ &
        _ & Hok & _ & Hc & _ & Hp & _ & Hinv & (A1 & A2 & A3) & _ & _ & ->).
  destruct (struct_iou_value G P threshold_iou flex HG HP)
    as (self' & w' & tr' & st' & mw' & mt' & _ & _ &
        _ & Hok' & _ & Hc' & _ & Hp' & _ & Hinv' & (C1 & C2 & C3) & _ & _ & ->).
  pose proof Hok as (HwP & HwG & HP0 & HG0 & HP1 & HG1 & _ & _ & _ & HS & HSu).
  pose proof Hok' as (_ & _ & _ & _ & _ & _ & _ & _ & _ & HS' & HSu').
  eexists _, _. split; [done|]. split; [done|].
  assert (∀ u v, u ∈ nodes P → v ∈ nodes G →
            (cell (metrics._span_ious self') (Z.of_nat (index v)) (Z.of_nat (index u))
             == cell (metrics._span_ious self) (Z.of_nat (index u)) (Z.of_nat (index v)))%Q)
    as Hsym.
  { intros u v Hu Hv. rewrite (Hc u v Hu Hv), (Hc' v u Hv Hu).
    apply apply_threshold_proper, node_iou_sym. }
  rewrite (Nat.add_comm (size G) (size P)).
  apply score_mono; [pose proof (size_pos P); lia|].
  assert ((w' <= w)%Q) as Hw.
  { pose proof (pure_weight_swap_le (metrics._span_ious self) (metrics._span_ious self')
                  flex P G HwP HwG HP0 HG0 HS HS' HSu HSu' Hsym (size P) (size G) P G
                  (nodes_self P) (nodes_self G) (le_n _) (le_n _)) as Hm.
    unfold pure_weight in Hm. by rewrite Hp, Hp' in Hm. }
  destruct C3 as [->|(a & b & Hab & ->)]; [lra|].
  pose proof (top_level_swap_le (metrics._span_ious self) (metrics._span_ious self')
                flex P G HwP HwG HP0 HG0 HP1 HG1 HS HS' HSu HSu' Hsym st st'
                Hinv Hinv' a b Hab).
  assert (in_table (length (leaves P) + 1) (length (leaves G) + 1) b a) as Hba
    by (destruct Hab; by split).
  specialize (A2 b a Hba). lra.
Qed.

(** C3. For two well-formed Annotated Trees and any configuration, the
    score does not change when the two trees are swapped. *)
Theorem struct_iou_symmetric (P G : ExtendedTree) (threshold_iou : Q) (flex : bool) :
  WellFormed P → WellFormed G →
  ∃ s s',
    metrics.struct_iou P G threshold_iou flex = Ok s ∧
    metrics.struct_iou G P threshold_iou flex = Ok s' ∧
    (s == s')%Q.
Proof.
  intros HP HG.
  destruct (struct_iou_swap_le P G threshold_iou flex HP HG) as (s & s' & E & E' & Hle).
  destruct (struct_iou_swap_le G P threshold_iou flex HG HP) as (r' & r & F' & F & Hge).
  rewrite E' in F'. injection F' as <-.
  rewrite E in F. injection F as <-.
  exists s, s'. split; [done|]. split; [done|]. by apply Qle_antisym.
Qed.

Lemma struct_iou_symmetric_witness :
  ∃ s s',
    metrics.struct_iou example_predicted example_gold 0 true = Ok s ∧
    metrics.struct_iou example_gold example_predicted 0 true = Ok s' ∧
    (s == s')%Q.
Proof.
  exact (struct_iou_symmetric example_predicted example_gold 0 true
           example_predicted_WellFormed example_gold_WellFormed).
Defined.

(** ** A tree against itself *)

(** Along a row of adjacent siblings, the diagonal of an interval table
    collects the weight of every sibling paired with itself. *)
Lemma forest_chain (c : Z → Z → Q) (W : ExtendedTree → ExtendedTree → Q) (l0 : Z)
    (D : ExtendedTree → Prop) :
  (∀ u a b, D u → (0 ≤ a < lleaf u - l0 + 1)%Z → (0 ≤ b < lleaf u - l0 + 1)%Z →
     (c a b + W u u <= c (rleaf u - l0 + 1)%Z (rleaf u - l0 + 1)%Z)%Q) →
  (∀ u, D u → (Qnat (size u) <= W u u)%Q) →
  ∀ (cs : list ExtendedTree) (i : nat) (l r : Z),
    wf_forest i l r cs → (∀ x, x ∈ cs → D x) → (l0 ≤ l)%Z →
    ∀ X : Q, (X <= c (l - l0)%Z (l - l0)%Z)%Q →
      (X + Qnat (sum_list (size <$> cs)) <= c (r - l0 + 1)%Z (r - l0 + 1)%Z)%Q.
Proof.
  intros Hstep HW.
  induction cs as [|c0 cs IH]; intros i l r Hwf HD Hl X HX.
  - inversion Hwf; subst. simpl. rewrite Qnat_0, Qplus_0_r.
    replace (l - 1 - l0 + 1)%Z with (l - l0)%Z by lia. exact HX.
  - inversion Hwf as [|i' l' r' c' cs' Hc Hi Hll Hrest]; subst.
    pose proof (wf_ranges c0 c0 Hc (nodes_self c0)) as Hr.
    assert (D c0) as Hc0 by (apply HD; left).
    pose proof (Hstep c0 (lleaf c0 - l0)%Z (lleaf c0 - l0)%Z Hc0
                  ltac:(lia) ltac:(lia)) as Hs.
    pose proof (HW c0 Hc0) as Hw.
    assert ((X + Qnat (size c0)
             <= c (rleaf c0 + 1 - l0)%Z (rleaf c0 + 1 - l0)%Z)%Q) as HX'.
    { replace (rleaf c0 + 1 - l0)%Z with (rleaf c0 - l0 + 1)%Z by lia.
      eapply Qle_trans; [|exact Hs].
      apply Qplus_le_compat; [exact HX|exact Hw]. }
    pose proof (IH _ _ _ Hrest (fun x Hx => HD x (list_elem_of_further _ _ _ Hx))
                  ltac:(lia) _ HX') as Hfin.
    rewrite fmap_cons. cbn [sum_list]. rewrite Qnat_add, Qplus_assoc. exact Hfin.
Qed.

Lemma preterminal_size (u : ExtendedTree) :
  wf_ext u → is_preterminal u = true → size u = 1.
Proof.
  intros Hwf Hpre. destruct Hwf as [i tr l lab s|i tr l r lab cs Hne Hfor]; [done|].
  destruct cs as [|c0 [|c1 cs]]; done.
Qed.

Lemma rejected_self (flex : bool) (u : ExtendedTree) (iou : Q) :
  (utils.default_eps <= iou)%Q →
  metrics.rejected flex u u iou utils.default_eps = false.
Proof.
  intros Hiou. apply not_true_is_false. intros H.
  apply rejected_true_iff in H.
  - destruct H as [H|[(_ & _ & H)|(_ & H)]]; [lra|done|done].
  - pose proof default_eps_pos. lra.
Qed.

(** The aligner of [(T, T)] over a table whose diagonal holds 1. *)
Section self_alignment.
Variables (S : ndarray) (flex : bool) (T : ExtendedTree).
Hypothesis HT : wf_ext T.
Hypothesis HT0 : index T = 0.
Hypothesis HS : has_shape (size T) (size T) S.
Hypothesis HSu :
  ∀ i j, in_table (size T) (size T) i j → (0 <= cell S i j ∧ cell S i j <= 1)%Q.
Hypothesis Hdiag :
  ∀ u, u ∈ nodes T →
    (cell S (Z.of_nat (index u)) (Z.of_nat (index u)) == 1)%Q.

Lemma pure_weight_self (f : nat) (u : ExtendedTree) :
  u ∈ nodes T → size u ≤ f →
  (Qnat (size u) <= pure_weight f S flex u u)%Q.
Proof.
  revert u. induction f as [|f IH]; intros u Hu Hf.
  { pose proof (size_pos u). lia. }
  assert (wf_ext u) as Hwu by (by apply (wf_hereditary T)).
  pose proof (Hdiag u Hu) as Hone.
  assert (metrics.rejected flex u u
            (cell S (Z.of_nat (index u)) (Z.of_nat (index u)))
            utils.default_eps = false) as Hrej.
  { apply rejected_self. rewrite Hone. done. }
  destruct (is_preterminal u || is_preterminal u) eqn:Hpre.
  { unfold pure_weight.
    rewrite align_pure_wf, (span_get S T T) by done. ok_bind.
    rewrite Hrej, Hpre. simpl.
    rewrite (preterminal_size u Hwu) by (by destruct (is_preterminal u)).
    rewrite Qnat_1. lra. }
  destruct (align_pure_general S flex T T HT HT HT0 HT0 HS f u u utils.default_eps
              Hwu Hwu Hu Hu Hrej Hpre)
    as (st & best & tr & Hinv & B1 & B2 & B3 & E).
  { intros x y Hx Hy.
    destruct (align_pure_bounds S flex T T HT HT HT0 HT0 HS HSu f x y
                utils.default_eps) as (w & t & -> & _).
    - by apply (descendants_trans T u).
    - by apply (descendants_trans T u).
    - pose proof (descendants_size u x Hx). lia.
    - by eexists. }
  unfold pure_weight. rewrite E. simpl.
  destruct Hinv as (_ & H2 & H3 & _).
  assert ((Qnat (sum_list (size <$> subtrees u))
           <= cell st.1 (rleaf u - lleaf u + 1)%Z (rleaf u - lleaf u + 1)%Z)%Q) as Hchain.
  { assert ((0 <= cell st.1 0%Z 0%Z)%Q) as H00.
    { specialize (H2 0%Z 0%Z). unfold init_cell in H2.
      rewrite decide_True in H2 by done. apply H2. split; lia. }
    destruct Hwu as [i rng l lab s|i rng l r lab cs Hne Hfor].
    { done. }
    rewrite subtrees_inr. unfold lleaf, rleaf in *. cbn [leaf_range fst snd] in *.
    pose proof (forest_chain (cell st.1) (pure_weight f S flex) l
                  (fun x => x ∈ descendants (ETree i rng (l, r) lab (inr <$> cs)))) as Hfc.
    assert ((0 + Qnat (sum_list (size <$> cs))
             <= cell st.1 (r - l + 1)%Z (r - l + 1)%Z)%Q) as Hres; [|lra].
    apply (Hfc) with (i := Datatypes.S i) (l := l).
    - intros x a b Hx Ha Hb.
      apply (H3 x x a b (conj Hx Hx)); unfold lloc, lleaf in *; cbn [leaf_range fst] in *; lia.
    - intros x Hx. apply IH.
      + by apply (descendants_trans T (ETree i rng (l, r) lab (inr <$> cs))).
      + pose proof (descendants_size _ x Hx). lia.
    - done.
    - intros x Hx. apply subtrees_descendants. by rewrite subtrees_inr.
    - lia.
    - by rewrite Z.sub_diag. }
  assert (in_table (length (leaves u) + 1) (length (leaves u) + 1)
            (rleaf u - lleaf u + 1)%Z (rleaf u - lleaf u + 1)%Z) as Hin.
  { pose proof (wf_leaves u Hwu). pose proof (wf_ranges u u Hwu (nodes_self u)).
    split; lia. }
  specialize (B2 _ _ Hin).
  rewrite (size_subtrees u), Qnat_add, Qnat_1. lra.
Qed.
End self_alignment.

Lemma py_min_idem (x : Q) : utils.py_min x x = x.
Proof. unfold utils.py_min. by destruct (utils.Qlt_bool x x). Qed.

Lemma py_max_idem (x : Q) : utils.py_max x x = x.
Proof. unfold utils.py_max. by destruct (utils.Qlt_bool x x). Qed.

(** The span IoU of a node with itself is 1 once its time range is at least
    [eps] wide. *)
Lemma node_iou_self (u : ExtendedTree) :
  (utils.default_eps <= (time_range u).2 - (time_range u).1)%Q →
  (node_iou u u == 1)%Q.
Proof.
  intros Hw. unfold node_iou.
  destruct (span_iou_cases (time_range u) (time_range u) utils.default_eps
              default_eps_pos) as (r & -> & _ & Hd & _).
  cbv zeta in Hd. rewrite !py_min_idem, !py_max_idem in Hd.
  pose proof default_eps_pos as Heps.
  rewrite Hd by (intros [?|?]; lra).
  field. lra.
Qed.

Lemma struct_iou_self (T : ExtendedTree) (threshold_iou : Q) (flex : bool) :
  WellFormed T → (threshold_iou < 1)%Q →
  (∀ u, u ∈ nodes T →
     (utils.default_eps <= (time_range u).2 - (time_range u).1)%Q) →
  ∃ score, metrics.struct_iou T T threshold_iou flex = Ok score ∧ (score == 1)%Q.
Proof.
  intros HT Hthr Hwide.
  destruct (struct_iou_value T T threshold_iou flex HT HT)
    as (self & w & tr & st & mw & mt & _ & _ &
        _ & Hok & _ & Hc & _ & Hp & _ & _ & (A1 & _ & _) & (_ & Hub & _) & _ & ->).
  pose proof Hok as (HwT & _ & HT0 & _ & _ & _ & _ & _ & _ & HS & HSu).
  eexists. split; [done|].
  assert (∀ u, u ∈ nodes T →
            (cell (metrics._span_ious self) (Z.of_nat (index u)) (Z.of_nat (index u))
             == 1)%Q) as Hdiag.
  { intros u Hu. rewrite (Hc u u Hu Hu).
    pose proof (node_iou_self u (Hwide u Hu)) as H1.
    destruct (apply_threshold_cases threshold_iou (node_iou u u)) as [[_ ->]|[Hle _]]; lra. }
  pose proof (pure_weight_self (metrics._span_ious self) flex T HwT HT0 HS HSu Hdiag
                (size T) T (nodes_self T) (le_n _)) as Hlow.
  unfold pure_weight in Hlow. rewrite Hp in Hlow. simpl in Hlow.
  assert ((mw == Qnat (size T))%Q) as -> by lra.
  rewrite Qnat_add. field.
  pose proof (Qnat_pos (size T) (size_pos T)). lra.
Qed.

(** C2, as the code has it.  For a well-formed Annotated Tree whose nodes
    all have a time range at least [eps] wide, and a threshold below 1, the
    score of the tree against itself is 1. *)
Theorem self_score_one (T : ExtendedTree) (threshold_iou : Q) (flex : bool) :
  WellFormed T → (threshold_iou < 1)%Q →
  (∀ u, u ∈ nodes T →
     (utils.default_eps <= (time_range u).2 - (time_range u).1)%Q) →
  ∃ score, metrics.struct_iou T T threshold_iou flex = Ok score ∧ (score == 1)%Q.
Proof. apply struct_iou_self. Qed.

Lemma example_gold_wide :
  ∀ u, u ∈ nodes example_gold →
    (utils.default_eps <= (time_range u).2 - (time_range u).1)%Q.
Proof.
  apply Forall_forall. vm_compute nodes.
  repeat (apply Forall_cons; split; [vm_compute; discriminate|]).
  apply Forall_nil_2.
Qed.

Lemma self_score_one_witness :
  (0 < 1)%Q ∧
  ∃ score, metrics.struct_iou example_gold example_gold 0 true = Ok score ∧
           (score == 1)%Q.
Proof.
  assert ((0 < 1)%Q) as Hthr by reflexivity.
  split; [exact Hthr|].
  exact (self_score_one example_gold 0 true example_gold_WellFormed Hthr
           example_gold_wide).
Defined.

(** With [threshold_iou = 1] every span IoU is at or below the threshold:
    the table of span IoUs is zero and a tree scores 0 against itself. *)
Lemma self_score_threshold_one :
  WellFormed example_gold ∧
  ∃ score, metrics.struct_iou example_gold example_gold 1 true = Ok score ∧
           (score == 0)%Q ∧ ¬ (score == 1)%Q.
Proof.
  split; [exact example_gold_WellFormed|].
  eexists. split; [vm_compute; reflexivity|].
  split; [reflexivity|]. intros H. vm_compute in H. discriminate H.
Qed.

(** * Further properties of the code *)

(** ** [utils.eps_eq] and [utils.span_iou] *)

Lemma eps_eq_iff (x y eps : Q) :
  utils.eps_eq x y eps = true ↔ (y - eps < x ∧ x < y + eps)%Q.
Proof.
  unfold utils.eps_eq. rewrite Qlt_bool_iff. split.
  - intros H. apply Qabs_Qlt_condition in H. lra.
  - intros H. apply Qabs_Qlt_condition. lra.
Qed.

(** X1. [eps_eq] holds exactly inside the open interval of radius [eps]; it is
    symmetric in its two values, and with [eps <= 0] it holds of no pair,
    not even of a value and itself. *)
Theorem eps_eq_interval (x y eps : Q) :
  (utils.eps_eq x y eps = true ↔ (y - eps < x ∧ x < y + eps)%Q) ∧
  utils.eps_eq x y eps = utils.eps_eq y x eps ∧
  ((eps <= 0)%Q → utils.eps_eq x y eps = false) ∧
  (utils.eps_eq x x eps = true ↔ (0 < eps)%Q).
Proof.
  split; [apply eps_eq_iff|]. split.
  - apply eq_true_iff_eq. rewrite !eps_eq_iff. split; intros H; lra.
  - split.
    + intros Heps. apply not_true_is_false. rewrite eps_eq_iff. lra.
    + rewrite eps_eq_iff. split; intros H; lra.
Qed.

(** The two widths [span_iou] computes. *)
Lemma span_iou_unfold (a b : Q * Q) (eps : Q) :
  let intersection := (utils.py_min a.2 b.2 - utils.py_max a.1 b.1)%Q in
  let union := (utils.py_max a.2 b.2 - utils.py_min a.1 b.1)%Q in
  utils.span_iou a b eps =
  if utils.Qlt_bool intersection eps || utils.Qlt_bool union eps then Ok 0%Q
  else if Qeq_bool union 0 then Raise ZeroDivisionError
  else Ok (intersection / union)%Q.
Proof. reflexivity. Qed.

Lemma span_iou_dec (a b : Q * Q) (eps : Q) :
  let intersection := (utils.py_min a.2 b.2 - utils.py_max a.1 b.1)%Q in
  let union := (utils.py_max a.2 b.2 - utils.py_min a.1 b.1)%Q in
  ((intersection < eps ∨ union < eps)%Q ∧ utils.span_iou a b eps = Ok 0%Q) ∨
  ((eps <= intersection)%Q ∧ (eps <= union)%Q ∧ (union == 0)%Q ∧
   utils.span_iou a b eps = Raise ZeroDivisionError) ∨
  ((eps <= intersection)%Q ∧ (eps <= union)%Q ∧ ¬ (union == 0)%Q ∧
   utils.span_iou a b eps = Ok (intersection / union)%Q).
Proof.
  intros intersection union. rewrite span_iou_unfold. fold intersection union.
  destruct (utils.Qlt_bool intersection eps) eqn:Ei; simpl.
  { apply Qlt_bool_iff in Ei. left. split; [by left|done]. }
  apply Qlt_bool_false in Ei.
  destruct (utils.Qlt_bool union eps) eqn:Eu; simpl.
  { apply Qlt_bool_iff in Eu. left. split; [by right|done]. }
  apply Qlt_bool_false in Eu. right.
  destruct (Qeq_bool union 0) eqn:E0.
  - apply Qeq_bool_iff in E0. left. done.
  - right. split; [done|]. split; [done|]. split; [|done].
    intros H. apply Qeq_bool_iff in H. congruence.
Qed.

(** X2. [span_iou] raises only [ZeroDivisionError], only with [eps <= 0], and
    exactly when the union is empty and the intersection is not below
    [eps]; a point span against itself raises with every [eps <= 0]. *)
Theorem span_iou_raises (a b : Q * Q) (eps : Q) (e : exn) (x : Q) :
  let intersection := (utils.py_min a.2 b.2 - utils.py_max a.1 b.1)%Q in
  let union := (utils.py_max a.2 b.2 - utils.py_min a.1 b.1)%Q in
  (utils.span_iou a b eps = Raise e ↔
   e = ZeroDivisionError ∧ (eps <= intersection)%Q ∧ (union == 0)%Q) ∧
  (utils.span_iou a b eps = Raise e → (eps <= 0)%Q) ∧
  ((eps <= 0)%Q → utils.span_iou (x, x) (x, x) eps = Raise ZeroDivisionError).
Proof.
  intros intersection union.
  pose proof (span_widths_le a b) as Hle. fold intersection union in Hle.
  pose proof (span_iou_dec a b eps) as Hd. fold intersection union in Hd.
  split; [|split].
  - split.
    + intros H. destruct Hd as [[_ Hd]|[(Hi & _ & Hu & Hd)|(_ & _ & _ & Hd)]];
        rewrite Hd in H; try discriminate.
      injection H as <-. done.
    + intros (-> & Hi & Hu).
      destruct Hd as [[[Hd|Hd] _]|[(_ & _ & _ & Hd)|(_ & _ & Hn & _)]];
        [lra|lra|done|done].
  - intros H. destruct Hd as [[_ Hd]|[(Hi & _ & Hu & Hd)|(_ & _ & _ & Hd)]];
      rewrite Hd in H; try discriminate. lra.
  - intros Heps.
    destruct (span_iou_dec (x, x) (x, x) eps)
      as [[Hx _]|[(_ & _ & _ & Hx)|(_ & _ & Hn & _)]]; simpl in *.
    + rewrite !py_min_idem, !py_max_idem in Hx. lra.
    + done.
    + rewrite !py_min_idem, !py_max_idem in Hn. exfalso. apply Hn. ring.
Qed.

(** X3. [span_iou] does not depend on the order of the two spans: both calls
    return equal numbers or both raise. *)
Theorem span_iou_symmetric (a b : Q * Q) (eps : Q) :
  match utils.span_iou a b eps, utils.span_iou b a eps with
  | Ok x, Ok y => (x == y)%Q
  | Raise e, Raise e' => e = e'
  | _, _ => False
  end.
Proof.
  pose proof (py_min_comm a.2 b.2) as E1. pose proof (py_max_comm a.1 b.1) as E2.
  pose proof (py_max_comm a.2 b.2) as E3. pose proof (py_min_comm a.1 b.1) as E4.
  pose proof (span_iou_dec a b eps) as Hab. pose proof (span_iou_dec b a eps) as Hba.
  cbv zeta in Hab, Hba.
  set (i := (utils.py_min a.2 b.2 - utils.py_max a.1 b.1)%Q) in *.
  set (n := (utils.py_max a.2 b.2 - utils.py_min a.1 b.1)%Q) in *.
  set (i' := (utils.py_min b.2 a.2 - utils.py_max b.1 a.1)%Q) in *.
  set (n' := (utils.py_max b.2 a.2 - utils.py_min b.1 a.1)%Q) in *.
  assert ((i == i')%Q) as Ei by (unfold i, i'; lra).
  assert ((n == n')%Q) as En by (unfold n, n'; lra).
  clearbody i n i' n'.
  destruct Hab as [[Hc ->]|[(Hi & Hu & Hz & ->)|(Hi & Hu & Hz & ->)]];
    destruct Hba as [[Hc' ->]|[(Hi' & Hu' & Hz' & ->)|(Hi' & Hu' & Hz' & ->)]];
    try done; try (exfalso; lra); try (exfalso; destruct Hc; lra);
    try (exfalso; destruct Hc'; lra).
  rewrite Ei, En. reflexivity.
Qed.

Lemma Qdiv_one_iff (i u : Q) : (0 < u)%Q → (i / u == 1)%Q ↔ (i == u)%Q.
Proof.
  intros Hu. split; intros H.
  - assert (i == i / u * u)%Q as -> by (field; lra). rewrite H. ring.
  - rewrite H. field. lra.
Qed.

Lemma Qdiv_pos (i u : Q) : (0 < i)%Q → (0 < u)%Q → (0 < i / u)%Q.
Proof.
  intros Hi Hu. apply Qlt_shift_div_l; [done|]. lra.
Qed.

Lemma py_min_cases (x y : Q) :
  (utils.py_min x y == x ∧ x <= y)%Q ∨ (utils.py_min x y == y ∧ y <= x)%Q.
Proof.
  unfold utils.py_min. destruct (utils.Qlt_bool y x) eqn:E.
  - apply Qlt_bool_iff in E. right. split; [reflexivity|lra].
  - apply Qlt_bool_false in E. left. split; [reflexivity|lra].
Qed.

Lemma py_max_cases (x y : Q) :
  (utils.py_max x y == x ∧ y <= x)%Q ∨ (utils.py_max x y == y ∧ x <= y)%Q.
Proof.
  unfold utils.py_max. destruct (utils.Qlt_bool x y) eqn:E.
  - apply Qlt_bool_iff in E. right. split; [reflexivity|lra].
  - apply Qlt_bool_false in E. left. split; [reflexivity|lra].
Qed.

(** X4. With [eps > 0], and floats read as exact rationals, [span_iou]
    returns 0 for disjoint spans, a positive number for spans that overlap
    by at least [eps], and 1 for two equal spans that are at least [eps]
    wide. *)
Theorem span_iou_extremes (a b : Q * Q) (eps : Q) :
  (0 < eps)%Q →
  ∃ r, utils.span_iou a b eps = Ok r ∧
       ((a.2 <= b.1 ∨ b.2 <= a.1)%Q → r = 0%Q) ∧
       ((eps <= utils.py_min a.2 b.2 - utils.py_max a.1 b.1)%Q → (0 < r)%Q) ∧
       ((a.1 == b.1 ∧ a.2 == b.2 ∧ eps <= a.2 - a.1)%Q → (r == 1)%Q).
Proof.
  intros Heps.
  pose proof (span_iou_dec a b eps) as Hd. cbv zeta in Hd.
  assert ((utils.py_min a.2 b.2 - utils.py_max a.1 b.1
           == utils.py_max a.2 b.2 - utils.py_min a.1 b.1)%Q ↔
          (a.1 == b.1 ∧ a.2 == b.2)%Q) as Hsame.
  { destruct (py_min_cases a.2 b.2) as [[? ?]|[? ?]],
             (py_max_cases a.1 b.1) as [[? ?]|[? ?]],
             (py_max_cases a.2 b.2) as [[? ?]|[? ?]],
             (py_min_cases a.1 b.1) as [[? ?]|[? ?]];
      split; intros Hsm; lra. }
  assert ((a.2 <= b.1 ∨ b.2 <= a.1)%Q →
          (utils.py_min a.2 b.2 - utils.py_max a.1 b.1 <= 0)%Q) as Hdisj.
  { pose proof (py_min_spec a.2 b.2) as (m1 & m2 & _).
    pose proof (py_max_spec a.1 b.1) as (x1 & x2 & _).
    intros [H|H]; lra. }
  assert ((a.1 == b.1 ∧ a.2 == b.2)%Q →
          (utils.py_min a.2 b.2 - utils.py_max a.1 b.1 == a.2 - a.1)%Q) as Hwidth.
  { intros [H1 H2].
    destruct (py_min_cases a.2 b.2) as [[? ?]|[? ?]],
             (py_max_cases a.1 b.1) as [[? ?]|[? ?]]; lra. }
  pose proof (span_widths_le a b) as Hle.
  set (i := (utils.py_min a.2 b.2 - utils.py_max a.1 b.1)%Q) in *.
  set (u := (utils.py_max a.2 b.2 - utils.py_min a.1 b.1)%Q) in *.
  clearbody i u.
  destruct Hd as [[Hc ->]|[(Hi & Hu & Hz & _)|(Hi & Hu & Hz & ->)]].
  - exists 0%Q. split; [done|].
    assert ((i < eps)%Q) as Hlt by (destruct Hc; lra).
    split; [done|]. split.
    + intros H. exfalso. lra.
    + intros (H1 & H2 & H3). exfalso.
      pose proof (Hwidth (conj H1 H2)). lra.
  - exfalso. lra.
  - exists (i / u)%Q. split; [done|].
    assert ((0 < i / u)%Q) as Hpos by (apply Qdiv_pos; lra).
    split; [intros H; exfalso; specialize (Hdisj H); lra|].
    split; [done|].
    intros (H1 & H2 & _). apply Qdiv_one_iff; [lra|]. by apply Hsame.
Qed.

Lemma span_iou_extremes_witness :
  (∃ r, utils.span_iou (1, 3 # 2)%Q (9 # 5, 2)%Q utils.default_eps = Ok r ∧ r = 0%Q) ∧
  (∃ r, utils.span_iou (1, 3 # 2)%Q (1, 2)%Q utils.default_eps = Ok r ∧ (0 < r)%Q) ∧
  (∃ r, utils.span_iou (1, 3 # 2)%Q (1, 3 # 2)%Q utils.default_eps = Ok r ∧ (r == 1)%Q).
Proof.
  split; [|split].
  - destruct (span_iou_extremes (1, 3 # 2)%Q (9 # 5, 2)%Q utils.default_eps)
      as (r & Hr & Hdisj & _); [reflexivity|].
    exists r. split; [exact Hr|]. apply Hdisj. left. discriminate.
  - destruct (span_iou_extremes (1, 3 # 2)%Q (1, 2)%Q utils.default_eps)
      as (r & Hr & _ & Hpos & _); [reflexivity|].
    exists r. split; [exact Hr|]. apply Hpos. discriminate.
  - destruct (span_iou_extremes (1, 3 # 2)%Q (1, 3 # 2)%Q utils.default_eps)
      as (r & Hr & _ & _ & Hone); [reflexivity|].
    exists r. split; [exact Hr|]. apply Hone.
    split; [reflexivity|]. split; [reflexivity|]. discriminate.
Defined.

(** ** [from_tree_and_leaf_timestamps]: what the tree keeps *)

Lemma erase_unfold i tr lr lab cs :
  erase (ETree i tr lr lab cs) = NTree lab (sum_map id erase <$> cs).
Proof. reflexivity. Qed.

Lemma construct_tree_erase ts node :
  ∀ left right gi T gi',
    construct_tree ts node left right gi = Ok (T, gi') → erase T = node.
Proof.
  induction node as [lab cs IH] using NLTKTree_ind'.
  intros left right gi T gi' Hrun.
  rewrite construct_tree_unfold in Hrun.
  apply bind_Ok in Hrun as ([children g1] & Hch & Hrun).
  apply bind_Ok in Hrun as (first & _ & Hrun).
  apply bind_Ok in Hrun as (last & _ & Hrun).
  injection Hrun as <- <-. rewrite erase_unfold. f_equal.
  clear first last right. revert left children g1 Hch. generalize (S gi). clear gi.
  induction cs as [|[s|c] cs IHcs]; intros g cl children g1 Hch; simpl in Hch.
  - by injection Hch as <- <-.
  - apply bind_Ok in Hch as ([rest g2] & Hrest & Hch). injection Hch as <- <-.
    rewrite fmap_cons. simpl. f_equal.
    apply (IHcs (Forall_inv_tail IH) _ _ _ _ Hrest).
  - apply bind_Ok in Hch as ([c' g2] & Hc & Hch).
    apply bind_Ok in Hch as ([rest g3] & Hrest & Hch). injection Hch as <- <-.
    rewrite fmap_cons. simpl. f_equal.
    + f_equal. apply (Forall_inv IH _ _ _ _ _ Hc).
    + apply (IHcs (Forall_inv_tail IH) _ _ _ _ Hrest).
Qed.

Lemma leaves_erase (T : ExtendedTree) : NLTK.leaves (erase T) = leaves T.
Proof.
  induction T as [i tr lr lab cs IH] using ExtendedTree_ind'.
  rewrite erase_unfold. simpl.
  induction cs as [|[s|c] cs IHcs]; [done| |].
  - rewrite fmap_cons. simpl. f_equal. apply IHcs, (Forall_inv_tail IH).
  - rewrite fmap_cons. simpl. f_equal.
    + apply (Forall_inv IH).
    + apply IHcs, (Forall_inv_tail IH).
Qed.

(** X5. Whatever the label tree and the timestamps, a tree that
    [from_tree_and_leaf_timestamps] returns is the label tree with
    annotations: without them it is the label tree again, with the same
    labels, the same children in the same order and the same leaves. *)
Theorem construction_keeps_tree (tree : NLTKTree) (leaf_timestamps : list timestamp)
    (T : ExtendedTree) :
  from_tree_and_leaf_timestamps tree leaf_timestamps = Ok T →
  erase T = tree ∧ label T = NLTK.label tree ∧ leaves T = NLTK.leaves tree.
Proof.
  intros Hrun. unfold from_tree_and_leaf_timestamps in Hrun.
  apply bind_Ok in Hrun as ([T' g] & Hrun & Heq). injection Heq as ->.
  pose proof (construct_tree_erase _ _ _ _ _ _ _ Hrun) as He.
  split; [exact He|]. rewrite <- He, leaves_erase.
  split; [|done]. by destruct T.
Qed.

Lemma construction_keeps_tree_witness :
  erase example_gold = example_gold_tree ∧
  label example_gold = NLTK.label example_gold_tree ∧
  leaves example_gold = NLTK.leaves example_gold_tree.
Proof.
  apply (construction_keeps_tree example_gold_tree example_oracle_bounds example_gold).
  reflexivity.
Defined.

(** ** [from_tree_and_leaf_timestamps]: the time ranges *)

Lemma py_getitem_nonneg {A} (l : list A) (i : Z) (x : A) :
  (0 ≤ i)%Z → py_getitem l i = Ok x → l !! Z.to_nat i = Some x.
Proof.
  intros Hi. unfold py_getitem.
  destruct (Z.leb_spec 0 i) as [_|?]; [|lia].
  destruct (Z.leb_spec 0 i) as [_|?]; [|lia].
  destruct (l !! Z.to_nat i); [|done]. by intros [= ->].
Qed.

Lemma construct_tree_timed ts node :
  well_formed_label node = true →
  ∀ left right gi T gi',
    (0 ≤ left < right)%Z →
    construct_tree ts node left right gi = Ok (T, gi') →
    ∀ u, u ∈ nodes T → timed_by ts u.
Proof.
  induction node as [lab cs IH] using NLTKTree_ind'.
  intros Hwf left right gi T gi' Hlr Hrun.
  rewrite construct_tree_unfold in Hrun.
  apply bind_Ok in Hrun as ([chs g1] & Hch & Hrun).
  apply bind_Ok in Hrun as (first & Hfirst & Hrun).
  apply bind_Ok in Hrun as (last & Hlast & Hrun).
  injection Hrun as <- <-.
  assert (timed_by ts (ETree gi (ts_start first, ts_end last)
                         ((left + 1)%Z, right) lab chs)) as Hroot.
  { exists first, last. unfold lleaf, rleaf. cbn [leaf_range time_range fst snd].
    replace (left + 1 - 1)%Z with left by lia.
    split; [apply py_getitem_nonneg; [lia|done]|].
    split; [apply py_getitem_nonneg; [lia|done]|done]. }
  intros u Hu. rewrite nodes_unfold in Hu. apply elem_of_cons in Hu as [->|Hu]; [done|].
  apply elem_of_flat_map in Hu as (c' & Hc' & Hu).
  apply inr_children_subtrees in Hc'. cbn [children] in Hc'.
  destruct (well_formed_label_cases _ _ Hwf) as [[s ->]|(Hne & cs' & -> & Hall)].
  { simpl in Hch. injection Hch as <- <-.
    apply list_elem_of_singleton in Hc'. done. }
  assert (0 ≤ left)%Z as Hl by lia.
  clear Hroot Hfirst Hlast first last Hne Hlr right Hwf.
  revert left Hl chs Hch Hc'. generalize (S gi). clear gi.
  induction cs' as [|c cs' IHcs]; intros g cl Hcl chs Hch Hc'.
  - simpl in Hch. injection Hch as <- <-. by apply elem_of_nil in Hc'.
  - rewrite fmap_cons in Hch, IH. simpl in Hch.
    apply bind_Ok in Hch as ([c2 g2] & Hc & Hch).
    apply bind_Ok in Hch as ([rest g3] & Hrest & Hch). injection Hch as <- <-.
    pose proof (well_formed_label_leaves c (Forall_inv Hall)) as Hpos.
    apply elem_of_cons in Hc' as [[= ->]|Hc'].
    + eapply (Forall_inv IH (Forall_inv Hall)); [|exact Hc|exact Hu]. lia.
    + apply (IHcs (Forall_inv_tail IH) (Forall_inv_tail Hall) g2
               (cl + Z.of_nat (length (NLTK.leaves c)))%Z ltac:(lia) rest Hrest Hc').
Qed.

(** X6. In a tree built from a well-formed label tree, whatever the number of
    timestamps, the time range of every node is read off its leaf range:
    for the leaf range [(l, r)] it runs from the start of timestamp number
    [l] to the end of timestamp number [r] of the list [leaf_timestamps],
    counted from 1, and both are in the list. *)
Theorem construction_time_ranges (tree : NLTKTree) (leaf_timestamps : list timestamp)
    (T : ExtendedTree) :
  well_formed_label tree = true →
  from_tree_and_leaf_timestamps tree leaf_timestamps = Ok T →
  ∀ u, u ∈ nodes T →
    ∃ first last,
      leaf_timestamps !! Z.to_nat ((leaf_range u).1 - 1) = Some first ∧
      leaf_timestamps !! Z.to_nat ((leaf_range u).2 - 1) = Some last ∧
      time_range u = (ts_start first, ts_end last).
Proof.
  intros Hwf Hrun u Hu. unfold from_tree_and_leaf_timestamps in Hrun.
  apply bind_Ok in Hrun as ([T' g] & Hrun & Heq). injection Heq as ->.
  eapply (construct_tree_timed leaf_timestamps tree Hwf); [|exact Hrun|exact Hu].
  destruct leaf_timestamps as [|x l]; [|simpl; lia].
  exfalso. destruct tree as [lab cs]. rewrite construct_tree_unfold in Hrun.
  apply bind_Ok in Hrun as ([chs g1] & _ & Hrun).
  apply bind_Ok in Hrun as (first & Hfirst & _). done.
Qed.

Lemma construction_time_ranges_witness :
  well_formed_label example_gold_tree = true ∧
  from_tree_and_leaf_timestamps example_gold_tree example_oracle_bounds = Ok example_gold ∧
  ∀ u, u ∈ nodes example_gold →
    ∃ first last,
      example_oracle_bounds !! Z.to_nat ((leaf_range u).1 - 1) = Some first ∧
      example_oracle_bounds !! Z.to_nat ((leaf_range u).2 - 1) = Some last ∧
      time_range u = (ts_start first, ts_end last).
Proof.
  split; [reflexivity|]. split; [reflexivity|].
  apply (construction_time_ranges example_gold_tree example_oracle_bounds example_gold).
  - reflexivity.
  - reflexivity.
Defined.

(** ** [index2node] and [subtree_indices] *)

Lemma nodes_trans (T u v : ExtendedTree) : u ∈ nodes T → v ∈ nodes u → v ∈ nodes T.
Proof.
  intros Hu Hv. destruct (nodes_contiguous T u Hu) as (D1 & D2 & ->).
  apply elem_of_app. right. apply elem_of_app. by left.
Qed.

Lemma index2node_KeyError (t : ExtendedTree) (i : nat) (e : exn) :
  index2node t i = Raise e → e = KeyError.
Proof. unfold index2node. destruct (index2node_map t !! i); congruence. Qed.

(** X7. For every node [u] of a well-formed tree [T], [u.index2node(i)] returns
    for exactly the indices [index u <= i < index u + n_nodes u], the node
    of the subtree of [u] with index [i], which is also the node
    [T.index2node(i)]; for any other index it raises [KeyError]. *)
Theorem index2node_lookup (T u : ExtendedTree) (i : nat) :
  WellFormed T → u ∈ nodes T →
  (index u ≤ i < index u + size u →
   ∃ v, index2node u i = Ok v ∧ index v = i ∧ v ∈ nodes u ∧ index2node T i = Ok v) ∧
  (¬ (index u ≤ i < index u + size u) → index2node u i = Raise KeyError) ∧
  index2node u (index u) = Ok u.
Proof.
  intros HT Hu. apply WellFormed_wf_ext in HT as (HT & _ & _).
  assert (wf_ext u) as Hwu by (by apply (wf_hereditary T)).
  split; [|split].
  - intros Hi.
    assert (i ∈ index <$> nodes u) as Hin.
    { rewrite wf_indices by done. apply elem_of_seq. lia. }
    apply list_elem_of_fmap in Hin as (v & -> & Hv).
    exists v. split; [by apply wf_index2node|]. split; [done|]. split; [done|].
    apply wf_index2node; [done|]. by apply (nodes_trans T u).
  - intros Hi. unfold index2node.
    destruct (index2node_map u !! i) as [v|] eqn:E; [|done].
    apply index2node_map_sound in E as [Hv <-].
    pose proof (wf_index_range u v Hwu Hv). lia.
  - apply wf_index2node; [done|apply nodes_self].
Qed.

Lemma index2node_lookup_witness :
  (index example_gold ≤ 4 < index example_gold + size example_gold →
   ∃ v, index2node example_gold 4 = Ok v ∧ index v = 4 ∧ v ∈ nodes example_gold ∧
        index2node example_gold 4 = Ok v) ∧
  (¬ (index example_gold ≤ 4 < index example_gold + size example_gold) →
   index2node example_gold 4 = Raise KeyError) ∧
  index2node example_gold (index example_gold) = Ok example_gold.
Proof.
  apply (index2node_lookup example_gold example_gold 4).
  - exact example_gold_WellFormed.
  - apply nodes_self.
Defined.

(** X8. For every node [u] of a well-formed tree, [u.subtree_indices()] is the
    list [index u, index u + 1, ..., index u + n_nodes u - 1]: increasing,
    without repetition, as long as [n_nodes], and led by the index of [u]
    itself. *)
Theorem subtree_indices_range (T u : ExtendedTree) :
  WellFormed T → u ∈ nodes T →
  subtree_indices u = seq (index u) (size u) ∧
  n_nodes u = Ok (length (subtree_indices u)) ∧
  subtree_indices u = index <$> nodes u ∧
  head (subtree_indices u) = Some (index u).
Proof.
  intros HT Hu. apply WellFormed_wf_ext in HT as (HT & _ & _).
  assert (wf_ext u) as Hwu by (by apply (wf_hereditary T)).
  rewrite (wf_subtree_indices u Hwu), length_seq, (wf_n_nodes u Hwu), (wf_indices u Hwu).
  split; [done|]. split; [done|]. split; [done|].
  pose proof (size_pos u). destruct (size u); [lia|done].
Qed.

Lemma subtree_indices_range_witness :
  subtree_indices example_gold = seq (index example_gold) (size example_gold) ∧
  n_nodes example_gold = Ok (length (subtree_indices example_gold)) ∧
  subtree_indices example_gold = index <$> nodes example_gold ∧
  head (subtree_indices example_gold) = Some (index example_gold).
Proof.
  apply (subtree_indices_range example_gold example_gold).
  - exact example_gold_WellFormed.
  - apply nodes_self.
Defined.

(** ** [n_nodes] *)

Lemma proper_cases i tr lr lab cs :
  proper (ETree i tr lr lab cs) = true →
  (∃ s, cs = [inl s]) ∨
  (cs ≠ [] ∧ ∃ ts, cs = inr <$> ts ∧ Forall (fun t => proper t = true) ts).
Proof.
  simpl. destruct cs as [|c cs]; [done|].
  assert (forallb (fun c => match c with
                            | inl _ => false
                            | inr t' => proper t'
                            end) (c :: cs) = true →
          ∃ ts, c :: cs = inr <$> ts ∧ Forall (fun t => proper t = true) ts)
    as Hall.
  { generalize (c :: cs). clear. intros l.
    induction l as [|[s|t] l IH]; simpl; intros H.
    - by exists [].
    - done.
    - apply andb_true_iff in H as [Ht Hl].
      destruct (IH Hl) as (ts & -> & Hts).
      exists (t :: ts). split; [done|]. by constructor. }
  destruct c as [s|t].
  - destruct cs as [|c' cs]; [left; by exists s|].
    intros H. simpl in H. done.
  - intros H. right. split; [done|]. apply Hall.
    destruct cs; exact H.
Qed.

Lemma proper_inr i tr lr lab (c : ExtendedTree) (cs : list ExtendedTree) :
  proper (ETree i tr lr lab (inr <$> (c :: cs))) = true ↔
  Forall (fun t => proper t = true) (c :: cs).
Proof.
  split.
  - intros H. apply proper_cases in H as [[s Hs]|(_ & ts & Heq & Hall)]; [done|].
    apply (inj (fmap inr)) in Heq. by rewrite Heq.
  - intros H. rewrite fmap_cons. cbn [proper].
    assert (forallb (fun c0 : string + ExtendedTree =>
                       match c0 with
                       | inl _ => false
                       | inr t' => proper t'
                       end) (inr c :: (inr <$> cs)) = true) as Hall.
    { rewrite <- fmap_cons. generalize (c :: cs), H. clear. intros l H.
      induction H as [|t l Ht _ IH]; [done|]. rewrite fmap_cons. simpl.
      by rewrite Ht, IH. }
    destruct cs; exact Hall.
Qed.

Lemma sum_n_nodes_Ok (cs : list (string + ExtendedTree)) (acc n : nat) :
  Forall (fun c => match c with
                   | inl _ => True
                   | inr t => ∀ n, n_nodes t = Ok n ↔ proper t = true ∧ n = size t
                   end) cs →
  sum_n_nodes cs acc = Ok n ↔
  ∃ ts, cs = inr <$> ts ∧ Forall (fun t => proper t = true) ts ∧
        n = acc + sum_list (size <$> ts).
Proof.
  intros IH. revert acc. induction cs as [|[s|c] cs IHcs]; intros acc; simpl.
  - split.
    + intros [= <-]. exists []. simpl. split; [done|]. split; [done|lia].
    + intros ([|? ?] & Heq & _ & ->); [|done]. simpl. f_equal. lia.
  - split; [done|]. intros ([|? ?] & Heq & _); done.
  - pose proof (Forall_inv IH) as Hc. simpl in Hc.
    split.
    + intros H. apply bind_Ok in H as (k & Hk & H).
      apply Hc in Hk as [Hp ->].
      apply (IHcs (Forall_inv_tail IH)) in H as (ts & -> & Hall & ->).
      exists (c :: ts). split; [done|]. split; [by constructor|].
      rewrite fmap_cons. simpl. lia.
    + intros ([|c' ts] & Heq & Hall & ->); [done|].
      rewrite fmap_cons in Heq. injection Heq as -> ->.
      assert (n_nodes c' = Ok (size c')) as -> by (apply Hc; split; [apply (Forall_inv Hall)|done]).
      simpl. apply (IHcs (Forall_inv_tail IH)).
      exists ts. split; [done|]. split; [apply (Forall_inv_tail Hall)|].
      rewrite fmap_cons. simpl. lia.
Qed.

(** X9. [n_nodes] returns exactly on the trees in which every node has either
    one child, a terminal, or one or more children that are all trees; what
    it returns is the number of labelled nodes, terminals not counted. *)
Theorem n_nodes_returns (T : ExtendedTree) (n : nat) :
  n_nodes T = Ok n ↔ proper T = true ∧ n = size T.
Proof.
  revert n. induction T as [i tr lr lab cs IH] using ExtendedTree_ind'. intros n.
  destruct cs as [|[s|c] cs].
  - simpl. split; [done|]. intros [? _]. done.
  - destruct cs as [|c' cs].
    + simpl. split; [intros [= <-]; done|]. intros [_ ->]. done.
    + simpl. split; [done|]. intros [? _]. done.
  - rewrite n_nodes_unfold. split.
    + intros H. apply bind_Ok in H as (k & Hk & H). injection H as <-.
      apply (sum_n_nodes_Ok _ _ _ IH) in Hk as (ts & Heq & Hall & ->).
      destruct ts as [|t ts]; [done|]. rewrite Heq.
      split; [by apply proper_inr|].
      rewrite size_subtrees, subtrees_inr. lia.
    + intros [Hp ->].
      apply proper_cases in Hp as [[s Hs]|(_ & ts & Heq & Hall)]; [done|].
      assert (sum_n_nodes (inr c :: cs) 0 = Ok (sum_list (size <$> ts))) as ->.
      { apply (sum_n_nodes_Ok _ _ _ IH). exists ts. done. }
      simpl. rewrite size_subtrees, Heq, subtrees_inr. f_equal. lia.
Qed.

(** ** [NLTKTree.spans] *)

Lemma spans_unfold lab c cs left lbl incl :
  spans (NTree lab (inr c :: cs)) left lbl incl =
  let n := Z.of_nat (length (NLTK.leaves (NTree lab (inr c :: cs)))) in
  let first : span := (left, (left + n)%Z, if lbl then Some lab else None) in
  let '(yielded, child_left, e) := spans_children (inr c :: cs) left lbl incl in
  match e with
  | Some e => (first :: yielded, Some e)
  | None =>
      if decide (child_left = (left + n)%Z) then (first :: yielded, None)
      else (first :: yielded, Some AssertionError)
  end.
Proof.
  cbn [spans spans_children]. cbv zeta.
  match goal with
  | |- ?L = _ =>
      match L with
      | context [?loop cs (left + Z.of_nat (length (NLTK.leaves c)))%Z] =>
          assert (∀ cs l, loop cs l = spans_children cs l lbl incl) as Hloop
      end
  end.
  { clear. induction cs as [|[s|c] cs IH]; intros l; [done|done|].
    cbn [spans_children]. destruct (spans c l lbl incl) as [xs [e|]]; [done|].
    by rewrite IH. }
  by rewrite Hloop.
Qed.

Lemma spans_children_leaves (cs : list NLTKTree) (cl : Z) lbl incl ys cl' :
  spans_children (inr <$> cs) cl lbl incl = (ys, cl', None) →
  cl' = (cl + Z.of_nat (length (flat_map NLTK.leaves cs)))%Z.
Proof.
  revert cl ys. induction cs as [|c cs IH]; intros cl ys H.
  - simpl in H. injection H as <- <-. simpl. lia.
  - rewrite fmap_cons in H. cbn [spans_children] in H.
    destruct (spans c cl lbl incl) as [xs [e|]]; [done|].
    destruct (spans_children (inr <$> cs) _ lbl incl) as [[ys' cl''] e'] eqn:E.
    injection H as <- <- ->. apply IH in E as ->.
    simpl. rewrite length_app. lia.
Qed.

Lemma spans_children_inr cs cl lbl incl ys cl' :
  spans_children cs cl lbl incl = (ys, cl', None) →
  ∃ ts, cs = inr <$> ts.
Proof.
  revert cl ys. induction cs as [|[s|c] cs IH]; intros cl ys H.
  - by exists [].
  - done.
  - cbn [spans_children] in H.
    destruct (spans c cl lbl incl) as [xs [e|]]; [done|].
    destruct (spans_children cs _ lbl incl) as [[ys' cl''] e'] eqn:E.
    injection H as <- <- ->. apply IH in E as [ts ->]. by exists (c :: ts).
Qed.

Lemma single_terminals_inr lab (c : string + NLTKTree) (cs : list (string + NLTKTree)) :
  single_terminals (NTree lab (c :: cs)) = true →
  match c with inl _ => cs = [] | inr t => single_terminals t = true end ∧
  Forall (fun c => match c with
                   | inl _ => True
                   | inr t => single_terminals t = true
                   end) cs.
Proof.
  cbn [single_terminals].
  assert (∀ l : list (string + NLTKTree),
            forallb (fun c => match c with
                              | inl _ => true
                              | inr t' => single_terminals t'
                              end) l = true →
            Forall (fun c => match c with
                             | inl _ => True
                             | inr t => single_terminals t = true
                             end) l) as Hall.
  { induction l as [|[s|t] l IH]; simpl; intros H; [done| |].
    - constructor; [done|by apply IH].
    - apply andb_true_iff in H as [Ht Hl]. constructor; [done|by apply IH]. }
  destruct c as [s|t].
  - destruct cs as [|c' cs]; [done|]. done.
  - intros H. apply Hall in H. split; [apply (Forall_inv H)|apply (Forall_inv_tail H)].
Qed.

(** X10. [spans] never fails its last assertion: on a tree in which no terminal
    is followed by more children it does not raise [AssertionError], for
    any start and either flag. *)
Theorem spans_no_mismatch (tree : NLTKTree) (left : Z) (label include_terminal : bool) :
  single_terminals tree = true →
  (spans tree left label include_terminal).2 ≠ Some AssertionError.
Proof.
  revert left. induction tree as [lab cs IH] using NLTKTree_ind'. intros left Hst.
  destruct cs as [|[s|c] cs]; [done| |].
  - apply single_terminals_inr in Hst as [-> _]. simpl. by destruct include_terminal.
  - rewrite spans_unfold. cbv zeta.
    apply single_terminals_inr in Hst as [Hc Hcs].
    assert (Forall (fun c => match c with
                             | inl _ => True
                             | inr t => single_terminals t = true
                             end) (inr c :: cs)) as Hall by (by constructor).
    destruct (spans_children (inr c :: cs) left label include_terminal)
      as [[ys cl'] e] eqn:E.
    destruct e as [e|].
    + simpl. intros [= ->].
      clear Hc Hcs. revert left ys E.
      generalize dependent (inr (A:=string) c :: cs). clear c cs.
      intros l IH Hall. induction l as [|[s|c] l IHl]; intros left ys E.
      * done.
      * simpl in E. congruence.
      * cbn [spans_children] in E.
        pose proof (Forall_inv IH left (Forall_inv Hall)) as Hc.
        destruct (spans c left label include_terminal) as [xs [e|]].
        -- simpl in Hc. congruence.
        -- destruct (spans_children l _ label include_terminal) as [[ys' cl''] e'] eqn:E'.
           injection E as <- <- ->.
           by apply (IHl (Forall_inv_tail IH) (Forall_inv_tail Hall) _ _ E').
    + destruct (spans_children_inr _ _ _ _ _ _ E) as [ts Hts].
      rewrite Hts in E. apply spans_children_leaves in E as ->.
      rewrite Hts, NLTK_leaves_inr. rewrite decide_True by done. simpl. done.
Qed.

Lemma spans_no_mismatch_witness :
  single_terminals example_gold_tree = true ∧
  (spans example_gold_tree 0 true true).2 ≠ Some AssertionError.
Proof.
  split; [reflexivity|].
  apply (spans_no_mismatch example_gold_tree 0 true true). reflexivity.
Defined.

Lemma spans_children_shift (cs : list (string + NLTKTree)) lbl incl :
  Forall (fun c => match c with
                   | inl _ => True
                   | inr t =>
                       ∀ a k, spans t (a + k)%Z lbl incl =
                              (shift_span k <$> (spans t a lbl incl).1,
                               (spans t a lbl incl).2)
                   end) cs →
  ∀ a k,
    spans_children cs (a + k)%Z lbl incl =
    (shift_span k <$> (spans_children cs a lbl incl).1.1,
     ((spans_children cs a lbl incl).1.2 + k)%Z,
     (spans_children cs a lbl incl).2).
Proof.
  induction cs as [|[s|c] cs IHcs]; intros IH a k; [done|done|].
  cbn [spans_children]. rewrite (Forall_inv IH a k).
  destruct (spans c a lbl incl) as [xs [e|]]; [done|]. cbn [fst snd].
  replace (a + k + Z.of_nat (length (NLTK.leaves c)))%Z
    with (a + Z.of_nat (length (NLTK.leaves c)) + k)%Z by lia.
  rewrite (IHcs (Forall_inv_tail IH)).
  destruct (spans_children cs _ lbl incl) as [[ys cl] e']. cbn [fst snd].
  by rewrite fmap_app.
Qed.

Lemma spans_shift_from (tree : NLTKTree) (lbl incl : bool) :
  ∀ a k, spans tree (a + k)%Z lbl incl =
         (shift_span k <$> (spans tree a lbl incl).1, (spans tree a lbl incl).2).
Proof.
  induction tree as [lab cs IH] using NLTKTree_ind'. intros a k.
  destruct cs as [|[s|c] cs]; [done| |].
  - destruct cs; [|done]. simpl. destruct incl; [|done]. simpl.
    unfold shift_span. simpl.
    by replace (a + k + 1)%Z with (a + 1 + k)%Z by lia.
  - rewrite !spans_unfold. cbv zeta.
    rewrite (spans_children_shift _ lbl incl IH a k).
    destruct (spans_children (inr c :: cs) a lbl incl) as [[ys cl] e]. cbn [fst snd].
    set (n := Z.of_nat (length (NLTK.leaves (NTree lab (inr c :: cs))))).
    assert (shift_span k (a, (a + n)%Z, if lbl then Some lab else None)
            = ((a + k)%Z, (a + k + n)%Z, if lbl then Some lab else None)) as Hfirst.
    { unfold shift_span. simpl.
      by replace (a + k + n)%Z with (a + n + k)%Z by lia. }
    destruct e as [e|].
    + simpl. by rewrite Hfirst.
    + destruct (decide (cl = (a + n)%Z)) as [->|Hne].
      * rewrite decide_True by lia. simpl. by rewrite Hfirst.
      * rewrite decide_False by lia. simpl. by rewrite Hfirst.
Qed.

(** X11. The start [left] only shifts the spans: [spans(left)] yields the spans
    of [spans(0)] moved [left] to the right, and ends the same way. *)
Theorem spans_shift (tree : NLTKTree) (left : Z) (label include_terminal : bool) :
  spans tree left label include_terminal =
  (shift_span left <$> (spans tree 0 label include_terminal).1,
   (spans tree 0 label include_terminal).2).
Proof.
  rewrite <- (spans_shift_from tree label include_terminal 0%Z left).
  by rewrite Z.add_0_l.
Qed.

Lemma spans_children_built ts (cs : list NLTKTree) (lbl incl : bool) :
  Forall (fun node =>
    ∀ left right gi T gi',
      right = (left + Z.of_nat (length (NLTK.leaves node)))%Z →
      construct_tree ts node left right gi = Ok (T, gi') →
      spans node left lbl incl = (omap (span_of_node lbl incl) (nodes T), None)) cs →
  ∀ cl g chs g',
    construct_children ts (inr <$> cs) cl g = Ok (chs, g') →
    ∃ cs', chs = inr <$> cs' ∧ length cs' = length cs ∧
      spans_children (inr <$> cs) cl lbl incl =
      (omap (span_of_node lbl incl) (flat_map nodes cs'),
       (cl + Z.of_nat (length (flat_map NLTK.leaves cs)))%Z, None).
Proof.
  induction cs as [|c cs IHcs]; intros IH cl g chs g' Hrun.
  - simpl in Hrun. injection Hrun as <- <-. exists []. simpl.
    split; [done|]. split; [done|]. do 2 f_equal. lia.
  - rewrite fmap_cons in Hrun. simpl in Hrun.
    apply bind_Ok in Hrun as ([c' g1] & Hc & Hrun).
    apply bind_Ok in Hrun as ([rest g2] & Hrest & Hrun). injection Hrun as <- <-.
    destruct (IHcs (Forall_inv_tail IH) _ _ _ _ Hrest) as (cs' & -> & Hlen & Hsp).
    exists (c' :: cs'). split; [done|]. split; [simpl; lia|].
    rewrite fmap_cons. cbn [spans_children].
    rewrite (Forall_inv IH _ _ _ _ _ eq_refl Hc), Hsp.
    cbn [flat_map]. rewrite omap_app, length_app. do 2 f_equal. lia.
Qed.

Lemma span_of_node_pre (lbl incl : bool) i tr l r lab s :
  span_of_node lbl incl (ETree i tr (l, r) lab [inl s]) =
  if incl then Some ((l - 1)%Z, r, Some (if lbl then lab else "NT"%string)) else None.
Proof. reflexivity. Qed.

Lemma span_of_node_inner (lbl incl : bool) i tr l r lab c cs :
  span_of_node lbl incl (ETree i tr (l, r) lab (inr c :: cs)) =
  Some ((l - 1)%Z, r, if lbl then Some lab else None).
Proof. reflexivity. Qed.

Lemma nodes_pre i tr lr lab s :
  nodes (ETree i tr lr lab [inl s]) = [ETree i tr lr lab [inl s]].
Proof. reflexivity. Qed.

Lemma omap_cons_eq {A B} (f : A → option B) (x : A) (l : list A) :
  omap f (x :: l) = match f x with Some y => y :: omap f l | None => omap f l end.
Proof. reflexivity. Qed.

Lemma spans_built ts node (lbl incl : bool) :
  well_formed_label node = true →
  ∀ left right gi T gi',
    right = (left + Z.of_nat (length (NLTK.leaves node)))%Z →
    construct_tree ts node left right gi = Ok (T, gi') →
    spans node left lbl incl = (omap (span_of_node lbl incl) (nodes T), None).
Proof.
  induction node as [lab cs IH] using NLTKTree_ind'.
  intros Hwf left right gi T gi' Hright Hrun.
  rewrite construct_tree_unfold in Hrun.
  apply bind_Ok in Hrun as ([chs g1] & Hch & Hrun).
  apply bind_Ok in Hrun as (first & _ & Hrun).
  apply bind_Ok in Hrun as (last & _ & Hrun).
  injection Hrun as <- <-.
  destruct (well_formed_label_cases _ _ Hwf) as [[s ->]|(Hne & cs' & -> & Hall)].
  - simpl in Hch. injection Hch as <- <-. simpl in Hright. subst right.
    rewrite nodes_pre, omap_cons_eq, span_of_node_pre.
    replace (left + 1 - 1)%Z with left by lia.
    replace (left + Z.of_nat 1)%Z with (left + 1)%Z by lia.
    by destruct incl.
  - assert (Forall (fun node =>
      ∀ left right gi T gi',
        right = (left + Z.of_nat (length (NLTK.leaves node)))%Z →
        construct_tree ts node left right gi = Ok (T, gi') →
        spans node left lbl incl = (omap (span_of_node lbl incl) (nodes T), None)) cs')
      as Hcs.
    { apply Forall_forall. intros c Hc.
      rewrite Forall_forall in IH. rewrite Forall_forall in Hall.
      apply (IH (inr c)); [|by apply Hall].
      apply list_elem_of_fmap. by exists c. }
    destruct (spans_children_built ts cs' lbl incl Hcs _ _ _ _ Hch)
      as (cs'' & -> & Hlen & Hsp).
    rewrite NLTK_leaves_inr in Hright.
    destruct cs' as [|c0 cs0]; [done|]. destruct cs'' as [|d0 ds0]; [done|].
    rewrite nodes_inr. rewrite fmap_cons in Hsp |- *.
    rewrite spans_unfold. cbv zeta. rewrite Hsp.
    rewrite <- (fmap_cons inr c0 cs0), NLTK_leaves_inr.
    rewrite decide_True by done.
    rewrite omap_cons_eq, fmap_cons, span_of_node_inner.
    replace (left + 1 - 1)%Z with left by lia. by subst right.
Qed.

(** X12. On a well-formed label tree with one timestamp per leaf, [spans(0)]
    returns without raising, and what it yields are the leaf ranges of the
    nodes of the Annotated Tree built from the label tree, in the order of
    their indices, shifted to start at 0 and made half-open: [(l - 1, r)]
    for the leaf range [(l, r)].  Preterminals are left out unless
    [include_terminal] is set, and then carry the label ["NT"] when [label]
    is not set. *)
Theorem spans_are_leaf_ranges (tree : NLTKTree) (leaf_timestamps : list timestamp)
    (T : ExtendedTree) (label include_terminal : bool) :
  well_formed_label tree = true →
  length leaf_timestamps = length (NLTK.leaves tree) →
  from_tree_and_leaf_timestamps tree leaf_timestamps = Ok T →
  spans tree 0 label include_terminal =
  (omap (span_of_node label include_terminal) (nodes T), None).
Proof.
  intros Hwf Hlen Hrun. unfold from_tree_and_leaf_timestamps in Hrun.
  apply bind_Ok in Hrun as ([T' g] & Hrun & Heq). injection Heq as ->.
  eapply (spans_built leaf_timestamps tree label include_terminal Hwf);
    [|exact Hrun]. lia.
Qed.

Lemma spans_are_leaf_ranges_witness :
  spans example_gold_tree 0 false false =
  (omap (span_of_node false false) (nodes example_gold), None).
Proof.
  apply (spans_are_leaf_ranges example_gold_tree example_oracle_bounds example_gold).
  - reflexivity.
  - reflexivity.
  - reflexivity.
Defined.

(** ** Bounds on the score *)

Lemma Qnat_min_l (a b : nat) : (Qnat (a `min` b) <= Qnat a)%Q.
Proof. apply Qnat_le. lia. Qed.

Lemma score_min_bound (mw : Q) (n_p n_g : nat) :
  0 < n_p → (mw <= Qnat n_p)%Q → (mw <= Qnat n_g)%Q →
  (mw * 2 / Qnat (n_p + n_g) <= Qnat (n_p `min` n_g) * 2 / Qnat (n_p + n_g))%Q.
Proof.
  intros Hpos Hp Hg. apply score_mono; [lia|].
  destruct (Nat.min_spec n_p n_g) as [[_ ->]|[_ ->]]; done.
Qed.

Lemma Qle_div_elim (a b c : Q) : (0 < c)%Q → (a <= b / c)%Q → (a * c <= b)%Q.
Proof.
  intros Hc H. assert (b == b / c * c)%Q as -> by (field; lra).
  apply Qmult_le_compat_r; [done|lra].
Qed.

(** X13. The score of two well-formed trees is at most
    [2 * min(n_p, n_g) / (n_p + n_g)], where [n_p] and [n_g] are the
    numbers of nodes: two trees with different numbers of nodes never
    score 1. *)
Theorem score_at_most_min (P G : ExtendedTree) (threshold_iou : Q) (flex : bool) :
  WellFormed P → WellFormed G →
  ∃ score n_p n_g,
    metrics.struct_iou P G threshold_iou flex = Ok score ∧
    n_nodes P = Ok n_p ∧ n_nodes G = Ok n_g ∧
    (score <= Qnat (n_p `min` n_g) * 2 / Qnat (n_p + n_g))%Q ∧
    ((score == 1)%Q → n_p = n_g).
Proof.
  intros HP HG.
  destruct (struct_iou_value P G threshold_iou flex HP HG)
    as (self & w & tr & st & mw & mt & _ & _ &
        _ & Hok & _ & _ & _ & _ & _ & _ & _ & (Hmw0 & HmwP & HmwG) & _ & ->).
  pose proof Hok as (HwP & HwG & _).
  exists (mw * 2 / Qnat (size P + size G))%Q, (size P), (size G).
  split; [done|]. split; [by apply wf_n_nodes|]. split; [by apply wf_n_nodes|].
  pose proof (size_pos P) as HposP. pose proof (size_pos G) as HposG.
  pose proof (score_min_bound mw (size P) (size G) HposP HmwP HmwG) as Hb.
  split; [exact Hb|].
  intros H1. rewrite H1 in Hb.
  assert ((0 < Qnat (size P + size G))%Q) as Hden by (apply Qnat_pos; lia).
  apply Qle_div_elim in Hb; [|done].
  rewrite Qnat_add in Hb.
  destruct (Nat.min_spec (size P) (size G)) as [[Hlt Hmin]|[Hle Hmin]];
    rewrite Hmin in Hb.
  - pose proof (Qnat_le (size P + 1) (size G) ltac:(lia)) as Hc.
    rewrite Qnat_add, Qnat_1 in Hc. lra.
  - destruct (decide (size G = size P)) as [->|Hne]; [done|].
    pose proof (Qnat_le (size G + 1) (size P) ltac:(lia)) as Hc.
    rewrite Qnat_add, Qnat_1 in Hc. lra.
Qed.

Lemma score_at_most_min_witness :
  ∃ score n_p n_g,
    metrics.struct_iou example_predicted example_gold 0 true = Ok score ∧
    n_nodes example_predicted = Ok n_p ∧ n_nodes example_gold = Ok n_g ∧
    (score <= Qnat (n_p `min` n_g) * 2 / Qnat (n_p + n_g))%Q ∧
    ((score == 1)%Q → n_p = n_g).
Proof.
  exact (score_at_most_min example_predicted example_gold 0 true
           example_predicted_WellFormed example_gold_WellFormed).
Defined.

(** The aligner of [(P, G)] over the table [S]: the weight of a pair of
    nodes against the entry of the pair. *)
Section pair_weight.
Variables (S : ndarray) (flex : bool) (P G : ExtendedTree).
Hypothesis HP : wf_ext P.
Hypothesis HG : wf_ext G.
Hypothesis HP0 : index P = 0.
Hypothesis HG0 : index G = 0.
Hypothesis HP1 : lleaf P = 1%Z.
Hypothesis HG1 : lleaf G = 1%Z.
Hypothesis HS : has_shape (size P) (size G) S.
Hypothesis HSu :
  ∀ i j, in_table (size P) (size G) i j → (0 <= cell S i j ∧ cell S i j <= 1)%Q.

Lemma pure_weight_rejected (f : nat) (u v : ExtendedTree) :
  u ∈ nodes P → v ∈ nodes G → size u ≤ f →
  metrics.rejected flex u v (cell S (Z.of_nat (index u)) (Z.of_nat (index v)))
    utils.default_eps = true →
  pure_weight f S flex u v = 0%Q.
Proof.
  intros Hu Hv Hf Hrej.
  assert (wf_ext u) as Hwu by (by apply (wf_hereditary P)).
  assert (wf_ext v) as Hwv by (by apply (wf_hereditary G)).
  unfold pure_weight.
  rewrite (align_pure_fuel S flex f (size u) u v _ Hwu Hwv Hf (le_n _)).
  destruct (align_pure_base S flex P G u v HP HG HP0 HG0 HS Hu Hv) as [H _].
  by rewrite (H Hrej).
Qed.

Lemma pure_weight_accepted (f : nat) (u v : ExtendedTree) :
  u ∈ nodes P → v ∈ nodes G → size u ≤ f →
  metrics.rejected flex u v (cell S (Z.of_nat (index u)) (Z.of_nat (index v)))
    utils.default_eps = false →
  (cell S (Z.of_nat (index u)) (Z.of_nat (index v)) <= pure_weight f S flex u v)%Q.
Proof.
  intros Hu Hv Hf Hrej.
  assert (wf_ext u) as Hwu by (by apply (wf_hereditary P)).
  assert (wf_ext v) as Hwv by (by apply (wf_hereditary G)).
  pose proof (size_pos u) as Hpos.
  unfold pure_weight.
  rewrite (align_pure_fuel S flex f (size u) u v _ Hwu Hwv Hf (le_n _)).
  destruct (is_preterminal u || is_preterminal v) eqn:Hpre.
  { destruct (align_pure_base S flex P G u v HP HG HP0 HG0 HS Hu Hv) as [_ H].
    rewrite (H Hrej Hpre). simpl. lra. }
  destruct (size u) as [|k] eqn:Hk; [lia|].
  destruct (align_pure_general S flex P G HP HG HP0 HG0 HS k u v utils.default_eps
              Hwu Hwv Hu Hv Hrej Hpre)
    as (st & best & tr & Hinv & B1 & B2 & B3 & ->).
  { intros x y Hx Hy.
    destruct (align_pure_bounds S flex P G HP HG HP0 HG0 HS HSu k x y
                utils.default_eps) as (w & t & -> & _).
    - by apply (descendants_trans P u).
    - by apply (descendants_trans G v).
    - pose proof (descendants_size u x Hx). lia.
    - by eexists. }
  simpl.
  assert (in_table (length (leaves u) + 1) (length (leaves v) + 1) 0 0) as H00
    by (split; lia).
  destruct Hinv as (_ & H2 & _). specialize (H2 0%Z 0%Z H00).
  specialize (B2 0%Z 0%Z H00). unfold init_cell in H2.
  rewrite decide_True in H2 by done. lra.
Qed.

(** Every pair of nodes is a candidate of the top level: the best weight
    is at least the weight of any pair. *)
Lemma best_ge_pair (st : metrics.dp_state) (w0 : Q) (t0 : metrics.Trace) (mw : Q)
    (u v : ExtendedTree) :
  align_pure (size P) S flex P G utils.default_eps = Ok (w0, t0) →
  bellman_inv (length (leaves P) + 1) (length (leaves G) + 1)
    lleaf rleaf lleaf rleaf (pure_weight (size P) S flex) init_cell
    (fun u v => u ∈ nodes P ∧ v ∈ nodes G ∧ both_roots u v = false) st →
  (w0 <= mw)%Q →
  (∀ a b, in_table (length (leaves P) + 1) (length (leaves G) + 1) a b →
     (cell st.1 a b <= mw)%Q) →
  u ∈ nodes P → v ∈ nodes G →
  (pure_weight (size P) S flex u v <= mw)%Q.
Proof.
  intros Hroot (_ & H2 & H3 & _) Hw0 Hcells Hu Hv.
  destruct (both_roots u v) eqn:Hr.
  - unfold both_roots in Hr. apply bool_decide_eq_true in Hr as [Hiu Hiv].
    assert (u = P) as -> by (apply (wf_index_inj P); [done|done|apply nodes_self|congruence]).
    assert (v = G) as -> by (apply (wf_index_inj G); [done|done|apply nodes_self|congruence]).
    unfold pure_weight. by rewrite Hroot.
  - pose proof (wf_root_loc P u HP HP1 Hu) as Lu.
    pose proof (wf_root_loc G v HG HG1 Hv) as Lv.
    specialize (H3 u v 0%Z 0%Z (conj Hu (conj Hv Hr)) ltac:(lia) ltac:(lia)).
    assert (in_table (length (leaves P) + 1) (length (leaves G) + 1) 0 0) as H00
      by (split; lia).
    specialize (H2 0%Z 0%Z H00). unfold init_cell in H2.
    rewrite decide_True in H2 by done.
    assert (in_table (length (leaves P) + 1) (length (leaves G) + 1) (rleaf u) (rleaf v))
      as Hin by (split; lia).
    specialize (Hcells _ _ Hin). lra.
Qed.

(** When every pair of nodes is rejected, no cell of the top-level table
    is positive. *)
Lemma top_level_nonpos (st : metrics.dp_state) :
  (∀ u v, u ∈ nodes P → v ∈ nodes G →
     metrics.rejected flex u v (cell S (Z.of_nat (index u)) (Z.of_nat (index v)))
       utils.default_eps = true) →
  bellman_inv (length (leaves P) + 1) (length (leaves G) + 1)
    lleaf rleaf lleaf rleaf (pure_weight (size P) S flex) init_cell
    (fun u v => u ∈ nodes P ∧ v ∈ nodes G ∧ both_roots u v = false) st →
  ∀ a b, in_table (length (leaves P) + 1) (length (leaves G) + 1) a b →
    (cell st.1 a b <= 0)%Q.
Proof.
  intros Hall Hinv.
  apply (bellman_dominated _ _ lleaf rleaf lleaf rleaf
           (pure_weight (size P) S flex) init_cell
           (fun u v => u ∈ nodes P ∧ v ∈ nodes G ∧ both_roots u v = false) st
           (fun _ _ => 0%Q)); [done| | |].
  - intros u v (Hu & Hv & _). pose proof (wf_root_loc P u HP HP1 Hu).
    pose proof (wf_root_loc G v HG HG1 Hv). lia.
  - intros a b _. apply init_cell_nonpos.
  - intros u v a b (Hu & Hv & _) _ _ _.
    rewrite (pure_weight_rejected (size P) u v Hu Hv (nodes_size P u Hu) (Hall u v Hu Hv)).
    lra.
Qed.
End pair_weight.

Lemma rejected_proper (flex : bool) (p g : ExtendedTree) (iou iou' eps : Q) :
  (iou == iou')%Q →
  metrics.rejected flex p g iou eps = metrics.rejected flex p g iou' eps.
Proof.
  intros H. unfold metrics.rejected, utils.eps_eq.
  by rewrite (Qlt_bool_proper (Qabs (iou - 0)) (Qabs (iou' - 0)) eps eps)
    by (by rewrite ?H).
Qed.

Lemma rejected_small (flex : bool) (p g : ExtendedTree) (iou : Q) :
  (0 <= iou)%Q → (iou < utils.default_eps)%Q →
  metrics.rejected flex p g iou utils.default_eps = true.
Proof. intros H0 H. apply rejected_true_iff; [done|by left]. Qed.

Lemma accepted_large (flex : bool) (p g : ExtendedTree) (iou : Q) :
  (0 <= iou)%Q → metrics.rejected flex p g iou utils.default_eps = false →
  (utils.default_eps <= iou)%Q.
Proof.
  intros H0 H. apply Qnot_lt_le. intros Hlt.
  by rewrite (rejected_small flex p g iou H0 Hlt) in H.
Qed.

(** X14. One accepted pair is enough for a positive score: if [align] does not
    reject the pair [(u, v)], whose span IoU [iou] is above the threshold,
    the score is at least [2 * iou / (n_p + n_g)]. *)
Theorem score_at_least_pair (P G : ExtendedTree) (threshold_iou : Q) (flex : bool)
    (u v : ExtendedTree) (iou : Q) :
  WellFormed P → WellFormed G →
  u ∈ nodes P → v ∈ nodes G →
  utils.span_iou (time_range u) (time_range v) utils.default_eps = Ok iou →
  (threshold_iou < iou)%Q →
  metrics.rejected flex u v iou utils.default_eps = false →
  ∃ score n_p n_g,
    metrics.struct_iou P G threshold_iou flex = Ok score ∧
    n_nodes P = Ok n_p ∧ n_nodes G = Ok n_g ∧
    (iou * 2 / Qnat (n_p + n_g) <= score)%Q ∧ (0 < score)%Q.
Proof.
  intros HP HG Hu Hv Hiou Hthr Hrej.
  destruct (struct_iou_value P G threshold_iou flex HP HG)
    as (self & w & tr & st & mw & mt & _ & _ &
        _ & Hok & _ & Hc & _ & Hp & _ & Hinv & (A1 & A2 & _) & _ & _ & ->).
  pose proof Hok as (HwP & HwG & HP0 & HG0 & HP1 & HG1 & _ & _ & _ & HS & HSu).
  rewrite node_iou_Ok in Hiou. injection Hiou as <-.
  pose proof (node_iou_unit u v) as [Hi0 Hi1].
  assert (cell (metrics._span_ious self) (Z.of_nat (index u)) (Z.of_nat (index v))
          = (node_iou u v * 1)%Q) as Hcell.
  { rewrite (Hc u v Hu Hv).
    destruct (apply_threshold_cases threshold_iou (node_iou u v)) as [[_ ->]|[? _]];
      [done|lra]. }
  pose proof (pure_weight_accepted (metrics._span_ious self) flex P G
                HwP HwG HP0 HG0 HS HSu (size P) u v Hu Hv (nodes_size P u Hu)) as Hacc.
  rewrite Hcell in Hacc.
  rewrite (rejected_proper flex u v _ (node_iou u v)) in Hacc by ring.
  specialize (Hacc Hrej).
  pose proof (best_ge_pair (metrics._span_ious self) flex P G
                HwP HwG HP0 HG0 HP1 HG1 st w tr mw u v Hp Hinv A1 A2 Hu Hv) as Hbest.
  pose proof (accepted_large flex u v _ Hi0 Hrej) as Heps.
  pose proof default_eps_pos as Hpos.
  exists (mw * 2 / Qnat (size P + size G))%Q, (size P), (size G).
  split; [done|]. split; [by apply wf_n_nodes|]. split; [by apply wf_n_nodes|].
  assert (0 < size P + size G) as Hn by (pose proof (size_pos P); lia).
  pose proof (score_mono mw (node_iou u v) (size P + size G) Hn ltac:(lra)) as Hm.
  split; [exact Hm|].
  eapply Qlt_le_trans; [|exact Hm].
  apply Qdiv_pos; [lra|by apply Qnat_pos].
Qed.

Lemma score_at_least_pair_witness :
  ∃ score n_p n_g,
    metrics.struct_iou narrow_tree wide_tree 0 true = Ok score ∧
    n_nodes narrow_tree = Ok n_p ∧ n_nodes wide_tree = Ok n_g ∧
    (utils.default_eps * 2 / Qnat (n_p + n_g) <= score)%Q ∧ (0 < score)%Q.
Proof.
  apply (score_at_least_pair narrow_tree wide_tree 0 true narrow_tree wide_tree
           utils.default_eps).
  - exact narrow_tree_WellFormed.
  - exact wide_tree_WellFormed.
  - apply nodes_self.
  - apply nodes_self.
  - reflexivity.
  - reflexivity.
  - reflexivity.
Defined.

(** X15. The score is 0 exactly when [align] rejects every pair of nodes, as it
    does when [threshold_iou >= 1] or when no two nodes overlap in time. *)
Theorem score_zero_iff (P G : ExtendedTree) (threshold_iou : Q) (flex : bool) :
  WellFormed P → WellFormed G →
  ∃ score,
    metrics.struct_iou P G threshold_iou flex = Ok score ∧
    ((score == 0)%Q ↔
     ∀ u v iou, u ∈ nodes P → v ∈ nodes G →
       utils.span_iou (time_range u) (time_range v) utils.default_eps = Ok iou →
       metrics.rejected flex u v (metrics.apply_threshold threshold_iou iou)
         utils.default_eps = true) ∧
    ((1 <= threshold_iou)%Q → (score == 0)%Q).
Proof.
  intros HP HG.
  destruct (struct_iou_value P G threshold_iou flex HP HG)
    as (self & w & tr & st & mw & mt & _ & _ &
        _ & Hok & _ & Hc & _ & Hp & _ & Hinv & (A1 & A2 & A3) & (Hmw0 & _) & _ & Hs).
  pose proof Hok as (HwP & HwG & HP0 & HG0 & HP1 & HG1 & _ & _ & _ & HS & HSu).
  exists (mw * 2 / Qnat (size P + size G))%Q. split; [done|].
  assert (0 < size P + size G) as Hn by (pose proof (size_pos P); lia).
  pose proof (Qnat_pos _ Hn) as Hden.
  assert ((mw * 2 / Qnat (size P + size G) == 0)%Q ↔ (mw == 0)%Q) as Hzero.
  { split; intros H.
    - assert (mw == mw * 2 / Qnat (size P + size G) * (Qnat (size P + size G) / 2))%Q
        as -> by (field; lra).
      rewrite H. ring.
    - rewrite H. field. lra. }
  assert ((∀ u v iou, u ∈ nodes P → v ∈ nodes G →
             utils.span_iou (time_range u) (time_range v) utils.default_eps = Ok iou →
             metrics.rejected flex u v (metrics.apply_threshold threshold_iou iou)
               utils.default_eps = true) →
          (mw == 0)%Q) as Hall.
  { intros Hall.
    assert (∀ u v, u ∈ nodes P → v ∈ nodes G →
              metrics.rejected flex u v
                (cell (metrics._span_ious self) (Z.of_nat (index u)) (Z.of_nat (index v)))
                utils.default_eps = true) as Hall'.
    { intros u v Hu Hv. rewrite (Hc u v Hu Hv).
      apply (Hall u v _ Hu Hv). apply node_iou_Ok. }
    pose proof (pure_weight_rejected (metrics._span_ious self) flex P G
                  HwP HwG HP0 HG0 HS (size P) P G (nodes_self P) (nodes_self G)
                  (le_n _) (Hall' P G (nodes_self P) (nodes_self G))) as Hroot.
    unfold pure_weight in Hroot. rewrite Hp in Hroot. simpl in Hroot.
    destruct A3 as [->|(a & b & Hab & ->)].
    - by rewrite Hroot.
    - pose proof (top_level_nonpos (metrics._span_ious self) flex P G
                    HwP HwG HP0 HG0 HP1 HG1 HS st Hall' Hinv a b Hab).
      lra. }
  split; [split|].
  - intros H0 u v iou Hu Hv Hiou.
    apply Hzero in H0.
    destruct (metrics.rejected flex u v (metrics.apply_threshold threshold_iou iou)
                utils.default_eps) eqn:Hrej; [done|exfalso].
    rewrite node_iou_Ok in Hiou. injection Hiou as <-.
    pose proof (node_iou_unit u v) as Hiu.
    pose proof (apply_threshold_unit threshold_iou _ Hiu) as [Ha0 _].
    pose proof (accepted_large flex u v _ Ha0 Hrej) as Heps.
    pose proof (pure_weight_accepted (metrics._span_ious self) flex P G
                  HwP HwG HP0 HG0 HS HSu (size P) u v Hu Hv (nodes_size P u Hu)) as Hacc.
    rewrite (Hc u v Hu Hv) in Hacc. specialize (Hacc Hrej).
    pose proof (best_ge_pair (metrics._span_ious self) flex P G
                  HwP HwG HP0 HG0 HP1 HG1 st w tr mw u v Hp Hinv A1 A2 Hu Hv) as Hbest.
    pose proof default_eps_pos. lra.
  - intros Hall'. apply Hzero, Hall, Hall'.
  - intros Hthr. apply Hzero, Hall. intros u v iou Hu Hv Hiou.
    rewrite node_iou_Ok in Hiou. injection Hiou as <-.
    pose proof (node_iou_unit u v) as [Hi0 Hi1].
    pose proof default_eps_pos.
    destruct (apply_threshold_cases threshold_iou (node_iou u v)) as [[? _]|[_ ->]];
      [lra|].
    apply rejected_small; lra.
Qed.

Lemma score_zero_iff_witness :
  ∃ score,
    metrics.struct_iou example_predicted example_gold 1 true = Ok score ∧
    ((score == 0)%Q ↔
     ∀ u v iou, u ∈ nodes example_predicted → v ∈ nodes example_gold →
       utils.span_iou (time_range u) (time_range v) utils.default_eps = Ok iou →
       metrics.rejected true u v (metrics.apply_threshold 1 iou)
         utils.default_eps = true) ∧
    ((1 <= 1)%Q → (score == 0)%Q).
Proof.
  exact (score_zero_iff example_predicted example_gold 1 true
           example_predicted_WellFormed example_gold_WellFormed).
Defined.

(** ** Flexible and inflexible terminal alignment *)

Lemma rejected_flexible (p g : ExtendedTree) (iou eps : Q) :
  metrics.rejected true p g iou eps = true →
  metrics.rejected false p g iou eps = true.
Proof.
  unfold metrics.rejected. rewrite !orb_true_iff. intros [H|H]; [by left|done].
Qed.

(** The aligner of [(P, G)] over the table [S], with and without flexible
    terminal alignment. *)
Section flexible.
Variables (S : ndarray) (P G : ExtendedTree).
Hypothesis HP : wf_ext P.
Hypothesis HG : wf_ext G.
Hypothesis HP0 : index P = 0.
Hypothesis HG0 : index G = 0.
Hypothesis HP1 : lleaf P = 1%Z.
Hypothesis HG1 : lleaf G = 1%Z.
Hypothesis HS : has_shape (size P) (size G) S.
Hypothesis HSu :
  ∀ i j, in_table (size P) (size G) i j → (0 <= cell S i j ∧ cell S i j <= 1)%Q.

Lemma pure_weight_flexible (f : nat) (p g : ExtendedTree) :
  p ∈ nodes P → g ∈ nodes G → size p ≤ f →
  (pure_weight f S false p g <= pure_weight f S true p g)%Q.
Proof.
  revert p g. induction f as [|f IH]; intros p g Hp Hg Hf.
  { pose proof (size_pos p). lia. }
  assert (wf_ext p) as Hwp by (by apply (wf_hereditary P)).
  assert (wf_ext g) as Hwg by (by apply (wf_hereditary G)).
  destruct (align_pure_bounds S true P G HP HG HP0 HG0 HS HSu (Datatypes.S f) p g
              utils.default_eps Hp Hg Hf) as (w1 & t1 & E1 & Hw1 & _).
  destruct (metrics.rejected false p g
              (cell S (Z.of_nat (index p)) (Z.of_nat (index g)))
              utils.default_eps) eqn:Hrej2.
  { rewrite (pure_weight_rejected S false P G HP HG HP0 HG0 HS _ p g Hp Hg Hf Hrej2).
    unfold pure_weight. rewrite E1. simpl. lra. }
  assert (metrics.rejected true p g
            (cell S (Z.of_nat (index p)) (Z.of_nat (index g)))
            utils.default_eps = false) as Hrej1.
  { apply not_true_is_false. intros H. apply rejected_flexible in H. congruence. }
  destruct (is_preterminal p || is_preterminal g) eqn:Hpre.
  { unfold pure_weight.
    rewrite !align_pure_wf, (span_get S P G) by done. ok_bind.
    rewrite Hrej1, Hrej2, Hpre. simpl. lra. }
  assert (∀ flex u v, u ∈ descendants p → v ∈ descendants g →
            is_Ok (align_pure f S flex u v utils.default_eps)) as Hsub.
  { intros flex u v Hu Hv.
    destruct (align_pure_bounds S flex P G HP HG HP0 HG0 HS HSu f u v
                utils.default_eps) as (w & t & -> & _).
    - by apply (descendants_trans P p).
    - by apply (descendants_trans G g).
    - pose proof (descendants_size p u Hu). lia.
    - by eexists. }
  destruct (align_pure_general S false P G HP HG HP0 HG0 HS f p g utils.default_eps
              Hwp Hwg Hp Hg Hrej2 Hpre (Hsub false))
    as (st2 & best2 & tr2 & Hinv2 & B21 & B22 & B23 & E2).
  destruct (align_pure_general S true P G HP HG HP0 HG0 HS f p g utils.default_eps
              Hwp Hwg Hp Hg Hrej1 Hpre (Hsub true))
    as (st1 & best1 & tr1 & Hinv1 & B11 & B12 & B13 & E1').
  unfold pure_weight. rewrite E2, E1'. simpl.
  set (n := length (leaves p) + 1) in *. set (m := length (leaves g) + 1) in *.
  assert (∀ a b, in_table n m a b → (cell st2.1 a b <= cell st1.1 a b)%Q) as Hdom.
  { apply (bellman_dominated n m (lloc p) (rloc p) (lloc g) (rloc g)
             (pure_weight f S false) init_cell
             (fun u v => u ∈ descendants p ∧ v ∈ descendants g) st2
             (cell st1.1)); [done| | |].
    - intros u v [Hu Hv]. pose proof (wf_loc p u Hwp Hu).
      pose proof (wf_loc g v Hwg Hv). lia.
    - by destruct Hinv1 as (_ & H2 & _).
    - intros u v a b [Hu Hv] _ Ha Hb.
      destruct Hinv1 as (_ & _ & H3 & _).
      specialize (H3 u v a b (conj Hu Hv) Ha Hb).
      assert ((pure_weight f S false u v <= pure_weight f S true u v)%Q) as Hle.
      { apply IH.
        - by apply (descendants_trans P p).
        - by apply (descendants_trans G g).
        - pose proof (descendants_size p u Hu). lia. }
      lra. }
  assert ((best2 <= best1)%Q) as Hbest.
  { destruct B23 as [->|(a & b & Hab & ->)]; [done|].
    specialize (Hdom a b Hab). specialize (B12 a b Hab). lra. }
  lra.
Qed.

Lemma top_level_flexible (st1 st2 : metrics.dp_state) :
  bellman_inv (length (leaves P) + 1) (length (leaves G) + 1)
    lleaf rleaf lleaf rleaf (pure_weight (size P) S true) init_cell
    (fun u v => u ∈ nodes P ∧ v ∈ nodes G ∧ both_roots u v = false) st1 →
  bellman_inv (length (leaves P) + 1) (length (leaves G) + 1)
    lleaf rleaf lleaf rleaf (pure_weight (size P) S false) init_cell
    (fun u v => u ∈ nodes P ∧ v ∈ nodes G ∧ both_roots u v = false) st2 →
  ∀ a b, in_table (length (leaves P) + 1) (length (leaves G) + 1) a b →
    (cell st2.1 a b <= cell st1.1 a b)%Q.
Proof.
  intros Hinv1 Hinv2.
  apply (bellman_dominated _ _ lleaf rleaf lleaf rleaf
           (pure_weight (size P) S false) init_cell
           (fun u v => u ∈ nodes P ∧ v ∈ nodes G ∧ both_roots u v = false) st2
           (cell st1.1)); [done| | |].
  - intros u v (Hu & Hv & _). pose proof (wf_root_loc P u HP HP1 Hu).
    pose proof (wf_root_loc G v HG HG1 Hv). lia.
  - by destruct Hinv1 as (_ & H2 & _).
  - intros u v a b (Hu & Hv & Hr) _ Ha Hb.
    destruct Hinv1 as (_ & _ & H3 & _).
    specialize (H3 u v a b (conj Hu (conj Hv Hr)) Ha Hb).
    pose proof (pure_weight_flexible (size P) u v Hu Hv (nodes_size P u Hu)). lra.
Qed.
End flexible.

(** X16. Allowing terminals to align whatever their labels never lowers the
    score: the score with [flexible_terminal_alignment = False] is at most
    the score with [flexible_terminal_alignment = True]. *)
Theorem flexible_alignment_monotone (P G : ExtendedTree) (threshold_iou : Q) :
  WellFormed P → WellFormed G →
  ∃ inflexible flexible,
    metrics.struct_iou P G threshold_iou false = Ok inflexible ∧
    metrics.struct_iou P G threshold_iou true = Ok flexible ∧
    (inflexible <= flexible)%Q.
Proof.
  intros HP HG.
  destruct (struct_iou_value P G threshold_iou true HP HG)
    as (self1 & w1 & tr1 & st1 & mw1 & mt1 & _ & _ &
        Hinit1 & Hok1 & _ & _ & _ & Hp1 & _ & Hinv1 & (A1 & A2 & A3) & _ & _ & ->).
  destruct (struct_iou_value P G threshold_iou false HP HG)
    as (self2 & w2 & tr2 & st2 & mw2 & mt2 & _ & _ &
        Hinit2 & Hok2 & _ & _ & _ & Hp2 & _ & Hinv2 & (C1 & C2 & C3) & _ & _ & ->).
  pose proof Hok1 as (HwP & HwG & HP0 & HG0 & HP1 & HG1 & _ & _ & _ & HS1 & HS1u).
  assert (metrics._span_ious self2 = metrics._span_ious self1) as HSS.
  { unfold metrics.init in Hinit1, Hinit2.
    destruct (n_nodes P) as [np|]; [|done]. destruct (n_nodes G) as [ng|]; [|done].
    simpl in Hinit1, Hinit2.
    destruct (metrics.fill_span_ious P G np ng) as [S0|]; [|done].
    simpl in Hinit1, Hinit2. injection Hinit1 as <-. injection Hinit2 as <-. done. }
  rewrite HSS in *.
  eexists _, _. split; [done|]. split; [done|].
  apply score_mono; [pose proof (size_pos P); lia|].
  assert ((w2 <= w1)%Q) as Hw.
  { pose proof (pure_weight_flexible (metrics._span_ious self1) P G
                  HwP HwG HP0 HG0 HS1 HS1u (size P) P G
                  (nodes_self P) (nodes_self G) (le_n _)) as Hm.
    unfold pure_weight in Hm. by rewrite Hp1, Hp2 in Hm. }
  destruct C3 as [->|(a & b & Hab & ->)]; [lra|].
  pose proof (top_level_flexible (metrics._span_ious self1) P G
                HwP HwG HP0 HG0 HP1 HG1 HS1 HS1u st1 st2 Hinv1 Hinv2 a b Hab).
  specialize (A2 a b Hab). lra.
Qed.

Lemma flexible_alignment_monotone_witness :
  ∃ inflexible flexible,
    metrics.struct_iou example_predicted example_gold 0 false = Ok inflexible ∧
    metrics.struct_iou example_predicted example_gold 0 true = Ok flexible ∧
    (inflexible <= flexible)%Q.
Proof.
  exact (flexible_alignment_monotone example_predicted example_gold 0
           example_predicted_WellFormed example_gold_WellFormed).
Defined.

(** ** The memo tables of [align] *)

(** Whatever branch [align] returns from, what it returns is what it
    leaves in the memo tables. *)
Lemma align_returns_memo (fuel : nat) (self self' : metrics.TreeAligner)
    (p g : ExtendedTree) (eps : Q) (w : Q) (t : metrics.Trace) :
  metrics.align fuel self p g eps = Ok (self', (w, t)) →
  np_get (metrics.max_matching_weights self') (Z.of_nat (index p)) (Z.of_nat (index g))
  = Ok w ∧
  t = metrics.trace self' !!! (index p, index g).
Proof.
  destruct fuel as [|fuel]; [done|]. cbn [metrics.align]. cbv zeta. intros H.
  apply bind_Ok in H as (memo & Hmemo & H).
  destruct (Qle_bool 0 memo).
  { injection H as <- <- <-. done. }
  apply bind_Ok in H as (iou & _ & H).
  destruct (metrics.rejected _ p g iou eps).
  { apply bind_Ok in H as (w' & _ & H). apply bind_Ok in H as (r & Hr & H).
    injection H as <- <- <-. done. }
  destruct (is_preterminal p || is_preterminal g).
  { apply bind_Ok in H as (w' & _ & H). apply bind_Ok in H as (r & Hr & H).
    injection H as <- <- <-. done. }
  apply bind_Ok in H as (st0 & _ & H).
  apply bind_Ok in H as ([self1 [M tr_]] & _ & H).
  apply bind_Ok in H as (self2 & _ & H).
  apply bind_Ok in H as (best & _ & H).
  apply bind_Ok in H as (w' & _ & H). apply bind_Ok in H as (r & Hr & H).
  injection H as <- <- <-. done.
Qed.

(** X17. A second call of [align] on the same pair is answered from the memo
    tables: it returns what the first call returned, leaves the aligner as
    it is, and does not recurse. *)
Theorem align_cached (P G : ExtendedTree) (threshold_iou : Q) (flex : bool)
    (self self' : metrics.TreeAligner) (fuel fuel' : nat) (p g : ExtendedTree)
    (r : Q * metrics.Trace) :
  WellFormed P → WellFormed G →
  reachable P G threshold_iou flex self →
  p ∈ nodes P → g ∈ nodes G → size p ≤ fuel →
  metrics.align fuel self p g utils.default_eps = Ok (self', r) →
  metrics.align (S fuel') self' p g utils.default_eps = Ok (self', r).
Proof.
  intros HP HG Hreach Hp Hg Hf Hal.
  destruct (reachable_inv P G threshold_iou flex self HP HG Hreach)
    as (Hok & Hmemo & Hflex & _).
  pose proof Hok as (HwP & HwG & HP0 & HG0 & _ & _ & _ & _ & _ & HS & HS01).
  destruct (align_refines P G fuel self p g Hok Hmemo Hp Hg Hf)
    as (self'' & r' & Hal' & Hpu & _).
  rewrite Hal in Hal'. injection Hal' as <- <-.
  destruct (align_pure_bounds (metrics._span_ious self)
              (metrics._flexible_terminal_alignment self) P G
              HwP HwG HP0 HG0 HS HS01 (size p) p g utils.default_eps Hp Hg (le_n _))
    as (w & t & Hpu' & Hw0 & _).
  rewrite Hpu in Hpu'. injection Hpu' as ->.
  destruct (align_returns_memo _ _ _ _ _ _ _ _ Hal) as [Hget ->].
  cbn [metrics.align]. cbv zeta. rewrite Hget. ok_bind.
  assert (Qle_bool 0 w = true) as -> by (by apply Qle_bool_iff).
  done.
Qed.

Lemma align_cached_witness :
  ∃ self self' r,
    metrics.init example_predicted example_gold 0 true = Ok self ∧
    metrics.align (size example_predicted) self example_predicted example_gold
      utils.default_eps = Ok (self', r) ∧
    metrics.align 1 self' example_predicted example_gold utils.default_eps
    = Ok (self', r).
Proof.
  destruct (WellFormed_init example_predicted example_gold 0 true
              example_predicted_WellFormed example_gold_WellFormed)
    as (self & Hinit & Hok & Hmemo & _).
  destruct (align_refines example_predicted example_gold (size example_predicted)
              self example_predicted example_gold Hok Hmemo
              (nodes_self _) (nodes_self _) (le_n _)) as (self' & r & Hal & _).
  exists self, self', r. split; [exact Hinit|]. split; [exact Hal|].
  apply (align_cached example_predicted example_gold 0 true self self'
           (size example_predicted) 0 example_predicted example_gold r).
  - exact example_predicted_WellFormed.
  - exact example_gold_WellFormed.
  - apply reach_init. exact Hinit.
  - apply nodes_self.
  - apply nodes_self.
  - apply le_n.
  - exact Hal.
Defined.

Lemma reachable_same_cfg (P G : ExtendedTree) (threshold_iou : Q) (flex : bool)
    (self : metrics.TreeAligner) :
  WellFormed P → WellFormed G →
  reachable P G threshold_iou flex self →
  ∃ self0, metrics.init P G threshold_iou flex = Ok self0 ∧ same_cfg self0 self.
Proof.
  intros HP HG Hreach.
  induction Hreach as [self Hinit|self fuel p g self' r Hreach IH Hp Hg Hf Hal].
  - exists self. split; [done|apply same_cfg_refl].
  - destruct IH as (self0 & Hinit & Hc). exists self0. split; [done|].
    destruct (reachable_inv P G threshold_iou flex self HP HG Hreach)
      as (Hok & Hmemo & _).
    destruct (align_refines P G fuel self p g Hok Hmemo Hp Hg Hf)
      as (self'' & r' & Hal' & _ & Hc' & _).
    rewrite Hal in Hal'. injection Hal' as <- <-.
    by apply (same_cfg_trans self0 self self').
Qed.

(** X18. Calls of [align] with the default [eps] do not change what
    [__call__] returns: after any number of such calls on pairs of nodes,
    [__call__] returns the score and the trace it returns on a fresh
    aligner. *)
Theorem call_after_align (P G : ExtendedTree) (threshold_iou : Q) (flex : bool)
    (self : metrics.TreeAligner) :
  WellFormed P → WellFormed G →
  reachable P G threshold_iou flex self →
  ∃ self0 score trace,
    metrics.init P G threshold_iou flex = Ok self0 ∧
    metrics.call self0 = Ok (score, trace) ∧
    metrics.call self = Ok (score, trace) ∧
    metrics.struct_iou P G threshold_iou flex = Ok score.
Proof.
  intros HP HG Hreach.
  destruct (reachable_same_cfg P G threshold_iou flex self HP HG Hreach)
    as (self0 & Hinit & Hc).
  destruct (same_cfg_fields self0 self Hc) as (ES & EF & _).
  destruct (reachable_inv P G threshold_iou flex self HP HG Hreach)
    as (Hok & Hmemo & _).
  destruct (reachable_inv P G threshold_iou flex self0 HP HG (reach_init _ _ _ _ _ Hinit))
    as (Hok0 & Hmemo0 & _).
  destruct (call_spec P G self Hok Hmemo)
    as (w & t & st & mw & mt & s1 & s2 & _ & Hp & _ & Ht & _ & Hb & _ & _ & Hcall).
  destruct (call_spec P G self0 Hok0 Hmemo0)
    as (w0 & t0 & st0 & mw0 & mt0 & s10 & s20 & _ & Hp0 & _ & Ht0 & _ & Hb0 & _ & _ & Hcall0).
  rewrite ES, EF in Hp, Ht.
  rewrite Hp0 in Hp. injection Hp as <- <-.
  rewrite Ht0 in Ht. injection Ht as <-.
  rewrite Hb0 in Hb. injection Hb as <- <-.
  eexists self0, _, _. split; [exact Hinit|]. split; [exact Hcall0|].
  split; [exact Hcall|].
  unfold metrics.struct_iou. rewrite Hinit. ok_bind. by rewrite Hcall0.
Qed.

Lemma call_after_align_witness :
  ∃ self0 self1 r score trace,
    metrics.init example_predicted example_gold 0 true = Ok self0 ∧
    metrics.align (size example_predicted) self0 example_predicted example_gold
      utils.default_eps = Ok (self1, r) ∧
    metrics.call self0 = Ok (score, trace) ∧
    metrics.call self1 = Ok (score, trace) ∧
    metrics.struct_iou example_predicted example_gold 0 true = Ok score.
Proof.
  destruct (WellFormed_init example_predicted example_gold 0 true
              example_predicted_WellFormed example_gold_WellFormed)
    as (self & Hinit & Hok & Hmemo & _).
  destruct (align_refines example_predicted example_gold (size example_predicted)
              self example_predicted example_gold Hok Hmemo
              (nodes_self _) (nodes_self _) (le_n _))
    as (self1 & r & Hal & _).
  destruct (call_after_align example_predicted example_gold 0 true self1
              example_predicted_WellFormed example_gold_WellFormed
              (reach_align _ _ _ _ self (size example_predicted)
                 example_predicted example_gold self1 r
                 (reach_init _ _ _ _ _ Hinit) (nodes_self _) (nodes_self _)
                 (le_n _) Hal))
    as (self0 & score & trace & H1 & H2 & H3 & H4).
  rewrite Hinit in H1. injection H1 as <-.
  exists self, self1, r, score, trace.
  split; [exact Hinit|]. split; [exact Hal|]. split; [exact H2|].
  split; [exact H3|exact H4].
Defined.

(** The restriction to the default [eps] is needed: the memo tables are
    keyed by the pair of nodes only.  In the first fixture, [align] on the
    two roots with [eps = 0.95] stores the pair as rejected, and
    [__call__] then returns [95/192] where the fresh aligner returns
    [583/960]. *)
Example align_other_eps_changes_call :
  ∃ self0 self1 r score0 trace0 score1 trace1,
    metrics.init example_predicted example_gold 0 true = Ok self0 ∧
    metrics.align (size example_predicted) self0 example_predicted example_gold
      (95 # 100) = Ok (self1, r) ∧
    metrics.call self0 = Ok (score0, trace0) ∧ (score0 == 583 # 960)%Q ∧
    metrics.call self1 = Ok (score1, trace1) ∧ (score1 == 95 # 192)%Q.
Proof.
  do 7 eexists.
  split; [vm_compute; reflexivity|].
  split; [vm_compute; reflexivity|].
  split; [vm_compute; reflexivity|].
  split; [reflexivity|].
  split; [vm_compute; reflexivity|].
  reflexivity.
Qed.

(** ** The traces of an interval table *)

(** An invariant of a loop that is known to end. *)
Lemma for_each_ok_inv {St A} (I : St → Prop) (l : list A)
    (body : St → A → result St) (s0 s' : St) :
  I s0 →
  (∀ x s s1, x ∈ l → I s → body s x = Ok s1 → I s1) →
  for_each l body s0 = Ok s' → I s'.
Proof.
  revert s0. induction l as [|x l IH]; intros s0 H0 Hstep Hrun; simpl in Hrun.
  - by injection Hrun as <-.
  - apply bind_Ok in Hrun as (s1 & Hb & Hrun).
    apply (IH s1); [|intros; eapply Hstep; [by apply list_elem_of_further|done..]|done].
    eapply Hstep; [apply list_elem_of_here|done..].
Qed.

Section table_traces.
Variables (n m : nat) (plf prf glf grf : ExtendedTree → Z).
Variable (W : ExtendedTree → ExtendedTree → Q).
Variable (Tr : ExtendedTree → ExtendedTree → metrics.Trace).
Variable (F0 : Z → Z → Q).
Variable (E : ExtendedTree → ExtendedTree → Prop).

Lemma dp_update_derivable (st st' : metrics.dp_state) (u v : ExtendedTree) :
  cells_derivable n m plf prf glf grf W Tr F0 E st →
  E u v → (plf u ≤ prf u)%Z → (glf v ≤ grf v)%Z → in_table n m (prf u) (grf v) →
  metrics.dp_update st (plf u) (prf u) (glf v) (grf v) (W u v) (Tr u v) = Ok st' →
  cells_derivable n m plf prf glf grf W Tr F0 E st'.
Proof.
  intros Hst HE Hp Hg Ht. unfold metrics.dp_update.
  apply for_each_ok_inv; [exact Hst|]. clear st st' Hst.
  intros a st st' Ha Hst. apply elem_of_range in Ha.
  apply for_each_ok_inv; [exact Hst|]. clear st st' Hst.
  intros b [M tr] st' Hb [Hs Hcells] Hrun. apply elem_of_range in Hb.
  simpl in Hs, Hcells.
  assert (in_table n m a b) as Hab by (destruct Ht; split; lia).
  rewrite (np_get_Ok n m M a b Hs Hab) in Hrun. cbn [mbind result_bind] in Hrun.
  rewrite (np_get_Ok n m M _ _ Hs Ht) in Hrun. cbn [mbind result_bind] in Hrun.
  destruct (utils.Qlt_bool (cell M (prf u) (grf v)) (cell M a b + W u v)).
  - destruct (np_set_Ok n m M (prf u) (grf v) (cell M a b + W u v)%Q Hs Ht)
      as (M' & HM' & Hs' & Hcell & Hframe).
    rewrite HM' in Hrun. cbn [mbind result_bind] in Hrun. injection Hrun as <-.
    split; [exact Hs'|]. simpl. intros a' b' Hab'.
    destruct (decide ((a', b') = (prf u, grf v))) as [[= -> ->]|Hne].
    + rewrite Hcell, lookup_total_insert_eq.
      apply derivable_step with (a := a) (b := b); [by apply Hcells|done|lia|lia].
    + rewrite (Hframe a' b' Hab' Hne), lookup_total_insert_ne by done.
      by apply Hcells.
  - injection Hrun as <-. by split.
Qed.

Lemma cells_derivable_init (M0 : ndarray) :
  has_shape n m M0 →
  (∀ a b, in_table n m a b → cell M0 a b = F0 a b) →
  cells_derivable n m plf prf glf grf W Tr F0 E (M0, ∅).
Proof.
  intros Hs H0. split; [done|]. simpl. intros a b Hab.
  rewrite (H0 a b Hab), lookup_total_empty. apply derivable_init.
Qed.
End table_traces.

Section pair_loop_traces.
Variables (n m : nat) (plf prf glf grf : ExtendedTree → Z).
Variables (Dp Dg : list ExtendedTree).
Variable (skip : ExtendedTree → ExtendedTree → bool).
Variable (sub : ExtendedTree → ExtendedTree → result (Q * gset (nat * nat))).
Variable (F0 : Z → Z → Q).
Hypothesis Hp : ∀ u, u ∈ Dp → (plf u ≤ prf u)%Z ∧ (0 ≤ prf u < Z.of_nat n)%Z.
Hypothesis Hg : ∀ v, v ∈ Dg → (glf v ≤ grf v)%Z ∧ (0 ≤ grf v < Z.of_nat m)%Z.

(** The double loop over the pairs of nodes leaves in every cell a value
    and a trace derivable from the pairs not skipped. *)
Lemma pair_loop_derivable (st0 st' : metrics.dp_state) :
  cells_derivable n m plf prf glf grf
    (fun u v => weight_of (sub u v)) (fun u v => trace_of (sub u v)) F0
    (fun u v => u ∈ Dp ∧ v ∈ Dg ∧ skip u v = false) st0 →
  for_each Dp (fun st u =>
    for_each Dg (fun st v =>
      if skip u v then Ok st else
      '(w, t) ← sub u v;
      metrics.dp_update st (plf u) (prf u) (glf v) (grf v) w t) st) st0
  = Ok st' →
  cells_derivable n m plf prf glf grf
    (fun u v => weight_of (sub u v)) (fun u v => trace_of (sub u v)) F0
    (fun u v => u ∈ Dp ∧ v ∈ Dg ∧ skip u v = false) st'.
Proof.
  intros Hst. apply for_each_ok_inv; [exact Hst|]. clear st0 st' Hst.
  intros u st st' Hu Hst. apply for_each_ok_inv; [exact Hst|]. clear st st' Hst.
  intros v st st' Hv Hst Hrun.
  destruct (skip u v) eqn:Eskip; [by injection Hrun as <-|].
  apply bind_Ok in Hrun as ([w t] & Hsub & Hrun).
  destruct (Hp u Hu) as [Hp1 Hp2]. destruct (Hg v Hv) as [Hg1 Hg2].
  apply (dp_update_derivable n m plf prf glf grf
           (fun u v => weight_of (sub u v)) (fun u v => trace_of (sub u v)) F0
           (fun u v => u ∈ Dp ∧ v ∈ Dg ∧ skip u v = false) st st' u v);
    [done|done|done|done|done|].
  simpl. by rewrite Hsub.
Qed.
End pair_loop_traces.

(** The scan of a table returns the start or the value and the trace of
    one cell. *)
Lemma best_cell_pick (n m : nat) (M : ndarray) (tr : gmap (Z * Z) (gset (nat * nat)))
    (start r : Q * gset (nat * nat)) :
  has_shape n m M → 0 < n →
  metrics.best_cell (M, tr) start = Ok r →
  r = start ∨ ∃ a b, in_table n m a b ∧ r = (cell M a b, tr !!! (a, b)).
Proof.
  intros Hs Hn. unfold metrics.best_cell.
  rewrite (np_shape_has_shape n m M Hs Hn). cbn [fst snd].
  apply (for_each_ok_inv
           (fun acc => acc = start ∨
                       ∃ a b, in_table n m a b ∧ acc = (cell M a b, tr !!! (a, b))));
    [by left|].
  intros a acc acc' Ha Hacc. apply elem_of_range in Ha.
  apply (for_each_ok_inv
           (fun acc => acc = start ∨
                       ∃ a b, in_table n m a b ∧ acc = (cell M a b, tr !!! (a, b))));
    [exact Hacc|]. clear acc acc' Hacc.
  intros b [w t] acc' Hb Hacc Hrun. apply elem_of_range in Hb.
  rewrite (np_get_Ok n m M a b Hs (conj Ha Hb)) in Hrun.
  cbn [mbind result_bind] in Hrun.
  destruct (utils.Qlt_bool w (cell M a b)); injection Hrun as <-; [|done].
  right. by exists a, b.
Qed.

(** ** Sums over traces *)

Lemma pairs_sum_app (S : ndarray) (l1 l2 : list (nat * nat)) :
  (pairs_sum S (l1 ++ l2) == pairs_sum S l1 + pairs_sum S l2)%Q.
Proof.
  induction l1 as [|k l1 IH]; simpl; [ring|]. rewrite IH. ring.
Qed.

Lemma pairs_sum_perm (S : ndarray) (l1 l2 : list (nat * nat)) :
  l1 ≡ₚ l2 → (pairs_sum S l1 == pairs_sum S l2)%Q.
Proof.
  induction 1 as [|k l1 l2 _ IH|k k' l|l1 l2 l3 _ IH1 _ IH2]; simpl.
  - reflexivity.
  - by rewrite IH.
  - ring.
  - by rewrite IH1.
Qed.

Lemma trace_sum_empty (S : ndarray) : trace_sum S ∅ = 0%Q.
Proof. unfold trace_sum. by rewrite elements_empty. Qed.

Lemma trace_sum_singleton (S : ndarray) (k : nat * nat) :
  (trace_sum S {[ k ]} == cell S (Z.of_nat k.1) (Z.of_nat k.2))%Q.
Proof. unfold trace_sum. rewrite elements_singleton. simpl. ring. Qed.

Lemma trace_sum_union (S : ndarray) (T1 T2 : metrics.Trace) :
  T1 ## T2 → (trace_sum S (T1 ∪ T2) == trace_sum S T1 + trace_sum S T2)%Q.
Proof.
  intros Hd. unfold trace_sum.
  rewrite (pairs_sum_perm S _ _ (elements_disj_union T1 T2 Hd)).
  apply pairs_sum_app.
Qed.

(** ** What a derivable cell holds *)

Section derivations.
Variables (plf prf glf grf : ExtendedTree → Z).
Variable (W : ExtendedTree → ExtendedTree → Q).
Variable (Tr : ExtendedTree → ExtendedTree → metrics.Trace).
Variable (E : ExtendedTree → ExtendedTree → Prop).
Variables (S : ndarray) (flex : bool) (Dp Dg : list ExtendedTree) (cp cg : Z).
Hypothesis HE : ∀ u v, E u v → u ∈ Dp ∧ v ∈ Dg.
Hypothesis Hshift_p :
  ∀ x, x ∈ Dp → plf x = (lleaf x - cp)%Z ∧ prf x = (rleaf x - cp)%Z ∧ (1 ≤ plf x)%Z.
Hypothesis Hshift_g :
  ∀ y, y ∈ Dg → glf y = (lleaf y - cg)%Z ∧ grf y = (rleaf y - cg)%Z ∧ (1 ≤ glf y)%Z.
Hypothesis Hnodes_p :
  ∀ u x, u ∈ Dp → x ∈ nodes u →
    x ∈ Dp ∧ (lleaf u ≤ lleaf x ∧ lleaf x ≤ rleaf x ∧ rleaf x ≤ rleaf u)%Z.
Hypothesis Hnodes_g :
  ∀ v y, v ∈ Dg → y ∈ nodes v →
    y ∈ Dg ∧ (lleaf v ≤ lleaf y ∧ lleaf y ≤ rleaf y ∧ rleaf y ≤ rleaf v)%Z.
Hypothesis Hinj_p : ∀ x x', x ∈ Dp → x' ∈ Dp → index x = index x' → x = x'.
Hypothesis Hinj_g : ∀ y y', y ∈ Dg → y' ∈ Dg → index y = index y' → y = y'.
Hypothesis HTr : ∀ u v, E u v → trace_ok S flex (nodes u) (nodes v) (Tr u v).
Hypothesis HW : ∀ u v, E u v → (trace_sum S (Tr u v) == W u v)%Q.

(** A pair of the trace of [(u, v)] lies under [u] and under [v]. *)
Lemma sub_trace_under (u v x y : ExtendedTree) :
  E u v → x ∈ Dp → y ∈ Dg → (index x, index y) ∈ Tr u v →
  x ∈ nodes u ∧ y ∈ nodes v.
Proof.
  intros Huv Hx Hy Hin. destruct (HE u v Huv) as [Hu Hv].
  destruct (HTr u v Huv) as [H1 _].
  destruct (H1 _ _ Hin) as (x0 & y0 & Hx0 & Hy0 & Hix & Hiy & _).
  destruct (Hnodes_p u x0 Hu Hx0) as [Hx0' _].
  destruct (Hnodes_g v y0 Hv Hy0) as [Hy0' _].
  rewrite <- (Hinj_p x0 x Hx0' Hx Hix), <- (Hinj_g y0 y Hy0' Hy Hiy). done.
Qed.

Lemma derivable_trace (a b : Z) (x : Q) (T : metrics.Trace) :
  derivable plf prf glf grf W Tr init_cell E a b x T →
  trace_ok S flex Dp Dg T ∧
  (∀ p q, p ∈ Dp → q ∈ Dg → (index p, index q) ∈ T →
     (prf p ≤ a)%Z ∧ (grf q ≤ b)%Z).
Proof.
  induction 1 as [a b|a b x T u v Hd [[IH1 IH2] IH3] Huv Ha Hb].
  - split; [split|]; intros; set_solver.
  - destruct (HE u v Huv) as [Hu Hv].
    destruct (HTr u v Huv) as [H1 H2].
    destruct (Hshift_p u Hu) as (Elu & Eru & L1u).
    destruct (Hshift_g v Hv) as (Elv & Erv & L1v).
    pose proof (Hnodes_p u u Hu (nodes_self u)) as [_ Ru].
    pose proof (Hnodes_g v v Hv (nodes_self v)) as [_ Rv].
    (* a pair of the old trace lies to the left of a pair under (u, v) *)
    assert (∀ p q p' q', p ∈ Dp → q ∈ Dg → p' ∈ Dp → q' ∈ Dg →
              (index p, index q) ∈ T → (index p', index q') ∈ Tr u v →
              (rleaf p < lleaf p')%Z ∧ (rleaf q < lleaf q')%Z) as Hleft.
    { intros p q p' q' Hp Hq Hp' Hq' HT HS.
      destruct (IH3 p q Hp Hq HT) as [Bp Bq].
      destruct (sub_trace_under u v p' q' Huv Hp' Hq' HS) as [Up Uq].
      destruct (Hnodes_p u p' Hu Up) as [_ Rp']. destruct (Hnodes_g v q' Hv Uq) as [_ Rq'].
      destruct (Hshift_p p Hp) as (_ & Erp & _). destruct (Hshift_g q Hq) as (_ & Erq & _).
      lia. }
    split; [split|].
    + intros i j Hij. apply elem_of_union in Hij as [Hij|Hij]; [by apply IH1|].
      destruct (H1 i j Hij) as (p & q & Hp & Hq & Hip & Hiq & Hrej).
      exists p, q. destruct (Hnodes_p u p Hu Hp) as [Hp' _].
      destruct (Hnodes_g v q Hv Hq) as [Hq' _]. done.
    + intros p q p' q' Hp Hp' Hq Hq' Hin Hin'.
      apply elem_of_union in Hin as [Hin|Hin];
        apply elem_of_union in Hin' as [Hin'|Hin'].
      * by apply IH2.
      * right. left. by apply (Hleft p q p' q').
      * right. right. left. by apply (Hleft p' q' p q).
      * destruct (sub_trace_under u v p q Huv Hp Hq Hin) as [Up Uq].
        destruct (sub_trace_under u v p' q' Huv Hp' Hq' Hin') as [Up' Uq'].
        by apply H2.
    + intros p q Hp Hq Hin. apply elem_of_union in Hin as [Hin|Hin].
      * destruct (IH3 p q Hp Hq Hin). lia.
      * destruct (sub_trace_under u v p q Huv Hp Hq Hin) as [Up Uq].
        destruct (Hnodes_p u p Hu Up) as [_ Rp]. destruct (Hnodes_g v q Hv Uq) as [_ Rq].
        destruct (Hshift_p p Hp) as (_ & Erp & _). destruct (Hshift_g q Hq) as (_ & Erq & _).
        lia.
Qed.

Lemma derivable_disjoint (a b : Z) (x : Q) (T : metrics.Trace) (u v : ExtendedTree) :
  derivable plf prf glf grf W Tr init_cell E a b x T →
  E u v → (a < plf u)%Z → T ## Tr u v.
Proof.
  intros Hd Huv Ha. destruct (derivable_trace a b x T Hd) as [[H1 _] H3].
  destruct (HE u v Huv) as [Hu Hv].
  apply elem_of_disjoint. intros [i j] HT HS.
  destruct (H1 i j HT) as (p & q & Hp & Hq & <- & <- & _).
  destruct (H3 p q Hp Hq HT) as [Bp _].
  destruct (sub_trace_under u v p q Huv Hp Hq HS) as [Up _].
  destruct (Hnodes_p u p Hu Up) as [_ Rp].
  destruct (Hshift_p p Hp) as (_ & Erp & _). destruct (Hshift_p u Hu) as (Elu & _ & _).
  lia.
Qed.

(** The value of a derivable cell against its trace, for the cells of a
    table [cf] that is closed under the relaxations: the value is the sum
    over the trace, or it has the sentinel in it. *)
Lemma derivable_value (cf : Z → Z → Q) (a b : Z) (x : Q) (T : metrics.Trace) :
  (0 <= cf 0%Z 0%Z)%Q →
  (∀ u v a b, E u v → (0 ≤ a < plf u)%Z → (0 ≤ b < glf v)%Z →
     (cf a b + W u v <= cf (prf u) (grf v))%Q) →
  derivable plf prf glf grf W Tr init_cell E a b x T →
  (x == trace_sum S T)%Q ∨
  (x = metrics.minus_inf ∧ T = ∅) ∨
  ((x == metrics.minus_inf + trace_sum S T)%Q ∧ (trace_sum S T <= cf a b)%Q).
Proof.
  intros Hc0 Hclosed.
  induction 1 as [a b|a b x T u v Hd IH Huv Ha Hb].
  - unfold init_cell. destruct (decide (a = 0%Z ∧ b = 0%Z)).
    + left. by rewrite trace_sum_empty.
    + right. left. done.
  - destruct (HE u v Huv) as [Hu Hv].
    destruct (Hshift_p u Hu) as (_ & _ & L1u). destruct (Hshift_g v Hv) as (_ & _ & L1v).
    pose proof (trace_sum_union S T (Tr u v)
                  (derivable_disjoint a b x T u v Hd Huv ltac:(lia))) as Hsum.
    pose proof (HW u v Huv) as Hw.
    destruct IH as [IH|[[-> ->]|[IH Hle]]].
    + left. rewrite Hsum, IH, Hw. reflexivity.
    + right. right. rewrite (left_id_L ∅ (∪)). split; [rewrite Hw; reflexivity|].
      rewrite Hw.
      pose proof (Hclosed u v 0%Z 0%Z Huv ltac:(lia) ltac:(lia)). lra.
    + right. right. split; [rewrite Hsum, IH, Hw; ring|].
      rewrite Hsum, Hw.
      pose proof (Hclosed u v a b Huv Ha Hb). lra.
Qed.

(** A cell of the finished table that is not negative holds the sum over
    its trace. *)
Lemma derivable_final (cf : Z → Z → Q) (a b : Z) (T : metrics.Trace) :
  (0 <= cf 0%Z 0%Z)%Q →
  (∀ u v a b, E u v → (0 ≤ a < plf u)%Z → (0 ≤ b < glf v)%Z →
     (cf a b + W u v <= cf (prf u) (grf v))%Q) →
  derivable plf prf glf grf W Tr init_cell E a b (cf a b) T →
  (0 <= cf a b)%Q →
  (cf a b == trace_sum S T)%Q ∧ trace_ok S flex Dp Dg T.
Proof.
  intros Hc0 Hclosed Hd Hpos.
  split; [|by destruct (derivable_trace a b _ T Hd)].
  destruct (derivable_value cf a b _ T Hc0 Hclosed Hd) as [H|[[H _]|[H Hle]]].
  - done.
  - exfalso. rewrite H in Hpos. revert Hpos. by apply Qlt_not_le.
  - exfalso. assert ((metrics.minus_inf < 0)%Q) by done. lra.
Qed.
End derivations.

(** ** The trace of [align] *)

Lemma descendants_under (t u x : ExtendedTree) :
  u ∈ descendants t → x ∈ nodes u → x ∈ descendants t.
Proof.
  intros Hu Hx. destruct (descendants_contiguous t u Hu) as (D1 & D2 & ->).
  apply elem_of_app. right. apply elem_of_app. by left.
Qed.

Lemma trace_ok_empty (S : ndarray) (flex : bool) (Dp Dg : list ExtendedTree) :
  trace_ok S flex Dp Dg ∅.
Proof. split; intros; set_solver. Qed.

(** The trace of a pair: the pair itself on top of a trace over the proper
    descendants. *)
Lemma trace_ok_root (S : ndarray) (flex : bool) (p g : ExtendedTree) (T : metrics.Trace) :
  wf_ext p → wf_ext g →
  metrics.rejected flex p g (cell S (Z.of_nat (index p)) (Z.of_nat (index g)))
    utils.default_eps = false →
  trace_ok S flex (descendants p) (descendants g) T →
  trace_ok S flex (nodes p) (nodes g) (T ∪ {[ (index p, index g) ]}) ∧
  (index p, index g) ∉ T.
Proof.
  intros Hwp Hwg Hrej [H1 H2].
  assert (∀ x y, x ∈ nodes p → y ∈ nodes g → (index x, index y) ∈ T →
            x ∈ descendants p ∧ y ∈ descendants g) as Hdesc.
  { intros x y Hx Hy Hin.
    destruct (H1 _ _ Hin) as (x0 & y0 & Hx0 & Hy0 & Hix & Hiy & _).
    rewrite <- (wf_index_inj p x0 x Hwp (descendants_nodes p x0 Hx0) Hx Hix).
    rewrite <- (wf_index_inj g y0 y Hwg (descendants_nodes g y0 Hy0) Hy Hiy). done. }
  assert (∀ x y, x ∈ nodes p → y ∈ nodes g →
            (index x, index y) = (index p, index g) → x = p ∧ y = g) as Hroot.
  { intros x y Hx Hy [= Hix Hiy]. split.
    - by apply (wf_index_inj p x p Hwp Hx (nodes_self p)).
    - by apply (wf_index_inj g y g Hwg Hy (nodes_self g)). }
  split; [split|].
  - intros i j Hij. apply elem_of_union in Hij as [Hij|Hij].
    + destruct (H1 i j Hij) as (x & y & Hx & Hy & Hix & Hiy & Hr).
      exists x, y. split; [by apply descendants_nodes|].
      split; [by apply descendants_nodes|done].
    + apply elem_of_singleton in Hij as [= -> ->].
      exists p, g. split; [apply nodes_self|]. split; [apply nodes_self|done].
  - intros x y x' y' Hx Hx' Hy Hy' Hin Hin'.
    apply elem_of_union in Hin as [Hin|Hin];
      apply elem_of_union in Hin' as [Hin'|Hin'].
    + destruct (Hdesc x y Hx Hy Hin). destruct (Hdesc x' y' Hx' Hy' Hin').
      by apply H2.
    + apply elem_of_singleton in Hin'. destruct (Hroot x' y' Hx' Hy' Hin') as [-> ->].
      destruct (Hdesc x y Hx Hy Hin). right. right. right. right. done.
    + apply elem_of_singleton in Hin. destruct (Hroot x y Hx Hy Hin) as [-> ->].
      destruct (Hdesc x' y' Hx' Hy' Hin'). right. right. right. left. done.
    + apply elem_of_singleton in Hin. destruct (Hroot x y Hx Hy Hin) as [-> ->].
      apply elem_of_singleton in Hin'. destruct (Hroot x' y' Hx' Hy' Hin') as [-> ->].
      by left.
  - intros Hin. destruct (H1 _ _ Hin) as (x & y & Hx & _ & Hix & _).
    by apply (wf_descendant_index p x Hwp Hx).
Qed.

Section trace.
Variables (S : ndarray) (flex : bool) (P G : ExtendedTree).
Hypothesis HP : wf_ext P.
Hypothesis HG : wf_ext G.
Hypothesis HP0 : index P = 0.
Hypothesis HG0 : index G = 0.
Hypothesis HS : has_shape (size P) (size G) S.
Hypothesis HSu :
  ∀ i j, in_table (size P) (size G) i j → (0 <= cell S i j ∧ cell S i j <= 1)%Q.

(** The weight [align] returns is the sum of the span IoUs over the trace
    it returns, and the trace is a structured alignment of the two
    subtrees. *)
Lemma align_pure_trace (f : nat) :
  ∀ (p g : ExtendedTree) (w : Q) (t : metrics.Trace),
    p ∈ nodes P → g ∈ nodes G → size p ≤ f →
    align_pure f S flex p g utils.default_eps = Ok (w, t) →
    (w == trace_sum S t)%Q ∧ trace_ok S flex (nodes p) (nodes g) t.
Proof.
  induction f as [|f IH]; intros p g w t Hp Hg Hf Hrun.
  { pose proof (size_pos p). lia. }
  assert (wf_ext p) as Hwp by (by apply (wf_hereditary P)).
  assert (wf_ext g) as Hwg by (by apply (wf_hereditary G)).
  rewrite align_pure_wf, (span_get S P G) in Hrun by done.
  cbn [mbind result_bind] in Hrun.
  destruct (metrics.rejected flex p g
              (cell S (Z.of_nat (index p)) (Z.of_nat (index g)))
              utils.default_eps) eqn:Hrej.
  { injection Hrun as <- <-. rewrite trace_sum_empty. split; [done|].
    apply trace_ok_empty. }
  destruct (is_preterminal p || is_preterminal g) eqn:Hpre.
  { injection Hrun as <- <-.
    destruct (trace_ok_root S flex p g ∅ Hwp Hwg Hrej (trace_ok_empty _ _ _ _))
      as [Hok _].
    rewrite (left_id_L ∅ (∪)) in Hok.
    split; [by rewrite trace_sum_singleton|done]. }
  (* the results of the pairs of proper descendants *)
  assert (∀ u v, u ∈ descendants p → v ∈ descendants g →
            ∃ w' t', align_pure f S flex u v utils.default_eps = Ok (w', t') ∧
                     (w' == trace_sum S t')%Q ∧
                     trace_ok S flex (nodes u) (nodes v) t') as Hsub.
  { intros u v Hu Hv.
    assert (u ∈ nodes P) as HuP by (by apply (descendants_trans P p)).
    assert (v ∈ nodes G) as HvG by (by apply (descendants_trans G g)).
    assert (size u ≤ f) as Hfu by (pose proof (descendants_size p u Hu); lia).
    destruct (align_pure_bounds S flex P G HP HG HP0 HG0 HS HSu f u v
                utils.default_eps HuP HvG Hfu) as (w' & t' & Hw' & _).
    exists w', t'. split; [done|]. by apply IH. }
  set (n := length (leaves p) + 1) in *. set (m := length (leaves g) + 1) in *.
  set (sub := fun u v => align_pure f S flex u v utils.default_eps) in *.
  set (E := fun u v : ExtendedTree =>
              u ∈ descendants p ∧ v ∈ descendants g ∧ false = false).
  assert (∀ u, u ∈ descendants p →
            (lloc p u ≤ rloc p u)%Z ∧ (0 ≤ rloc p u < Z.of_nat n)%Z) as Hgp.
  { intros u Hu. pose proof (wf_loc p u Hwp Hu). unfold n. lia. }
  assert (∀ v, v ∈ descendants g →
            (lloc g v ≤ rloc g v)%Z ∧ (0 ≤ rloc g v < Z.of_nat m)%Z) as Hgg.
  { intros v Hv. pose proof (wf_loc g v Hwg Hv). unfold m. lia. }
  destruct (dp_init_spec (length (leaves p)) (length (leaves g)))
    as (M0 & E0 & Hs0 & Hinit).
  rewrite E0 in Hrun. cbn [mbind result_bind] in Hrun.
  apply bind_Ok in Hrun as ([M tr] & Hloop & Hrun).
  apply bind_Ok in Hrun as ([best tr'] & Hbest & Hrun). injection Hrun as <- <-.
  (* the weights of the table *)
  destruct (pair_loop_spec n m (lloc p) (rloc p) (lloc g) (rloc g)
              (descendants p) (descendants g) (fun _ _ => false) sub init_cell
              Hgp Hgg (wf_descendants_sorted p Hwp))
    with (M0 := M0) (tr0 := (∅ : gmap (Z * Z) (gset (nat * nat))))
    as (st' & Hloop' & (Hs & H2 & H3 & _)); [|done|done|].
  { intros u v Hu Hv _. destruct (Hsub u v Hu Hv) as (w' & t' & Hw' & _).
    unfold sub. rewrite Hw'. by eexists. }
  assert (Ok st' = Ok (M, tr)) as Heq by (rewrite <- Hloop'; exact Hloop).
  injection Heq as ->. simpl in Hs, H2, H3.
  (* the traces of the table *)
  pose proof (pair_loop_derivable n m (lloc p) (rloc p) (lloc g) (rloc g)
                (descendants p) (descendants g) (fun _ _ => false) sub init_cell
                Hgp Hgg (M0, ∅) (M, tr)
                (cells_derivable_init n m _ _ _ _ _ _ init_cell _ M0 Hs0 Hinit) Hloop)
    as [_ Hcells].
  simpl in Hcells.
  (* the cell the scan picks *)
  assert (in_table n m 0 0) as H00 by (unfold n, m; split; lia).
  assert ((0 <= cell M 0%Z 0%Z)%Q) as Hc0.
  { specialize (H2 0%Z 0%Z H00). unfold init_cell in H2.
    by rewrite decide_True in H2 by done. }
  destruct (best_cell_spec n m M tr (-1)%Q ∅ Hs ltac:(unfold n; lia))
    as (best' & tr'' & Hbest' & _ & B2 & _).
  rewrite Hbest in Hbest'. injection Hbest' as <- <-.
  pose proof (B2 0%Z 0%Z H00) as Hbest0.
  destruct (best_cell_pick n m M tr _ _ Hs ltac:(unfold n; lia) Hbest)
    as [[= Hb _]|(a & b & Hab & [= -> ->])].
  { exfalso. rewrite Hb in Hbest0. lra. }
  destruct (derivable_final (lloc p) (rloc p) (lloc g) (rloc g)
              (fun u v => weight_of (sub u v)) (fun u v => trace_of (sub u v)) E
              S flex (descendants p) (descendants g)
              (lleaf p - 1)%Z (lleaf g - 1)%Z) with (cf := cell M) (a := a) (b := b)
              (T := tr !!! (a, b)) as [Hsum Htr].
  - intros u v (Hu & Hv & _). done.
  - intros x Hx. pose proof (wf_loc p x Hwp Hx). unfold lloc, rloc in *. lia.
  - intros y Hy. pose proof (wf_loc g y Hwg Hy). unfold lloc, rloc in *. lia.
  - intros u x Hu Hx. split; [by apply (descendants_under p u)|].
    apply (wf_ranges u x); [|done].
    apply (wf_hereditary p); [done|by apply descendants_nodes].
  - intros v y Hv Hy. split; [by apply (descendants_under g v)|].
    apply (wf_ranges v y); [|done].
    apply (wf_hereditary g); [done|by apply descendants_nodes].
  - intros x x' Hx Hx'. apply (wf_index_inj p); [done|by apply descendants_nodes..].
  - intros y y' Hy Hy'. apply (wf_index_inj g); [done|by apply descendants_nodes..].
  - intros u v (Hu & Hv & _). destruct (Hsub u v Hu Hv) as (w' & t' & Hw' & _ & Hok).
    unfold sub. by rewrite Hw'.
  - intros u v (Hu & Hv & _). destruct (Hsub u v Hu Hv) as (w' & t' & Hw' & Hsum & _).
    unfold sub. rewrite Hw'. simpl. by rewrite Hsum.
  - done.
  - intros u v a' b' Huv Ha' Hb'. by apply H3.
  - by apply Hcells.
  - lra.
  - destruct (trace_ok_root S flex p g (tr !!! (a, b)) Hwp Hwg Hrej Htr) as [Hok Hnin].
    split; [|done].
    rewrite trace_sum_union by (by apply disjoint_singleton_r).
    rewrite trace_sum_singleton, Hsum. reflexivity.
Qed.
End trace.

(** ** The trace of [__call__] *)

Lemma consistent_distinct (T x x' y y' : ExtendedTree) (G : ExtendedTree) :
  wf_ext T → wf_ext G →
  x ∈ nodes T → x' ∈ nodes T → y ∈ nodes G → y' ∈ nodes G →
  consistent x y x' y' →
  (index x = index x' ↔ index y = index y').
Proof.
  intros HT HG Hx Hx' Hy Hy' Hc.
  pose proof (wf_ranges T x HT Hx) as Rx. pose proof (wf_ranges T x' HT Hx') as Rx'.
  pose proof (wf_ranges G y HG Hy) as Ry. pose proof (wf_ranges G y' HG Hy') as Ry'.
  assert (index x = index x' → x = x') as Ix by (by apply (wf_index_inj T)).
  assert (index y = index y' → y = y') as Iy by (by apply (wf_index_inj G)).
  destruct Hc as [[-> ->]|[[H1 H2]|[[H1 H2]|[[H1 H2]|[H1 H2]]]]].
  - done.
  - split; intros H; [apply Ix in H|apply Iy in H]; subst; lia.
  - split; intros H; [apply Ix in H|apply Iy in H]; subst; lia.
  - pose proof (wf_descendant_index x x' (wf_hereditary T x HT Hx) H1) as D1.
    pose proof (wf_descendant_index y y' (wf_hereditary G y HG Hy) H2) as D2.
    split; intros H; congruence.
  - pose proof (wf_descendant_index x' x (wf_hereditary T x' HT Hx') H1) as D1.
    pose proof (wf_descendant_index y' y (wf_hereditary G y' HG Hy') H2) as D2.
    split; intros H; congruence.
Qed.

Lemma trace_ok_matching (S : ndarray) (flex : bool) (P G : ExtendedTree)
    (T : metrics.Trace) :
  wf_ext P → wf_ext G →
  trace_ok S flex (nodes P) (nodes G) T → matching T.
Proof.
  intros HP HG [H1 H2] i j i' j' Hin Hin'.
  destruct (H1 i j Hin) as (x & y & Hx & Hy & <- & <- & _).
  destruct (H1 i' j' Hin') as (x' & y' & Hx' & Hy' & <- & <- & _).
  apply (consistent_distinct P x x' y y' G); try done.
  by apply H2.
Qed.


(** [__call__] on an aligner whose memo tables are right: the best weight
    is the sum over the trace it returns. *)
Lemma call_trace (P G : ExtendedTree) (self : metrics.TreeAligner) :
  aligner_ok P G self → memo_inv P G self →
  ∃ mw mt,
    metrics.call self = Ok ((mw * 2 / inject_Z (Z.of_nat (size P + size G)))%Q, mt) ∧
    (mw == trace_sum (metrics._span_ious self) mt)%Q ∧
    trace_ok (metrics._span_ious self) (metrics._flexible_terminal_alignment self)
      (nodes P) (nodes G) mt.
Proof.
  intros Hok Hmemo.
  pose proof Hok as (HP & HG & HP0 & HG0 & HP1 & HG1 & _ & _ & _ & HS & HSu).
  destruct (call_spec P G self Hok Hmemo)
    as (w0 & t0 & st & mw & mt & s1 & s2 & _ & Hp & _ & Ht & Hinv & Hb &
        (A1 & _ & _) & (Hmw0 & _) & Hcall).
  set (S := metrics._span_ious self) in *.
  set (flex := metrics._flexible_terminal_alignment self) in *.
  exists mw, mt. split; [exact Hcall|].
  destruct (align_pure_trace S flex P G HP HG HP0 HG0 HS HSu (size P) P G w0 t0
              (nodes_self P) (nodes_self G) (le_n _) Hp) as [Hsum0 Hok0].
  destruct st as [M tr]. destruct Hinv as (Hs & H2 & H3 & _). simpl in Hs, H2, H3.
  set (n := length (leaves P) + 1) in *. set (m := length (leaves G) + 1) in *.
  destruct (best_cell_pick n m M tr _ _ Hs ltac:(unfold n; lia) Hb)
    as [[= -> ->]|(a & b & Hab & [= -> ->])]; [done|].
  set (sub := fun u v => align_pure (size P) S flex u v utils.default_eps).
  assert (∀ u, u ∈ nodes P →
            (lleaf u ≤ rleaf u)%Z ∧ (0 ≤ rleaf u < Z.of_nat n)%Z) as Hgp.
  { intros u Hu. pose proof (wf_root_loc P u HP HP1 Hu). unfold n. lia. }
  assert (∀ v, v ∈ nodes G →
            (lleaf v ≤ rleaf v)%Z ∧ (0 ≤ rleaf v < Z.of_nat m)%Z) as Hgg.
  { intros v Hv. pose proof (wf_root_loc G v HG HG1 Hv). unfold m. lia. }
  assert (∀ u v, u ∈ nodes P → v ∈ nodes G →
            ∃ w' t', sub u v = Ok (w', t') ∧ (w' == trace_sum S t')%Q ∧
                     trace_ok S flex (nodes u) (nodes v) t') as Hsub.
  { intros u v Hu Hv.
    destruct (align_pure_bounds S flex P G HP HG HP0 HG0 HS HSu (size P) u v
                utils.default_eps Hu Hv (nodes_size P u Hu)) as (w' & t' & Hw' & _).
    exists w', t'. split; [done|].
    by apply (align_pure_trace S flex P G HP HG HP0 HG0 HS HSu (size P) u v w' t'
                Hu Hv (nodes_size P u Hu)). }
  rewrite top_level_pure_nodes in Ht by done.
  destruct (dp_init_spec (length (leaves P)) (length (leaves G)))
    as (M0 & E0 & Hs0 & Hinit).
  rewrite E0 in Ht. cbn [mbind result_bind] in Ht.
  pose proof (pair_loop_derivable n m lleaf rleaf lleaf rleaf
                (nodes P) (nodes G) both_roots sub init_cell
                Hgp Hgg (M0, ∅) (M, tr)
                (cells_derivable_init n m _ _ _ _ _ _ init_cell _ M0 Hs0 Hinit) Ht)
    as [_ Hcells].
  simpl in Hcells.
  assert (in_table n m 0 0) as H00 by (unfold n, m; split; lia).
  assert ((0 <= cell M 0%Z 0%Z)%Q) as Hc0.
  { specialize (H2 0%Z 0%Z H00). unfold init_cell in H2.
    by rewrite decide_True in H2 by done. }
  apply (derivable_final lleaf rleaf lleaf rleaf
           (fun u v => weight_of (sub u v)) (fun u v => trace_of (sub u v))
           (fun u v => u ∈ nodes P ∧ v ∈ nodes G ∧ both_roots u v = false)
           S flex (nodes P) (nodes G) 0%Z 0%Z) with (cf := cell M) (a := a) (b := b).
  - intros u v (Hu & Hv & _). done.
  - intros x Hx. pose proof (wf_root_loc P x HP HP1 Hx). lia.
  - intros y Hy. pose proof (wf_root_loc G y HG HG1 Hy). lia.
  - intros u x Hu Hx. split; [by apply (nodes_trans P u)|].
    apply (wf_ranges u x); [|done]. by apply (wf_hereditary P).
  - intros v y Hv Hy. split; [by apply (nodes_trans G v)|].
    apply (wf_ranges v y); [|done]. by apply (wf_hereditary G).
  - intros x x'. by apply (wf_index_inj P).
  - intros y y'. by apply (wf_index_inj G).
  - intros u v (Hu & Hv & _). destruct (Hsub u v Hu Hv) as (w' & t' & Hw' & _ & Hok').
    by rewrite Hw'.
  - intros u v (Hu & Hv & _). destruct (Hsub u v Hu Hv) as (w' & t' & Hw' & Hsum & _).
    rewrite Hw'. simpl. by rewrite Hsum.
  - done.
  - intros u v a' b' Huv Ha' Hb'. by apply H3.
  - by apply Hcells.
  - lra.
Qed.



Lemma accepted_pair (P G : ExtendedTree) (threshold_iou : Q) (flex : bool)
    (u v : ExtendedTree) :
  metrics.rejected flex u v (metrics.apply_threshold threshold_iou (node_iou u v))
    utils.default_eps = false →
  (threshold_iou < node_iou u v)%Q ∧ (utils.default_eps <= node_iou u v)%Q ∧
  metrics.rejected flex u v (node_iou u v) utils.default_eps = false.
Proof.
  intros Hrej. pose proof (node_iou_unit u v) as Hu.
  pose proof (apply_threshold_unit threshold_iou _ Hu) as [Ha0 _].
  pose proof (accepted_large flex u v _ Ha0 Hrej) as Heps.
  pose proof default_eps_pos as Hpos.
  destruct (apply_threshold_cases threshold_iou (node_iou u v)) as [[Hlt E]|[_ E]];
    rewrite E in Heps, Hrej; [|lra].
  split; [done|]. split; [lra|].
  by rewrite (rejected_proper flex u v _ (node_iou u v)) in Hrej by ring.
Qed.

(** X20. The trace that [__call__] returns is a structured alignment: every
    pair in it is a pair of indices of nodes of the two trees whose span
    IoU is above the threshold and at least [eps], and which [align] does
    not reject; any two pairs are the same pair, or in the same left-to-right
    order in both trees, or nested the same way in both trees; so no index
    occurs in two pairs. *)
Theorem trace_is_structured (P G : ExtendedTree) (threshold_iou : Q) (flex : bool) :
  WellFormed P → WellFormed G →
  ∃ self score trace,
    metrics.init P G threshold_iou flex = Ok self ∧
    metrics.call self = Ok (score, trace) ∧
    (∀ i j, (i, j) ∈ trace →
       ∃ u v iou, u ∈ nodes P ∧ v ∈ nodes G ∧ index u = i ∧ index v = j ∧
         utils.span_iou (time_range u) (time_range v) utils.default_eps = Ok iou ∧
         (threshold_iou < iou)%Q ∧ (utils.default_eps <= iou)%Q ∧
         metrics.rejected flex u v iou utils.default_eps = false) ∧
    (∀ u v u' v', u ∈ nodes P → u' ∈ nodes P → v ∈ nodes G → v' ∈ nodes G →
       (index u, index v) ∈ trace → (index u', index v') ∈ trace →
       (u = u' ∧ v = v') ∨
       ((leaf_range u).2 < (leaf_range u').1 ∧ (leaf_range v).2 < (leaf_range v').1)%Z ∨
       ((leaf_range u').2 < (leaf_range u).1 ∧ (leaf_range v').2 < (leaf_range v).1)%Z ∨
       (u' ∈ descendants u ∧ v' ∈ descendants v) ∨
       (u ∈ descendants u' ∧ v ∈ descendants v')) ∧
    (∀ i j i' j', (i, j) ∈ trace → (i', j') ∈ trace → (i = i' ↔ j = j')).
Proof.
  intros HP HG.
  destruct (WellFormed_init P G threshold_iou flex HP HG)
    as (self & Hinit & Hok & Hmemo & Hflex & Hcells).
  pose proof Hok as (HwP & HwG & _).
  destruct (call_trace P G self Hok Hmemo) as (mw & mt & Hcall & _ & Htr).
  rewrite Hflex in Htr.
  eexists self, _, mt. split; [exact Hinit|]. split; [exact Hcall|].
  split; [|split].
  - intros i j Hin. destruct Htr as [H1 _].
    destruct (H1 i j Hin) as (u & v & Hu & Hv & <- & <- & Hrej).
    rewrite (Hcells u v Hu Hv) in Hrej.
    destruct (accepted_pair P G threshold_iou flex u v Hrej) as (Q1 & Q2 & Q3).
    exists u, v, (node_iou u v). split; [done|]. split; [done|].
    split; [done|]. split; [done|]. split; [apply node_iou_Ok|done].
  - destruct Htr as [_ H2]. exact H2.
  - exact (trace_ok_matching _ _ P G mt HwP HwG Htr).
Qed.

Lemma trace_is_structured_witness :
  ∃ self score trace,
    metrics.init example_predicted example_gold 0 true = Ok self ∧
    metrics.call self = Ok (score, trace) ∧
    (∀ i j i' j', (i, j) ∈ trace → (i', j') ∈ trace → (i = i' ↔ j = j')).
Proof.
  destruct (trace_is_structured example_predicted example_gold 0 true
              example_predicted_WellFormed example_gold_WellFormed)
    as (self & score & trace & H1 & H2 & _ & _ & H5).
  exists self, score, trace. split; [exact H1|]. split; [exact H2|exact H5].
Defined.



(** ** [normalize_parentheses_string] *)

Lemma str_replace_char (c : N) (new s : str) :
  str_replace [c] new s = flat_map (fun x => if decide (x = c) then new else [x]) s.
Proof.
  unfold str_replace. induction s as [|x s IH]; [done|].
  cbn [str_replace_go flat_map length take].
  destruct (decide (x = c)) as [->|Hne].
  - rewrite decide_True by done. simpl. by rewrite IH.
  - rewrite decide_False by congruence. simpl. by rewrite IH.
Qed.

Lemma flat_map_flat_map {A B C} (f : A → list B) (g : B → list C) (l : list A) :
  flat_map g (flat_map f l) = flat_map (fun x => flat_map g (f x)) l.
Proof.
  induction l as [|x l IH]; [done|]. simpl. by rewrite flat_map_app, IH.
Qed.

Lemma is_paren_cases (c : N) :
  (is_paren c = true ∧ (c = chr_lparen ∨ c = chr_rparen) ∧ isspace c = false) ∨
  (is_paren c = false ∧ c ≠ chr_lparen ∧ c ≠ chr_rparen).
Proof.
  unfold is_paren.
  destruct (decide (c = chr_lparen)) as [->|H1]; [left; by split_and!; [|left|]|].
  destruct (decide (c = chr_rparen)) as [->|H2]; [left; by split_and!; [|right|]|].
  right. by rewrite !bool_decide_false by done.
Qed.

(** The two replacements, character by character. *)
Lemma replace_parens (s : str) :
  str_replace [chr_rparen] [chr_space; chr_rparen; chr_space]
    (str_replace [chr_lparen] [chr_space; chr_lparen; chr_space] s)
  = flat_map (fun c => if is_paren c then [chr_space; c; chr_space] else [c]) s.
Proof.
  rewrite !str_replace_char, flat_map_flat_map.
  induction s as [|c s IH]; [done|]. cbn [flat_map]. rewrite IH. f_equal.
  destruct (is_paren_cases c) as [(-> & [-> | ->] & _)|(-> & H1 & H2)].
  - done.
  - done.
  - rewrite decide_False by done. simpl. by rewrite decide_False by done.
Qed.

Lemma py_split_parens (s cur : str) :
  py_split_go (flat_map (fun c => if is_paren c then [chr_space; c; chr_space] else [c]) s)
    cur
  = paren_tokens_go s cur.
Proof.
  revert cur. induction s as [|c s IH]; intros cur; [done|].
  cbn [flat_map paren_tokens_go].
  destruct (is_paren_cases c) as [(-> & _ & Hsp)|(-> & _ & _)].
  - rewrite Hsp. cbn [app py_split_go].
    change (isspace chr_space) with true. rewrite Hsp. cbv iota.
    destruct cur; simpl; by rewrite IH.
  - cbn [app py_split_go]. destruct (isspace c); [destruct cur|]; by rewrite IH.
Qed.

(** A token: not empty, without whitespace, and either one parenthesis or
    without parentheses. *)
Lemma paren_tokens_go_ok (s cur : str) :
  Forall (fun c => isspace c = false ∧ is_paren c = false) cur →
  Forall (fun t => t ≠ [] ∧ Forall (fun c => isspace c = false) t ∧
                   (t = [chr_lparen] ∨ t = [chr_rparen] ∨
                    Forall (fun c => is_paren c = false) t))
    (paren_tokens_go s cur).
Proof.
  revert cur. induction s as [|c s IH]; intros cur Hcur.
  - simpl. destruct cur as [|x cur]; [done|]. constructor; [|done].
    split; [done|]. split; [by eapply Forall_impl; [exact Hcur|intros ? []]|].
    right. right. by eapply Forall_impl; [exact Hcur|intros ? []].
  - assert (cur ≠ [] →
            cur ≠ [] ∧ Forall (fun c => isspace c = false) cur ∧
            (cur = [chr_lparen] ∨ cur = [chr_rparen] ∨
             Forall (fun c => is_paren c = false) cur)) as Hword.
    { intros Hne. split; [done|].
      split; [by eapply Forall_impl; [exact Hcur|intros ? []]|].
      right. right. by eapply Forall_impl; [exact Hcur|intros ? []]. }
    cbn [paren_tokens_go]. destruct (isspace c) eqn:Hsp.
    { destruct cur as [|x cur]; [by apply IH|].
      constructor; [by apply Hword|by apply IH]. }
    destruct (is_paren_cases c) as [(Hpar & Hc & _)|(Hpar & _ & _)]; rewrite Hpar.
    + assert ([c] ≠ [] ∧ Forall (fun c => isspace c = false) [c] ∧
              ([c] = [chr_lparen] ∨ [c] = [chr_rparen] ∨
               Forall (fun c => is_paren c = false) [c])) as Hc'.
      { split; [done|]. split; [by constructor|].
        destruct Hc as [-> | ->]; [by left|by right; left]. }
      destruct cur as [|x cur].
      * constructor; [done|by apply IH].
      * constructor; [by apply Hword|]. constructor; [done|by apply IH].
    + apply IH. apply Forall_app. split; [done|]. by constructor.
Qed.

Lemma paren_tokens_go_word (w rest cur : str) :
  Forall (fun c => isspace c = false ∧ is_paren c = false) w →
  paren_tokens_go (w ++ rest) cur = paren_tokens_go rest (cur ++ w).
Proof.
  revert cur. induction w as [|c w IH]; intros cur Hw.
  - by rewrite app_nil_r.
  - apply Forall_cons in Hw as [[Hsp Hpar] Hw]. cbn [app paren_tokens_go].
    rewrite Hsp, Hpar, IH by done. by rewrite <- app_assoc.
Qed.

(** The tokens of tokens joined by single spaces are the tokens. *)
Lemma paren_tokens_join (toks : list str) :
  Forall (fun t => t ≠ [] ∧ Forall (fun c => isspace c = false) t ∧
                   (t = [chr_lparen] ∨ t = [chr_rparen] ∨
                    Forall (fun c => is_paren c = false) t)) toks →
  paren_tokens (py_join [chr_space] toks) = toks.
Proof.
  unfold paren_tokens.
  induction 1 as [|t toks (Hne & Hsp & Ht) Hall IH]; [done|].
  assert (∀ rest, paren_tokens_go (t ++ chr_space :: rest) [] = t :: paren_tokens_go rest []
                  ∧ paren_tokens_go t [] = [t]) as Hstep.
  { intros rest. destruct Ht as [-> |[-> |Hw]].
    - done.
    - done.
    - assert (Forall (fun c => isspace c = false ∧ is_paren c = false) t) as Hw'.
      { apply Forall_forall. intros c Hc. rewrite Forall_forall in Hsp, Hw. auto. }
      split.
      + rewrite paren_tokens_go_word by done. simpl.
        change (isspace chr_space) with true. cbv iota. by destruct t.
      + rewrite <- (app_nil_r t) at 1. rewrite paren_tokens_go_word by done.
        simpl. by destruct t. }
  destruct toks as [|t' toks].
  - simpl. apply (Hstep []).
  - change (py_join [chr_space] (t :: t' :: toks))
      with (t ++ chr_space :: py_join [chr_space] (t' :: toks)).
    destruct (Hstep (py_join [chr_space] (t' :: toks))) as [-> _]. by rewrite IH.
Qed.

Lemma paren_tokens_go_concat (s cur : str) :
  concat (paren_tokens_go s cur) = cur ++ filter (fun c => isspace c = false) s.
Proof.
  revert cur. induction s as [|c s IH]; intros cur.
  - simpl. destruct cur; simpl; by rewrite ?app_nil_r.
  - cbn [paren_tokens_go]. destruct (isspace c) eqn:Hsp.
    { rewrite filter_cons_False by (by rewrite Hsp).
      destruct cur; [apply IH|]. cbn [concat]. by rewrite IH. }
    rewrite filter_cons_True by done.
    destruct (is_paren c).
    + destruct cur; simpl; by rewrite IH.
    + rewrite IH. by rewrite <- app_assoc.
Qed.

Lemma normalize_tokens_eq (string : str) :
  normalize_parentheses_string string = py_join [chr_space] (paren_tokens string).
Proof.
  unfold normalize_parentheses_string, py_split, paren_tokens.
  by rewrite replace_parens, py_split_parens.
Qed.

(** X22. [normalize_parentheses_string] returns the tokens of the string joined
    by single spaces, a token being a parenthesis by itself or a maximal
    run of other characters that are not whitespace: no token is empty or
    holds whitespace, and together the tokens are the string without its
    whitespace. *)
Theorem normalize_is_tokens (string : str) :
  normalize_parentheses_string string = py_join [chr_space] (paren_tokens string) ∧
  (∀ t, t ∈ paren_tokens string →
     t ≠ [] ∧ (∀ c, c ∈ t → isspace c = false) ∧
     (t = [chr_lparen] ∨ t = [chr_rparen] ∨
      ∀ c, c ∈ t → c ≠ chr_lparen ∧ c ≠ chr_rparen)) ∧
  concat (paren_tokens string) = filter (fun c => isspace c = false) string.
Proof.
  split; [|split].
  - apply normalize_tokens_eq.
  - intros t Ht.
    pose proof (paren_tokens_go_ok string [] (Forall_nil_2 _)) as Hok.
    rewrite Forall_forall in Hok. destruct (Hok t Ht) as (Hne & Hsp & Hcases).
    split; [done|]. split; [by apply Forall_forall|].
    destruct Hcases as [-> |[-> |Hw]]; [by left|by right; left|].
    right. right. intros c Hc. rewrite Forall_forall in Hw. specialize (Hw c Hc).
    destruct (is_paren_cases c) as [(Hp & _)|(_ & H1 & H2)]; [congruence|done].
  - apply (paren_tokens_go_concat string []).
Qed.

(** X23. Normalising twice is the same as normalising once. *)
Theorem normalize_idempotent (string : str) :
  normalize_parentheses_string (normalize_parentheses_string string)
  = normalize_parentheses_string string.
Proof.
  rewrite (normalize_tokens_eq string), normalize_tokens_eq.
  rewrite paren_tokens_join; [done|].
  apply (paren_tokens_go_ok string []). constructor.
Qed.

(** ** [substitute_substr] *)

Lemma decimal_nonempty (n : nat) : decimal n ≠ [].
Proof.
  unfold decimal.
  pose proof (DecimalNat.Unsigned.to_of (Nat.to_uint n)) as H.
  rewrite DecimalNat.Unsigned.of_to in H.
  destruct (Nat.to_uint n); try done.
Qed.

Lemma decimal_digits (n : nat) : Forall (fun c => is_digit c = true) (decimal n).
Proof.
  unfold decimal. generalize (Nat.to_uint n). intros d.
  induction d; simpl; constructor; done.
Qed.

Lemma inserted_nonempty (new : option str) (k : nat) : inserted new k ≠ [].
Proof.
  unfold inserted. destruct new as [new|]; [|apply decimal_nonempty].
  intros H. apply app_eq_nil in H as [_ H]. done.
Qed.

(** The pattern character is not in the inserted text after its first
    character. *)
Lemma inserted_tail_safe (c : N) (new : option str) (k : nat) :
  is_digit c = false →
  (∀ new', new = Some new' → c ∉ tail (new' ++ [chr_underscore])) →
  c ∉ tail (inserted new k).
Proof.
  intros Hdig Hnew.
  assert (c ∉ decimal k) as Hdec.
  { intros Hin. pose proof (decimal_digits k) as Hd. rewrite Forall_forall in Hd.
    specialize (Hd c Hin). congruence. }
  unfold inserted. destruct new as [new|].
  - specialize (Hnew new eq_refl). rewrite app_assoc.
    destruct (new ++ [chr_underscore]) as [|y l] eqn:E.
    { by destruct new. }
    simpl in *. rewrite elem_of_app. tauto.
  - intros Hin. apply Hdec. destruct (decimal k); [done|]. simpl in Hin.
    by apply elem_of_cons; right.
Qed.

(** The loop passes text without the pattern character. *)
Lemma substitute_substr_skip (c : N) (new : option str) (mid pre rest : str)
    (k fuel : nat) :
  c ∉ mid →
  substitute_substr_loop (length mid + fuel) (pre ++ mid ++ rest) [c] new (length pre) k
  = substitute_substr_loop fuel ((pre ++ mid) ++ rest) [c] new (length (pre ++ mid)) k.
Proof.
  revert pre. induction mid as [|x mid IH]; intros pre Hc.
  - simpl. by rewrite app_nil_r.
  - apply not_elem_of_cons in Hc as [Hne Hc].
    cbn [length Nat.add substitute_substr_loop].
    assert ((length pre <? length (pre ++ (x :: mid) ++ rest)) = true) as ->.
    { apply Nat.ltb_lt. rewrite length_app. simpl. lia. }
    rewrite drop_app_length. cbn [app take].
    rewrite decide_False by congruence.
    specialize (IH (pre ++ [x]) Hc).
    rewrite length_app in IH. cbn [length] in IH.
    rewrite <- !app_assoc in IH. cbn [app] in IH. rewrite IH.
    rewrite !length_app. cbn [length]. rewrite <- !app_assoc. cbn [app].
    done.
Qed.

Lemma substitute_substr_from (c : N) (new : option str) (rest pre : str) (k fuel : nat) :
  is_digit c = false →
  (∀ new', new = Some new' → c ∉ tail (new' ++ [chr_underscore])) →
  length (numbered new c rest k) < fuel →
  substitute_substr_loop fuel (pre ++ rest) [c] new (length pre) k
  = Some (pre ++ numbered new c rest k).
Proof.
  intros Hdig Hnew. revert pre k fuel.
  induction rest as [|x rest IH]; intros pre k fuel Hfuel.
  - destruct fuel as [|fuel]; [simpl in Hfuel; lia|].
    cbn [substitute_substr_loop numbered]. rewrite app_nil_r.
    by rewrite Nat.ltb_irrefl.
  - destruct fuel as [|fuel]; [lia|].
    cbn [length substitute_substr_loop].
    assert ((length pre <? length (pre ++ x :: rest)) = true) as ->.
    { apply Nat.ltb_lt. rewrite length_app. simpl. lia. }
    rewrite drop_app_length. cbn [take]. cbn [numbered] in Hfuel |- *.
    destruct (decide (x = c)) as [->|Hne].
    + rewrite decide_True by done.
      rewrite take_app_length, drop_app_ge by lia.
      replace (length pre + 1 - length pre) with 1 by lia. cbn [drop].
      pose proof (inserted_tail_safe c new k Hdig Hnew) as Hsafe.
      pose proof (inserted_nonempty new k) as Hins.
      destruct (inserted new k) as [|i0 itail]; [done|]. cbn [tail] in Hsafe.
      rewrite length_app in Hfuel. cbn [length] in Hfuel.
      destruct (Nat.le_exists_sub (length itail) fuel) as (f' & -> & _); [lia|].
      rewrite (Nat.add_comm f').
      pose proof (substitute_substr_skip c new itail (pre ++ [i0]) rest (k + 1) f' Hsafe)
        as Hskip.
      rewrite length_app in Hskip. cbn [length] in Hskip.
      rewrite <- (app_assoc pre [i0]) in Hskip. cbn [app] in Hskip.
      cbn [app]. rewrite drop_0, Hskip.
      rewrite IH by lia. f_equal. by rewrite <- !app_assoc.
    + rewrite decide_False by congruence.
      specialize (IH (pre ++ [x]) k fuel). rewrite length_app in IH.
      cbn [length] in IH. rewrite <- app_assoc in IH. cbn [app] in IH.
      rewrite IH by (simpl in Hfuel; lia). f_equal. by rewrite <- app_assoc.
Qed.

Lemma substitute_substr_loop_unchanged (string old : str) (new : option str) :
  (∀ pre post, string ≠ pre ++ old ++ post) →
  ∀ fuel index k, length string - index < fuel →
    substitute_substr_loop fuel string old new index k = Some string.
Proof.
  intros Hno. induction fuel as [|fuel IH]; intros index k Hfuel; [lia|].
  cbn [substitute_substr_loop].
  destruct (index <? length string) eqn:Hlt; [|done].
  apply Nat.ltb_lt in Hlt.
  rewrite decide_False.
  - apply IH. lia.
  - intros Heq. apply (Hno (take index string) (drop (length old) (drop index string))).
    rewrite <- Heq at 1. by rewrite !take_drop.
Qed.

Lemma substitute_substr_loop_empty_pattern (new : option str) (fuel : nat) :
  ∀ (string : str) index k, index < length string →
    substitute_substr_loop fuel string [] new index k = None.
Proof.
  induction fuel as [|fuel IH]; intros string index k Hlt; [done|].
  cbn [substitute_substr_loop length take].
  assert ((index <? length string) = true) as -> by (by apply Nat.ltb_lt).
  rewrite decide_True by done.
  apply IH. rewrite !length_app, length_take, length_drop.
  pose proof (inserted_nonempty new k) as Hins.
  destruct (inserted new k); [done|]. simpl. lia.
Qed.

(** X24. A string in which the pattern does not occur, and the empty string, are
    returned as they are, after one more iteration than the string has
    characters. *)
Theorem substitute_substr_unchanged (string old : str) (new : option str) (fuel : nat) :
  string = [] ∨ (∀ pre post, string ≠ pre ++ old ++ post) →
  length string < fuel →
  substitute_substr fuel string old new = Some string.
Proof.
  intros [-> |Hno] Hfuel.
  - destruct fuel; [simpl in Hfuel; lia|]. done.
  - apply substitute_substr_loop_unchanged; [done|lia].
Qed.

Lemma substitute_substr_unchanged_witness :
  substitute_substr 4 [97; 98; 99]%N [120]%N (Some [100]%N) = Some [97; 98; 99]%N.
Proof.
  apply substitute_substr_unchanged; [|simpl; lia].
  right. intros pre post H.
  assert (120%N ∈ [97; 98; 99]%N) as Hin.
  { rewrite H. apply elem_of_app. right. apply elem_of_cons. by left. }
  rewrite !elem_of_cons, elem_of_nil in Hin. intuition discriminate.
Defined.

(** X25. With the empty pattern and a string that is not empty the loop does not
    end: every position matches and every replacement makes the string
    longer. *)
Theorem substitute_substr_empty_pattern (string : str) (new : option str) (fuel : nat) :
  string ≠ [] →
  substitute_substr fuel string [] new = None.
Proof.
  intros Hne. apply substitute_substr_loop_empty_pattern.
  destruct string; [done|]. simpl. lia.
Qed.

Lemma substitute_substr_empty_pattern_witness :
  substitute_substr 50 [97]%N [] (Some [100]%N) = None.
Proof. apply substitute_substr_empty_pattern. discriminate. Defined.

(** X26. For a pattern of one character that is not a digit and does not occur
    in [new_] after its first character, [substitute_substr] returns the
    string with the occurrences of the character replaced, from left to
    right, by [new_0], [new_1], ... (by [0], [1], ... without [new]); the
    loop ends within one more iteration than the result has characters. *)
Theorem substitute_substr_char (string : str) (c : N) (new : option str) (fuel : nat) :
  is_digit c = false →
  (∀ new', new = Some new' → c ∉ tail (new' ++ [chr_underscore])) →
  length (numbered new c string 0) < fuel →
  substitute_substr fuel string [c] new = Some (numbered new c string 0).
Proof.
  intros Hdig Hnew Hfuel.
  apply (substitute_substr_from c new string [] 0 fuel Hdig Hnew Hfuel).
Qed.

Lemma substitute_substr_char_witness :
  substitute_substr 12 [97; 32; 98; 32; 99; 32; 98]%N [98]%N (Some [100]%N)
  = Some [97; 32; 100; 95; 48; 32; 99; 32; 100; 95; 49]%N.
Proof.
  apply (substitute_substr_char [97; 32; 98; 32; 99; 32; 98]%N 98%N (Some [100]%N) 12).
  - reflexivity.
  - intros new' [= <-]. simpl. apply not_elem_of_cons. split; [done|apply not_elem_of_nil].
  - vm_compute. lia.
Defined.

(** While the pattern character lies at or after the index, and every
    inserted text holds it after its first character, it keeps lying at or
    after the index. *)
Lemma substitute_substr_loop_again (c : N) (new' : str) (fuel : nat) :
  c ∈ tail (new' ++ [chr_underscore]) →
  ∀ (string : str) index k, c ∈ drop index string →
    substitute_substr_loop fuel string [c] (Some new') index k = None.
Proof.
  intros Hc. induction fuel as [|fuel IH]; intros string index k Hin; [done|].
  cbn [substitute_substr_loop length].
  assert (index < length string) as Hlt.
  { destruct (decide (index < length string)) as [|Hge]; [done|].
    rewrite drop_ge in Hin by lia. by apply elem_of_nil in Hin. }
  assert ((index <? length string) = true) as -> by (by apply Nat.ltb_lt).
  assert (drop (index + 1) string = drop 1 (drop index string)) as Hnext.
  { by rewrite drop_drop. }
  destruct (drop index string) as [|x rest] eqn:Hdrop; [by apply elem_of_nil in Hin|].
  cbn [take]. destruct (decide (x = c)) as [->|Hne].
  - rewrite decide_True by done. apply IH.
    rewrite drop_app_ge by (rewrite length_take; lia).
    rewrite length_take.
    replace (index + 1 - index `min` length string) with 1 by lia.
    unfold inserted. rewrite (app_assoc new').
    destruct (new' ++ [chr_underscore]) as [|y l]; [by apply elem_of_nil in Hc|].
    cbn [tail] in Hc. cbn [app drop]. rewrite drop_0, !elem_of_app. by left; left.
  - rewrite decide_False by congruence. apply IH. rewrite Hnext. cbn [drop].
    apply elem_of_cons in Hin as [Heq|Hin]; [congruence|done].
Qed.

(** X27. For a pattern of one character that occurs in the string and occurs in
    [new_] after its first character, the loop of [substitute_substr] does
    not end: every replacement puts the character back after the index. *)
Theorem substitute_substr_again (string : str) (c : N) (new' : str) (fuel : nat) :
  c ∈ string →
  c ∈ tail (new' ++ [chr_underscore]) →
  substitute_substr fuel string [c] (Some new') = None.
Proof.
  intros Hin Hc. by apply substitute_substr_loop_again.
Qed.

Lemma substitute_substr_again_witness :
  substitute_substr 50 [97; 95; 98]%N [95]%N (Some [120]%N) = None.
Proof.
  apply substitute_substr_again.
  - apply elem_of_cons. right. apply elem_of_cons. by left.
  - simpl. apply elem_of_cons. by left.
Defined.
